(** * dsa-lib: array-backed priority queues

    A shallow embedding of [dsa::BinaryHeap] (heaps/binary_heap/binary_heap.hpp)
    and [dsa::IntervalHeap] (heaps/interval_heap/interval_heap.hpp), and the
    verification of their structural invariants and observable behaviour.

    Conventions of the embedding:
    - the backing [Container] is a [list T]; [_data\[i\]] is a checked read
      whose failure ([OutOfBounds]) stands for the undefined behaviour of an
      out-of-range [operator\[\]];
    - [size_t] values are integers in [0, 2^64) and every [size_t] operation
      wraps around modulo [2^64];
    - [assert] is live (the build does not define NDEBUG): a failed assertion
      ends the run with [AssertionFailure]; the build that defines NDEBUG is
      the subject of [Build], at the end;
    - [std::move] of an element is modelled as a copy: every slot that was
      moved from is overwritten before it is read again;
    - loops run on a fuel budget fixed by the size of the container; the
      theorems show that the budget is never exhausted. *)

From Stdlib Require Import ZArith Lia.
From stdpp Require Import base option list sorting.

Local Open Scope Z_scope.

Ltac Zify.zify_post_hook ::= Z.div_mod_to_equations.

(** ** Outcomes of a run *)

Inductive result (A : Type) : Type :=
| Ok (a : A)
| AssertionFailure
| OutOfBounds
| OutOfFuel.

Arguments Ok {A} a.
Arguments AssertionFailure {A}.
Arguments OutOfBounds {A}.
Arguments OutOfFuel {A}.

#[global] Instance result_ret : MRet result := @Ok.
#[global] Instance result_bind : MBind result := λ A B f m,
  match m with
  | Ok a => f a
  | AssertionFailure => AssertionFailure
  | OutOfBounds => OutOfBounds
  | OutOfFuel => OutOfFuel
  end.

(** [assert(c)] of <cassert>. *)
Definition assert (c : bool) : result unit :=
  if c then Ok tt else AssertionFailure.

(** [a && b], where evaluating [b] may read the container: [b] is only
    evaluated when [a] holds. *)
Notation "a &&& b" := (if a : bool then b else Ok false)
  (at level 40, left associativity).

(** ** Loops *)

Inductive step (S : Type) : Type :=
| Next (s : S)     (* go round again *)
| Stop (s : S).    (* leave the loop: the condition failed, or [break] *)

Arguments Next {S} s.
Arguments Stop {S} s.

Fixpoint loop {S : Type} (fuel : nat) (body : S → result (step S)) (s : S)
  : result S :=
  match fuel with
  | O => OutOfFuel
  | Datatypes.S fuel =>
      r ← body s;
      match r with
      | Next s' => loop fuel body s'
      | Stop s' => Ok s'
      end
  end.

(** [while (cond) { body }]; [body] answers [Stop] on [break]. *)
Definition while {S : Type} (fuel : nat) (cond : S → result bool)
    (body : S → result (step S)) : S → result S :=
  loop fuel (λ s, c ← cond s; if c : bool then body s else Ok (Stop s)).

(** [do { body } while (cond);] *)
Definition do_while {S : Type} (fuel : nat) (body : S → result S)
    (cond : S → result bool) : S → result S :=
  loop fuel (λ s, s' ← body s; c ← cond s';
                  Ok (if c : bool then Next s' else Stop s')).

(** ** [size_t] arithmetic *)

Definition SIZE_WIDTH : Z := 64.
Definition wrap (x : Z) : Z := x mod 2 ^ SIZE_WIDTH.

Definition size_add (a b : Z) : Z := wrap (a + b).
Definition size_sub (a b : Z) : Z := wrap (a - b).
Definition size_mul (a b : Z) : Z := wrap (a * b).

Infix "+%" := size_add (at level 50, left associativity).
Infix "-%" := size_sub (at level 50, left associativity).
Infix "*%" := size_mul (at level 40, left associativity).

(** [static_cast<long long>(x)] of a [size_t]. *)
Definition to_signed (x : Z) : Z :=
  if x <? 2 ^ (SIZE_WIDTH - 1) then x else x - 2 ^ SIZE_WIDTH.

(** The largest size a [std::vector] can have (PTRDIFF_MAX). *)
Definition MAX_SIZE : Z := 2 ^ (SIZE_WIDTH - 1) - 1.

(** ** The backing sequence *)

Section Container.
Context {T : Type}.

Definition size (d : list T) : Z := Z.of_nat (length d).

Definition empty (d : list T) : bool :=
  match d with [] => true | _ => false end.

(** The element at position [i], if there is one. *)
Definition nthZ (d : list T) (i : Z) : option T :=
  if decide (0 ≤ i < size d) then d !! Z.to_nat i else None.

(** The sequence with position [i] overwritten. *)
Definition updZ (d : list T) (i : Z) (v : T) : list T :=
  <[Z.to_nat i := v]> d.

(** [_data\[i\]] as an rvalue. *)
Definition at_ (d : list T) (i : Z) : result T :=
  match nthZ d i with
  | Some x => Ok x
  | None => OutOfBounds
  end.

(** [_data\[i\] = v]. *)
Definition store (d : list T) (i : Z) (v : T) : result (list T) :=
  if decide (0 ≤ i < size d) then Ok (updZ d i v) else OutOfBounds.

(** [std::swap(_data\[i\], _data\[j\])]. *)
Definition swap_at (d : list T) (i j : Z) : result (list T) :=
  x ← at_ d i; y ← at_ d j; d ← store d i y; store d j x.

Definition push_back (d : list T) (x : T) : list T := d ++ [x].

Definition back (d : list T) : result T := at_ d (size d - 1).

Definition pop_back (d : list T) : result (list T) :=
  match d with
  | [] => OutOfBounds
  | _ => Ok (take (Nat.pred (length d)) d)
  end.

(** The container fits what a [std::vector] can hold. *)
Definition fits (d : list T) : Prop := size d ≤ MAX_SIZE.

End Container.

(** ** The comparator *)

(** The C++ named requirement Compare: a strict weak ordering. [equiv a b]
    is "neither precedes the other". *)
Section Order.
Context {T : Type} (less : T → T → bool).

Definition equiv (a b : T) : Prop := less a b = false ∧ less b a = false.

Record StrictWeakOrder : Prop := {
  swo_irrefl : ∀ a, less a a = false;
  swo_trans : ∀ a b c, less a b = true → less b c = true → less a c = true;
  swo_equiv_trans : ∀ a b c, equiv a b → equiv b c → equiv a c
}.

(** [a] does not come after [b]. *)
Definition le (a b : T) : Prop := less b a = false.

End Order.

(** * BinaryHeap *)

Module BinaryHeap.

Section Algorithms.
Context {T : Type} (_comp : T → T → bool).

Definition ROOT : Z := 0.

Definition get_parent (idx : Z) : Z := (idx -% 1) / 2.
Definition get_left (idx : Z) : Z := 2 *% idx +% 1.

(** The loop budget: no loop of the heap runs longer than the container. *)
Definition fuel (_data : list T) : nat := Datatypes.S (length _data).

Definition bubble_up (_data : list T) (idx : Z) : result (list T) :=
  _ ← assert (ROOT <=? idx);
  _ ← assert (idx <? size _data);
  let par := get_parent idx in
  cur ← at_ _data idx;
  '(_data, idx, _) ←
    while (fuel _data)
      (λ '(_data, idx, par),
         (ROOT <? idx) &&& (p ← at_ _data par; Ok (_comp cur p)))
      (λ '(_data, idx, par),
         p ← at_ _data par;
         _data ← store _data idx p;
         let idx := par in
         let par := get_parent idx in
         Ok (Next (_data, idx, par)))
      (_data, idx, par);
  store _data idx cur.

(** The first half of both descending loops: [child] moves to the right
    sibling when that one exists and precedes the left one. *)
Definition smaller_child (_data : list T) (n child : Z) : result Z :=
  c ← (child +% 1 <? n) &&&
        (r ← at_ _data (child +% 1); l ← at_ _data child; Ok (_comp r l));
  Ok (if c : bool then (child +% 1) else child).

Definition bubble_down (_data : list T) (idx : Z) : result (list T) :=
  _ ← assert (ROOT <=? idx);
  _ ← assert (idx <? size _data);
  let n := size _data in
  cur ← at_ _data idx;
  let child := get_left idx in
  '(_data, idx, _) ←
    while (fuel _data)
      (λ '(_data, idx, child), Ok (child <? n))
      (λ '(_data, idx, child),
         child ← smaller_child _data n child;
         c ← at_ _data child;
         if _comp c cur then
           _data ← store _data idx c;
           let idx := child in
           let child := get_left idx in
           Ok (Next (_data, idx, child))
         else Ok (Stop (_data, idx, child)))
      (_data, idx, child);
  store _data idx cur.

Definition move_hole_down (_data : list T) (idx : Z) : result (list T * Z) :=
  _ ← assert (ROOT <=? idx);
  _ ← assert (idx <? size _data);
  let child := get_left idx in
  let n := size _data in
  '(_data, idx, _) ←
    while (fuel _data)
      (λ '(_data, idx, child), Ok (child <? n))
      (λ '(_data, idx, child),
         child ← smaller_child _data n child;
         c ← at_ _data child;
         _data ← store _data idx c;
         let idx := child in
         let child := get_left idx in
         Ok (Next (_data, idx, child)))
      (_data, idx, child);
  Ok (_data, idx).

(** [for (long long i = static_cast<long long>(size) / 2 - 1; i >= 0; i--)]:
    [i] is a signed 64-bit integer (its division truncates) and is converted
    back to [size_t] at the call. *)
Definition heapify (_data : list T) : result (list T) :=
  '(_data, _) ←
    while (fuel _data)
      (λ '(_data, i), Ok (0 <=? i))
      (λ '(_data, i),
         _data ← bubble_down _data (wrap i);
         Ok (Next (_data, i - 1)))
      (_data, to_signed (size _data) ÷ 2 - 1);
  Ok _data.

(** *** Public members *)

(** The members [empty()] and [size()] forward to the container; they are
    declared at the end of the section, and [assert(!empty())] is written
    with the container's [empty] they stand for. *)


Definition top (_data : list T) : result T :=
  _ ← assert (negb (empty _data));
  at_ _data ROOT.

Definition min (_data : list T) : result T := top _data.

Definition push (_data : list T) (elem : T) : result (list T) :=
  let _data := push_back _data elem in
  bubble_up _data (size _data -% 1).

(** [emplace(args...)] builds the element in place from [args] and then does
    what [push] does; the embedding takes the element already built. *)
Definition emplace (_data : list T) (elem : T) : result (list T) :=
  let _data := push_back _data elem in
  bubble_up _data (size _data -% 1).

Definition pop (_data : list T) : result (list T) :=
  _ ← assert (negb (empty _data));
  '(_data, idx) ← move_hole_down _data ROOT;
  if (idx +% 1) =? size _data then
    pop_back _data
  else
    x ← back _data;
    _data ← store _data idx x;
    _data ← pop_back _data;
    bubble_up _data idx.

Definition replace_top (_data : list T) (val : T) : result (list T) :=
  _ ← assert (negb (empty _data));
  _data ← store _data ROOT val;
  bubble_down _data ROOT.

Definition replace_min (_data : list T) (val : T) : result (list T) :=
  replace_top _data val.

(** The two constructors that take a container: copy or move it in, then
    [heapify]. *)
Definition construct (cont : list T) : result (list T) := heapify cont.

(** [empty()] and [size()]: [_data.empty()] and [_data.size()]. *)
Definition empty (_data : list T) : bool :=
  match _data with [] => true | _ => false end.

Definition size (_data : list T) : Z := Z.of_nat (length _data).

End Algorithms.

(** A heap object: the comparator and the container it owns. *)
Record t (T : Type) : Type := Heap {
  _comp : T → T → bool;
  _data : list T
}.
Arguments Heap {T} _ _.
Arguments _comp {T} _.
Arguments _data {T} _.

(** [swap(lhs, rhs)]: both members are exchanged. *)
Definition swap {T : Type} (lhs rhs : t T) : t T * t T := (rhs, lhs).

(** [a = std::move(b)] (and the move constructor): the implicitly defined
    member-wise move; the moved-from vector is left empty.  Returns the new
    [a] and what is left of [b]. *)
Definition move {T : Type} (b : t T) : t T * t T :=
  (b, Heap (_comp b) []).

End BinaryHeap.

(** * IntervalHeap *)

Module IntervalHeap.

Section Algorithms.
Context {T : Type} (_comp : T → T → bool).

Definition ROOT : Z := 0.

Definition get_parent (idx : Z) : Z := (idx -% 2) / 4 *% 2.
Definition get_left (idx : Z) : Z := (idx +% 1) *% 2.
Definition is_min (idx : Z) : bool := idx mod 2 =? 0.
Definition is_max (idx : Z) : bool := idx mod 2 =? 1.

Definition fuel (_data : list T) : nat := Datatypes.S (length _data).

Definition balance_node (_data : list T) (idx : Z) : result (list T) :=
  hi ← at_ _data (idx +% 1);
  lo ← at_ _data idx;
  if _comp hi lo then swap_at _data (idx +% 1) idx else Ok _data.

Definition balance_node_check (_data : list T) (idx : Z) : result (list T) :=
  if (idx +% 1 <? size _data) then balance_node _data idx else Ok _data.

Definition bubble_up (_data : list T) (idx : Z) : result (list T) :=
  _ ← assert (idx <? size _data);
  _ ← assert (ROOT <=? idx);
  cur ← at_ _data idx;
  (* Fix the interval in the current node *)
  c ← is_max idx &&& (lo ← at_ _data (idx -% 1); Ok (_comp cur lo));
  '(_data, idx) ←
    (if c : bool then
       lo ← at_ _data (idx -% 1);
       _data ← store _data idx lo;
       Ok (_data, (idx -% 1))
     else Ok (_data, idx));
  let par := get_parent idx in
  c ← (ROOT +% 1 <? idx) &&& (p ← at_ _data par; Ok (_comp cur p));
  '(_data, idx) ←
    (if c : bool then
       (* cur is lower than the parent min: insert into the min heap *)
       '(_data, idx, _) ←
         do_while (fuel _data)
           (λ '(_data, idx, par),
              p ← at_ _data par;
              _data ← store _data idx p;
              let idx := par in
              let par := get_parent idx in
              Ok (_data, idx, par))
           (λ '(_data, idx, par),
              (ROOT +% 1 <? idx) &&& (p ← at_ _data par; Ok (_comp cur p)))
           (_data, idx, par);
       Ok (_data, idx)
     else
       c ← (ROOT +% 1 <? idx) &&&
             (p ← at_ _data (par +% 1); Ok (_comp p cur));
       if c : bool then
         (* cur is higher than the parent max: insert into the max heap *)
         let par := (par +% 1) in
         '(_data, idx, _) ←
           do_while (fuel _data)
             (λ '(_data, idx, par),
                p ← at_ _data par;
                _data ← store _data idx p;
                let idx := par in
                let par := (get_parent idx +% 1) in
                Ok (_data, idx, par))
             (λ '(_data, idx, par),
                (ROOT +% 1 <? idx) &&& (p ← at_ _data par; Ok (_comp p cur)))
             (_data, idx, par);
         Ok (_data, idx)
       else Ok (_data, idx));
  store _data idx cur.

Definition bubble_down_min (_data : list T) (idx : Z) : result (list T) :=
  _ ← assert (idx <? size _data);
  _ ← assert (is_min idx);
  _ ← assert (ROOT <=? idx);
  let child := get_left idx in
  let n := size _data in
  '(_data, _, _) ←
    while (fuel _data)
      (λ '(_data, idx, child), Ok (child <? n))
      (λ '(_data, idx, child),
         (* choose the smaller child, consider only min values *)
         c ← (child +% 2 <? n) &&&
               (r ← at_ _data (child +% 2); l ← at_ _data child;
                Ok (_comp r l));
         let child := if c : bool then (child +% 2) else child in
         (* if child is smaller, swap and continue *)
         x ← at_ _data child;
         y ← at_ _data idx;
         if _comp x y then
           _data ← swap_at _data idx child;
           (* if node interval property is not satisfied, swap them *)
           c ← (child +% 1 <? n) &&&
                 (hi ← at_ _data (child +% 1); lo ← at_ _data child;
                  Ok (_comp hi lo));
           _data ← (if c : bool then swap_at _data (child +% 1) child
                    else Ok _data);
           let idx := child in
           let child := get_left idx in
           Ok (Next (_data, idx, child))
         else Ok (Stop (_data, idx, child)))
      (_data, idx, child);
  Ok _data.

Definition bubble_down_max (_data : list T) (idx : Z) : result (list T) :=
  _ ← assert (is_max idx);
  _ ← assert (ROOT <=? idx);
  _ ← assert (idx <? size _data);
  let idx := (idx -% 1) in
  let child := get_left idx in
  let n := size _data in
  '(_data, idx, _) ←
    while (fuel _data)
      (λ '(_data, idx, child), Ok (child <? n))
      (λ '(_data, idx, child),
         (* a node that consists only of a min value can still supply it
            as the max value of the current node *)
         let child1 := if (child +% 1 <? n) then (child +% 1) else child in
         let child2 :=
           if (child +% 3 <? n) then (child +% 3) else (child +% 2) in
         (* choose the bigger child, consider only max values *)
         c ← (child2 <? n) &&&
               (a ← at_ _data child1; b ← at_ _data child2; Ok (_comp a b));
         let '(child, child1) :=
           if c : bool then ((child +% 2), child2) else (child, child1) in
         (* if the child is bigger, swap them *)
         x ← at_ _data (idx +% 1);
         y ← at_ _data child1;
         if _comp x y then
           _data ← swap_at _data (idx +% 1) child1;
           (* if node interval property is not satisfied, swap them *)
           c ← is_max child1 &&&
                 (hi ← at_ _data child1; lo ← at_ _data (child1 -% 1);
                  Ok (_comp hi lo));
           _data ← (if c : bool then swap_at _data child1 (child1 -% 1)
                    else Ok _data);
           let idx := child in
           let child := get_left idx in
           Ok (Next (_data, idx, child))
         else Ok (Stop (_data, idx, child)))
      (_data, idx, child);
  (* check interval property again *)
  c ← (idx +% 1 <? n) &&&
        (hi ← at_ _data (idx +% 1); lo ← at_ _data idx; Ok (_comp hi lo));
  if c : bool then swap_at _data idx (idx +% 1) else Ok _data.

(** The second loop runs on [long long i = (size - 1) / 4 * 2], stepping
    [i -= 2] while [i >= 0]; [i] and [i + 1] are converted back to [size_t]
    at the calls. *)
Definition heapify (_data : list T) : result (list T) :=
  if size _data <=? 2 then
    c ← (size _data =? 2) &&&
          (hi ← at_ _data 1; lo ← at_ _data 0; Ok (_comp hi lo));
    if c : bool then swap_at _data 1 0 else Ok _data
  else
    '(_data, _) ←
      while (fuel _data)
        (λ '(_data, i), Ok (i <? size _data -% 1))
        (λ '(_data, i),
           _data ← balance_node _data i;
           Ok (Next (_data, (i +% 2))))
        (_data, 0);
    (* bubble down all internal nodes *)
    '(_data, _) ←
      while (fuel _data)
        (λ '(_data, i), Ok (0 <=? i))
        (λ '(_data, i),
           _data ← bubble_down_max _data (wrap (i + 1));
           _data ← bubble_down_min _data (wrap i);
           Ok (Next (_data, i - 2)))
        (_data, to_signed ((size _data -% 1) / 4 *% 2));
    Ok _data.

(** *** Public members *)

(** The members [empty()] and [size()] forward to the container; they are
    declared at the end of the section, and [assert(!empty())] is written
    with the container's [empty] they stand for. *)


Definition min (_data : list T) : result T :=
  _ ← assert (negb (empty _data));
  at_ _data ROOT.

Definition max (_data : list T) : result T :=
  _ ← assert (negb (empty _data));
  if 1 <? size _data then at_ _data (ROOT +% 1) else at_ _data ROOT.

Definition push (_data : list T) (elem : T) : result (list T) :=
  let _data := push_back _data elem in
  bubble_up _data (size _data -% 1).

(** [emplace(args...)] with the element already built from [args]. *)
Definition emplace (_data : list T) (elem : T) : result (list T) :=
  let _data := push_back _data elem in
  bubble_up _data (size _data -% 1).

Definition pop_min (_data : list T) : result (list T) :=
  _ ← assert (negb (empty _data));
  let n := size _data in
  if n =? 1 then pop_back _data
  else
    let idx := ROOT in
    _data ←
      (if negb (n mod 2 =? 0) then
         x ← at_ _data (n -% 1);
         store _data idx x
       else
         x ← at_ _data (n -% 2);
         _data ← store _data idx x;
         y ← at_ _data (n -% 1);
         store _data (n -% 2) y);
    _data ← pop_back _data;
    bubble_down_min _data idx.

Definition pop_max (_data : list T) : result (list T) :=
  _ ← assert (negb (empty _data));
  let n := size _data in
  if n =? 1 then pop_back _data
  else
    let idx := (ROOT +% 1) in
    x ← at_ _data (n -% 1);
    _data ← store _data idx x;
    _data ← pop_back _data;
    if 2 <? n then bubble_down_max _data idx else Ok _data.

Definition replace_min (_data : list T) (val : T) : result (list T) :=
  _ ← assert (negb (empty _data));
  let idx := ROOT in
  _data ← store _data idx val;
  _data ← balance_node_check _data idx;
  bubble_down_min _data idx.

Definition replace_max (_data : list T) (val : T) : result (list T) :=
  _ ← assert (negb (empty _data));
  if size _data =? 1 then store _data ROOT val
  else
    _data ← store _data (ROOT +% 1) val;
    _data ← balance_node _data ROOT;
    bubble_down_max _data (ROOT +% 1).

Definition construct (cont : list T) : result (list T) := heapify cont.

(** [empty()] and [size()]: [_data.empty()] and [_data.size()]. *)
Definition empty (_data : list T) : bool :=
  match _data with [] => true | _ => false end.

Definition size (_data : list T) : Z := Z.of_nat (length _data).

End Algorithms.

Record t (T : Type) : Type := Heap {
  _comp : T → T → bool;
  _data : list T
}.
Arguments Heap {T} _ _.
Arguments _comp {T} _.
Arguments _data {T} _.

Definition swap {T : Type} (lhs rhs : t T) : t T * t T := (rhs, lhs).

Definition move {T : Type} (b : t T) : t T * t T :=
  (b, Heap (_comp b) []).

End IntervalHeap.

(** * Basic facts *)

(** ** Outcomes and loops *)

Lemma assert_true (c : bool) : c = true → assert c = Ok tt.
Proof. by intros ->. Qed.

Lemma assert_false (c : bool) : c = false → assert c = AssertionFailure.
Proof. by intros ->. Qed.

(** The loop rule: an invariant [Inv] with a measure [m] that drops at every
    round leads to [Post] within the budget. *)
Lemma loop_rule {S : Type} (Inv Post : S → Prop) (m : S → Z)
    (body : S → result (step S)) :
  (∀ s, Inv s →
     0 ≤ m s ∧
     ((∃ s', body s = Ok (Next s') ∧ Inv s' ∧ m s' < m s) ∨
      (∃ s', body s = Ok (Stop s') ∧ Post s'))) →
  ∀ fuel s, Inv s → m s < Z.of_nat fuel →
    ∃ s', loop fuel body s = Ok s' ∧ Post s'.
Proof.
  intros Hstep fuel. induction fuel as [|fuel IH]; intros s HI Hm.
  - destruct (Hstep s HI) as [? _]. lia.
  - destruct (Hstep s HI) as [Hm0 [(s' & Hb & HI' & Hlt)|(s' & Hb & HP)]];
      simpl; rewrite Hb; simpl.
    + apply IH; [done | lia].
    + eauto.
Qed.

(** ** [size_t] arithmetic below the wrap *)

Lemma wrap_small x : 0 ≤ x < 2 ^ SIZE_WIDTH → wrap x = x.
Proof. intros H. unfold wrap. by apply Z.mod_small. Qed.

Lemma size_add_small a b : 0 ≤ a + b < 2 ^ SIZE_WIDTH → a +% b = a + b.
Proof. apply wrap_small. Qed.

Lemma size_sub_small a b : 0 ≤ a - b < 2 ^ SIZE_WIDTH → a -% b = a - b.
Proof. apply wrap_small. Qed.

Lemma size_mul_small a b : 0 ≤ a * b < 2 ^ SIZE_WIDTH → a *% b = a * b.
Proof. apply wrap_small. Qed.

Lemma width_value : 2 ^ SIZE_WIDTH = 18446744073709551616.
Proof. reflexivity. Qed.

Lemma max_size_value : MAX_SIZE = 9223372036854775807.
Proof. reflexivity. Qed.

Lemma to_signed_small x : 0 ≤ x ≤ MAX_SIZE → to_signed x = x.
Proof.
  intros H. unfold to_signed. rewrite max_size_value in H.
  change (2 ^ (SIZE_WIDTH - 1)) with 9223372036854775808.
  destruct (Z.ltb_spec x 9223372036854775808); [done | lia].
Qed.

(** ** Reading and writing the sequence *)

Section ContainerFacts.
Context {T : Type}.
Implicit Types (d : list T) (i j : Z) (x v : T).

Lemma size_nonneg d : 0 ≤ size d.
Proof. unfold size. lia. Qed.

Lemma size_nil : size (@nil T) = 0.
Proof. done. Qed.

Lemma size_updZ d i v : size (updZ d i v) = size d.
Proof. unfold size, updZ. by rewrite length_insert. Qed.

Lemma size_push_back d x : size (push_back d x) = size d + 1.
Proof. unfold size, push_back. rewrite length_app. simpl. lia. Qed.

Lemma empty_false d : 0 < size d → empty d = false.
Proof. destruct d; [rewrite size_nil; lia | done]. Qed.

Lemma empty_true d : size d = 0 → empty d = true.
Proof. destruct d; [done | unfold size; simpl; lia]. Qed.

Lemma empty_iff_size d : empty d = true ↔ size d = 0.
Proof. destruct d; unfold size; simpl; split; (done || lia). Qed.

Lemma nthZ_Some_lt d i x : nthZ d i = Some x → 0 ≤ i < size d.
Proof. unfold nthZ. by case_decide. Qed.

Lemma nthZ_is_Some d i : 0 ≤ i < size d → ∃ x, nthZ d i = Some x.
Proof.
  intros H. unfold nthZ. rewrite decide_True by done.
  apply lookup_lt_is_Some. unfold size in H. lia.
Qed.

Lemma nthZ_None d i : ¬ (0 ≤ i < size d) → nthZ d i = None.
Proof. intros H. unfold nthZ. by rewrite decide_False. Qed.

Lemma nthZ_updZ d i v j :
  0 ≤ i < size d →
  nthZ (updZ d i v) j = if decide (j = i) then Some v else nthZ d j.
Proof.
  intros H. unfold nthZ. rewrite size_updZ. unfold updZ.
  case_decide as Hj.
  - case_decide as Hji.
    + subst j. apply list_lookup_insert_eq. unfold size in H. lia.
    + apply list_lookup_insert_ne. lia.
  - case_decide; [subst; lia | done].
Qed.

Lemma nthZ_updZ_eq d i v : 0 ≤ i < size d → nthZ (updZ d i v) i = Some v.
Proof. intros H. rewrite nthZ_updZ by done. by rewrite decide_True. Qed.

Lemma nthZ_updZ_ne d i v j :
  0 ≤ i → j ≠ i → nthZ (updZ d i v) j = nthZ d j.
Proof.
  intros Hi Hji. unfold nthZ. rewrite size_updZ. unfold updZ.
  case_decide; [|done]. apply list_lookup_insert_ne. lia.
Qed.

Lemma updZ_id d i x : nthZ d i = Some x → updZ d i x = d.
Proof.
  unfold nthZ, updZ. case_decide; [|done]. apply list_insert_id.
Qed.

Lemma nthZ_push_back d x i :
  nthZ (push_back d x) i =
    if decide (i = size d) then Some x else nthZ d i.
Proof.
  unfold nthZ. rewrite size_push_back. unfold push_back, size.
  repeat case_decide; try lia; try done.
  - subst i. rewrite Nat2Z.id. apply list_lookup_middle. done.
  - apply lookup_app_l. lia.
Qed.

Lemma at_ok d i x : nthZ d i = Some x → at_ d i = Ok x.
Proof. unfold at_. by intros ->. Qed.

Lemma at_inv d i x : at_ d i = Ok x → nthZ d i = Some x.
Proof. unfold at_. destruct (nthZ d i); naive_solver. Qed.

Lemma at_out d i : ¬ (0 ≤ i < size d) → at_ d i = OutOfBounds.
Proof. intros H. unfold at_. by rewrite nthZ_None. Qed.

Lemma store_ok d i v : 0 ≤ i < size d → store d i v = Ok (updZ d i v).
Proof. intros H. unfold store. by rewrite decide_True. Qed.

Lemma pop_back_ok d :
  0 < size d → pop_back d = Ok (take (Z.to_nat (size d - 1)) d).
Proof.
  destruct d as [|a d]; [rewrite size_nil; lia|]. intros _.
  unfold pop_back, size. do 2 f_equal. simpl length. lia.
Qed.

Lemma size_take_last d : 0 < size d → size (take (Z.to_nat (size d - 1)) d) = size d - 1.
Proof. intros H. unfold size in *. rewrite length_take. lia. Qed.

Lemma nthZ_take_last d i :
  nthZ (take (Z.to_nat (size d - 1)) d) i =
    if decide (i < size d - 1) then nthZ d i else None.
Proof.
  unfold nthZ, size. rewrite length_take.
  repeat case_decide; try lia; try done.
  apply lookup_take_lt. lia.
Qed.

End ContainerFacts.

Lemma while_rule {S : Type} (Inv Post : S → Prop) (m : S → Z)
    (cond : S → result bool) (body : S → result (step S)) :
  (∀ s, Inv s →
     0 ≤ m s ∧
     ∃ c, cond s = Ok c ∧
       if c : bool then
         (∃ s', body s = Ok (Next s') ∧ Inv s' ∧ m s' < m s) ∨
         (∃ s', body s = Ok (Stop s') ∧ Post s')
       else Post s) →
  ∀ fuel s, Inv s → m s < Z.of_nat fuel →
    ∃ s', while fuel cond body s = Ok s' ∧ Post s'.
Proof.
  intros Hstep. unfold while. apply loop_rule.
  intros s HI. destruct (Hstep s HI) as (Hm & c & -> & Hc). split; [done|].
  simpl. destruct c; [done|]. right. eauto.
Qed.

Lemma do_while_rule {S : Type} (Inv Post : S → Prop) (m : S → Z)
    (body : S → result S) (cond : S → result bool) :
  (∀ s, Inv s →
     0 ≤ m s ∧
     ∃ s', body s = Ok s' ∧
       ∃ c, cond s' = Ok c ∧
         if c : bool then Inv s' ∧ m s' < m s else Post s') →
  ∀ fuel s, Inv s → m s < Z.of_nat fuel →
    ∃ s', do_while fuel body cond s = Ok s' ∧ Post s'.
Proof.
  intros Hstep. unfold do_while. apply loop_rule.
  intros s HI. destruct (Hstep s HI) as (Hm & s' & -> & c & Hc & H).
  split; [done|]. simpl. rewrite Hc. simpl. destruct c.
  - left. destruct H. eauto.
  - right. eauto.
Qed.

(** ** Rearrangements *)

Section PermFacts.
Context {T : Type}.
Implicit Types (d : list T) (i j : Z) (x y : T).

Lemma insert_replace_perm (l : list T) (n : nat) x y :
  l !! n = Some x → x :: <[n:=y]> l ≡ₚ y :: l.
Proof.
  revert n. induction l as [|a l IH]; intros [|n] H; simplify_eq/=.
  - apply Permutation_swap.
  - rewrite (Permutation_swap a x), (Permutation_swap a y).
    by rewrite IH.
Qed.

Lemma updZ_replace_perm d i x y :
  nthZ d i = Some x → x :: updZ d i y ≡ₚ y :: d.
Proof.
  unfold nthZ, updZ. case_decide; [|done]. apply insert_replace_perm.
Qed.

Lemma updZ_updZ_eq d i x y : updZ (updZ d i x) i y = updZ d i y.
Proof. unfold updZ. apply list_insert_insert_eq. Qed.

(** Exchanging two positions rearranges the sequence. *)
Lemma updZ_swap_perm d i j x y :
  nthZ d i = Some x → nthZ d j = Some y →
  updZ (updZ d i y) j x ≡ₚ d.
Proof.
  intros Hi Hj. destruct (decide (j = i)) as [->|Hne].
  - assert (y = x) as -> by congruence.
    by rewrite updZ_updZ_eq, (updZ_id _ _ _ Hi).
  - pose proof (nthZ_Some_lt _ _ _ Hi).
    assert (nthZ (updZ d i y) j = Some y) as H1
      by (by rewrite nthZ_updZ_ne by lia).
    apply (Permutation_cons_inv (a:=y)).
    rewrite (updZ_replace_perm _ _ _ x H1).
    by apply updZ_replace_perm.
Qed.

Lemma swap_at_ok d i j x y :
  nthZ d i = Some x → nthZ d j = Some y →
  swap_at d i j = Ok (updZ (updZ d i y) j x).
Proof.
  intros Hi Hj. unfold swap_at.
  rewrite (at_ok _ _ _ Hi), (at_ok _ _ _ Hj). simpl.
  apply nthZ_Some_lt in Hi, Hj.
  rewrite store_ok by done. simpl. apply store_ok. by rewrite size_updZ.
Qed.

(** Dropping the last slot, when another slot holds the same value. *)
Lemma take_last_perm d x :
  nthZ d (size d - 1) = Some x →
  x :: take (Z.to_nat (size d - 1)) d ≡ₚ d.
Proof.
  intros H. pose proof (nthZ_Some_lt _ _ _ H) as Hr.
  unfold nthZ in H. rewrite decide_True in H by done.
  pose proof (take_drop_middle d _ x H) as E.
  rewrite (drop_ge d) in E by (unfold size in *; lia).
  rewrite Permutation_cons_append. by rewrite E.
Qed.

End PermFacts.

(** ** The comparator as a total preorder *)

Section OrderFacts.
Context {T : Type} (less : T → T → bool) (Hswo : StrictWeakOrder less).
Implicit Types a b c : T.

Lemma less_asym a b : less a b = true → less b a = false.
Proof.
  intros H. destruct (less b a) eqn:E; [|done].
  pose proof (swo_trans _ Hswo _ _ _ H E) as H1.
  by rewrite (swo_irrefl _ Hswo) in H1.
Qed.

Lemma le_refl a : le less a a.
Proof. apply (swo_irrefl _ Hswo). Qed.

Lemma lt_le a b : less a b = true → le less a b.
Proof. apply less_asym. Qed.

Lemma le_total a b : le less a b ∨ le less b a.
Proof.
  unfold le. destruct (less b a) eqn:E; [|by left].
  right. by apply less_asym.
Qed.

Lemma le_trans a b c : le less a b → le less b c → le less a c.
Proof.
  unfold le. intros Hab Hbc. destruct (less c a) eqn:E; [|done].
  destruct (less a b) eqn:E1.
  { by rewrite (swo_trans _ Hswo _ _ _ E E1) in Hbc. }
  destruct (less b c) eqn:E2.
  { by rewrite (swo_trans _ Hswo _ _ _ E2 E) in Hab. }
  assert (equiv less a c) as [_ H].
  { apply (swo_equiv_trans _ Hswo a b c); by split. }
  congruence.
Qed.

Lemma not_less_le a b : less a b = false → le less b a.
Proof. done. Qed.

End OrderFacts.

Section LookupInversion.
Context {T : Type}.
Implicit Types (d : list T) (i j : Z) (x v : T).

Lemma nthZ_updZ_inv d i v j x :
  0 ≤ i < size d → nthZ (updZ d i v) j = Some x →
  (j = i ∧ v = x) ∨ (j ≠ i ∧ nthZ d j = Some x).
Proof.
  intros Hi. rewrite nthZ_updZ by done.
  case_decide; intros E; [left; split; congruence | by right].
Qed.

Lemma nthZ_push_back_inv d v j x :
  nthZ (push_back d v) j = Some x →
  (j = size d ∧ v = x) ∨ (j ≠ size d ∧ nthZ d j = Some x).
Proof.
  rewrite nthZ_push_back.
  case_decide; intros E; [left; split; congruence | by right].
Qed.

Lemma nthZ_take_last_inv d j x :
  nthZ (take (Z.to_nat (size d - 1)) d) j = Some x →
  j < size d - 1 ∧ nthZ d j = Some x.
Proof. rewrite nthZ_take_last. by case_decide. Qed.

Lemma nthZ_take_inv d (k : Z) j x :
  nthZ (take (Z.to_nat k) d) j = Some x → j < k ∧ nthZ d j = Some x.
Proof.
  unfold nthZ, size. rewrite length_take.
  repeat case_decide; try done; try lia.
  intros Hx. split; [lia|]. rewrite lookup_take_lt in Hx by lia. done.
Qed.

Lemma nthZ_functional d i j x y :
  i = j → nthZ d i = Some x → nthZ d j = Some y → x = y.
Proof. intros ->. congruence. Qed.

End LookupInversion.

(** * Order between slots *)

Section Ordered.
Context {T : Type} (less : T → T → bool).
Implicit Types (d : list T) (cur : T).

(** Whenever [R i j] holds, slot [i] does not come after slot [j]. *)
Definition ordered (R : Z → Z → Prop) (d : list T) : Prop :=
  ∀ i j x y, R i j → nthZ d i = Some x → nthZ d j = Some y → le less x y.

(** [cur] does not come after the slots selected by [R]. *)
Definition lower (cur : T) (R : Z → Prop) (d : list T) : Prop :=
  ∀ j y, R j → nthZ d j = Some y → le less cur y.

(** [cur] does not come before the slots selected by [R]. *)
Definition upper (cur : T) (R : Z → Prop) (d : list T) : Prop :=
  ∀ j y, R j → nthZ d j = Some y → le less y cur.

End Ordered.

(** Proof automation: [lookups] reduces reads of an updated sequence to
    reads of the original one; [saturate] instantiates the order facts in
    the context at every pair of known slots; [order] closes a goal
    [le less a b] by a chain of known facts. *)

Ltac size_side := rewrite ?size_updZ, ?size_push_back in *; lia.

Ltac lookup_step :=
  match goal with
  | H : nthZ (updZ ?d ?i ?v) ?j = Some ?x |- _ =>
      let E := fresh "E" in
      apply nthZ_updZ_inv in H; [ | size_side ];
      destruct H as [[E H]|[E H]]; [ try subst x; try subst j | ]
  | H : nthZ (push_back ?d ?v) ?j = Some ?x |- _ =>
      let E := fresh "E" in
      apply nthZ_push_back_inv in H;
      destruct H as [[E H]|[E H]]; [ try subst x; try subst j | ]
  | H : nthZ (take (Z.to_nat ?k) ?d) ?j = Some ?x |- _ =>
      let E := fresh "E" in
      apply nthZ_take_inv in H; destruct H as [E H]
  end.

(** Every known slot lies inside its sequence. *)
Ltac ranges :=
  repeat match goal with
  | H : nthZ ?d ?i = Some _ |- _ =>
      lazymatch goal with
      | _ : 0 ≤ i < size d |- _ => fail
      | _ => pose proof (nthZ_Some_lt _ _ _ H)
      end
  end.

Ltac lookups :=
  repeat lookup_step; rewrite ?size_updZ, ?size_push_back in *; ranges.

(** Runs the [while] loop of the goal through [while_rule]: leaves the step
    obligation, the invariant at entry, the bound on the budget, and the
    goal after the loop. *)
Ltac run_do_while Inv Post m s' HP :=
  match goal with
  | |- context [do_while ?f ?b ?c ?s] =>
      let Hw := fresh "Hw" in
      destruct (λ Hstep, do_while_rule Inv Post m b c Hstep f s)
        as (s' & Hw & HP); [ | | | rewrite Hw; clear Hw ]
  end.

Ltac run_while Inv Post m s' HP :=
  match goal with
  | |- context [while ?f ?c ?b ?s] =>
      let Hw := fresh "Hw" in
      destruct (λ Hstep, while_rule Inv Post m c b Hstep f s)
        as (s' & Hw & HP); [ | | | rewrite Hw; clear Hw ]
  end.

Ltac gather_lookups acc :=
  match goal with
  | H : nthZ _ _ = Some _ |- _ =>
      lazymatch acc with
      | context [H] => fail
      | _ => gather_lookups constr:((H, acc))
      end
  | _ => acc
  end.

Ltac use_ordered less H1 H2 :=
  lazymatch type of H1 with
  | nthZ ?d ?i = Some ?x =>
      lazymatch type of H2 with
      | nthZ d ?j = Some ?y =>
          repeat match goal with
          | Ho : ordered less ?R d |- _ =>
              lazymatch goal with
              | _ : le less x y |- _ => fail
              | _ => idtac
              end;
              assert (le less x y)
                by (apply (Ho i j x y); [cbn beta; lia | exact H1 | exact H2])
          end
      | _ => idtac
      end
  end.

Ltac use_bound less H1 :=
  lazymatch type of H1 with
  | nthZ ?d ?i = Some ?x =>
      repeat match goal with
      | Ho : lower less ?c ?R d |- _ =>
          lazymatch goal with
          | _ : le less c x |- _ => fail
          | _ => idtac
          end;
          assert (le less c x) by (apply (Ho i x); [cbn beta; lia | exact H1])
      | Ho : upper less ?c ?R d |- _ =>
          lazymatch goal with
          | _ : le less x c |- _ => fail
          | _ => idtac
          end;
          assert (le less x c) by (apply (Ho i x); [cbn beta; lia | exact H1])
      end
  end.

Ltac merge_slots H1 H2 :=
  lazymatch type of H1 with
  | nthZ ?d ?i = Some ?x =>
      lazymatch type of H2 with
      | nthZ d ?j = Some ?y =>
          first
            [ constr_eq x y
            | let E := fresh "E" in
              assert (E : x = y)
                by (apply (nthZ_functional d i j x y);
                    [lia | exact H1 | exact H2]);
              first [subst y | subst x]
            | idtac ]
      | _ => idtac
      end
  end.

Ltac merge_inner H1 l :=
  lazymatch l with
  | (?H2, ?rest) => merge_slots H1 H2; merge_inner H1 rest
  | _ => idtac
  end.

Ltac merge_outer l :=
  lazymatch l with
  | (?H1, ?rest) => merge_inner H1 rest; merge_outer rest
  | _ => idtac
  end.

Ltac sat_inner less H1 l :=
  lazymatch l with
  | (?H2, ?rest) => use_ordered less H1 H2; sat_inner less H1 rest
  | _ => idtac
  end.

Ltac sat_outer less all l :=
  lazymatch l with
  | (?H1, ?rest) => use_bound less H1; sat_inner less H1 all; sat_outer less all rest
  | _ => idtac
  end.

(** Two reads of one slot give one value. *)
Ltac same_slot :=
  repeat match goal with
  | H1 : nthZ ?d ?i = Some ?x, H2 : nthZ ?d ?i = Some ?y |- _ =>
      assert (y = x) by congruence; first [subst y | subst x]; clear H2
  end.

Ltac comparisons less :=
  repeat match goal with
  | H : less ?a ?b = true |- _ =>
      lazymatch goal with
      | _ : le less a b |- _ => fail
      | _ => idtac
      end;
      lazymatch goal with
      | Hs : StrictWeakOrder less |- _ =>
          assert (le less a b) by exact (lt_le less Hs a b H)
      end
  | H : less ?a ?b = false |- _ => change (le less b a) in H
  end.

Ltac saturate less :=
  same_slot;
  let l := gather_lookups tt in
  merge_outer l; comparisons less; sat_outer less l l.

Ltac chain less n :=
  first
    [ assumption
    | lazymatch goal with
      | Hs : StrictWeakOrder less |- le less ?a ?a => exact (le_refl less Hs a)
      end
    | lazymatch n with
      | S ?n' =>
          match goal with
          | Hs : StrictWeakOrder less, H : le less ?a ?b |- le less ?a ?c =>
              apply (le_trans less Hs a b c H); chain less n'
          end
      end ].

(** [le less x y] for the values of two known slots: they are one slot, or
    an order fact of the context relates them. *)
Ltac direct less H1 H2 :=
  lazymatch type of H1 with
  | nthZ ?d ?i = Some ?x =>
      lazymatch type of H2 with
      | nthZ d ?j = Some ?y =>
          first
            [ match goal with
              | Ho : ordered less ?R d |- _ =>
                  apply (Ho i j x y); [cbn beta; lia | exact H1 | exact H2]
              end
            | lazymatch goal with
              | Hs : StrictWeakOrder less |- _ =>
                  replace y with x
                    by (apply (nthZ_functional d i j x y);
                        [lia | exact H1 | exact H2]);
                  exact (le_refl less Hs x)
              end ]
      end
  end.

Ltac trans_with less k F G :=
  lazymatch goal with
  | Hs : StrictWeakOrder less |- le less ?a ?b =>
      exact (le_trans less Hs a k b F G)
  end.

(** Closes [le less a b]: by a chain of known facts, or by such a chain
    with one step at either end taken from the order facts over the
    sequence. *)
Ltac order less :=
  lazymatch goal with
  | |- less ?b ?a = false => change (le less a b)
  | |- le less _ _ => idtac
  end;
  same_slot; comparisons less;
  first
    [ chain less 4%nat
    | lazymatch goal with
      | |- le less ?a ?b =>
          match goal with
          | Hb : nthZ ?d ?j = Some b, Hk : nthZ ?d ?i = Some ?k |- _ =>
              let F := fresh "F" in
              let G := fresh "G" in
              assert (F : le less a k) by chain less 3%nat;
              assert (G : le less k b) by direct less Hk Hb;
              trans_with less k F G
          | Hb : nthZ ?d ?j = Some b, Ho : lower less ?k ?R ?d |- _ =>
              let F := fresh "F" in
              let G := fresh "G" in
              assert (F : le less a k) by chain less 3%nat;
              assert (G : le less k b)
                by (apply (Ho j b); [cbn beta; lia | exact Hb]);
              trans_with less k F G
          | Ha : nthZ ?d ?i = Some a, Hk : nthZ ?d ?j = Some ?k |- _ =>
              let F := fresh "F" in
              let G := fresh "G" in
              assert (G : le less k b) by chain less 3%nat;
              assert (F : le less a k) by direct less Ha Hk;
              trans_with less k F G
          | Ha : nthZ ?d ?i = Some a, Ho : upper less ?k ?R ?d |- _ =>
              let F := fresh "F" in
              let G := fresh "G" in
              assert (G : le less k b) by chain less 3%nat;
              assert (F : le less a k)
                by (apply (Ho i a); [cbn beta; lia | exact Ha]);
              trans_with less k F G
          | Ha : nthZ ?d ?i = Some a, Hk : nthZ ?d ?i' = Some ?k,
            Hb : nthZ ?d ?j = Some b |- _ =>
              let F := fresh "F" in
              let G := fresh "G" in
              assert (F : le less a k) by direct less Ha Hk;
              assert (G : le less k b) by direct less Hk Hb;
              trans_with less k F G
          | Ha : nthZ ?d ?i = Some a, Hk : nthZ ?d ?i' = Some ?k,
            Hb : nthZ ?d' ?j = Some b, Hk' : nthZ ?d' ?j' = Some ?k' |- _ =>
              let F := fresh "F" in
              let G := fresh "G" in
              let M := fresh "M" in
              let N := fresh "N" in
              assert (M : le less k k') by chain less 3%nat;
              assert (F : le less a k) by direct less Ha Hk;
              assert (G : le less k' b) by direct less Hk' Hb;
              assert (N : le less k b) by trans_with less k' M G;
              trans_with less k F N
          end
      end ].

(** The standard treatment of an order fact over an updated sequence. *)
Ltac settle less :=
  unfold ordered, lower, upper; intros;
  lookups; try lia; order less.

Ltac split_hyps :=
  repeat match goal with
  | H : _ ∧ _ |- _ => destruct H
  | H : _ ∨ _ |- _ => destruct H
  end.

(** [settle], with a case analysis on the disjunctions of the context. *)
Ltac settle_cases less :=
  unfold ordered, lower, upper; intros; split_hyps;
  lookups; try lia; order less.

(** Proves a read of an updated sequence. *)
Ltac rd :=
  rewrite ?nthZ_updZ by size_side;
  repeat (case_decide; try lia); try done.

(** * BinaryHeap: the heap order *)

Section BinaryHeapOrder.
Context {T : Type} (less : T → T → bool).
Implicit Types (d : list T) (i idx : Z).

(** The invariant of BinaryHeap: [!less(data\[i\], data\[(i-1)/2\])] for
    every index [i >= 1]. *)
Definition bh_inv (d : list T) : Prop :=
  ∀ i x p, 1 ≤ i →
    nthZ d i = Some x → nthZ d ((i - 1) / 2) = Some p → less x p = false.

(** [p] is the parent of [c] in the implicit tree. *)
Abbreviation bh_edge p c := (1 ≤ c ∧ p = (c - 1) / 2).

(** All edges below position [k] are in order: the heap order of the
    subtrees rooted at [k], [k+1], ... *)
Definition bh_from (k : Z) : list T → Prop :=
  ordered less (λ p c, bh_edge p c ∧ k ≤ p).

(** A hole at [idx] that is about to receive [cur] on its way up. *)
Definition bh_rising (cur : T) (d : list T) (idx : Z) : Prop :=
  ordered less (λ p c, bh_edge p c ∧ c ≠ idx ∧ p ≠ idx) d ∧
  lower less cur (λ c, bh_edge idx c) d ∧
  ordered less (λ p c, bh_edge p idx ∧ bh_edge idx c) d.

(** A hole at [idx], inside the subtrees below [k], that [cur] is sinking
    through. *)
Definition bh_sinking (k : Z) (cur : T) (d : list T) (idx : Z) : Prop :=
  ordered less (λ p c, bh_edge p c ∧ k ≤ p ∧ c ≠ idx ∧ p ≠ idx) d ∧
  upper less cur (λ p, bh_edge p idx ∧ k ≤ p) d ∧
  ordered less (λ p c, bh_edge p idx ∧ bh_edge idx c ∧ k ≤ p) d.

(** A hole at [idx] on its way down to a leaf. *)
Definition bh_hole (d : list T) (idx : Z) : Prop :=
  ordered less (λ p c, bh_edge p c ∧ c ≠ idx ∧ p ≠ idx) d ∧
  ordered less (λ p c, bh_edge p idx ∧ bh_edge idx c) d.

End BinaryHeapOrder.

Abbreviation bh_edge p c := (1 ≤ c ∧ p = (c - 1) / 2).

Section BinaryHeapFacts.
Context {T : Type} (less : T → T → bool) (Hswo : StrictWeakOrder less).
Implicit Types (d : list T) (i idx : Z) (cur : T).

Lemma bh_inv_from d : bh_inv less d ↔ bh_from less 0 d.
Proof.
  unfold bh_inv, bh_from, ordered. split.
  - intros H p c y x [[Hc ->] _] Hy Hx. by apply (H c).
  - intros H c x p Hc Hx Hp. apply (H ((c - 1) / 2) c p x); [lia|done..].
Qed.

Lemma bh_get_parent_pos idx :
  1 ≤ idx < 2 ^ SIZE_WIDTH → BinaryHeap.get_parent idx = (idx - 1) / 2.
Proof.
  intros H. unfold BinaryHeap.get_parent. by rewrite size_sub_small by lia.
Qed.

Lemma bh_get_left_small idx :
  0 ≤ idx ≤ MAX_SIZE → BinaryHeap.get_left idx = 2 * idx + 1.
Proof.
  rewrite max_size_value. intros H. unfold BinaryHeap.get_left.
  rewrite size_mul_small by (rewrite width_value; lia).
  by rewrite size_add_small by (rewrite width_value; lia).
Qed.

(** *** bubble_up *)

Lemma bh_bubble_up_loop d0 cur fuel d idx :
  size d0 < 2 ^ SIZE_WIDTH →
  size d = size d0 →
  0 ≤ idx < size d →
  bh_rising less cur d idx →
  updZ d idx cur ≡ₚ d0 →
  idx < Z.of_nat fuel →
  ∃ d' idx' par',
    while fuel
      (λ '(_data, idx, par),
         (BinaryHeap.ROOT <? idx) &&& (p ← at_ _data par; Ok (less cur p)))
      (λ '(_data, idx, par),
         p ← at_ _data par;
         _data ← store _data idx p;
         let idx := par in
         let par := BinaryHeap.get_parent idx in
         Ok (Next (_data, idx, par)))
      (d, idx, BinaryHeap.get_parent idx) = Ok (d', idx', par') ∧
    0 ≤ idx' < size d' ∧ size d' = size d0 ∧
    bh_from less 0 (updZ d' idx' cur) ∧ updZ d' idx' cur ≡ₚ d0.
Proof.
  intros Hd0 Hsz Hidx Hr Hp Hf.
  set (Inv := λ s : list T * Z * Z,
    let '(d, idx, par) := s in
    par = BinaryHeap.get_parent idx ∧ size d = size d0 ∧ 0 ≤ idx < size d ∧
    bh_rising less cur d idx ∧ updZ d idx cur ≡ₚ d0).
  set (Post := λ s : list T * Z * Z,
    let '(d, idx, par) := s in
    0 ≤ idx < size d ∧ size d = size d0 ∧
    bh_from less 0 (updZ d idx cur) ∧ updZ d idx cur ≡ₚ d0).
  edestruct (while_rule Inv Post (λ s, s.1.2)) as ([[d' idx'] par'] & Hw & HP);
    [ | | | eexists _, _, _; split; [exact Hw|]; exact HP ]; [|done|done].
  clear dependent d. clear idx Hf.
  intros [[d idx] par] (-> & Hsz & Hidx & (Ha & Hb & Hc) & Hperm). simpl.
  split; [lia|].
  assert (Hexit : upper less cur (λ p, bh_edge p idx) d →
     bh_from less 0 (updZ d idx cur)).
  { intros Hle i j x y HR Hi Hj.
    lookups; try lia; saturate less; order less. }
  unfold BinaryHeap.ROOT. destruct (Z.ltb_spec 0 idx) as [Hpos|Hz].
  - rewrite bh_get_parent_pos by lia.
    destruct (nthZ_is_Some d ((idx - 1) / 2)) as [p Hpar]; [lia|].
    rewrite (at_ok _ _ _ Hpar). simpl.
    eexists; split; [done|]. destruct (less cur p) eqn:Hlt.
    + left. rewrite store_ok by done. simpl. eexists; split; [done|].
      split; [|simpl; lia]. split; [done|]. rewrite size_updZ.
      split; [done|]. split; [lia|]. split.
      * (* the hole has moved to the parent *)
       
        split; [|split].
        -- intros i j x y HR Hi Hj.
           lookups; try lia; saturate less; order less.
        -- intros j y HR Hj.
           lookups; try lia; saturate less; order less.
        -- intros i j x y HR Hi Hj.
           lookups; try lia; saturate less; order less.
      * (* what the filled sequence holds *)
        rewrite <- Hperm.
        rewrite <- (updZ_updZ_eq d idx cur p).
        apply updZ_swap_perm.
        -- by apply nthZ_updZ_eq.
        -- rewrite nthZ_updZ_ne by lia. done.
    + simpl.
      split; [done|]. split; [done|]. split; [|done].
      apply Hexit. intros j y HR Hj.
      saturate less; order less.
  - eexists; split; [done|]. simpl.
    split; [done|]. split; [done|]. split; [|done].
    apply Hexit. intros j y HR Hj. lia.
Qed.

Lemma bh_bubble_up_spec d idx cur :
  size d < 2 ^ SIZE_WIDTH →
  nthZ d idx = Some cur →
  bh_rising less cur d idx →
  ∃ d', BinaryHeap.bubble_up less d idx = Ok d' ∧
        bh_from less 0 d' ∧ d' ≡ₚ d ∧ size d' = size d.
Proof.
  intros Hd Hcur Hr. pose proof (nthZ_Some_lt _ _ _ Hcur) as Hidx.
  unfold BinaryHeap.bubble_up, BinaryHeap.ROOT.
  rewrite (assert_true (0 <=? idx)) by lia. simpl.
  rewrite (assert_true (idx <? size d)) by lia. simpl.
  rewrite (at_ok _ _ _ Hcur). simpl.
  destruct (bh_bubble_up_loop d cur (BinaryHeap.fuel d) d idx)
    as (d' & idx' & par' & Hw & Hi' & Hsz & Hinv & Hperm); try done.
  { by rewrite (updZ_id _ _ _ Hcur). }
  { unfold BinaryHeap.fuel, size in *. lia. }
  unfold BinaryHeap.ROOT in Hw. rewrite Hw. simpl.
  rewrite store_ok by done. eexists; split; [done|].
  by rewrite size_updZ.
Qed.

(** *** push *)

Lemma bh_push_spec d x :
  size d < MAX_SIZE →
  bh_from less 0 d →
  ∃ d', BinaryHeap.push less d x = Ok d' ∧
        bh_from less 0 d' ∧ d' ≡ₚ x :: d ∧ size d' = size d + 1.
Proof.
  rewrite max_size_value. intros Hd Hinv. unfold BinaryHeap.push.
  unfold bh_from in Hinv.
  pose proof (size_nonneg d).
  rewrite size_push_back, size_sub_small by (rewrite width_value; lia).
  destruct (bh_bubble_up_spec (push_back d x) (size d + 1 - 1) x)
    as (d' & Hb & Hinv' & Hperm & Hsz).
  - rewrite size_push_back, width_value. lia.
  - rewrite nthZ_push_back. rewrite decide_True by lia. done.
  - split; [|split].
    + intros i j a b HR Hi Hj. lookups; try lia; saturate less; order less.
    + intros j y HR Hj. lookups; lia.
    + intros i j a b HR Hi Hj. lookups; lia.
  - eexists; split; [done|]. split; [done|].
    rewrite size_push_back in Hsz. split; [|done].
    rewrite Hperm. unfold push_back. by rewrite Permutation_app_comm.
Qed.

(** *** bubble_down *)

Lemma bh_smaller_child_spec d child :
  size d ≤ MAX_SIZE → 0 ≤ child < size d →
  ∃ c x, BinaryHeap.smaller_child less d (size d) child = Ok c ∧
    nthZ d c = Some x ∧ (c = child ∨ c = child + 1) ∧
    lower less x (λ j, j = child ∨ j = child + 1) d.
Proof.
  rewrite max_size_value. intros Hd Hc. unfold BinaryHeap.smaller_child.
  rewrite size_add_small by (rewrite width_value; lia).
  destruct (nthZ_is_Some d child) as [l Hl]; [done|].
  destruct (Z.ltb_spec (child + 1) (size d)) as [Hlt|Hge].
  - destruct (nthZ_is_Some d (child + 1)) as [r Hr]; [lia|].
    rewrite (at_ok _ _ _ Hr), (at_ok _ _ _ Hl). simpl.
    destruct (less r l) eqn:E; simpl.
    + exists (child + 1), r. split; [done|]. split; [done|]. split; [lia|].
      intros j y [?|?] Hj; saturate less; order less.
    + exists child, l. split; [done|]. split; [done|]. split; [lia|].
      intros j y [?|?] Hj; saturate less; order less.
  - simpl. exists child, l. split; [done|]. split; [done|]. split; [lia|].
    intros j y [?|?] Hj; ranges; try lia; saturate less; order less.
Qed.

Lemma bh_bubble_down_spec k d idx cur :
  size d ≤ MAX_SIZE →
  nthZ d idx = Some cur →
  k ≤ idx →
  bh_sinking less k cur d idx →
  ∃ d', BinaryHeap.bubble_down less d idx = Ok d' ∧
        bh_from less k d' ∧ d' ≡ₚ d ∧ size d' = size d.
Proof.
  intros Hd Hcur Hk Hs. pose proof (nthZ_Some_lt _ _ _ Hcur) as Hidx.
  pose proof Hd as Hd'. rewrite max_size_value in Hd'.
  unfold BinaryHeap.bubble_down, BinaryHeap.ROOT.
  rewrite (assert_true (0 <=? idx)) by lia. simpl.
  rewrite (assert_true (idx <? size d)) by lia. simpl.
  rewrite (at_ok _ _ _ Hcur). simpl.
  set (Inv := λ s : list T * Z * Z,
    let '(d1, idx, child) := s in
    child = BinaryHeap.get_left idx ∧ size d1 = size d ∧
    k ≤ idx ∧ 0 ≤ idx < size d ∧
    bh_sinking less k cur d1 idx ∧ updZ d1 idx cur ≡ₚ d).
  set (Post := λ s : list T * Z * Z,
    let '(d1, idx, child) := s in
    size d1 = size d ∧ 0 ≤ idx < size d ∧
    bh_from less k (updZ d1 idx cur) ∧ updZ d1 idx cur ≡ₚ d).
  run_while Inv Post (λ s : list T * Z * Z, size d - s.1.2) s' HP.
  - clear dependent idx.
    intros [[d1 idx] child] (-> & Hsz & Hk & Hidx & (Ha & Hb & Hc) & Hperm).
    simpl. split; [lia|].
    rewrite bh_get_left_small by lia.
    eexists; split; [done|].
    destruct (Z.ltb_spec (2 * idx + 1) (size d)) as [Hlt|Hge].
    + rewrite <- Hsz.
      destruct (bh_smaller_child_spec d1 (2 * idx + 1)) as
        (c & x & -> & Hx & Hcc & Hlow); [lia..|]. simpl.
      rewrite (at_ok _ _ _ Hx). simpl. ranges.
      destruct (less x cur) eqn:E.
      * left. rewrite store_ok by lia. simpl. eexists; split; [done|].
        split; [|simpl; lia]. split; [done|]. rewrite size_updZ.
        split; [done|]. split; [lia|]. split; [lia|]. split.
        -- split; [|split].
           ++ intros i j a b HR Hi Hj.
              lookups; try lia; saturate less; order less.
           ++ intros j y HR Hj.
              lookups; try lia; saturate less; order less.
           ++ intros i j a b HR Hi Hj.
              lookups; try lia; saturate less; order less.
        -- rewrite <- Hperm.
           rewrite <- (updZ_updZ_eq d1 idx cur x).
           apply updZ_swap_perm.
           ++ apply nthZ_updZ_eq. lia.
           ++ rewrite nthZ_updZ_ne by lia. done.
      * right. eexists; split; [done|]. simpl.
        split; [done|]. split; [done|]. split; [|done].
        intros i j a b HR Hi Hj.
        lookups; try lia; saturate less; order less.
    + simpl. split; [done|]. split; [done|]. split; [|done].
      intros i j a b HR Hi Hj.
      lookups; try lia; saturate less; order less.
  - simpl. repeat split; try done; try lia.
    + apply Hs.
    + apply Hs.
    + apply Hs.
    + by rewrite (updZ_id _ _ _ Hcur).
  - simpl. unfold BinaryHeap.fuel, size in *. lia.
  - destruct s' as [[d1 idx1] child1]. destruct HP as (Hsz & Hi1 & Hinv & Hperm).
    simpl. rewrite store_ok by lia. eexists; split; [done|].
    by rewrite size_updZ.
Qed.

(** *** heapify *)

Lemma bh_heapify_spec d :
  size d ≤ MAX_SIZE →
  ∃ d', BinaryHeap.heapify less d = Ok d' ∧
        bh_from less 0 d' ∧ d' ≡ₚ d ∧ size d' = size d.
Proof.
  intros Hd. pose proof Hd as Hd'. rewrite max_size_value in Hd'.
  pose proof (size_nonneg d) as Hn.
  unfold BinaryHeap.heapify.
  rewrite to_signed_small by lia. rewrite Z.quot_div_nonneg by lia.
  set (Inv := λ s : list T * Z,
    let '(d1, i) := s in
    size d1 = size d ∧ -1 ≤ i < size d ∧ bh_from less (i + 1) d1 ∧ d1 ≡ₚ d).
  set (Post := λ s : list T * Z,
    let '(d1, i) := s in
    size d1 = size d ∧ bh_from less 0 d1 ∧ d1 ≡ₚ d).
  run_while Inv Post (λ s : list T * Z, s.2 + 1) s' HP.
  - intros [d1 i] (Hsz & Hi & Hinv & Hperm). simpl. split; [lia|].
    eexists; split; [done|]. unfold bh_from in *.
    destruct (Z.leb_spec 0 i) as [Hpos|Hneg].
    + left. rewrite wrap_small by (rewrite width_value; lia).
      destruct (nthZ_is_Some d1 i) as [cur Hcur]; [lia|].
      destruct (bh_bubble_down_spec i d1 i cur) as (d2 & -> & Hinv2 & Hp2 & Hsz2);
        [lia|done|lia| |].
      { split; [|split].
        - intros p c a b HR Hp Hc. saturate less; order less.
        - intros p y HR Hp. lia.
        - intros p c a b HR Hp Hc. lia. }
      simpl. eexists; split; [done|]. split; [|simpl; lia].
      split; [lia|]. split; [lia|]. split.
      * by replace (i - 1 + 1) with i by lia.
      * by rewrite Hp2.
    + split; [done|]. split; [|done].
      by replace 0 with (i + 1) by lia.
  - simpl. split; [done|]. split; [lia|]. split; [|done].
    intros p c a b HR Hp Hc. ranges. lia.
  - simpl. unfold BinaryHeap.fuel, size in *. lia.
  - destruct s' as [d1 i]. destruct HP as (Hsz & Hinv & Hperm). simpl.
    eauto.
Qed.

(** *** move_hole_down and pop *)

Lemma bh_move_hole_down_spec d x0 :
  size d ≤ MAX_SIZE →
  nthZ d 0 = Some x0 →
  bh_from less 0 d →
  ∃ d' idx, BinaryHeap.move_hole_down less d BinaryHeap.ROOT = Ok (d', idx) ∧
    size d' = size d ∧ 0 ≤ idx < size d ∧ size d ≤ 2 * idx + 1 ∧
    bh_hole less d' idx ∧ updZ d' idx x0 ≡ₚ d.
Proof.
  intros Hd Hx0 Hinv. pose proof (nthZ_Some_lt _ _ _ Hx0) as Hidx.
  pose proof Hd as Hd'. rewrite max_size_value in Hd'.
  unfold BinaryHeap.move_hole_down, BinaryHeap.ROOT.
  rewrite (assert_true (0 <=? 0)) by lia. simpl.
  rewrite (assert_true (0 <? size d)) by lia. simpl.
  set (Inv := λ s : list T * Z * Z,
    let '(d1, idx, child) := s in
    child = BinaryHeap.get_left idx ∧ size d1 = size d ∧ 0 ≤ idx < size d ∧
    bh_hole less d1 idx ∧ updZ d1 idx x0 ≡ₚ d).
  set (Post := λ s : list T * Z * Z,
    let '(d1, idx, child) := s in
    size d1 = size d ∧ 0 ≤ idx < size d ∧ size d ≤ 2 * idx + 1 ∧
    bh_hole less d1 idx ∧ updZ d1 idx x0 ≡ₚ d).
  run_while Inv Post (λ s : list T * Z * Z, size d - s.1.2) s' HP.
  - intros [[d1 idx] child] (-> & Hsz & Hidx' & (Ha & Hc) & Hperm).
    simpl. split; [lia|].
    rewrite bh_get_left_small by lia.
    eexists; split; [done|].
    destruct (Z.ltb_spec (2 * idx + 1) (size d)) as [Hlt|Hge].
    + rewrite <- Hsz.
      destruct (bh_smaller_child_spec d1 (2 * idx + 1)) as
        (c & x & -> & Hx & Hcc & Hlow); [lia..|]. simpl.
      rewrite (at_ok _ _ _ Hx). simpl. ranges.
      left. rewrite store_ok by lia. simpl. eexists; split; [done|].
      split; [|simpl; lia]. split; [done|]. rewrite size_updZ.
      split; [done|]. split; [lia|]. split.
      * split.
        -- intros i j a b HR Hi Hj.
           lookups; try lia; saturate less; order less.
        -- intros i j a b HR Hi Hj.
           lookups; try lia; saturate less; order less.
      * rewrite <- Hperm.
        rewrite <- (updZ_updZ_eq d1 idx x0 x).
        apply updZ_swap_perm.
        -- apply nthZ_updZ_eq. lia.
        -- rewrite nthZ_updZ_ne by lia. done.
    + simpl. done.
  - simpl. split; [done|]. split; [done|]. split; [lia|]. split.
    + unfold bh_from in Hinv. split.
      * intros i j a b HR Hi Hj. saturate less; order less.
      * intros i j a b HR Hi Hj. lia.
    + by rewrite (updZ_id _ _ _ Hx0).
  - simpl. unfold BinaryHeap.fuel, size in *. lia.
  - destruct s' as [[d1 idx1] child1]. simpl. eauto.
Qed.

Lemma bh_pop_spec d x0 :
  size d ≤ MAX_SIZE →
  nthZ d 0 = Some x0 →
  bh_from less 0 d →
  ∃ d', BinaryHeap.pop less d = Ok d' ∧
        bh_from less 0 d' ∧ x0 :: d' ≡ₚ d ∧ size d' = size d - 1.
Proof.
  intros Hd Hx0 Hinv. pose proof (nthZ_Some_lt _ _ _ Hx0) as Hn.
  pose proof Hd as Hd'. rewrite max_size_value in Hd'.
  unfold BinaryHeap.pop. rewrite empty_false by lia. simpl.
  destruct (bh_move_hole_down_spec d x0) as
    (d1 & idx & -> & Hsz & Hidx & Hleaf & (Ha & Hc) & Hperm); [done..|].
  simpl. rewrite size_add_small by (rewrite width_value; lia). rewrite Hsz.
  destruct (nthZ_is_Some d1 idx) as [g Hg]; [lia|].
  pose proof (updZ_replace_perm _ _ _ x0 Hg) as Hrep. rewrite Hperm in Hrep.
  destruct (Z.eqb_spec (idx + 1) (size d)) as [Hlast|Hnl].
  - rewrite pop_back_ok by lia. eexists; split; [done|].
    rewrite size_take_last by lia. split; [|split; [|lia]].
    + intros i j a b HR Hi Hj. lookups. saturate less; order less.
    + apply (Permutation_cons_inv (a:=g)).
      rewrite Hrep, Permutation_swap. f_equiv. apply take_last_perm.
      by replace (size d1 - 1) with idx by lia.
  - unfold back. destruct (nthZ_is_Some d1 (size d1 - 1)) as [x Hx]; [lia|].
    rewrite (at_ok _ _ _ Hx). simpl. rewrite store_ok by lia. simpl.
    assert (size (updZ d1 idx x) = size d) as Hsz2 by (by rewrite size_updZ).
    rewrite pop_back_ok by lia. simpl.
    set (d3 := take (Z.to_nat (size (updZ d1 idx x) - 1)) (updZ d1 idx x)).
    assert (size d3 = size d - 1) as Hsz3.
    { unfold d3. rewrite size_take_last by lia. lia. }
    assert (x :: d3 ≡ₚ updZ d1 idx x) as Hp3.
    { apply take_last_perm. rewrite nthZ_updZ_ne by lia.
      by rewrite size_updZ. }
    destruct (bh_bubble_up_spec d3 idx x) as (d4 & -> & Hinv4 & Hp4 & Hsz4).
    + rewrite width_value. lia.
    + unfold d3. rewrite nthZ_take_last, decide_True by lia.
      apply nthZ_updZ_eq. lia.
    + unfold d3. split; [|split].
      * intros i j a b HR Hi Hj. lookups; try lia. saturate less; order less.
      * intros j y HR Hj. lookups; lia.
      * intros i j a b HR Hi Hj. lookups; lia.
    + eexists; split; [done|]. split; [done|]. split; [|lia].
      rewrite Hp4. apply (Permutation_cons_inv (a:=x)).
      rewrite Permutation_swap, Hp3.
      apply (Permutation_cons_inv (a:=g)).
      rewrite Permutation_swap. rewrite (updZ_replace_perm _ _ _ x Hg).
      rewrite (Permutation_swap x x0), (Permutation_swap x g).
      f_equiv. by symmetry.
Qed.

(** *** replace_top *)

Lemma bh_replace_top_spec d x0 val :
  size d ≤ MAX_SIZE →
  nthZ d 0 = Some x0 →
  bh_from less 0 d →
  ∃ d', BinaryHeap.replace_top less d val = Ok d' ∧
        bh_from less 0 d' ∧ x0 :: d' ≡ₚ val :: d ∧ size d' = size d.
Proof.
  intros Hd Hx0 Hinv. pose proof (nthZ_Some_lt _ _ _ Hx0) as Hn.
  unfold BinaryHeap.replace_top, BinaryHeap.ROOT.
  rewrite empty_false by lia. simpl. rewrite store_ok by done. simpl.
  destruct (bh_bubble_down_spec 0 (updZ d 0 val) 0 val)
    as (d' & -> & Hinv' & Hperm & Hsz).
  - by rewrite size_updZ.
  - by apply nthZ_updZ_eq.
  - done.
  - unfold bh_from in Hinv. split; [|split].
    + intros i j a b HR Hi Hj. lookups; try lia. saturate less; order less.
    + intros j y HR Hj. lia.
    + intros i j a b HR Hi Hj. lia.
  - eexists; split; [done|]. split; [done|]. rewrite size_updZ in Hsz.
    split; [|done]. rewrite Hperm. by apply updZ_replace_perm.
Qed.

(** *** The root is a minimum *)

Lemma bh_root_least d m :
  bh_from less 0 d → nthZ d 0 = Some m →
  ∀ i x, nthZ d i = Some x → le less m x.
Proof.
  intros Hinv Hm i. unfold bh_from in Hinv.
  assert (H : ∀ n : nat, ∀ i x, 0 ≤ i ≤ Z.of_nat n → nthZ d i = Some x → le less m x).
  { clear i. intros n. induction n as [|n IH]; intros i x Hi Hx.
    - saturate less. order less.
    - destruct (decide (i = 0)) as [->|Hne]; [saturate less; order less|].
      ranges. destruct (nthZ_is_Some d ((i - 1) / 2)) as [p Hp]; [lia|].
      assert (le less m p) by (apply (IH ((i - 1) / 2)); [lia|done]).
      saturate less. order less. }
  intros x Hx. ranges. apply (H (Z.to_nat i) i); [lia|done].
Qed.

End BinaryHeapFacts.

(** * IntervalHeap: the interval order *)

(** Slot [p] is the min slot of the parent node of the node of min slot
    [c]. *)
Abbreviation ih_min_edge p c :=
  (c mod 2 = 0 ∧ 2 ≤ c ∧ p = (c - 2) / 4 * 2)%Z.

(** Slot [c] holds the largest value of its node (its max slot, or the min
    slot of a trailing node that has no max slot, in a sequence of [n]
    slots) and [q] is the max slot of the parent node. *)
Abbreviation ih_max_edge n c q :=
  (2 ≤ c ∧ q = (c - 2) / 4 * 2 + 1 ∧ (c mod 2 = 1 ∨ c = n - 1))%Z.

(** Slots [i] and [j] are the min and max slot of one node. *)
Abbreviation ih_node i j := (i mod 2 = 0 ∧ j = i + 1)%Z.

Section IntervalHeapOrder.
Context {T : Type} (less : T → T → bool).
Implicit Types (d : list T) (i idx k : Z).

(** The invariant of IntervalHeap, node by node: node [k] occupies the
    slots [2k] and [2k+1] and its parent is node [(k-1)/2]. *)
Definition ih_inv (d : list T) : Prop :=
  (* interval property of the full nodes *)
  (∀ k lo hi, nthZ d (2 * k) = Some lo → nthZ d (2 * k + 1) = Some hi →
     less hi lo = false) ∧
  (* the min slots form a min-heap *)
  (∀ k x p, 1 ≤ k →
     nthZ d (2 * k) = Some x → nthZ d (2 * ((k - 1) / 2)) = Some p →
     less x p = false) ∧
  (* the max slots form a max-heap *)
  (∀ k x p, 1 ≤ k →
     nthZ d (2 * k + 1) = Some x → nthZ d (2 * ((k - 1) / 2) + 1) = Some p →
     less p x = false) ∧
  (* a trailing node without a max slot lies under its parent's max *)
  (∀ k x p, 1 ≤ k → 2 * k = size d - 1 →
     nthZ d (2 * k) = Some x → nthZ d (2 * ((k - 1) / 2) + 1) = Some p →
     less p x = false).

Definition ih_intervals : list T → Prop :=
  ordered less (λ i j, ih_node i j).

(** The min-heap order of the edges whose parent slot is [k] or later. *)
Definition ih_min_from (k : Z) : list T → Prop :=
  ordered less (λ p c, ih_min_edge p c ∧ k ≤ p).

(** The max-heap order of the edges whose parent slot is [k] or later. *)
Definition ih_max_from (k : Z) (d : list T) : Prop :=
  ordered less (λ c q, ih_max_edge (size d) c q ∧ k ≤ q) d.

(** The working form of the invariant. *)
Definition ih_heap (d : list T) : Prop :=
  ih_intervals d ∧ ih_min_from 0 d ∧ ih_max_from 0 d.

End IntervalHeapOrder.

Section IntervalHeapFacts.
Context {T : Type} (less : T → T → bool) (Hswo : StrictWeakOrder less).
Implicit Types (d : list T) (i idx k : Z) (cur : T).

Lemma ih_inv_heap d : ih_inv less d ↔ ih_heap less d.
Proof.
  unfold ih_inv, ih_heap, ih_intervals, ih_min_from, ih_max_from, ordered.
  split.
  - intros (H1 & H2 & H3 & H4). split; [|split].
    + intros i j x y [Hi ->] Hx Hy.
      apply (H1 (i / 2)).
      * by replace (2 * (i / 2)) with i by lia.
      * by replace (2 * (i / 2) + 1) with (i + 1) by lia.
    + intros p c x y [(Hc & Hc2 & ->) _] Hx Hy.
      apply (H2 (c / 2)); [lia| |].
      * by replace (2 * (c / 2)) with c by lia.
      * by replace (2 * ((c / 2 - 1) / 2)) with ((c - 2) / 4 * 2) by lia.
    + intros c q x y [(Hc & -> & Hcase) _] Hx Hy.
      destruct (decide (c mod 2 = 1)) as [Hodd|Heven].
      * apply (H3 (c / 2)); [lia| |].
        -- by replace (2 * (c / 2) + 1) with c by lia.
        -- by replace (2 * ((c / 2 - 1) / 2) + 1)
             with ((c - 2) / 4 * 2 + 1) by lia.
      * apply (H4 (c / 2)); [lia|lia| |].
        -- by replace (2 * (c / 2)) with c by lia.
        -- by replace (2 * ((c / 2 - 1) / 2) + 1)
             with ((c - 2) / 4 * 2 + 1) by lia.
  - intros (H1 & H2 & H3). split; [|split; [|split]].
    + intros k lo hi Hlo Hhi. apply (H1 (2 * k) (2 * k + 1)); [lia|done..].
    + intros k x p Hk Hx Hp.
      apply (H2 (2 * ((k - 1) / 2)) (2 * k)); [lia|done..].
    + intros k x p Hk Hx Hp.
      apply (H3 (2 * k + 1) (2 * ((k - 1) / 2) + 1)); [lia|done..].
    + intros k x p Hk Hlast Hx Hp.
      apply (H3 (2 * k) (2 * ((k - 1) / 2) + 1)); [lia|done..].
Qed.

Lemma ih_get_parent_pos idx :
  2 ≤ idx < 2 ^ SIZE_WIDTH → IntervalHeap.get_parent idx = (idx - 2) / 4 * 2.
Proof.
  rewrite width_value. intros H. unfold IntervalHeap.get_parent.
  rewrite size_sub_small by (rewrite width_value; lia).
  by rewrite size_mul_small by (rewrite width_value; lia).
Qed.

Lemma ih_get_left_small idx :
  0 ≤ idx < MAX_SIZE → IntervalHeap.get_left idx = (idx + 1) * 2.
Proof.
  rewrite max_size_value. intros H. unfold IntervalHeap.get_left.
  rewrite size_add_small by (rewrite width_value; lia).
  by rewrite size_mul_small by (rewrite width_value; lia).
Qed.


End IntervalHeapFacts.

Section IntervalHeapDown.
Context {T : Type} (less : T → T → bool) (Hswo : StrictWeakOrder less).
Implicit Types (d : list T) (i idx k : Z) (cur : T).

(** *** bubble_down_min *)

Lemma ih_bubble_down_min_spec k d idx :
  size d ≤ MAX_SIZE →
  0 ≤ idx < size d → idx mod 2 = 0 → k ≤ idx →
  ih_intervals less d →
  ih_max_from less k d →
  ordered less (λ p c, ih_min_edge p c ∧ k ≤ p ∧ p ≠ idx) d →
  ordered less (λ p c, ih_min_edge p idx ∧ ih_min_edge idx c ∧ k ≤ p) d →
  ∃ d', IntervalHeap.bubble_down_min less d idx = Ok d' ∧
        ih_intervals less d' ∧ ih_max_from less k d' ∧
        ih_min_from less k d' ∧ d' ≡ₚ d ∧ size d' = size d.
Proof.
  intros Hd Hidx Heven Hk Hint Hmax Hmin Hgrand.
  pose proof Hd as Hd'. rewrite max_size_value in Hd'.
  unfold IntervalHeap.bubble_down_min, IntervalHeap.ROOT, IntervalHeap.is_min.
  rewrite (assert_true (idx <? size d)) by lia. simpl.
  rewrite (assert_true (idx mod 2 =? 0)) by lia. simpl.
  rewrite (assert_true (0 <=? idx)) by lia. simpl.
  unfold ih_intervals, ih_max_from, ih_min_from in *.
  set (n := size d) in *.
  set (Inv := λ s : list T * Z * Z,
    let '(d1, idx, child) := s in
    child = IntervalHeap.get_left idx ∧ size d1 = n ∧
    0 ≤ idx < n ∧ idx mod 2 = 0 ∧ k ≤ idx ∧
    ordered less (λ i j, ih_node i j) d1 ∧
    ordered less (λ c q, ih_max_edge n c q ∧ k ≤ q) d1 ∧
    ordered less (λ p c, ih_min_edge p c ∧ k ≤ p ∧ p ≠ idx) d1 ∧
    ordered less (λ p c, ih_min_edge p idx ∧ ih_min_edge idx c ∧ k ≤ p) d1 ∧
    d1 ≡ₚ d).
  set (Post := λ s : list T * Z * Z,
    let '(d1, idx, child) := s in
    size d1 = n ∧
    ordered less (λ i j, ih_node i j) d1 ∧
    ordered less (λ c q, ih_max_edge n c q ∧ k ≤ q) d1 ∧
    ordered less (λ p c, ih_min_edge p c ∧ k ≤ p) d1 ∧
    d1 ≡ₚ d).
  run_while Inv Post (λ s : list T * Z * Z, n - s.1.2) s' HP.
  - clear dependent idx. clear Hint Hmax.
    intros [[d1 idx] child]
      (-> & Hsz & Hidx & Heven & Hk & Hint & Hmax & Hmin & Hgrand & Hperm).
    simpl. split; [lia|].
    rewrite ih_get_left_small by lia.
    eexists; split; [reflexivity|].
    destruct (Z.ltb_spec ((idx + 1) * 2) n) as [Hlt|Hge].
    + set (l := (idx + 1) * 2) in *.
      rewrite size_add_small by (rewrite width_value; lia).
      destruct (nthZ_is_Some d1 l) as [xl Hxl]; [lia|].
      destruct (nthZ_is_Some d1 idx) as [v Hv]; [lia|].
      (* the smaller of the two children's min slots *)
      assert (∃ (b : bool) c xc,
        ((l + 2 <? n) &&&
           (r ← at_ d1 (l + 2); l0 ← at_ d1 l; Ok (less r l0))) = Ok b ∧
        (if b then l + 2 else l) = c ∧
        (c = l ∨ c = l + 2) ∧ nthZ d1 c = Some xc ∧
        lower less xc (λ j, (j = l ∨ j = l + 2)) d1)
        as (b & c & xc & -> & <- & Hc & Hxc & Hlow).
      { destruct (Z.ltb_spec (l + 2) n) as [Hr|Hr].
        - destruct (nthZ_is_Some d1 (l + 2)) as [xr Hxr]; [lia|].
          rewrite (at_ok _ _ _ Hxr), (at_ok _ _ _ Hxl). simpl.
          destruct (less xr xl) eqn:E.
          + exists true, (l + 2), xr. split; [done|].
            split; [done|].
            split; [lia|]. split; [done|].
            intros j y [?|?] Hj; order less.
          + exists false, l, xl. split; [done|]. split; [done|].
            split; [lia|]. split; [done|].
            intros j y [?|?] Hj; order less.
        - exists false, l, xl. split; [done|]. split; [done|].
          split; [lia|]. split; [done|].
          intros j y [?|?] Hj; ranges; try lia; order less. }
      simpl. set (c := if b then l + 2 else l) in *.
      rewrite (at_ok _ _ _ Hxc), (at_ok _ _ _ Hv). simpl. ranges.
      destruct (less xc v) eqn:E.
      * left. rewrite (swap_at_ok _ _ _ _ _ Hv Hxc). simpl.
        set (d2 := updZ (updZ d1 idx xc) c v).
        assert (size d2 = n) as Hsz2 by (unfold d2; by rewrite !size_updZ).
        assert (d2 ≡ₚ d) as Hp2.
        { rewrite <- Hperm. unfold d2. by apply updZ_swap_perm. }
        rewrite size_add_small by (rewrite width_value; lia).
        destruct (Z.ltb_spec (c + 1) n) as [Hfull|Hlone].
        -- destruct (nthZ_is_Some d1 (c + 1)) as [h Hh]; [lia|].
           saturate less.
           assert (nthZ d2 (c + 1) = Some h) as Hh2 by (unfold d2; rd).
           assert (nthZ d2 c = Some v) as Hv2 by (unfold d2; rd).
           rewrite (at_ok _ _ _ Hh2), (at_ok _ _ _ Hv2). simpl.
           destruct (less h v) eqn:E2.
           ++ rewrite (swap_at_ok _ _ _ _ _ Hh2 Hv2). simpl.
              eexists; split; [reflexivity|]. split; [|simpl; lia].
              split; [done|]. rewrite !size_updZ.
              split; [done|]. split; [lia|]. split; [lia|]. split; [lia|].
              unfold d2.
              split; [|split; [|split; [|split]]].
              ** settle less.
              ** settle less.
              ** settle less.
              ** settle less.
              ** rewrite <- Hp2. by apply updZ_swap_perm.
           ++ simpl. eexists; split; [reflexivity|]. split; [|simpl; lia].
              split; [done|].
              split; [done|]. split; [lia|]. split; [lia|]. split; [lia|].
              unfold d2.
              split; [|split; [|split; [|split]]].
              ** settle less.
              ** settle less.
              ** settle less.
              ** settle less.
              ** done.
        -- saturate less.
           simpl. eexists; split; [reflexivity|]. split; [|simpl; lia].
           split; [done|].
           split; [done|]. split; [lia|]. split; [lia|]. split; [lia|].
           unfold d2.
           split; [|split; [|split; [|split]]].
           ++ settle less.
           ++ settle less.
           ++ settle less.
           ++ settle less.
           ++ done.
      * right. eexists; split; [reflexivity|]. simpl.
        split; [done|]. split; [done|]. split; [done|]. split; [|done].
        intros i j ? ? HR Hi Hj.
        destruct (decide (i = idx)) as [->|?];
          [|lookups; try lia; order less].
        assert (j = l ∨ j = l + 2) as [->| ->] by lia;
          lookups; try lia; order less.
    + simpl. split; [done|]. split; [done|]. split; [done|]. split; [|done].
      settle less.
  - simpl. repeat split; try done; try lia.
  - simpl. unfold IntervalHeap.fuel, n, size in *. lia.
  - destruct s' as [[d1 idx1] child1].
    destruct HP as (Hsz & H1 & H2 & H3 & Hperm).
    simpl. eexists; split; [reflexivity|]. rewrite Hsz. done.
Qed.


(** *** bubble_down_max *)

Lemma ih_bubble_down_max_spec k k' d m :
  size d ≤ MAX_SIZE →
  0 ≤ m < size d → m mod 2 = 1 → k ≤ m →
  ih_intervals less d →
  ih_min_from less k' d →
  ordered less (λ c q, ih_max_edge (size d) c q ∧ k ≤ q ∧ q ≠ m) d →
  ordered less
    (λ c q, ih_max_edge (size d) c m ∧ ih_max_edge (size d) m q ∧ k ≤ q) d →
  ∃ d', IntervalHeap.bubble_down_max less d m = Ok d' ∧
        ih_intervals less d' ∧ ih_min_from less k' d' ∧
        ih_max_from less k d' ∧ d' ≡ₚ d ∧ size d' = size d.
Proof.
  intros Hd Hm Hodd Hk Hint Hmin Hmax Hgrand.
  pose proof Hd as Hd'. rewrite max_size_value in Hd'.
  unfold IntervalHeap.bubble_down_max, IntervalHeap.ROOT, IntervalHeap.is_max.
  rewrite (assert_true (m mod 2 =? 1)) by lia. simpl.
  rewrite (assert_true (0 <=? m)) by lia. simpl.
  rewrite (assert_true (m <? size d)) by lia. simpl.
  rewrite size_sub_small by (rewrite width_value; lia).
  unfold ih_intervals, ih_max_from, ih_min_from in *.
  set (n := size d) in *.
  set (Inv := λ s : list T * Z * Z,
    let '(d1, idx, child) := s in
    child = IntervalHeap.get_left idx ∧ size d1 = n ∧
    0 ≤ idx < n ∧ idx mod 2 = 0 ∧ k ≤ idx + 1 ∧
    ordered less (λ i j, ih_node i j) d1 ∧
    ordered less (λ p c, ih_min_edge p c ∧ k' ≤ p) d1 ∧
    ordered less (λ c q, ih_max_edge n c q ∧ k ≤ q ∧ q ≠ idx + 1) d1 ∧
    ordered less
      (λ c q, ih_max_edge n c (idx + 1) ∧ ih_max_edge n (idx + 1) q ∧ k ≤ q)
      d1 ∧
    d1 ≡ₚ d).
  set (Post := λ s : list T * Z * Z,
    let '(d1, idx, child) := s in
    size d1 = n ∧ 0 ≤ idx < n ∧ idx mod 2 = 0 ∧
    ordered less (λ i j, ih_node i j) d1 ∧
    ordered less (λ p c, ih_min_edge p c ∧ k' ≤ p) d1 ∧
    ordered less (λ c q, ih_max_edge n c q ∧ k ≤ q) d1 ∧
    d1 ≡ₚ d).
  run_while Inv Post (λ s : list T * Z * Z, n - s.1.2) s' HP.
  - clear dependent m. clear Hint Hmin.
    intros [[d1 idx] child]
      (-> & Hsz & Hidx & Heven & Hk & Hint & Hmin & Hmax & Hgrand & Hperm).
    simpl. split; [lia|].
    rewrite ih_get_left_small by lia.
    eexists; split; [done|].
    destruct (Z.ltb_spec ((idx + 1) * 2) n) as [Hlt|Hge].
    + set (l := (idx + 1) * 2) in *.
      rewrite !size_add_small by (rewrite width_value; lia).
      destruct (nthZ_is_Some d1 (idx + 1)) as [x Hx]; [lia|].
      (* the child node whose largest value is the larger one *)
      assert (∃ (b : bool) c h y,
        ((if l + 3 <? n then l + 3 else l + 2) <? n) &&&
           (a ← at_ d1 (if l + 1 <? n then l + 1 else l);
            b0 ← at_ d1 (if l + 3 <? n then l + 3 else l + 2);
            Ok (less a b0)) = Ok b ∧
        (if b then (l + 2, if l + 3 <? n then l + 3 else l + 2)
         else (l, if l + 1 <? n then l + 1 else l)) = (c, h) ∧
        (c = l ∨ c = l + 2) ∧ c < n ∧
        ((h = c + 1 ∧ h < n) ∨ (h = c ∧ c = n - 1)) ∧
        nthZ d1 h = Some y ∧
        upper less y (λ j, ih_max_edge n j (idx + 1)) d1)
        as (b & c & h & y & -> & Hch & Hc & Hcn & Hh & Hy & Hup).
      { destruct (Z.ltb_spec (l + 1) n) as [H1|H1];
          destruct (Z.ltb_spec (l + 3) n) as [H3|H3].
        - destruct (nthZ_is_Some d1 (l + 1)) as [y1 Hy1]; [lia|].
          destruct (nthZ_is_Some d1 (l + 3)) as [y2 Hy2]; [lia|].
          rewrite (proj2 (Z.ltb_lt (l + 3) n)) by lia.
          rewrite (at_ok _ _ _ Hy1), (at_ok _ _ _ Hy2). simpl.
          destruct (less y1 y2) eqn:E.
          + exists true, (l + 2), (l + 3), y2. repeat split; try done; try lia.
            intros j z HR Hj.
            assert (j = l + 1 ∨ j = l + 3) as [->| ->] by (ranges; lia);
              order less.
          + exists false, l, (l + 1), y1. repeat split; try done; try lia.
            intros j z HR Hj.
            assert (j = l + 1 ∨ j = l + 3) as [->| ->] by (ranges; lia);
              order less.
        - destruct (nthZ_is_Some d1 (l + 1)) as [y1 Hy1]; [lia|].
          destruct (Z.ltb_spec (l + 2) n) as [H2|H2].
          + destruct (nthZ_is_Some d1 (l + 2)) as [y2 Hy2]; [lia|].
            rewrite (at_ok _ _ _ Hy1), (at_ok _ _ _ Hy2). simpl.
            destruct (less y1 y2) eqn:E.
            * exists true, (l + 2), (l + 2), y2.
              repeat split; try done; try lia.
              intros j z HR Hj.
              assert (j = l + 1 ∨ j = l + 2) as [->| ->] by (ranges; lia);
                order less.
            * exists false, l, (l + 1), y1.
              repeat split; try done; try lia.
              intros j z HR Hj.
              assert (j = l + 1 ∨ j = l + 2) as [->| ->] by (ranges; lia);
                order less.
          + exists false, l, (l + 1), y1. repeat split; try done; try lia.
            intros j z HR Hj.
            assert (j = l + 1) as -> by (ranges; lia). order less.
        - lia.
        - destruct (nthZ_is_Some d1 l) as [y1 Hy1]; [lia|].
          rewrite (proj2 (Z.ltb_ge (l + 2) n)) by lia.
          exists false, l, l, y1. repeat split; try done; try lia.
          intros j z HR Hj.
          assert (j = l) as -> by (ranges; lia). order less. }
      simpl. rewrite Hch. simpl. clear Hch b.
      rewrite (at_ok _ _ _ Hx), (at_ok _ _ _ Hy). simpl. ranges.
      destruct (less x y) eqn:E.
      * left. rewrite (swap_at_ok _ _ _ _ _ Hx Hy). simpl.
        set (d2 := updZ (updZ d1 (idx + 1) y) h x).
        assert (size d2 = n) as Hsz2 by (unfold d2; by rewrite !size_updZ).
        assert (d2 ≡ₚ d) as Hp2.
        { rewrite <- Hperm. unfold d2. by apply updZ_swap_perm. }
        destruct Hh as [[Hh Hhn]|[Hh Hlone]].
        -- (* the value came from a max slot *)
           rewrite (proj2 (Z.eqb_eq (h mod 2) 1)) by lia.
           rewrite size_sub_small by (rewrite width_value; lia).
           destruct (nthZ_is_Some d1 c) as [lo Hlo]; [lia|].
           assert (nthZ d2 h = Some x) as Hx2 by (unfold d2; rd).
           assert (nthZ d2 (h - 1) = Some lo) as Hlo2
             by (unfold d2; replace (h - 1) with c by lia; rd).
           rewrite (at_ok _ _ _ Hx2), (at_ok _ _ _ Hlo2). simpl.
           saturate less.
           destruct (less x lo) eqn:E2.
           ++ rewrite (swap_at_ok _ _ _ _ _ Hx2 Hlo2). simpl.
              eexists; split; [reflexivity|]. split; [|simpl; lia].
              split; [done|]. rewrite !size_updZ.
              split; [done|]. split; [lia|]. split; [lia|]. split; [lia|].
              unfold d2.
              split; [|split; [|split; [|split]]].
              ** settle less.
              ** settle less.
              ** settle less.
              ** settle less.
              ** rewrite <- Hp2. by apply updZ_swap_perm.
           ++ simpl. eexists; split; [reflexivity|]. split; [|simpl; lia].
              split; [done|].
              split; [done|]. split; [lia|]. split; [lia|]. split; [lia|].
              unfold d2.
              split; [|split; [|split; [|split]]].
              ** settle less.
              ** settle less.
              ** settle less.
              ** settle less.
              ** done.
        -- (* the value came from a trailing min slot *)
           rewrite (proj2 (Z.eqb_neq (h mod 2) 1)) by lia.
           saturate less.
           simpl. eexists; split; [reflexivity|]. split; [|simpl; lia].
           split; [done|].
           split; [done|]. split; [lia|]. split; [lia|]. split; [lia|].
           unfold d2.
           split; [|split; [|split; [|split]]].
           ++ settle less.
           ++ settle less.
           ++ settle less.
           ++ settle less.
           ++ done.
      * right. eexists; split; [reflexivity|]. simpl.
        split; [done|]. split; [lia|]. split; [done|]. split; [done|].
        split; [done|]. split; [|done].
        intros i j ? ? HR Hi Hj.
        destruct (decide (j = idx + 1)) as [->|?];
          [|lookups; try lia; order less].
        order less.
    + simpl. split; [done|]. split; [lia|]. split; [done|]. split; [done|].
      split; [done|]. split; [|done]. settle less.
  - simpl. split; [done|]. split; [done|]. split; [lia|]. split; [lia|].
    split; [lia|]. split; [done|]. split; [done|]. split; [|split; [|done]].
    + intros c q ? ? HR Hc Hq. apply (Hmax c q); [lia|done..].
    + intros c q ? ? HR Hc Hq. apply (Hgrand c q); [|done..].
      replace (m - 1 + 1) with m in HR by lia. done.
  - simpl. unfold IntervalHeap.fuel, n, size in *. lia.
  - destruct s' as [[d1 idx1] child1].
    destruct HP as (Hsz & Hidx1 & Hev1 & H1 & H2 & H3 & Hperm).
    simpl. rewrite size_add_small by (rewrite width_value; lia).
    destruct (Z.ltb_spec (idx1 + 1) n) as [Hfull|Hlone].
    + destruct (nthZ_is_Some d1 (idx1 + 1)) as [hi Hhi]; [lia|].
      destruct (nthZ_is_Some d1 idx1) as [lo Hlo]; [lia|].
      rewrite (at_ok _ _ _ Hhi), (at_ok _ _ _ Hlo). simpl.
      assert (less hi lo = false) as -> by order less.
      simpl. eexists; split; [done|]. rewrite Hsz. done.
    + simpl. eexists; split; [done|]. rewrite Hsz. done.
Qed.


End IntervalHeapDown.

Section IntervalHeapify.
Context {T : Type} (less : T → T → bool) (Hswo : StrictWeakOrder less).
Implicit Types (d : list T) (i idx k : Z) (cur : T).

(** *** balance_node and heapify *)

Lemma ih_balance_node_spec d i :
  size d ≤ MAX_SIZE → 0 ≤ i → i + 1 < size d →
  ∃ d' lo hi, IntervalHeap.balance_node less d i = Ok d' ∧
    nthZ d' i = Some lo ∧ nthZ d' (i + 1) = Some hi ∧ le less lo hi ∧
    (∀ j, j ≠ i → j ≠ i + 1 → nthZ d' j = nthZ d j) ∧
    d' ≡ₚ d ∧ size d' = size d.
Proof.
  rewrite max_size_value. intros Hd Hi Hi1. unfold IntervalHeap.balance_node.
  rewrite size_add_small by (rewrite width_value; lia).
  destruct (nthZ_is_Some d (i + 1)) as [hi Hhi]; [lia|].
  destruct (nthZ_is_Some d i) as [lo Hlo]; [lia|].
  rewrite (at_ok _ _ _ Hhi), (at_ok _ _ _ Hlo). simpl.
  destruct (less hi lo) eqn:E.
  - rewrite (swap_at_ok _ _ _ _ _ Hhi Hlo).
    exists (updZ (updZ d (i + 1) lo) i hi), hi, lo.
    split; [done|]. split; [rd|]. split; [rd|]. split; [order less|].
    split; [|split].
    + intros j ? ?. rewrite !nthZ_updZ_ne by lia. done.
    + by apply updZ_swap_perm.
    + by rewrite !size_updZ.
  - exists d, lo, hi. repeat split; try done.
Qed.

(** The first loop of [heapify]: every full node is put in order. *)
Lemma ih_heapify_nodes d :
  size d ≤ MAX_SIZE → 2 < size d →
  ∃ d1 i1,
    while (IntervalHeap.fuel d)
      (λ '(_data, i), Ok (i <? size _data -% 1))
      (λ '(_data, i),
         _data ← IntervalHeap.balance_node less _data i;
         Ok (Next (_data, (i +% 2))))
      (d, 0) = Ok (d1, i1) ∧
    size d1 = size d ∧ ih_intervals less d1 ∧ d1 ≡ₚ d.
Proof.
  intros Hd Hbig. pose proof Hd as Hd'. rewrite max_size_value in Hd'.
  unfold ih_intervals.
  set (n := size d) in *.
  set (Inv1 := λ s : list T * Z,
    let '(d1, i) := s in
    size d1 = n ∧ 0 ≤ i ≤ n ∧ i mod 2 = 0 ∧
    ordered less (λ a b, ih_node a b ∧ a < i) d1 ∧ d1 ≡ₚ d).
  set (Post1 := λ s : list T * Z,
    let '(d1, i) := s in
    size d1 = n ∧ ordered less (λ a b, ih_node a b) d1 ∧ d1 ≡ₚ d).
  run_while Inv1 Post1 (λ s : list T * Z, n - s.2) s1 HP1.
  - intros [d1 i] (Hsz & Hi & Hev & Hint & Hperm). simpl. split; [lia|].
    eexists; split; [done|]. rewrite Hsz.
    rewrite size_sub_small by (rewrite width_value; lia).
    destruct (Z.ltb_spec i (n - 1)) as [Hlt|Hge].
    + left.
      destruct (ih_balance_node_spec d1 i)
        as (d2 & lo & hi & -> & Hlo & Hhi & Hle & Hsame & Hp2 & Hsz2);
        [lia..|].
      simpl. rewrite size_add_small by (rewrite width_value; lia).
      eexists; split; [done|]. split; [|simpl; lia].
      split; [lia|]. split; [lia|]. split; [lia|]. split; [|by rewrite Hp2].
      intros a b x y HR Ha Hb.
      destruct (decide (a = i)) as [->|Hne].
      * replace b with (i + 1) in * by lia. congruence.
      * rewrite Hsame in Ha, Hb by lia. apply (Hint a b); [lia|done..].
    + split; [done|]. split; [|done].
      intros a b x y HR Ha Hb. ranges. apply (Hint a b); [lia|done..].
  - simpl. split; [done|]. split; [lia|]. split; [done|]. split; [|done].
    intros a b x y HR Ha Hb. ranges. lia.
  - simpl. unfold IntervalHeap.fuel, n, size in *. lia.
  - destruct s1 as [d1 i1]. by exists d1, i1.
Qed.

(** What the second loop of [heapify] keeps, with [i] the node to sink
    next: every full node is in order, and the nodes after [i] head heaps. *)
Definition ih_heapify_inv (d : list T) (s : list T * Z) : Prop :=
  let '(d2, i) := s in
  size d2 = size d ∧ -2 ≤ i ∧ i + 1 < size d ∧ i mod 2 = 0 ∧
  ih_intervals less d2 ∧ ih_min_from less (i + 2) d2 ∧
  ih_max_from less (i + 2) d2 ∧ d2 ≡ₚ d.

(** One round of the second loop: both calls return, and the node is still
    in order between them. *)
Lemma ih_heapify_step d d2 i :
  size d ≤ MAX_SIZE → ih_heapify_inv d (d2, i) → 0 ≤ i →
  ∃ d3 d4,
    IntervalHeap.bubble_down_max less d2 (wrap (i + 1)) = Ok d3 ∧
    ih_intervals less d2 ∧ size d3 = size d ∧
    IntervalHeap.bubble_down_min less d3 (wrap i) = Ok d4 ∧
    ih_intervals less d3 ∧
    ih_heapify_inv d (d4, i - 2).
Proof.
  intros Hd (Hsz & Hi & Hi1 & Hev & Hint & Hmin & Hmax & Hperm) Hpos.
  pose proof Hd as Hd'. rewrite max_size_value in Hd'.
  rewrite !wrap_small by (rewrite width_value; lia).
  destruct (ih_bubble_down_max_spec less Hswo i (i + 2) d2 (i + 1))
    as (d3 & E3 & Hint3 & Hmin3 & Hmax3 & Hp3 & Hsz3);
    try done; try lia.
  { intros c q x y HR Hc Hq. apply (Hmax c q); [lia|done..]. }
  { intros c q x y HR Hc Hq. lia. }
  destruct (ih_bubble_down_min_spec less Hswo i d3 i)
    as (d4 & E4 & Hint4 & Hmax4 & Hmin4 & Hp4 & Hsz4);
    try done; try lia.
  { intros p c x y HR Hp Hc. apply (Hmin3 p c); [lia|done..]. }
  { intros p c x y HR Hp Hc. lia. }
  exists d3, d4. split; [done|]. split; [done|]. split; [lia|].
  split; [done|]. split; [done|].
  unfold ih_heapify_inv, ih_intervals, ih_min_from, ih_max_from in *.
  split; [lia|]. split; [lia|]. split; [lia|]. split; [lia|].
  split; [done|]. split; [|split].
  - intros p c x y HR Hp Hc. apply (Hmin4 p c); [lia|done..].
  - intros c q x y HR Hc Hq. apply (Hmax4 c q); [lia|done..].
  - by rewrite Hp4, Hp3.
Qed.

Lemma ih_heapify_inv_start d d1 :
  2 < size d → size d1 = size d → ih_intervals less d1 → d1 ≡ₚ d →
  ih_heapify_inv d (d1, (size d - 1) / 4 * 2).
Proof.
  intros Hbig Hsz Hint Hp. unfold ih_heapify_inv.
  split; [done|]. split; [lia|]. split; [lia|]. split; [lia|].
  split; [done|]. split; [|split; [|done]].
  - intros p c x y HR Hp' Hc. ranges. lia.
  - intros c q x y HR Hc Hq. ranges. lia.
Qed.

Lemma ih_heapify_spec d :
  size d ≤ MAX_SIZE →
  ∃ d', IntervalHeap.heapify less d = Ok d' ∧
        ih_heap less d' ∧ d' ≡ₚ d ∧ size d' = size d.
Proof.
  intros Hd. pose proof Hd as Hd'. rewrite max_size_value in Hd'.
  pose proof (size_nonneg d) as Hn.
  unfold IntervalHeap.heapify.
  destruct (Z.leb_spec (size d) 2) as [Hsmall|Hbig].
  { unfold ih_heap, ih_intervals, ih_min_from, ih_max_from.
    destruct (Z.eqb_spec (size d) 2) as [H2|H2].
    - destruct (nthZ_is_Some d 1) as [hi Hhi]; [lia|].
      destruct (nthZ_is_Some d 0) as [lo Hlo]; [lia|].
      rewrite (at_ok _ _ _ Hhi), (at_ok _ _ _ Hlo). simpl.
      destruct (less hi lo) eqn:E.
      + rewrite (swap_at_ok _ _ _ _ _ Hhi Hlo).
        eexists; split; [done|]. rewrite !size_updZ.
        split; [|split; [|done]].
        * split; [|split]; settle less.
        * by apply updZ_swap_perm.
      + eexists; split; [done|]. split; [|done].
        split; [|split]; settle less.
    - simpl. eexists; split; [done|]. split; [|done].
      split; [|split]; settle less. }
  destruct (ih_heapify_nodes d Hd Hbig) as (d1 & i1 & -> & Hsz1 & Hint1 & Hp1).
  simpl. rewrite Hsz1.
  rewrite size_sub_small by (rewrite width_value; lia).
  rewrite size_mul_small by (rewrite width_value; lia).
  rewrite to_signed_small by lia.
  set (Post2 := λ s : list T * Z,
    let '(d2, i) := s in
    ih_heap less d2 ∧ d2 ≡ₚ d ∧ size d2 = size d).
  run_while (ih_heapify_inv d) Post2 (λ s : list T * Z, s.2 + 2) s2 HP2.
  - intros [d2 i] Hinv. pose proof Hinv as (Hsz & Hi & _).
    simpl. split; [lia|]. eexists; split; [done|].
    destruct (Z.leb_spec 0 i) as [Hpos|Hneg].
    + left.
      destruct (ih_heapify_step d d2 i Hd Hinv Hpos)
        as (d3 & d4 & E3 & _ & _ & E4 & _ & Hinv4).
      rewrite E3. simpl. rewrite E4. simpl.
      eexists; split; [done|]. split; [done|]. simpl. lia.
    + destruct Hinv as (_ & _ & _ & Hev & Hint & Hmin & Hmax & Hperm).
      unfold ih_heap, ih_min_from, ih_max_from in *.
      split; [|done]. split; [done|]. split.
      * intros p c x y HR Hp Hc. apply (Hmin p c); [lia|done..].
      * intros c q x y HR Hc Hq. apply (Hmax c q); [lia|done..].
  - by apply ih_heapify_inv_start.
  - simpl. unfold IntervalHeap.fuel, size in *. lia.
  - destruct s2 as [d2 i2]. destruct HP2 as (Hheap & Hperm2 & Hsz2). simpl.
    eexists; split; [done|]. done.
Qed.

End IntervalHeapify.

Section IntervalHeapUp.
Context {T : Type} (less : T → T → bool) (Hswo : StrictWeakOrder less).
Implicit Types (d : list T) (i idx k : Z) (cur : T).

(** *** bubble_up *)

(** A hole in the last node of a sequence of [n] slots, about to receive
    [cur]: the rest of the sequence is in order, and [cur] fits its own
    node. *)
Definition ih_hole (n : Z) (cur : T) (d : list T) (idx : Z) : Prop :=
  size d = n ∧ 0 ≤ idx < n ∧
  (idx = n - 1 ∨ (idx = n - 2 ∧ idx mod 2 = 0)) ∧
  ordered less (λ i j, ih_node i j ∧ i ≠ idx ∧ j ≠ idx) d ∧
  lower less cur (λ j, ih_node idx j) d ∧
  upper less cur (λ i, ih_node i idx) d ∧
  ordered less (λ p c, ih_min_edge p c ∧ c ≠ idx) d ∧
  ordered less (λ c q, ih_max_edge n c q ∧ c ≠ idx) d ∧
  ordered less (λ p j, ih_min_edge p idx ∧ ih_node idx j) d ∧
  ordered less (λ i q, ih_node i idx ∧ ih_max_edge n idx q) d.

Lemma ih_bubble_up_spec d0 x :
  size d0 < MAX_SIZE →
  ih_heap less d0 →
  ∃ d', IntervalHeap.bubble_up less (push_back d0 x) (size d0) = Ok d' ∧
        ih_heap less d' ∧ d' ≡ₚ x :: d0 ∧ size d' = size d0 + 1.
Proof.
  rewrite max_size_value. intros Hd (Hint & Hmin & Hmax).
  pose proof (size_nonneg d0) as Hn0.
  unfold ih_intervals, ih_min_from, ih_max_from in *.
  set (d := push_back d0 x). set (n := size d0 + 1).
  assert (size d = n) as Hsz by apply size_push_back.
  assert (nthZ d (size d0) = Some x) as Hcur.
  { unfold d. rewrite nthZ_push_back. by rewrite decide_True. }
  unfold IntervalHeap.bubble_up, IntervalHeap.ROOT, IntervalHeap.is_max.
  rewrite (assert_true (size d0 <? size d)) by lia. simpl.
  rewrite (assert_true (0 <=? size d0)) by lia. simpl.
  rewrite (at_ok _ _ _ Hcur). simpl.
  (* the first step: the new value settles in its own node *)
  assert (∃ (b : bool) d1 idx,
    ((size d0 mod 2 =? 1) &&&
       (lo ← at_ d (size d0 -% 1); Ok (less x lo))) = Ok b ∧
    (if b then
       lo ← at_ d (size d0 -% 1);
       _data ← store d (size d0) lo;
       Ok (_data, size d0 -% 1)
     else Ok (d, size d0)) = Ok (d1, idx) ∧
    ih_hole n x d1 idx ∧ updZ d1 idx x ≡ₚ d)
    as (b & d1 & idx & -> & Hfirst & Hhole & Hperm).
  { destruct (Z.eqb_spec (size d0 mod 2) 1) as [Hodd|Heven].
    - rewrite size_sub_small by (rewrite width_value; lia).
      destruct (nthZ_is_Some d0 (size d0 - 1)) as [lo Hlo0]; [lia|].
      assert (nthZ d (size d0 - 1) = Some lo) as Hlo.
      { unfold d. rewrite nthZ_push_back. by rewrite decide_False by lia. }
      rewrite (at_ok _ _ _ Hlo). simpl.
      destruct (less x lo) eqn:E; simpl.
      + exists true. rewrite store_ok by lia. simpl.
        eexists _, _. split; [reflexivity|]. split; [reflexivity|]. split.
        * unfold ih_hole, d. rewrite size_updZ.
          split; [done|]. split; [lia|]. split; [lia|].
          repeat split; settle less.
        * by apply updZ_swap_perm.
      + exists false, d, (size d0).
        split; [reflexivity|]. split; [reflexivity|]. split.
        * unfold ih_hole, d.
          split; [done|]. split; [lia|]. split; [lia|].
          repeat split; settle less.
        * by rewrite (updZ_id _ _ _ Hcur).
    - simpl. exists false, d, (size d0).
      split; [reflexivity|]. split; [reflexivity|]. split.
      + unfold ih_hole, d.
        split; [done|]. split; [lia|]. split; [lia|].
        repeat split; settle less.
      + by rewrite (updZ_id _ _ _ Hcur). }
  simpl. rewrite Hfirst. simpl. clear Hfirst b.
  destruct Hhole as (Hsz1 & Hidx & Hlast & U1 & U2 & U3 & U4 & U5 & U6 & U7).
  change (0 +% 1) with 1.
  (* where the value comes to rest *)
  set (Final := λ (d2 : list T) (idx2 : Z),
    size d2 = n ∧ 0 ≤ idx2 < n ∧
    ordered less (λ i j, ih_node i j) (updZ d2 idx2 x) ∧
    ordered less (λ p c, ih_min_edge p c ∧ 0 ≤ p) (updZ d2 idx2 x) ∧
    ordered less (λ c q, ih_max_edge n c q ∧ 0 ≤ q) (updZ d2 idx2 x) ∧
    updZ d2 idx2 x ≡ₚ d).
  assert (Hdone : ∀ d2 idx2, Final d2 idx2 →
    ∃ d', store d2 idx2 x = Ok d' ∧
      (ordered less (λ i j, ih_node i j) d' ∧
       ordered less (λ p c, ih_min_edge p c ∧ 0 ≤ p) d' ∧
       ordered less (λ c q, ih_max_edge (size d') c q ∧ 0 ≤ q) d') ∧
      d' ≡ₚ x :: d0 ∧ size d' = size d0 + 1).
  { intros d2 idx2 (H1 & H2 & H3 & H4 & H5 & H6).
    rewrite store_ok by lia. eexists; split; [done|].
    rewrite size_updZ, H1. split; [done|]. split; [|done].
    rewrite H6. unfold d, push_back. by rewrite Permutation_app_comm. }
  destruct (Z.ltb_spec 1 idx) as [Hdeep|Hroot]; cycle 1.
  { (* the root node *)
    simpl. apply Hdone. unfold Final.
    split; [done|]. split; [done|]. repeat split; try done; settle less. }
  rewrite ih_get_parent_pos by (rewrite width_value; lia).
  set (par := (idx - 2) / 4 * 2).
  destruct (nthZ_is_Some d1 par) as [p Hp]; [lia|].
  destruct (nthZ_is_Some d1 (par + 1)) as [hp Hhp]; [lia|].
  rewrite (at_ok _ _ _ Hp). simpl.
  destruct (less x p) eqn:Elo; simpl.
  { (* ascent through the min slots *)
    assert (idx mod 2 = 0) as Heven.
    { destruct (decide (idx mod 2 = 0)) as [|Hodd]; [done|]. exfalso.
      destruct (nthZ_is_Some d1 (idx - 1)) as [lo Hlo]; [lia|].
      assert (le less p x) by (saturate less; order less).
      unfold le in *. congruence. }
    set (Inv := λ s : list T * Z * Z,
      let '(d2, idx2, par2) := s in
      par2 = IntervalHeap.get_parent idx2 ∧ size d2 = n ∧
      idx2 mod 2 = 0 ∧ 2 ≤ idx2 < n ∧
      (∃ p2, nthZ d2 par2 = Some p2 ∧ less x p2 = true) ∧
      ordered less (λ i j, ih_node i j ∧ i ≠ idx2) d2 ∧
      lower less x (λ j, j = idx2 + 1) d2 ∧
      ordered less (λ p c, ih_min_edge p c ∧ c ≠ idx2 ∧ p ≠ idx2) d2 ∧
      lower less x (λ c, ih_min_edge idx2 c) d2 ∧
      ordered less (λ p c, ih_min_edge p idx2 ∧ ih_min_edge idx2 c) d2 ∧
      ordered less (λ p j, ih_min_edge p idx2 ∧ j = idx2 + 1) d2 ∧
      ordered less (λ c q, ih_max_edge n c q ∧ c ≠ idx2) d2 ∧
      updZ d2 idx2 x ≡ₚ d).
    set (Post := λ s : list T * Z * Z,
      let '(d2, idx2, _) := s in Final d2 idx2).
    run_do_while Inv Post (λ s : list T * Z * Z, s.1.2) s' HP.
    - clear dependent d1. clear dependent idx.
      try clear dependent hp. clear dependent p.
      intros [[d2 idx2] par2]
        (-> & Hsz2 & Hev2 & Hidx2 & (p2 & Hp2 & Elt) &
         I1 & I2 & I3 & I4 & I5 & I6 & I7 & Hperm2).
      simpl. split; [lia|].
      rewrite ih_get_parent_pos in * by (rewrite width_value; lia).
      set (par2 := (idx2 - 2) / 4 * 2) in *.
      rewrite (at_ok _ _ _ Hp2). simpl. rewrite store_ok by lia. simpl.
      eexists; split; [reflexivity|]. simpl. change (0 +% 1) with 1.
      assert (updZ (updZ d2 idx2 p2) par2 x ≡ₚ d) as Hperm3.
      { rewrite <- Hperm2. rewrite <- (updZ_updZ_eq d2 idx2 x p2).
        apply updZ_swap_perm.
        - apply nthZ_updZ_eq. lia.
        - rewrite nthZ_updZ_ne by lia. done. }
      destruct (Z.ltb_spec 1 par2) as [Hdeep|Hroot].
      + rewrite ih_get_parent_pos by (rewrite width_value; lia).
        destruct (nthZ_is_Some d2 ((par2 - 2) / 4 * 2)) as [q Hq]; [lia|].
        assert (nthZ (updZ d2 idx2 p2) ((par2 - 2) / 4 * 2) = Some q) as Hq3
          by rd.
        rewrite (at_ok _ _ _ Hq3). simpl.
        eexists; split; [reflexivity|]. saturate less.
        destruct (less x q) eqn:E.
        * split; [|simpl; lia].
          split; [done|]. rewrite size_updZ.
          split; [done|]. split; [lia|]. split; [lia|].
          split; [by exists q|].
          repeat split; try done; settle less.
        * unfold Final. rewrite size_updZ.
          split; [done|]. split; [lia|].
          repeat split; try done; settle less.
      + eexists; split; [reflexivity|]. saturate less.
        unfold Final. rewrite size_updZ.
        split; [done|]. split; [lia|].
        repeat split; try done; settle less.
    - simpl. split; [by rewrite ih_get_parent_pos by (rewrite width_value; lia)|].
      split; [done|]. split; [done|]. split; [lia|]. split; [by exists p|].
      repeat split; try done; settle less.
    - simpl. unfold IntervalHeap.fuel. unfold size in *. lia.
    - destruct s' as [[d2 idx2] par2]. simpl. by apply Hdone. }
  rewrite size_add_small by (rewrite width_value; lia).
  rewrite (at_ok _ _ _ Hhp). simpl.
  destruct (less hp x) eqn:Ehi; simpl.
  { (* ascent through the max slots *)
    assert (idx mod 2 = 1 ∨ idx = n - 1) as Hslot.
    { destruct (decide (idx mod 2 = 1)) as [|Hev]; [by left|]. right.
      destruct (decide (idx = n - 1)) as [|Hnl]; [done|]. exfalso.
      destruct (nthZ_is_Some d1 (idx + 1)) as [hi Hhi]; [lia|].
      assert (le less x hp) by (saturate less; order less).
      unfold le in *. congruence. }
    set (Inv := λ s : list T * Z * Z,
      let '(d2, idx2, par2) := s in
      par2 = (idx2 - 2) / 4 * 2 + 1 ∧ size d2 = n ∧
      (idx2 mod 2 = 1 ∨ idx2 = n - 1) ∧ 2 ≤ idx2 < n ∧
      (∃ p2, nthZ d2 par2 = Some p2 ∧ less p2 x = true) ∧
      ordered less (λ i j, ih_node i j ∧ j ≠ idx2) d2 ∧
      upper less x (λ i, ih_node i idx2) d2 ∧
      ordered less (λ c q, ih_max_edge n c q ∧ c ≠ idx2 ∧ q ≠ idx2) d2 ∧
      upper less x (λ c, ih_max_edge n c idx2) d2 ∧
      ordered less
        (λ c q, ih_max_edge n c idx2 ∧ ih_max_edge n idx2 q) d2 ∧
      ordered less (λ i q, ih_node i idx2 ∧ ih_max_edge n idx2 q) d2 ∧
      ordered less (λ p c, ih_min_edge p c ∧ c ≠ idx2) d2 ∧
      updZ d2 idx2 x ≡ₚ d).
    set (Post := λ s : list T * Z * Z,
      let '(d2, idx2, _) := s in Final d2 idx2).
    run_do_while Inv Post (λ s : list T * Z * Z, s.1.2) s' HP.
    - clear dependent d1. clear dependent idx.
      try clear dependent hp. clear dependent p.
      intros [[d2 idx2] par2]
        (-> & Hsz2 & Hslot2 & Hidx2 & (p2 & Hp2 & Elt) &
         J1 & J2 & J3 & J4 & J5 & J6 & J7 & Hperm2).
      simpl. split; [lia|].
      set (par2 := (idx2 - 2) / 4 * 2 + 1) in *.
      rewrite (at_ok _ _ _ Hp2). simpl. rewrite store_ok by lia. simpl.
      eexists; split; [reflexivity|]. simpl. change (0 +% 1) with 1.
      assert (updZ (updZ d2 idx2 p2) par2 x ≡ₚ d) as Hperm3.
      { rewrite <- Hperm2. rewrite <- (updZ_updZ_eq d2 idx2 x p2).
        apply updZ_swap_perm.
        - apply nthZ_updZ_eq. lia.
        - rewrite nthZ_updZ_ne by lia. done. }
      destruct (Z.ltb_spec 1 par2) as [Hdeep|Hroot].
      + rewrite ih_get_parent_pos by (rewrite width_value; lia).
        rewrite size_add_small by (rewrite width_value; lia).
        destruct (nthZ_is_Some d2 ((par2 - 2) / 4 * 2 + 1)) as [q Hq];
          [lia|].
        assert (nthZ (updZ d2 idx2 p2) ((par2 - 2) / 4 * 2 + 1) = Some q)
          as Hq3 by rd.
        rewrite (at_ok _ _ _ Hq3). simpl.
        eexists; split; [reflexivity|]. saturate less.
        destruct (less q x) eqn:E.
        * split; [|simpl; lia].
          split; [done|]. rewrite size_updZ.
          split; [done|]. split; [lia|]. split; [lia|].
          split; [by exists q|].
          repeat split; try done; settle less.
        * unfold Final. rewrite size_updZ.
          split; [done|]. split; [lia|].
          repeat split; try done; settle less.
      + eexists; split; [reflexivity|]. saturate less.
        unfold Final. rewrite size_updZ.
        split; [done|]. split; [lia|].
        repeat split; try done; settle less.
    - simpl. split; [done|].
      split; [done|]. split; [done|]. split; [lia|]. split; [by exists hp|].
      repeat split; try done; settle less.
    - simpl. unfold IntervalHeap.fuel. unfold size in *. lia.
    - destruct s' as [[d2 idx2] par2]. simpl. by apply Hdone. }
  (* no ascent *)
  apply Hdone. unfold Final.
  split; [done|]. split; [done|]. repeat split; try done; settle less.
Qed.


End IntervalHeapUp.

Section IntervalHeapExtremes.
Context {T : Type} (less : T → T → bool) (Hswo : StrictWeakOrder less).
Implicit Types (d : list T) (i idx k : Z) (cur : T).

(** *** The root node holds the extremes *)

Lemma ih_root_least d m :
  ih_heap less d → nthZ d 0 = Some m →
  ∀ i y, nthZ d i = Some y → le less m y.
Proof.
  intros (Hint & Hmin & Hmax) Hm.
  unfold ih_intervals, ih_min_from, ih_max_from in *.
  assert (H : ∀ k : nat, ∀ i y,
    0 ≤ i → i / 2 ≤ Z.of_nat k → nthZ d i = Some y → le less m y).
  { intros k. induction k as [|k IH]; intros i y Hi Hk Hy.
    - assert (i = 0 ∨ i = 1) as [->| ->] by lia; order less.
    - destruct (decide (i / 2 ≤ Z.of_nat k)) as [|Hnew]; [by apply (IH i)|].
      ranges.
      destruct (nthZ_is_Some d ((i / 2 * 2 - 2) / 4 * 2)) as [p Hp]; [lia|].
      assert (le less m p) by (apply (IH ((i / 2 * 2 - 2) / 4 * 2)); [lia|lia|done]).
      destruct (nthZ_is_Some d (i / 2 * 2)) as [lo Hlo]; [lia|].
      destruct (decide (i mod 2 = 0)); saturate less; order less. }
  intros i y Hy. ranges. apply (H (Z.to_nat i) i); [lia|lia|done].
Qed.

Lemma ih_root_greatest d M :
  ih_heap less d → nthZ d 1 = Some M →
  ∀ i y, nthZ d i = Some y → le less y M.
Proof.
  intros (Hint & Hmin & Hmax) HM.
  unfold ih_intervals, ih_min_from, ih_max_from in *.
  assert (H : ∀ k : nat, ∀ i y,
    0 ≤ i → i / 2 ≤ Z.of_nat k → nthZ d i = Some y → le less y M).
  { intros k. induction k as [|k IH]; intros i y Hi Hk Hy.
    - assert (i = 0 ∨ i = 1) as [->| ->] by lia; order less.
    - destruct (decide (i / 2 ≤ Z.of_nat k)) as [|Hnew]; [by apply (IH i)|].
      ranges.
      destruct (nthZ_is_Some d ((i / 2 * 2 - 2) / 4 * 2 + 1)) as [p Hp];
        [lia|].
      assert (le less p M)
        by (apply (IH ((i / 2 * 2 - 2) / 4 * 2 + 1)); [lia|lia|done]).
      destruct (decide (i / 2 * 2 + 1 < size d)) as [Hfull|Hlone].
      + destruct (nthZ_is_Some d (i / 2 * 2 + 1)) as [hi Hhi]; [lia|].
        destruct (decide (i mod 2 = 0)); saturate less; order less.
      + saturate less. order less. }
  intros i y Hy. ranges. apply (H (Z.to_nat i) i); [lia|lia|done].
Qed.

End IntervalHeapExtremes.

Section IntervalHeapOps.
Context {T : Type} (less : T → T → bool) (Hswo : StrictWeakOrder less).
Implicit Types (d : list T) (i idx k : Z) (cur : T).

(** *** push *)

Lemma ih_push_spec d x :
  size d < MAX_SIZE →
  ih_heap less d →
  ∃ d', IntervalHeap.push less d x = Ok d' ∧
        ih_heap less d' ∧ d' ≡ₚ x :: d ∧ size d' = size d + 1.
Proof.
  intros Hd Hinv. pose proof Hd as Hd'. rewrite max_size_value in Hd'.
  pose proof (size_nonneg d).
  unfold IntervalHeap.push.
  rewrite size_push_back, size_sub_small by (rewrite width_value; lia).
  replace (size d + 1 - 1) with (size d) by lia.
  by apply ih_bubble_up_spec.
Qed.

(** *** pop_min *)

Lemma ih_pop_min_spec d m :
  size d ≤ MAX_SIZE →
  nthZ d 0 = Some m →
  ih_heap less d →
  ∃ d', IntervalHeap.pop_min less d = Ok d' ∧
        ih_heap less d' ∧ m :: d' ≡ₚ d ∧ size d' = size d - 1.
Proof.
  intros Hd Hm Hinv. pose proof Hd as Hd'. rewrite max_size_value in Hd'.
  pose proof (nthZ_Some_lt _ _ _ Hm) as Hn.
  pose proof (ih_root_least less Hswo d m Hinv Hm) as Hleast.
  unfold IntervalHeap.pop_min, IntervalHeap.ROOT.
  rewrite empty_false by lia. simpl.
  destruct (Z.eqb_spec (size d) 1) as [H1|H1].
  { rewrite pop_back_ok by lia. eexists; split; [done|].
    rewrite size_take_last by lia. split; [|split; [|done]].
    - unfold ih_heap, ih_intervals, ih_min_from, ih_max_from.
      repeat split; unfold ordered; intros; lookups; lia.
    - apply take_last_perm. by replace (size d - 1) with 0 by lia. }
  destruct (nthZ_is_Some d 1) as [M HM]; [lia|].
  pose proof (ih_root_greatest less Hswo d M Hinv HM) as Hgreatest.
  destruct Hinv as (Hint & Hmin & Hmax).
  unfold ih_heap, ih_intervals, ih_min_from, ih_max_from in *.
  set (n := size d) in *.
  rewrite !size_sub_small by (rewrite width_value; lia).
  destruct (nthZ_is_Some d (n - 1)) as [z Hz]; [lia|].
  assert (le less z M) as HzM by eauto.
  destruct (Z.eqb_spec (n mod 2) 0) as [Heven|Hodd]; simpl.
  - (* the last node is full: its min goes to the root, its max becomes
       a trailing min *)
    destruct (nthZ_is_Some d (n - 2)) as [y Hy]; [lia|].
    assert (le less y M) as HyM by eauto.
    rewrite (at_ok _ _ _ Hy). simpl. rewrite store_ok by lia. simpl.
    assert (nthZ (updZ d 0 y) (n - 1) = Some z) as Hz1 by rd.
    rewrite (at_ok _ _ _ Hz1). simpl.
    rewrite store_ok by (rewrite size_updZ; lia). simpl.
    assert (size (updZ (updZ d 0 y) (n - 2) z) = n) as Hsz1
      by (by rewrite !size_updZ).
    rewrite pop_back_ok by lia. simpl.
    pose proof (size_take_last (updZ (updZ d 0 y) (n - 2) z) ltac:(lia))
      as Hsz2.
    assert (m :: take (Z.to_nat (size (updZ (updZ d 0 y) (n - 2) z) - 1))
                   (updZ (updZ d 0 y) (n - 2) z) ≡ₚ d) as Hperm.
    { apply (Permutation_cons_inv (a:=z)).
      rewrite Permutation_swap, take_last_perm by (rewrite Hsz1; rd).
      apply (Permutation_cons_inv (a:=y)).
      rewrite Permutation_swap.
      rewrite (updZ_replace_perm (updZ d 0 y) (n - 2) y z) by rd.
      rewrite (Permutation_swap z m), (Permutation_swap z y). f_equiv.
      by apply updZ_replace_perm. }
    destruct (ih_bubble_down_min_spec less Hswo 0
                (take (Z.to_nat (size (updZ (updZ d 0 y) (n - 2) z) - 1))
                   (updZ (updZ d 0 y) (n - 2) z)) 0)
      as (d3 & -> & H1' & H2' & H3' & Hp3 & Hsz3); try lia; try done.
    + unfold ih_intervals. saturate less. settle less.
    + unfold ih_max_from. rewrite Hsz2, Hsz1. saturate less. settle less.
    + saturate less. settle less.
    + intros ? ? ? ? HR. lia.
    + eexists; split; [done|]. split; [done|]. split; [by rewrite Hp3|lia].
  - (* the last node is a trailing min: it goes to the root *)
    rewrite (at_ok _ _ _ Hz). simpl. rewrite store_ok by lia. simpl.
    assert (size (updZ d 0 z) = n) as Hsz1 by (by rewrite !size_updZ).
    rewrite pop_back_ok by lia. simpl.
    pose proof (size_take_last (updZ d 0 z) ltac:(lia)) as Hsz2.
    assert (m :: take (Z.to_nat (size (updZ d 0 z) - 1)) (updZ d 0 z) ≡ₚ d)
      as Hperm.
    { apply (Permutation_cons_inv (a:=z)).
      rewrite Permutation_swap, take_last_perm by (rewrite Hsz1; rd).
      by apply updZ_replace_perm. }
    destruct (ih_bubble_down_min_spec less Hswo 0
                (take (Z.to_nat (size (updZ d 0 z) - 1)) (updZ d 0 z)) 0)
      as (d3 & -> & H1' & H2' & H3' & Hp3 & Hsz3); try lia; try done.
    + unfold ih_intervals. saturate less. settle less.
    + unfold ih_max_from. rewrite Hsz2, Hsz1. saturate less. settle less.
    + saturate less. settle less.
    + intros ? ? ? ? HR. lia.
    + eexists; split; [done|]. split; [done|]. split; [by rewrite Hp3|lia].
Qed.

(** *** pop_max *)

Lemma ih_pop_max_spec d :
  size d ≤ MAX_SIZE →
  0 < size d →
  ih_heap less d →
  ∃ d' M, IntervalHeap.pop_max less d = Ok d' ∧
        IntervalHeap.max d = Ok M ∧
        ih_heap less d' ∧ M :: d' ≡ₚ d ∧ size d' = size d - 1.
Proof.
  intros Hd Hn Hinv. pose proof Hd as Hd'. rewrite max_size_value in Hd'.
  destruct (nthZ_is_Some d 0) as [m Hm]; [lia|].
  pose proof (ih_root_least less Hswo d m Hinv Hm) as Hleast.
  unfold IntervalHeap.pop_max, IntervalHeap.max, IntervalHeap.ROOT.
  rewrite empty_false by lia. simpl.
  destruct (Z.eqb_spec (size d) 1) as [H1|H1].
  { rewrite pop_back_ok by lia. rewrite (proj2 (Z.ltb_ge 1 (size d))) by lia.
    rewrite (at_ok _ _ _ Hm). eexists _, _; split; [done|]. split; [done|].
    rewrite size_take_last by lia. split; [|split; [|done]].
    - unfold ih_heap, ih_intervals, ih_min_from, ih_max_from.
      repeat split; unfold ordered; intros; lookups; lia.
    - apply take_last_perm. by replace (size d - 1) with 0 by lia. }
  rewrite (proj2 (Z.ltb_lt 1 (size d))) by lia.
  change (0 +% 1) with 1.
  destruct (nthZ_is_Some d 1) as [M HM]; [lia|].
  rewrite (at_ok _ _ _ HM).
  destruct Hinv as (Hint & Hmin & Hmax).
  unfold ih_heap, ih_intervals, ih_min_from, ih_max_from in *.
  set (n := size d) in *.
  rewrite !size_sub_small by (rewrite width_value; lia).
  destruct (nthZ_is_Some d (n - 1)) as [z Hz]; [lia|].
  assert (le less m z) as Hmz by eauto.
  rewrite (at_ok _ _ _ Hz). simpl. rewrite store_ok by lia. simpl.
  assert (size (updZ d 1 z) = n) as Hsz1 by (by rewrite !size_updZ).
  rewrite pop_back_ok by lia. simpl.
  pose proof (size_take_last (updZ d 1 z) ltac:(lia)) as Hsz2.
  assert (M :: take (Z.to_nat (size (updZ d 1 z) - 1)) (updZ d 1 z) ≡ₚ d)
    as Hperm.
  { apply (Permutation_cons_inv (a:=z)).
    rewrite Permutation_swap, take_last_perm by (rewrite Hsz1; rd).
    by apply updZ_replace_perm. }
  destruct (Z.ltb_spec 2 n) as [Hbig|Hsmall].
  - destruct (ih_bubble_down_max_spec less Hswo 0 0
                (take (Z.to_nat (size (updZ d 1 z) - 1)) (updZ d 1 z)) 1)
      as (d3 & -> & H1' & H2' & H3' & Hp3 & Hsz3); try lia; try done.
    + unfold ih_intervals. saturate less. settle less.
    + unfold ih_min_from. saturate less. settle less.
    + rewrite Hsz2, Hsz1. saturate less.
      destruct (decide (n mod 2 = 0)); settle_cases less.
    + intros ? ? ? ? HR. lia.
    + eexists _, _; split; [done|]. split; [done|]. split; [done|].
      split; [by rewrite Hp3|lia].
  - eexists _, _; split; [done|]. split; [done|].
    split; [|split; [done|lia]]. rewrite Hsz2, Hsz1.
    repeat split; unfold ordered; intros; lookups; lia.
Qed.

(** *** replace_min *)

Lemma ih_replace_min_spec d m val :
  size d ≤ MAX_SIZE →
  nthZ d 0 = Some m →
  ih_heap less d →
  ∃ d', IntervalHeap.replace_min less d val = Ok d' ∧
        ih_heap less d' ∧ m :: d' ≡ₚ val :: d ∧ size d' = size d.
Proof.
  intros Hd Hm Hinv. pose proof Hd as Hd'. rewrite max_size_value in Hd'.
  pose proof (nthZ_Some_lt _ _ _ Hm) as Hn.
  unfold IntervalHeap.replace_min, IntervalHeap.ROOT.
  rewrite empty_false by lia. simpl. rewrite store_ok by lia. simpl.
  unfold IntervalHeap.balance_node_check, IntervalHeap.balance_node.
  change (0 +% 1) with 1. rewrite size_updZ.
  destruct Hinv as (Hint & Hmin & Hmax).
  unfold ih_heap, ih_intervals, ih_min_from, ih_max_from in *.
  set (n := size d) in *.
  pose proof (updZ_replace_perm _ _ _ val Hm) as Hp1.
  assert (nthZ (updZ d 0 val) 0 = Some val) as Hv by rd.
  destruct (Z.ltb_spec 1 n) as [Hbig|Hone].
  - destruct (nthZ_is_Some d 1) as [M HM]; [lia|].
    assert (nthZ (updZ d 0 val) 1 = Some M) as HM1 by rd.
    rewrite (at_ok _ _ _ HM1), (at_ok _ _ _ Hv). simpl.
    destruct (less M val) eqn:E; simpl.
    + rewrite (swap_at_ok _ _ _ _ _ HM1 Hv). simpl.
      destruct (ih_bubble_down_min_spec less Hswo 0
                  (updZ (updZ (updZ d 0 val) 1 val) 0 M) 0)
        as (d3 & -> & H1' & H2' & H3' & Hp3 & Hsz3);
        rewrite ?size_updZ; try lia; try done.
      * unfold ih_intervals. saturate less. settle less.
      * unfold ih_max_from. rewrite !size_updZ. saturate less. settle less.
      * saturate less. settle less.
      * intros ? ? ? ? HR. lia.
      * eexists; split; [done|]. split; [done|]. rewrite !size_updZ in Hsz3.
        split; [|done]. rewrite Hp3, updZ_swap_perm by done. done.
    + destruct (ih_bubble_down_min_spec less Hswo 0 (updZ d 0 val) 0)
        as (d3 & -> & H1' & H2' & H3' & Hp3 & Hsz3);
        rewrite ?size_updZ; try lia; try done.
      * unfold ih_intervals. saturate less. settle less.
      * unfold ih_max_from. rewrite !size_updZ. saturate less. settle less.
      * saturate less. settle less.
      * intros ? ? ? ? HR. lia.
      * eexists; split; [done|]. split; [done|]. rewrite !size_updZ in Hsz3.
        split; [|done]. by rewrite Hp3.
  - simpl.
    destruct (ih_bubble_down_min_spec less Hswo 0 (updZ d 0 val) 0)
      as (d3 & -> & H1' & H2' & H3' & Hp3 & Hsz3);
      rewrite ?size_updZ; try lia; try done.
    + unfold ih_intervals. unfold ordered; intros; lookups; lia.
    + unfold ih_max_from. unfold ordered; intros; lookups; lia.
    + unfold ordered; intros; lookups; lia.
    + intros ? ? ? ? HR. lia.
    + eexists; split; [done|]. split; [done|]. rewrite !size_updZ in Hsz3.
      split; [|done]. by rewrite Hp3.
Qed.

(** *** replace_max *)

Lemma ih_replace_max_spec d val :
  size d ≤ MAX_SIZE →
  0 < size d →
  ih_heap less d →
  ∃ d' M, IntervalHeap.replace_max less d val = Ok d' ∧
        IntervalHeap.max d = Ok M ∧
        ih_heap less d' ∧ M :: d' ≡ₚ val :: d ∧ size d' = size d.
Proof.
  intros Hd Hn Hinv. pose proof Hd as Hd'. rewrite max_size_value in Hd'.
  destruct (nthZ_is_Some d 0) as [m Hm]; [lia|].
  unfold IntervalHeap.replace_max, IntervalHeap.max, IntervalHeap.ROOT.
  rewrite empty_false by lia. simpl.
  destruct (Z.eqb_spec (size d) 1) as [H1|H1].
  { rewrite store_ok by lia. rewrite (proj2 (Z.ltb_ge 1 (size d))) by lia.
    rewrite (at_ok _ _ _ Hm). eexists _, _; split; [done|]. split; [done|].
    rewrite size_updZ. split; [|split; [|done]].
    - unfold ih_heap, ih_intervals, ih_min_from, ih_max_from.
      repeat split; unfold ordered; intros; lookups; lia.
    - by apply updZ_replace_perm. }
  rewrite (proj2 (Z.ltb_lt 1 (size d))) by lia.
  change (0 +% 1) with 1.
  destruct (nthZ_is_Some d 1) as [M HM]; [lia|].
  rewrite (at_ok _ _ _ HM). rewrite store_ok by lia. simpl.
  unfold IntervalHeap.balance_node. change (0 +% 1) with 1.
  destruct Hinv as (Hint & Hmin & Hmax).
  unfold ih_heap, ih_intervals, ih_min_from, ih_max_from in *.
  set (n := size d) in *.
  pose proof (updZ_replace_perm _ _ _ val HM) as Hp1.
  assert (nthZ (updZ d 1 val) 1 = Some val) as Hv by rd.
  assert (nthZ (updZ d 1 val) 0 = Some m) as Hm1 by rd.
  rewrite (at_ok _ _ _ Hv), (at_ok _ _ _ Hm1). simpl.
  destruct (less val m) eqn:E; simpl.
  - rewrite (swap_at_ok _ _ _ _ _ Hv Hm1). simpl.
    destruct (ih_bubble_down_max_spec less Hswo 0 0
                (updZ (updZ (updZ d 1 val) 1 m) 0 val) 1)
      as (d3 & -> & H1' & H2' & H3' & Hp3 & Hsz3);
      rewrite ?size_updZ; try lia; try done.
    + unfold ih_intervals. saturate less. settle less.
    + unfold ih_min_from. saturate less. settle less.
    + saturate less. settle less.
    + intros ? ? ? ? HR. lia.
    + eexists _, _; split; [done|]. split; [done|]. split; [done|].
      rewrite !size_updZ in Hsz3.
      split; [|done]. rewrite Hp3, updZ_swap_perm by done. done.
  - destruct (ih_bubble_down_max_spec less Hswo 0 0 (updZ d 1 val) 1)
      as (d3 & -> & H1' & H2' & H3' & Hp3 & Hsz3);
      rewrite ?size_updZ; try lia; try done.
    + unfold ih_intervals. saturate less. settle less.
    + unfold ih_min_from. saturate less. settle less.
    + saturate less. settle less.
    + intros ? ? ? ? HR. lia.
    + eexists _, _; split; [done|]. split; [done|]. split; [done|].
      rewrite !size_updZ in Hsz3. split; [|done]. by rewrite Hp3.
Qed.

End IntervalHeapOps.

(** * Heap objects and their reachable states *)

Section Specification.
Context {T : Type}.

(** [m] is a minimum (resp. maximum) of the multiset [ms] under [less]. *)
Definition is_min_of (less : T → T → bool) (m : T) (ms : list T) : Prop :=
  m ∈ ms ∧ ∀ y, y ∈ ms → less y m = false.

Definition is_max_of (less : T → T → bool) (M : T) (ms : list T) : Prop :=
  M ∈ ms ∧ ∀ y, y ∈ ms → less M y = false.

(** The states a BinaryHeap object can be in, each with the multiset of the
    elements inserted so far minus those removed: what an independent
    reference structure would hold.  A [push] needs room in the container;
    [pop] and [replace_top] remove the value [top] shows. *)
Inductive bh_reach : BinaryHeap.t T → list T → Prop :=
| bh_reach_default c :
    StrictWeakOrder c → bh_reach (BinaryHeap.Heap c []) []
| bh_reach_construct c cont d :
    StrictWeakOrder c → fits cont →
    BinaryHeap.construct c cont = Ok d →
    bh_reach (BinaryHeap.Heap c d) cont
| bh_reach_push c d ms x d' :
    bh_reach (BinaryHeap.Heap c d) ms → size d < MAX_SIZE →
    BinaryHeap.push c d x = Ok d' →
    bh_reach (BinaryHeap.Heap c d') (x :: ms)
| bh_reach_emplace c d ms x d' :
    bh_reach (BinaryHeap.Heap c d) ms → size d < MAX_SIZE →
    BinaryHeap.emplace c d x = Ok d' →
    bh_reach (BinaryHeap.Heap c d') (x :: ms)
| bh_reach_pop c d ms m ms' d' :
    bh_reach (BinaryHeap.Heap c d) ms →
    BinaryHeap.top d = Ok m → ms ≡ₚ m :: ms' →
    BinaryHeap.pop c d = Ok d' →
    bh_reach (BinaryHeap.Heap c d') ms'
| bh_reach_replace_top c d ms m ms' val d' :
    bh_reach (BinaryHeap.Heap c d) ms →
    BinaryHeap.top d = Ok m → ms ≡ₚ m :: ms' →
    BinaryHeap.replace_top c d val = Ok d' →
    bh_reach (BinaryHeap.Heap c d') (val :: ms')
| bh_reach_swap_lhs a b ma mb :
    bh_reach a ma → bh_reach b mb → bh_reach (BinaryHeap.swap a b).1 mb
| bh_reach_swap_rhs a b ma mb :
    bh_reach a ma → bh_reach b mb → bh_reach (BinaryHeap.swap a b).2 ma
| bh_reach_move_target b mb :
    bh_reach b mb → bh_reach (BinaryHeap.move b).1 mb
| bh_reach_move_source b mb :
    bh_reach b mb → bh_reach (BinaryHeap.move b).2 [].

(** The same for IntervalHeap: [pop_min] and [replace_min] remove the value
    [min] shows, [pop_max] and [replace_max] the value [max] shows. *)
Inductive ih_reach : IntervalHeap.t T → list T → Prop :=
| ih_reach_default c :
    StrictWeakOrder c → ih_reach (IntervalHeap.Heap c []) []
| ih_reach_construct c cont d :
    StrictWeakOrder c → fits cont →
    IntervalHeap.construct c cont = Ok d →
    ih_reach (IntervalHeap.Heap c d) cont
| ih_reach_push c d ms x d' :
    ih_reach (IntervalHeap.Heap c d) ms → size d < MAX_SIZE →
    IntervalHeap.push c d x = Ok d' →
    ih_reach (IntervalHeap.Heap c d') (x :: ms)
| ih_reach_emplace c d ms x d' :
    ih_reach (IntervalHeap.Heap c d) ms → size d < MAX_SIZE →
    IntervalHeap.emplace c d x = Ok d' →
    ih_reach (IntervalHeap.Heap c d') (x :: ms)
| ih_reach_pop_min c d ms m ms' d' :
    ih_reach (IntervalHeap.Heap c d) ms →
    IntervalHeap.min d = Ok m → ms ≡ₚ m :: ms' →
    IntervalHeap.pop_min c d = Ok d' →
    ih_reach (IntervalHeap.Heap c d') ms'
| ih_reach_pop_max c d ms M ms' d' :
    ih_reach (IntervalHeap.Heap c d) ms →
    IntervalHeap.max d = Ok M → ms ≡ₚ M :: ms' →
    IntervalHeap.pop_max c d = Ok d' →
    ih_reach (IntervalHeap.Heap c d') ms'
| ih_reach_replace_min c d ms m ms' val d' :
    ih_reach (IntervalHeap.Heap c d) ms →
    IntervalHeap.min d = Ok m → ms ≡ₚ m :: ms' →
    IntervalHeap.replace_min c d val = Ok d' →
    ih_reach (IntervalHeap.Heap c d') (val :: ms')
| ih_reach_replace_max c d ms M ms' val d' :
    ih_reach (IntervalHeap.Heap c d) ms →
    IntervalHeap.max d = Ok M → ms ≡ₚ M :: ms' →
    IntervalHeap.replace_max c d val = Ok d' →
    ih_reach (IntervalHeap.Heap c d') (val :: ms')
| ih_reach_swap_lhs a b ma mb :
    ih_reach a ma → ih_reach b mb → ih_reach (IntervalHeap.swap a b).1 mb
| ih_reach_swap_rhs a b ma mb :
    ih_reach a ma → ih_reach b mb → ih_reach (IntervalHeap.swap a b).2 ma
| ih_reach_move_target b mb :
    ih_reach b mb → ih_reach (IntervalHeap.move b).1 mb
| ih_reach_move_source b mb :
    ih_reach b mb → ih_reach (IntervalHeap.move b).2 [].

(** What holds of every reachable state. *)
Definition bh_valid (h : BinaryHeap.t T) (ms : list T) : Prop :=
  StrictWeakOrder (BinaryHeap._comp h) ∧ fits (BinaryHeap._data h) ∧
  bh_from (BinaryHeap._comp h) 0 (BinaryHeap._data h) ∧
  BinaryHeap._data h ≡ₚ ms.

Definition ih_valid (h : IntervalHeap.t T) (ms : list T) : Prop :=
  StrictWeakOrder (IntervalHeap._comp h) ∧ fits (IntervalHeap._data h) ∧
  ih_heap (IntervalHeap._comp h) (IntervalHeap._data h) ∧
  IntervalHeap._data h ≡ₚ ms.

End Specification.

Section Reachable.
Context {T : Type}.
Implicit Types (d : list T) (ms : list T).

Lemma fits_nil : fits (@nil T).
Proof. unfold fits. rewrite size_nil, max_size_value. lia. Qed.

Lemma bh_from_nil (c : T → T → bool) k : bh_from c k [].
Proof.
  unfold bh_from, ordered. intros i j x y _ Hi.
  apply nthZ_Some_lt in Hi. unfold size in Hi. simpl in Hi. lia.
Qed.

Lemma ih_heap_nil (c : T → T → bool) : ih_heap c [].
Proof.
  repeat split; intros i j x y _ Hi;
    apply nthZ_Some_lt in Hi; unfold size in Hi; simpl in Hi; lia.
Qed.

Lemma bh_top_inv d m : BinaryHeap.top d = Ok m → nthZ d 0 = Some m.
Proof.
  unfold BinaryHeap.top. destruct d; [done|]. simpl. apply at_inv.
Qed.

Lemma bh_top_ok d m : nthZ d 0 = Some m → BinaryHeap.top d = Ok m.
Proof.
  intros H. pose proof (nthZ_Some_lt _ _ _ H).
  unfold BinaryHeap.top. rewrite empty_false by lia. simpl. by apply at_ok.
Qed.

Lemma ih_min_inv d m : IntervalHeap.min d = Ok m → nthZ d 0 = Some m.
Proof.
  unfold IntervalHeap.min. destruct d; [done|]. simpl. apply at_inv.
Qed.

Lemma ih_min_ok d m : nthZ d 0 = Some m → IntervalHeap.min d = Ok m.
Proof.
  intros H. pose proof (nthZ_Some_lt _ _ _ H).
  unfold IntervalHeap.min. rewrite empty_false by lia. simpl. by apply at_ok.
Qed.

Lemma bh_reach_valid (h : BinaryHeap.t T) ms : bh_reach h ms → bh_valid h ms.
Proof.
  unfold bh_valid. induction 1 as
    [c Hc|c cont d Hc Hfit Hd
    |c d ms x d' _ IH Hroom Hd|c d ms x d' _ IH Hroom Hd
    |c d ms m ms' d' _ IH Hm Hms Hd|c d ms m ms' val d' _ IH Hm Hms Hd
    |a b ma mb _ IHa _ IHb|a b ma mb _ IHa _ IHb
    |b mb _ IH|b mb _ IH]; simpl in *.
  - split; [done|]. split; [apply fits_nil|]. split; [apply bh_from_nil|done].
  - destruct (bh_heapify_spec c Hc cont Hfit) as (d1 & Hd1 & Hinv & Hp & Hsz).
    unfold BinaryHeap.construct in Hd. assert (d1 = d) as -> by congruence.
    split; [done|]. unfold fits. rewrite Hsz. done.
  - destruct IH as (Hc & Hfit & Hinv & Hp).
    destruct (bh_push_spec c Hc d x Hroom Hinv) as (d1 & Hd1 & Hinv1 & Hp1 & Hsz).
    assert (d1 = d') as -> by congruence. split; [done|]. unfold fits. rewrite Hsz.
    split; [lia|]. split; [done|]. by rewrite Hp1, Hp.
  - destruct IH as (Hc & Hfit & Hinv & Hp).
    destruct (bh_push_spec c Hc d x Hroom Hinv) as (d1 & Hd1 & Hinv1 & Hp1 & Hsz).
    unfold BinaryHeap.emplace in Hd. unfold BinaryHeap.push in Hd1.
    assert (d1 = d') as -> by congruence. split; [done|]. unfold fits. rewrite Hsz.
    split; [lia|]. split; [done|]. by rewrite Hp1, Hp.
  - destruct IH as (Hc & Hfit & Hinv & Hp). apply bh_top_inv in Hm.
    destruct (bh_pop_spec c Hc d m Hfit Hm Hinv) as (d1 & Hd1 & Hinv1 & Hp1 & Hsz).
    assert (d1 = d') as -> by congruence. split; [done|]. unfold fits in *. rewrite Hsz.
    split; [lia|]. split; [done|].
    apply (Permutation_cons_inv (a:=m)). by rewrite Hp1, Hp.
  - destruct IH as (Hc & Hfit & Hinv & Hp). apply bh_top_inv in Hm.
    destruct (bh_replace_top_spec c Hc d m val Hfit Hm Hinv)
      as (d1 & Hd1 & Hinv1 & Hp1 & Hsz).
    assert (d1 = d') as -> by congruence. split; [done|]. unfold fits in *. rewrite Hsz.
    split; [lia|]. split; [done|].
    apply (Permutation_cons_inv (a:=m)).
    rewrite Hp1, Hp, Hms. apply Permutation_swap.
  - done.
  - done.
  - done.
  - destruct IH as (Hc & _). split; [done|]. split; [apply fits_nil|].
    split; [apply bh_from_nil|done].
Qed.

Lemma ih_max_inv d M :
  IntervalHeap.max d = Ok M →
  (1 < size d ∧ nthZ d 1 = Some M) ∨ (size d = 1 ∧ nthZ d 0 = Some M).
Proof.
  unfold IntervalHeap.max, IntervalHeap.ROOT. destruct d as [|a d]; [done|].
  simpl. change (0 +% 1) with 1.
  destruct (Z.ltb_spec 1 (size (a :: d))) as [H|H]; intros E%at_inv.
  - by left.
  - right. split; [|done]. apply nthZ_Some_lt in E. lia.
Qed.

Lemma ih_reach_valid (h : IntervalHeap.t T) ms : ih_reach h ms → ih_valid h ms.
Proof.
  unfold ih_valid. induction 1 as
    [c Hc|c cont d Hc Hfit Hd
    |c d ms x d' _ IH Hroom Hd|c d ms x d' _ IH Hroom Hd
    |c d ms m ms' d' _ IH Hm Hms Hd|c d ms m ms' d' _ IH Hm Hms Hd
    |c d ms m ms' val d' _ IH Hm Hms Hd|c d ms m ms' val d' _ IH Hm Hms Hd
    |a b ma mb _ IHa _ IHb|a b ma mb _ IHa _ IHb
    |b mb _ IH|b mb _ IH]; simpl in *.
  - split; [done|]. split; [apply fits_nil|]. split; [apply ih_heap_nil|done].
  - destruct (ih_heapify_spec c Hc cont Hfit) as (d1 & Hd1 & Hinv & Hp & Hsz).
    unfold IntervalHeap.construct in Hd.
    assert (d1 = d) as -> by congruence.
    split; [done|]. unfold fits. rewrite Hsz. done.
  - destruct IH as (Hc & Hfit & Hinv & Hp).
    destruct (ih_push_spec c Hc d x Hroom Hinv) as (d1 & Hd1 & Hinv1 & Hp1 & Hsz).
    assert (d1 = d') as -> by congruence. split; [done|]. unfold fits. rewrite Hsz.
    split; [lia|]. split; [done|]. by rewrite Hp1, Hp.
  - destruct IH as (Hc & Hfit & Hinv & Hp).
    destruct (ih_push_spec c Hc d x Hroom Hinv) as (d1 & Hd1 & Hinv1 & Hp1 & Hsz).
    unfold IntervalHeap.emplace in Hd. unfold IntervalHeap.push in Hd1.
    assert (d1 = d') as -> by congruence. split; [done|]. unfold fits. rewrite Hsz.
    split; [lia|]. split; [done|]. by rewrite Hp1, Hp.
  - destruct IH as (Hc & Hfit & Hinv & Hp). apply ih_min_inv in Hm.
    destruct (ih_pop_min_spec c Hc d m Hfit Hm Hinv)
      as (d1 & Hd1 & Hinv1 & Hp1 & Hsz).
    assert (d1 = d') as -> by congruence. split; [done|]. unfold fits in *. rewrite Hsz.
    split; [lia|]. split; [done|].
    apply (Permutation_cons_inv (a:=m)). by rewrite Hp1, Hp.
  - destruct IH as (Hc & Hfit & Hinv & Hp).
    assert (0 < size d) as Hpos.
    { destruct (ih_max_inv _ _ Hm) as [[? _]|[? _]]; lia. }
    destruct (ih_pop_max_spec c Hc d Hfit Hpos Hinv)
      as (d1 & M & Hd1 & HM & Hinv1 & Hp1 & Hsz).
    assert (d1 = d') as -> by congruence.
    assert (M = m) as -> by congruence. split; [done|]. unfold fits in *. rewrite Hsz.
    split; [lia|]. split; [done|].
    apply (Permutation_cons_inv (a:=m)). by rewrite Hp1, Hp.
  - destruct IH as (Hc & Hfit & Hinv & Hp). apply ih_min_inv in Hm.
    destruct (ih_replace_min_spec c Hc d m val Hfit Hm Hinv)
      as (d1 & Hd1 & Hinv1 & Hp1 & Hsz).
    assert (d1 = d') as -> by congruence. split; [done|]. unfold fits in *. rewrite Hsz.
    split; [lia|]. split; [done|].
    apply (Permutation_cons_inv (a:=m)).
    rewrite Hp1, Hp, Hms. apply Permutation_swap.
  - destruct IH as (Hc & Hfit & Hinv & Hp).
    assert (0 < size d) as Hpos.
    { destruct (ih_max_inv _ _ Hm) as [[? _]|[? _]]; lia. }
    destruct (ih_replace_max_spec c Hc d val Hfit Hpos Hinv)
      as (d1 & M & Hd1 & HM & Hinv1 & Hp1 & Hsz).
    assert (d1 = d') as -> by congruence.
    assert (M = m) as -> by congruence. split; [done|]. unfold fits in *. rewrite Hsz.
    split; [lia|]. split; [done|].
    apply (Permutation_cons_inv (a:=m)).
    rewrite Hp1, Hp, Hms. apply Permutation_swap.
  - done.
  - done.
  - done.
  - destruct IH as (Hc & _). split; [done|]. split; [apply fits_nil|].
    split; [apply ih_heap_nil|done].
Qed.

End Reachable.

(** * Extremes and invariants of reachable states *)

Section ReachableStates.
Context {T : Type}.
Implicit Types (d ms : list T).

Lemma elem_of_nthZ d (y : T) : y ∈ d ↔ ∃ i, nthZ d i = Some y.
Proof.
  rewrite list_elem_of_lookup. split.
  - intros [i Hi]. exists (Z.of_nat i). unfold nthZ, size.
    pose proof (lookup_lt_Some _ _ _ Hi).
    rewrite decide_True by lia. by rewrite Nat2Z.id.
  - intros [i Hi]. unfold nthZ in Hi. case_decide; [|done]. eauto.
Qed.

Lemma bh_valid_nonempty (h : BinaryHeap.t T) ms :
  bh_valid h ms → ms ≠ [] → ∃ m, nthZ (BinaryHeap._data h) 0 = Some m.
Proof.
  intros (_ & _ & _ & Hp) Hne. apply nthZ_is_Some.
  destruct (BinaryHeap._data h) as [|a d].
  - apply Permutation_nil_l in Hp. done.
  - unfold size. simpl. lia.
Qed.

Lemma ih_valid_nonempty (h : IntervalHeap.t T) ms :
  ih_valid h ms → ms ≠ [] → ∃ m, nthZ (IntervalHeap._data h) 0 = Some m.
Proof.
  intros (_ & _ & _ & Hp) Hne. apply nthZ_is_Some.
  destruct (IntervalHeap._data h) as [|a d].
  - apply Permutation_nil_l in Hp. done.
  - unfold size. simpl. lia.
Qed.

Lemma bh_top_is_min (less : T → T → bool) d ms m :
  StrictWeakOrder less → bh_from less 0 d → d ≡ₚ ms →
  nthZ d 0 = Some m → is_min_of less m ms.
Proof.
  intros Hswo Hinv Hp Hm. split.
  - rewrite <- Hp. apply elem_of_nthZ. eauto.
  - intros y Hy. rewrite <- Hp in Hy. apply elem_of_nthZ in Hy as [i Hi].
    apply (bh_root_least less Hswo d m Hinv Hm i y Hi).
Qed.

Lemma ih_min_is_min (less : T → T → bool) d ms m :
  StrictWeakOrder less → ih_heap less d → d ≡ₚ ms →
  nthZ d 0 = Some m → is_min_of less m ms.
Proof.
  intros Hswo Hinv Hp Hm. split.
  - rewrite <- Hp. apply elem_of_nthZ. eauto.
  - intros y Hy. rewrite <- Hp in Hy. apply elem_of_nthZ in Hy as [i Hi].
    apply (ih_root_least less Hswo d m Hinv Hm i y Hi).
Qed.

Lemma ih_max_is_max (less : T → T → bool) d ms M :
  StrictWeakOrder less → ih_heap less d → d ≡ₚ ms →
  IntervalHeap.max d = Ok M → is_max_of less M ms.
Proof.
  intros Hswo Hinv Hp HM.
  destruct (ih_max_inv _ _ HM) as [[Hsz H1]|[Hsz H0]].
  - split.
    + rewrite <- Hp. apply elem_of_nthZ. eauto.
    + intros y Hy. rewrite <- Hp in Hy. apply elem_of_nthZ in Hy as [i Hi].
      apply (ih_root_greatest less Hswo d M Hinv H1 i y Hi).
  - split.
    + rewrite <- Hp. apply elem_of_nthZ. eauto.
    + intros y Hy. rewrite <- Hp in Hy. apply elem_of_nthZ in Hy as [i Hi].
      pose proof (nthZ_Some_lt _ _ _ Hi).
      assert (i = 0) as -> by lia. assert (y = M) as -> by congruence.
      apply (swo_irrefl _ Hswo).
Qed.

Lemma ih_max_ok d :
  0 < size d → ∃ M, IntervalHeap.max d = Ok M.
Proof.
  intros Hn. unfold IntervalHeap.max, IntervalHeap.ROOT.
  rewrite empty_false by lia. simpl. change (0 +% 1) with 1.
  destruct (Z.ltb_spec 1 (size d)).
  - destruct (nthZ_is_Some d 1) as [M HM]; [lia|].
    exists M. by apply at_ok.
  - destruct (nthZ_is_Some d 0) as [M HM]; [lia|].
    exists M. by apply at_ok.
Qed.

(** What the operations do in a valid state: each returns, keeps the
    invariant and moves the size as it should. *)
Lemma bh_operations (less : T → T → bool) d :
  StrictWeakOrder less → fits d → bh_from less 0 d →
  (∀ x, size d < MAX_SIZE →
     ∃ d', BinaryHeap.push less d x = Ok d' ∧
           BinaryHeap.emplace less d x = Ok d' ∧
           bh_from less 0 d' ∧ size d' = size d + 1) ∧
  (0 < size d →
     ∃ m d', BinaryHeap.top d = Ok m ∧ BinaryHeap.min d = Ok m ∧
             BinaryHeap.pop less d = Ok d' ∧
             bh_from less 0 d' ∧ size d' = size d - 1) ∧
  (0 < size d → ∀ val,
     ∃ d', BinaryHeap.replace_top less d val = Ok d' ∧
           BinaryHeap.replace_min less d val = Ok d' ∧
           bh_from less 0 d' ∧ size d' = size d).
Proof.
  intros Hswo Hfit Hinv. split; [|split].
  - intros x Hroom.
    destruct (bh_push_spec less Hswo d x Hroom Hinv) as (d' & ? & ? & _ & ?).
    by exists d'.
  - intros Hpos. destruct (nthZ_is_Some d 0) as [m Hm]; [lia|].
    destruct (bh_pop_spec less Hswo d m Hfit Hm Hinv) as (d' & ? & ? & _ & ?).
    exists m, d'. split; [by apply bh_top_ok|]. split; [by apply bh_top_ok|].
    done.
  - intros Hpos val. destruct (nthZ_is_Some d 0) as [m Hm]; [lia|].
    destruct (bh_replace_top_spec less Hswo d m val Hfit Hm Hinv)
      as (d' & ? & ? & _ & ?).
    by exists d'.
Qed.

Lemma ih_operations (less : T → T → bool) d :
  StrictWeakOrder less → fits d → ih_heap less d →
  (∀ x, size d < MAX_SIZE →
     ∃ d', IntervalHeap.push less d x = Ok d' ∧
           IntervalHeap.emplace less d x = Ok d' ∧
           ih_heap less d' ∧ size d' = size d + 1) ∧
  (0 < size d →
     ∃ m M d1 d2, IntervalHeap.min d = Ok m ∧ IntervalHeap.max d = Ok M ∧
       IntervalHeap.pop_min less d = Ok d1 ∧
       IntervalHeap.pop_max less d = Ok d2 ∧
       ih_heap less d1 ∧ size d1 = size d - 1 ∧
       ih_heap less d2 ∧ size d2 = size d - 1) ∧
  (0 < size d → ∀ val,
     ∃ d1 d2, IntervalHeap.replace_min less d val = Ok d1 ∧
       IntervalHeap.replace_max less d val = Ok d2 ∧
       ih_heap less d1 ∧ size d1 = size d ∧
       ih_heap less d2 ∧ size d2 = size d).
Proof.
  intros Hswo Hfit Hinv. split; [|split].
  - intros x Hroom.
    destruct (ih_push_spec less Hswo d x Hroom Hinv) as (d' & ? & ? & _ & ?).
    by exists d'.
  - intros Hpos. destruct (nthZ_is_Some d 0) as [m Hm]; [lia|].
    destruct (ih_pop_min_spec less Hswo d m Hfit Hm Hinv)
      as (d1 & ? & ? & _ & ?).
    destruct (ih_pop_max_spec less Hswo d Hfit Hpos Hinv)
      as (d2 & M & ? & ? & ? & _ & ?).
    exists m, M, d1, d2. split; [by apply ih_min_ok|]. done.
  - intros Hpos val. destruct (nthZ_is_Some d 0) as [m Hm]; [lia|].
    destruct (ih_replace_min_spec less Hswo d m val Hfit Hm Hinv)
      as (d1 & ? & ? & _ & ?).
    destruct (ih_replace_max_spec less Hswo d val Hfit Hpos Hinv)
      as (d2 & M & ? & ? & ? & _ & ?).
    by exists d1, d2.
Qed.

(** C1. Extreme correctness: in every reachable state that holds an
    element, [top()] (alias [min()]) of a BinaryHeap is a minimum of the
    multiset of the elements inserted and not yet removed; [min()] and
    [max()] of an IntervalHeap are a minimum and a maximum of it, [max()]
    is [data\[1\]] when [size > 1] and [data\[0\]] otherwise, and on a heap
    of one element [max()] is what [min()] is. *)
Theorem extreme_correctness
    (hb : BinaryHeap.t T) (msb : list T)
    (hi : IntervalHeap.t T) (msi : list T) :
  (bh_reach hb msb → msb ≠ [] →
     ∃ m, BinaryHeap.top (BinaryHeap._data hb) = Ok m ∧
          BinaryHeap.min (BinaryHeap._data hb) = Ok m ∧
          is_min_of (BinaryHeap._comp hb) m msb) ∧
  (ih_reach hi msi → msi ≠ [] →
     ∃ m M, IntervalHeap.min (IntervalHeap._data hi) = Ok m ∧
            IntervalHeap.max (IntervalHeap._data hi) = Ok M ∧
            is_min_of (IntervalHeap._comp hi) m msi ∧
            is_max_of (IntervalHeap._comp hi) M msi ∧
            IntervalHeap.max (IntervalHeap._data hi) =
              (if 1 <? IntervalHeap.size (IntervalHeap._data hi)
               then at_ (IntervalHeap._data hi) 1
               else at_ (IntervalHeap._data hi) 0) ∧
            (IntervalHeap.size (IntervalHeap._data hi) = 1 → M = m)).
Proof.
  split.
  - intros Hr Hne. apply bh_reach_valid in Hr.
    destruct (bh_valid_nonempty _ _ Hr Hne) as [m Hm].
    destruct Hr as (Hswo & Hfit & Hinv & Hp).
    exists m. split; [by apply bh_top_ok|]. split; [by apply bh_top_ok|].
    by apply (bh_top_is_min _ (BinaryHeap._data hb)).
  - intros Hr Hne. apply ih_reach_valid in Hr.
    destruct (ih_valid_nonempty _ _ Hr Hne) as [m Hm].
    destruct Hr as (Hswo & Hfit & Hinv & Hp).
    pose proof (nthZ_Some_lt _ _ _ Hm) as Hn.
    destruct (ih_max_ok (IntervalHeap._data hi)) as [M HM]; [lia|].
    exists m, M. split; [by apply ih_min_ok|]. split; [done|].
    split; [by apply (ih_min_is_min _ (IntervalHeap._data hi))|].
    split; [by apply (ih_max_is_max _ (IntervalHeap._data hi))|].
    split.
    + unfold IntervalHeap.max, IntervalHeap.ROOT.
      rewrite empty_false by lia. done.
    + intros H1. change (size (IntervalHeap._data hi) = 1) in H1.
      destruct (ih_max_inv _ _ HM) as [[? _]|[_ H0]]; [lia|congruence].
Qed.

(** C2. Invariant preservation: the structural invariant holds in every
    reachable state, whatever constructor and sequence of [push],
    [emplace], [pop]/[pop_min]/[pop_max],
    [replace_top]/[replace_min]/[replace_max], [swap] and move led to it;
    the constructors return a state that satisfies it, and from a reachable
    state every operation returns one too ([push] and [emplace] where the
    container has room, the others where the heap is not empty). *)
Theorem invariant_preservation
    (hb : BinaryHeap.t T) (msb : list T)
    (hi : IntervalHeap.t T) (msi : list T) :
  (bh_reach hb msb →
     let less := BinaryHeap._comp hb in
     let d := BinaryHeap._data hb in
     bh_inv less d ∧
     (∀ cont, fits cont →
        ∃ d', BinaryHeap.construct less cont = Ok d' ∧ bh_inv less d') ∧
     (∀ x, size d < MAX_SIZE →
        ∃ d', BinaryHeap.push less d x = Ok d' ∧
              BinaryHeap.emplace less d x = Ok d' ∧ bh_inv less d') ∧
     (0 < size d →
        ∃ d', BinaryHeap.pop less d = Ok d' ∧ bh_inv less d') ∧
     (0 < size d → ∀ val,
        ∃ d', BinaryHeap.replace_top less d val = Ok d' ∧
              BinaryHeap.replace_min less d val = Ok d' ∧ bh_inv less d')) ∧
  (ih_reach hi msi →
     let less := IntervalHeap._comp hi in
     let d := IntervalHeap._data hi in
     ih_inv less d ∧
     (∀ cont, fits cont →
        ∃ d', IntervalHeap.construct less cont = Ok d' ∧ ih_inv less d') ∧
     (∀ x, size d < MAX_SIZE →
        ∃ d', IntervalHeap.push less d x = Ok d' ∧
              IntervalHeap.emplace less d x = Ok d' ∧ ih_inv less d') ∧
     (0 < size d →
        ∃ d1 d2, IntervalHeap.pop_min less d = Ok d1 ∧ ih_inv less d1 ∧
                 IntervalHeap.pop_max less d = Ok d2 ∧ ih_inv less d2) ∧
     (0 < size d → ∀ val,
        ∃ d1 d2,
          IntervalHeap.replace_min less d val = Ok d1 ∧ ih_inv less d1 ∧
          IntervalHeap.replace_max less d val = Ok d2 ∧ ih_inv less d2)).
Proof.
  split.
  - intros (Hswo & Hfit & Hinv & _)%bh_reach_valid. simpl.
    destruct (bh_operations _ _ Hswo Hfit Hinv) as (Hpush & Hpop & Hrep).
    split; [by apply bh_inv_from|]. split; [|split; [|split]].
    + intros cont Hcont.
      destruct (bh_heapify_spec _ Hswo cont Hcont) as (d' & E & Hd' & _).
      exists d'. split; [done|]. by apply bh_inv_from.
    + intros x Hroom. destruct (Hpush x Hroom) as (d' & ? & ? & Hd' & _).
      exists d'. split; [done|]. split; [done|]. by apply bh_inv_from.
    + intros Hpos. destruct (Hpop Hpos) as (m & d' & _ & _ & ? & Hd' & _).
      exists d'. split; [done|]. by apply bh_inv_from.
    + intros Hpos val. destruct (Hrep Hpos val) as (d' & ? & ? & Hd' & _).
      exists d'. split; [done|]. split; [done|]. by apply bh_inv_from.
  - intros (Hswo & Hfit & Hinv & _)%ih_reach_valid. simpl.
    destruct (ih_operations _ _ Hswo Hfit Hinv) as (Hpush & Hpop & Hrep).
    split; [by apply ih_inv_heap|]. split; [|split; [|split]].
    + intros cont Hcont.
      destruct (ih_heapify_spec _ Hswo cont Hcont) as (d' & E & Hd' & _).
      exists d'. split; [done|]. by apply ih_inv_heap.
    + intros x Hroom. destruct (Hpush x Hroom) as (d' & ? & ? & Hd' & _).
      exists d'. split; [done|]. split; [done|]. by apply ih_inv_heap.
    + intros Hpos.
      destruct (Hpop Hpos) as (m & M & d1 & d2 & _ & _ & ? & ? & H1 & _ & H2 & _).
      exists d1, d2. split; [done|]. split; [by apply ih_inv_heap|].
      split; [done|]. by apply ih_inv_heap.
    + intros Hpos val.
      destruct (Hrep Hpos val) as (d1 & d2 & ? & ? & H1 & _ & H2 & _).
      exists d1, d2. split; [done|]. split; [by apply ih_inv_heap|].
      split; [done|]. by apply ih_inv_heap.
Qed.

End ReachableStates.

(** * The natural order on integers, for the concrete runs *)

Lemma ltb_strict_weak_order : StrictWeakOrder Z.ltb.
Proof.
  split.
  - intros a. apply Z.ltb_irrefl.
  - intros a b c. rewrite !Z.ltb_lt. lia.
  - intros a b c. unfold equiv. rewrite !Z.ltb_ge. lia.
Qed.

Lemma fits_small {T : Type} (d : list T) :
  (length d ≤ 1000)%nat → fits d.
Proof. unfold fits, size. rewrite max_size_value. lia. Qed.

Section ReachableOperations.
Context {T : Type}.
Implicit Types (d ms : list T).

Lemma bh_empty_nil d : BinaryHeap.empty d = true → d = [].
Proof. by destruct d. Qed.

Lemma ih_empty_nil d : IntervalHeap.empty d = true → d = [].
Proof. by destruct d. Qed.

Lemma bh_empty_pos d : BinaryHeap.empty d = false → 0 < size d.
Proof. destruct d; [done|]. unfold size. simpl. lia. Qed.

Lemma ih_empty_pos d : IntervalHeap.empty d = false → 0 < size d.
Proof. destruct d; [done|]. unfold size. simpl. lia. Qed.

Lemma bh_reach_operations (h : BinaryHeap.t T) ms :
  bh_reach h ms →
  let less := BinaryHeap._comp h in
  let d := BinaryHeap._data h in
  (∀ x, size d < MAX_SIZE →
     ∃ d', BinaryHeap.push less d x = Ok d' ∧
           BinaryHeap.emplace less d x = Ok d' ∧
           bh_from less 0 d' ∧ size d' = size d + 1) ∧
  (0 < size d →
     ∃ m d', BinaryHeap.top d = Ok m ∧ BinaryHeap.min d = Ok m ∧
             BinaryHeap.pop less d = Ok d' ∧
             bh_from less 0 d' ∧ size d' = size d - 1) ∧
  (0 < size d → ∀ val,
     ∃ d', BinaryHeap.replace_top less d val = Ok d' ∧
           BinaryHeap.replace_min less d val = Ok d' ∧
           bh_from less 0 d' ∧ size d' = size d).
Proof.
  intros (Hswo & Hfit & Hinv & _)%bh_reach_valid. by apply bh_operations.
Qed.

Lemma ih_reach_operations (h : IntervalHeap.t T) ms :
  ih_reach h ms →
  let less := IntervalHeap._comp h in
  let d := IntervalHeap._data h in
  (∀ x, size d < MAX_SIZE →
     ∃ d', IntervalHeap.push less d x = Ok d' ∧
           IntervalHeap.emplace less d x = Ok d' ∧
           ih_heap less d' ∧ size d' = size d + 1) ∧
  (0 < size d →
     ∃ m M d1 d2, IntervalHeap.min d = Ok m ∧ IntervalHeap.max d = Ok M ∧
       IntervalHeap.pop_min less d = Ok d1 ∧
       IntervalHeap.pop_max less d = Ok d2 ∧
       ih_heap less d1 ∧ size d1 = size d - 1 ∧
       ih_heap less d2 ∧ size d2 = size d - 1) ∧
  (0 < size d → ∀ val,
     ∃ d1 d2, IntervalHeap.replace_min less d val = Ok d1 ∧
       IntervalHeap.replace_max less d val = Ok d2 ∧
       ih_heap less d1 ∧ size d1 = size d ∧
       ih_heap less d2 ∧ size d2 = size d).
Proof.
  intros (Hswo & Hfit & Hinv & _)%ih_reach_valid. by apply ih_operations.
Qed.

(** C7. Size/empty consistency: in every state of either container
    [size() == 0] exactly when [empty()]; on a reachable heap whose
    container has room, [push] and [emplace] return with the size one
    larger; on a reachable heap that is not empty, [pop], [pop_min] and
    [pop_max] return with the size one smaller. *)
Theorem size_empty_consistency
    (hb : BinaryHeap.t T) (msb : list T)
    (hi : IntervalHeap.t T) (msi : list T) (x : T) :
  (BinaryHeap.size (BinaryHeap._data hb) = 0 ↔
     BinaryHeap.empty (BinaryHeap._data hb) = true) ∧
  (IntervalHeap.size (IntervalHeap._data hi) = 0 ↔
     IntervalHeap.empty (IntervalHeap._data hi) = true) ∧
  (bh_reach hb msb →
     (BinaryHeap.size (BinaryHeap._data hb) < MAX_SIZE →
        ∃ d1 d2,
          BinaryHeap.push (BinaryHeap._comp hb) (BinaryHeap._data hb) x
            = Ok d1 ∧
          BinaryHeap.emplace (BinaryHeap._comp hb) (BinaryHeap._data hb) x
            = Ok d2 ∧
          BinaryHeap.size d1 = BinaryHeap.size (BinaryHeap._data hb) + 1 ∧
          BinaryHeap.size d2 = BinaryHeap.size (BinaryHeap._data hb) + 1) ∧
     (BinaryHeap.empty (BinaryHeap._data hb) = false →
        ∃ d1,
          BinaryHeap.pop (BinaryHeap._comp hb) (BinaryHeap._data hb)
            = Ok d1 ∧
          BinaryHeap.size d1 = BinaryHeap.size (BinaryHeap._data hb) - 1)) ∧
  (ih_reach hi msi →
     (IntervalHeap.size (IntervalHeap._data hi) < MAX_SIZE →
        ∃ d1 d2,
          IntervalHeap.push (IntervalHeap._comp hi) (IntervalHeap._data hi) x
            = Ok d1 ∧
          IntervalHeap.emplace (IntervalHeap._comp hi)
            (IntervalHeap._data hi) x = Ok d2 ∧
          IntervalHeap.size d1
            = IntervalHeap.size (IntervalHeap._data hi) + 1 ∧
          IntervalHeap.size d2
            = IntervalHeap.size (IntervalHeap._data hi) + 1) ∧
     (IntervalHeap.empty (IntervalHeap._data hi) = false →
        ∃ d1 d2,
          IntervalHeap.pop_min (IntervalHeap._comp hi)
            (IntervalHeap._data hi) = Ok d1 ∧
          IntervalHeap.pop_max (IntervalHeap._comp hi)
            (IntervalHeap._data hi) = Ok d2 ∧
          IntervalHeap.size d1
            = IntervalHeap.size (IntervalHeap._data hi) - 1 ∧
          IntervalHeap.size d2
            = IntervalHeap.size (IntervalHeap._data hi) - 1)).
Proof.
  split; [|split; [|split]].
  - destruct (BinaryHeap._data hb); [done|].
    unfold BinaryHeap.size. simpl. split; [lia|done].
  - destruct (IntervalHeap._data hi); [done|].
    unfold IntervalHeap.size. simpl. split; [lia|done].
  - intros Hr. destruct (bh_reach_operations _ _ Hr) as (Hpush & Hpop & _).
    split.
    + intros Hroom. destruct (Hpush x Hroom) as (d1 & ? & ? & _ & ?).
      by exists d1, d1.
    + intros Hne%bh_empty_pos.
      destruct (Hpop Hne) as (m & d1 & _ & _ & ? & _ & ?). by exists d1.
  - intros Hr. destruct (ih_reach_operations _ _ Hr) as (Hpush & Hpop & _).
    split.
    + intros Hroom. destruct (Hpush x Hroom) as (d1 & ? & ? & _ & ?).
      by exists d1, d1.
    + intros Hne%ih_empty_pos.
      destruct (Hpop Hne) as (m & M & d1 & d2 & _ & _ & ? & ? & _ & ? & _ & ?).
      by exists d1, d2.
Qed.

End ReachableOperations.

(** * A concrete run *)

Definition example_input : list Z := [5; 3; 8; 1; 9; 2].

(** C6. Concrete scenario: a BinaryHeap built from [5,3,8,1,9,2] under
    the natural order has [min() == 1]; after [pop()], [min() == 2]; after
    [push(0)], [min() == 0].  An IntervalHeap built from the same input has
    [min() == 1] and [max() == 9]; after [pop_max()], [max() == 8]; after
    [replace_min(10)], [min() == 2] and [1] is no longer in the
    structure. *)
Theorem concrete_scenario :
  (∃ b0 b1 b2,
     BinaryHeap.construct Z.ltb example_input = Ok b0 ∧
     BinaryHeap.min b0 = Ok 1 ∧
     BinaryHeap.pop Z.ltb b0 = Ok b1 ∧
     BinaryHeap.min b1 = Ok 2 ∧
     BinaryHeap.push Z.ltb b1 0 = Ok b2 ∧
     BinaryHeap.min b2 = Ok 0) ∧
  (∃ i0 i1 i2,
     IntervalHeap.construct Z.ltb example_input = Ok i0 ∧
     IntervalHeap.min i0 = Ok 1 ∧
     IntervalHeap.max i0 = Ok 9 ∧
     IntervalHeap.pop_max Z.ltb i0 = Ok i1 ∧
     IntervalHeap.max i1 = Ok 8 ∧
     IntervalHeap.replace_min Z.ltb i1 10 = Ok i2 ∧
     IntervalHeap.min i2 = Ok 2 ∧
     1 ∉ i2).
Proof.
  split.
  - exists [1; 3; 2; 5; 9; 8], [2; 3; 8; 5; 9], [0; 3; 2; 5; 9; 8].
    repeat split; vm_compute; reflexivity.
  - exists [1; 9; 3; 8; 2; 5], [1; 8; 3; 5; 2], [2; 10; 3; 5; 8].
    repeat split; try (vm_compute; reflexivity).
    rewrite !elem_of_cons, elem_of_nil. lia.
Qed.

(** * The parent of the root *)

Section ParentOfRoot.
Context {T : Type}.
Implicit Types (d ms : list T).

Lemma bh_get_parent_root : BinaryHeap.get_parent 0 = MAX_SIZE.
Proof. reflexivity. Qed.

Lemma ih_get_parent_root :
  IntervalHeap.get_parent 0 = MAX_SIZE - 1 ∧
  IntervalHeap.get_parent 1 = MAX_SIZE - 1.
Proof. split; reflexivity. Qed.

(** [bubble_up] at the root reads no parent: the element stays. *)
Lemma bh_bubble_up_root (less : T → T → bool) d x :
  nthZ d 0 = Some x → BinaryHeap.bubble_up less d 0 = Ok d.
Proof.
  intros H0. pose proof (nthZ_Some_lt _ _ _ H0) as Hn.
  unfold BinaryHeap.bubble_up, BinaryHeap.ROOT, BinaryHeap.fuel.
  rewrite (assert_true (0 <=? 0)) by lia. simpl.
  rewrite (assert_true (0 <? size d)) by lia. simpl.
  rewrite (at_ok _ _ _ H0). simpl.
  rewrite store_ok by lia. by rewrite (updZ_id _ _ _ H0).
Qed.

Lemma ih_bubble_up_root (less : T → T → bool) d x :
  nthZ d 0 = Some x → IntervalHeap.bubble_up less d 0 = Ok d.
Proof.
  intros H0. pose proof (nthZ_Some_lt _ _ _ H0) as Hn.
  unfold IntervalHeap.bubble_up, IntervalHeap.ROOT, IntervalHeap.fuel.
  rewrite (assert_true (0 <? size d)) by lia. simpl.
  rewrite (at_ok _ _ _ H0). simpl.
  rewrite store_ok by lia. by rewrite (updZ_id _ _ _ H0).
Qed.

Lemma ih_bubble_up_root_max (less : T → T → bool) d lo hi :
  nthZ d 0 = Some lo → nthZ d 1 = Some hi →
  IntervalHeap.bubble_up less d 1 =
    Ok (if less hi lo then updZ (updZ d 1 lo) 0 hi else d).
Proof.
  intros H0 H1. pose proof (nthZ_Some_lt _ _ _ H1) as Hn.
  unfold IntervalHeap.bubble_up, IntervalHeap.ROOT, IntervalHeap.fuel.
  rewrite (assert_true (1 <? size d)) by lia. simpl.
  rewrite (at_ok _ _ _ H1). simpl.
  change (1 -% 1) with 0. rewrite (at_ok _ _ _ H0). simpl.
  destruct (less hi lo).
  - rewrite store_ok by lia. simpl.
    rewrite store_ok by (rewrite size_updZ; lia). done.
  - simpl. rewrite store_ok by lia. by rewrite (updZ_id _ _ _ H1).
Qed.

(** C9. The parent index computed for the root wraps around and is never
    used: [get_parent] of index 0 (BinaryHeap) and of indices 0 and 1
    (IntervalHeap) is a huge value, at which a read of any container that
    fits would be out of bounds; yet [bubble_up] at those indices returns,
    the comparison with the parent being guarded by [idx > ROOT]
    (resp. [idx > ROOT + 1]); and on every reachable heap with room
    [push] and [emplace] return, no access being out of bounds. *)
Theorem parent_underflow_harmless
    (hb : BinaryHeap.t T) (msb : list T)
    (hi : IntervalHeap.t T) (msi : list T) (x : T) :
  (BinaryHeap.get_parent 0 = 2 ^ 63 - 1 ∧
   IntervalHeap.get_parent 0 = 2 ^ 63 - 2 ∧
   IntervalHeap.get_parent 1 = 2 ^ 63 - 2) ∧
  (∀ d, fits d → at_ d (BinaryHeap.get_parent 0) = OutOfBounds) ∧
  (∀ d, size d < MAX_SIZE →
     at_ d (IntervalHeap.get_parent 0) = OutOfBounds ∧
     at_ d (IntervalHeap.get_parent 1) = OutOfBounds) ∧
  (∀ d, BinaryHeap.empty d = false →
     BinaryHeap.bubble_up (BinaryHeap._comp hb) d 0 = Ok d) ∧
  (∀ d, IntervalHeap.empty d = false →
     IntervalHeap.bubble_up (IntervalHeap._comp hi) d 0 = Ok d) ∧
  (∀ d, 1 < size d →
     ∃ d', IntervalHeap.bubble_up (IntervalHeap._comp hi) d 1 = Ok d') ∧
  (bh_reach hb msb → size (BinaryHeap._data hb) < MAX_SIZE →
     ∃ d',
       BinaryHeap.push (BinaryHeap._comp hb) (BinaryHeap._data hb) x
         = Ok d' ∧
       BinaryHeap.emplace (BinaryHeap._comp hb) (BinaryHeap._data hb) x
         = Ok d') ∧
  (ih_reach hi msi → size (IntervalHeap._data hi) < MAX_SIZE →
     ∃ d',
       IntervalHeap.push (IntervalHeap._comp hi) (IntervalHeap._data hi) x
         = Ok d' ∧
       IntervalHeap.emplace (IntervalHeap._comp hi) (IntervalHeap._data hi) x
         = Ok d').
Proof.
  split; [done|]. split; [|split].
  - intros d Hd. apply at_out. rewrite bh_get_parent_root.
    unfold fits in Hd. lia.
  - intros d Hd. destruct ih_get_parent_root as [-> ->].
    split; apply at_out; lia.
  - split; [|split; [|split; [|split]]].
    + intros d Hd%bh_empty_pos. destruct (nthZ_is_Some d 0) as [y Hy]; [lia|].
      by apply (bh_bubble_up_root _ d y).
    + intros d Hd%ih_empty_pos. destruct (nthZ_is_Some d 0) as [y Hy]; [lia|].
      by apply (ih_bubble_up_root _ d y).
    + intros d Hd. destruct (nthZ_is_Some d 0) as [lo Hlo]; [lia|].
      destruct (nthZ_is_Some d 1) as [h Hh]; [lia|].
      eexists. by apply (ih_bubble_up_root_max _ d lo h).
    + intros Hr Hroom.
      destruct (bh_reach_operations _ _ Hr) as (Hpush & _).
      destruct (Hpush x Hroom) as (d' & ? & ? & _). by exists d'.
    + intros Hr Hroom.
      destruct (ih_reach_operations _ _ Hr) as (Hpush & _).
      destruct (Hpush x Hroom) as (d' & ? & ? & _). by exists d'.
Qed.

End ParentOfRoot.

(** * The two ascents of IntervalHeap's [bubble_up] *)

(** The pieces of [IntervalHeap::bubble_up], named: the reconciliation of
    the element with its own node, the two conditions that start an ascent,
    and the two ascents. *)
Section Ascent.
Context {T : Type} (_comp : T → T → bool).

(** [if (is_max(idx) && _comp(cur, _data\[idx - 1\])) { ... idx--; }] *)
Definition reconcile (_data : list T) (idx : Z) (cur : T)
  : result (list T * Z) :=
  c ← IntervalHeap.is_max idx &&&
        (lo ← at_ _data (idx -% 1); Ok (_comp cur lo));
  if c : bool then
    lo ← at_ _data (idx -% 1);
    _data ← store _data idx lo;
    Ok (_data, (idx -% 1))
  else Ok (_data, idx).

(** [idx > ROOT + 1 && _comp(cur, _data\[par\])] *)
Definition min_ascent_applies (_data : list T) (idx : Z) (cur : T)
  : result bool :=
  let par := IntervalHeap.get_parent idx in
  (IntervalHeap.ROOT +% 1 <? idx) &&& (p ← at_ _data par; Ok (_comp cur p)).

(** [idx > ROOT + 1 && _comp(_data\[par + 1\], cur)] *)
Definition max_ascent_applies (_data : list T) (idx : Z) (cur : T)
  : result bool :=
  let par := IntervalHeap.get_parent idx in
  (IntervalHeap.ROOT +% 1 <? idx) &&&
    (p ← at_ _data (par +% 1); Ok (_comp p cur)).

Definition min_ascent (_data : list T) (idx : Z) (cur : T)
  : result (list T * Z) :=
  let par := IntervalHeap.get_parent idx in
  '(_data, idx, _) ←
    do_while (IntervalHeap.fuel _data)
      (λ '(_data, idx, par),
         p ← at_ _data par;
         _data ← store _data idx p;
         let idx := par in
         let par := IntervalHeap.get_parent idx in
         Ok (_data, idx, par))
      (λ '(_data, idx, par),
         (IntervalHeap.ROOT +% 1 <? idx) &&&
           (p ← at_ _data par; Ok (_comp cur p)))
      (_data, idx, par);
  Ok (_data, idx).

Definition max_ascent (_data : list T) (idx : Z) (cur : T)
  : result (list T * Z) :=
  let par := IntervalHeap.get_parent idx in
  let par := (par +% 1) in
  '(_data, idx, _) ←
    do_while (IntervalHeap.fuel _data)
      (λ '(_data, idx, par),
         p ← at_ _data par;
         _data ← store _data idx p;
         let idx := par in
         let par := (IntervalHeap.get_parent idx +% 1) in
         Ok (_data, idx, par))
      (λ '(_data, idx, par),
         (IntervalHeap.ROOT +% 1 <? idx) &&&
           (p ← at_ _data par; Ok (_comp p cur)))
      (_data, idx, par);
  Ok (_data, idx).

(** [bubble_up] is these pieces, in this order. *)
Lemma bubble_up_pieces (_data : list T) (idx : Z) :
  IntervalHeap.bubble_up _comp _data idx =
    (_ ← assert (idx <? size _data);
     _ ← assert (IntervalHeap.ROOT <=? idx);
     cur ← at_ _data idx;
     '(_data, idx) ← reconcile _data idx cur;
     c ← min_ascent_applies _data idx cur;
     '(_data, idx) ←
       (if c : bool then min_ascent _data idx cur
        else
          c ← max_ascent_applies _data idx cur;
          if c : bool then max_ascent _data idx cur else Ok (_data, idx));
     store _data idx cur).
Proof.
  unfold IntervalHeap.bubble_up, reconcile, min_ascent_applies,
    max_ascent_applies, min_ascent, max_ascent.
  destruct (assert (idx <? size _data)); try reflexivity. simpl.
  destruct (assert (IntervalHeap.ROOT <=? idx)); try reflexivity. simpl.
  destruct (at_ _data idx) as [cur| | |]; try reflexivity. simpl.
  destruct (IntervalHeap.is_max idx &&&
              (lo ← at_ _data (idx -% 1); Ok (_comp cur lo)))
    as [[|]| | |]; reflexivity.
Qed.

End Ascent.

Section AscentExclusive.
Context {T : Type} (less : T → T → bool) (Hswo : StrictWeakOrder less).
Implicit Types (d : list T) (idx : Z) (cur x : T).

(** What the reconciliation does to a heap with [x] appended. *)
Lemma reconcile_spec d0 x :
  size d0 < MAX_SIZE →
  ∃ d1 idx1, reconcile less (push_back d0 x) (size d0) x = Ok (d1, idx1) ∧
    size d1 = size d0 + 1 ∧
    (idx1 = size d0 ∨ (idx1 = size d0 - 1 ∧ idx1 mod 2 = 0)) ∧
    (∀ j, j < size d0 → nthZ d1 j = nthZ d0 j).
Proof.
  rewrite max_size_value. intros Hd. pose proof (size_nonneg d0) as Hn.
  unfold reconcile, IntervalHeap.is_max.
  destruct (Z.eqb_spec (size d0 mod 2) 1) as [Hodd|Heven].
  - rewrite size_sub_small by (rewrite width_value; lia).
    destruct (nthZ_is_Some d0 (size d0 - 1)) as [lo Hlo]; [lia|].
    assert (nthZ (push_back d0 x) (size d0 - 1) = Some lo) as Hlo'.
    { rewrite nthZ_push_back. by rewrite decide_False by lia. }
    rewrite (at_ok _ _ _ Hlo'). simpl.
    destruct (less x lo).
    + rewrite store_ok by (rewrite size_push_back; lia). simpl.
      eexists _, _. split; [done|]. rewrite size_updZ, size_push_back.
      split; [done|]. split; [right; lia|].
      intros j Hj. destruct (decide (0 ≤ j)).
      * rewrite nthZ_updZ_ne by lia. rewrite nthZ_push_back.
        by rewrite decide_False by lia.
      * rewrite !nthZ_None; [done|lia|rewrite size_updZ, size_push_back; lia].
    + eexists _, _. split; [done|]. rewrite size_push_back.
      split; [done|]. split; [by left|].
      intros j Hj. rewrite nthZ_push_back. by rewrite decide_False by lia.
  - simpl. eexists _, _. split; [done|]. rewrite size_push_back.
    split; [done|]. split; [by left|].
    intros j Hj. rewrite nthZ_push_back. by rewrite decide_False by lia.
Qed.

(** C8. Ascent exclusivity of IntervalHeap's push: on a heap that satisfies
    the invariant, once the appended element has been reconciled with its
    own node, the two conditions of [bubble_up] (the element precedes the
    min slot of its parent node; the max slot of its parent node precedes
    the element) both evaluate, and they are not both true. *)
Theorem ascent_exclusivity d0 x :
  size d0 < MAX_SIZE → ih_inv less d0 →
  ∃ d1 idx1 a b,
    reconcile less (push_back d0 x) (size d0) x = Ok (d1, idx1) ∧
    min_ascent_applies less d1 idx1 x = Ok a ∧
    max_ascent_applies less d1 idx1 x = Ok b ∧
    a && b = false.
Proof.
  intros Hd (Hint & _).
  destruct (reconcile_spec d0 x Hd) as (d1 & idx1 & -> & Hsz & Hidx & Hsame).
  rewrite max_size_value in Hd. pose proof (size_nonneg d0) as Hn.
  exists d1, idx1.
  unfold min_ascent_applies, max_ascent_applies, IntervalHeap.ROOT.
  change (0 +% 1) with 1.
  destruct (Z.ltb_spec 1 idx1) as [Hup|Hroot]; [|by exists false, false].
  rewrite (ih_get_parent_pos idx1) by (rewrite width_value; lia).
  set (par := (idx1 - 2) / 4 * 2).
  assert (0 ≤ par ∧ par + 1 < size d0 ∧ par mod 2 = 0) as (? & ? & ?)
    by (unfold par; lia).
  rewrite size_add_small by (rewrite width_value; lia).
  destruct (nthZ_is_Some d0 par) as [p Hp]; [lia|].
  destruct (nthZ_is_Some d0 (par + 1)) as [q Hq]; [lia|].
  rewrite <- Hsame in Hp, Hq by lia.
  rewrite (at_ok _ _ _ Hp), (at_ok _ _ _ Hq). simpl.
  exists (less x p), (less q x). split; [done|]. split; [done|]. split; [done|].
  rewrite Hsame in Hp, Hq by lia.
  assert (less q p = false) as Hqp.
  { apply (Hint (par / 2)).
    - by replace (2 * (par / 2)) with par by lia.
    - by replace (2 * (par / 2) + 1) with (par + 1) by lia. }
  destruct (less x p) eqn:E1, (less q x) eqn:E2; try done.
  rewrite (swo_trans _ Hswo _ _ _ E2 E1) in Hqp. done.
Qed.

End AscentExclusive.

(** * The documented precondition of the descents *)

(** [bubble_down_min] and [bubble_down_max] are documented to assume that
    the node they start from is in order.  Here the two helpers check that
    assumption with an assertion on entry, and the members that call them
    are taken over the helpers they call. *)
Section Guarded.
Context {T : Type} (_comp : T → T → bool).

(** [bubble_down_min(idx)], asserting [!_comp(_data\[idx + 1\], _data\[idx\])]
    first when the node has a max slot. *)
Definition bubble_down_min_guarded (_data : list T) (idx : Z)
  : result (list T) :=
  ok ← (if idx +% 1 <? size _data then
          hi ← at_ _data (idx +% 1); lo ← at_ _data idx;
          Ok (negb (_comp hi lo))
        else Ok true);
  _ ← assert ok;
  IntervalHeap.bubble_down_min _comp _data idx.

(** [bubble_down_max(idx)], asserting [!_comp(_data\[idx\], _data\[idx - 1\])]
    first. *)
Definition bubble_down_max_guarded (_data : list T) (idx : Z)
  : result (list T) :=
  ok ← (hi ← at_ _data idx; lo ← at_ _data (idx -% 1);
        Ok (negb (_comp hi lo)));
  _ ← assert ok;
  IntervalHeap.bubble_down_max _comp _data idx.

Section Callers.
Variables bubble_down_min bubble_down_max : list T → Z → result (list T).

Definition pop_min_over (_data : list T) : result (list T) :=
  _ ← assert (negb (empty _data));
  let n := size _data in
  if n =? 1 then pop_back _data
  else
    let idx := IntervalHeap.ROOT in
    _data ←
      (if negb (n mod 2 =? 0) then
         x ← at_ _data (n -% 1);
         store _data idx x
       else
         x ← at_ _data (n -% 2);
         _data ← store _data idx x;
         y ← at_ _data (n -% 1);
         store _data (n -% 2) y);
    _data ← pop_back _data;
    bubble_down_min _data idx.

Definition pop_max_over (_data : list T) : result (list T) :=
  _ ← assert (negb (empty _data));
  let n := size _data in
  if n =? 1 then pop_back _data
  else
    let idx := (IntervalHeap.ROOT +% 1) in
    x ← at_ _data (n -% 1);
    _data ← store _data idx x;
    _data ← pop_back _data;
    if 2 <? n then bubble_down_max _data idx else Ok _data.

Definition replace_min_over (_data : list T) (val : T) : result (list T) :=
  _ ← assert (negb (empty _data));
  let idx := IntervalHeap.ROOT in
  _data ← store _data idx val;
  _data ← IntervalHeap.balance_node_check _comp _data idx;
  bubble_down_min _data idx.

Definition replace_max_over (_data : list T) (val : T) : result (list T) :=
  _ ← assert (negb (empty _data));
  if size _data =? 1 then store _data IntervalHeap.ROOT val
  else
    _data ← store _data (IntervalHeap.ROOT +% 1) val;
    _data ← IntervalHeap.balance_node _comp _data IntervalHeap.ROOT;
    bubble_down_max _data (IntervalHeap.ROOT +% 1).

Definition heapify_over (_data : list T) : result (list T) :=
  if size _data <=? 2 then
    c ← (size _data =? 2) &&&
          (hi ← at_ _data 1; lo ← at_ _data 0; Ok (_comp hi lo));
    if c : bool then swap_at _data 1 0 else Ok _data
  else
    '(_data, _) ←
      while (IntervalHeap.fuel _data)
        (λ '(_data, i), Ok (i <? size _data -% 1))
        (λ '(_data, i),
           _data ← IntervalHeap.balance_node _comp _data i;
           Ok (Next (_data, (i +% 2))))
        (_data, 0);
    '(_data, _) ←
      while (IntervalHeap.fuel _data)
        (λ '(_data, i), Ok (0 <=? i))
        (λ '(_data, i),
           _data ← bubble_down_max _data (wrap (i + 1));
           _data ← bubble_down_min _data (wrap i);
           Ok (Next (_data, i - 2)))
        (_data, to_signed ((size _data -% 1) / 4 *% 2));
    Ok _data.

End Callers.

(** Taken over the helpers of the source, the members are those of the
    source. *)
Lemma members_over_source (_data : list T) (val : T) :
  pop_min_over (IntervalHeap.bubble_down_min _comp) _data
    = IntervalHeap.pop_min _comp _data ∧
  pop_max_over (IntervalHeap.bubble_down_max _comp) _data
    = IntervalHeap.pop_max _comp _data ∧
  replace_min_over (IntervalHeap.bubble_down_min _comp) _data val
    = IntervalHeap.replace_min _comp _data val ∧
  replace_max_over (IntervalHeap.bubble_down_max _comp) _data val
    = IntervalHeap.replace_max _comp _data val ∧
  heapify_over (IntervalHeap.bubble_down_min _comp)
      (IntervalHeap.bubble_down_max _comp) _data
    = IntervalHeap.heapify _comp _data.
Proof. repeat split; reflexivity. Qed.

(** The members with the assumption checked at every call. *)
Definition pop_min_guarded : list T → result (list T) :=
  pop_min_over bubble_down_min_guarded.
Definition pop_max_guarded : list T → result (list T) :=
  pop_max_over bubble_down_max_guarded.
Definition replace_min_guarded : list T → T → result (list T) :=
  replace_min_over bubble_down_min_guarded.
Definition replace_max_guarded : list T → T → result (list T) :=
  replace_max_over bubble_down_max_guarded.
Definition heapify_guarded : list T → result (list T) :=
  heapify_over bubble_down_min_guarded bubble_down_max_guarded.

End Guarded.

Section LoopAgreement.
Context {S : Type}.

(** Two loops whose bodies agree wherever an invariant holds run alike. *)
Lemma loop_agree (Inv : S → Prop) fuel (body1 body2 : S → result (step S)) s :
  (∀ s, Inv s → body1 s = body2 s) →
  (∀ s s', Inv s → body2 s = Ok (Next s') → Inv s') →
  Inv s → loop fuel body1 s = loop fuel body2 s.
Proof.
  intros Hagree Hkeep. revert s.
  induction fuel as [|fuel IH]; intros s Hs; [done|].
  simpl. rewrite (Hagree s Hs).
  destruct (body2 s) as [[s'|s']| | |] eqn:E; try done.
  simpl. apply IH. by apply (Hkeep s).
Qed.

End LoopAgreement.

Section GuardedFacts.
Context {T : Type} (less : T → T → bool) (Hswo : StrictWeakOrder less).
Implicit Types (d : list T) (i idx k : Z).

Lemma guard_min_passes d idx :
  size d ≤ MAX_SIZE → 0 ≤ idx < size d → idx mod 2 = 0 →
  ih_intervals less d →
  bubble_down_min_guarded less d idx = IntervalHeap.bubble_down_min less d idx.
Proof.
  rewrite max_size_value. intros Hd Hidx Hev Hint.
  unfold bubble_down_min_guarded.
  rewrite size_add_small by (rewrite width_value; lia).
  destruct (Z.ltb_spec (idx + 1) (size d)) as [Hfull|Hlone]; [|done].
  destruct (nthZ_is_Some d (idx + 1)) as [hi Hhi]; [lia|].
  destruct (nthZ_is_Some d idx) as [lo Hlo]; [lia|].
  rewrite (at_ok _ _ _ Hhi), (at_ok _ _ _ Hlo). simpl.
  assert (less hi lo = false) as -> by (apply (Hint idx (idx + 1)); done).
  done.
Qed.

Lemma guard_max_passes d idx :
  size d ≤ MAX_SIZE → 0 ≤ idx < size d → idx mod 2 = 1 →
  ih_intervals less d →
  bubble_down_max_guarded less d idx = IntervalHeap.bubble_down_max less d idx.
Proof.
  rewrite max_size_value. intros Hd Hidx Hodd Hint.
  unfold bubble_down_max_guarded.
  rewrite size_sub_small by (rewrite width_value; lia).
  destruct (nthZ_is_Some d idx) as [hi Hhi]; [lia|].
  destruct (nthZ_is_Some d (idx - 1)) as [lo Hlo]; [lia|].
  rewrite (at_ok _ _ _ Hhi), (at_ok _ _ _ Hlo). simpl.
  assert (less hi lo = false) as ->.
  { apply (Hint (idx - 1) idx); [|done..]. split; lia. }
  done.
Qed.

Lemma heapify_guard d :
  size d ≤ MAX_SIZE →
  heapify_guarded less d = IntervalHeap.heapify less d.
Proof.
  intros Hd. pose proof Hd as Hd'. rewrite max_size_value in Hd'.
  unfold heapify_guarded, heapify_over, IntervalHeap.heapify.
  destruct (Z.leb_spec (size d) 2) as [Hsmall|Hbig]; [done|].
  destruct (ih_heapify_nodes less Hswo d Hd Hbig)
    as (d1 & i1 & -> & Hsz1 & Hint1 & Hp1).
  simpl. rewrite Hsz1.
  rewrite size_sub_small by (rewrite width_value; lia).
  rewrite size_mul_small by (rewrite width_value; lia).
  rewrite to_signed_small by lia.
  unfold while.
  rewrite (loop_agree (ih_heapify_inv less d) (IntervalHeap.fuel d1) _
    (λ s, c ← (let '(_, i) := s in Ok (0 <=? i));
          if c : bool
          then (let '(_data, i) := s in
                _data ← IntervalHeap.bubble_down_max less _data (wrap (i + 1));
                _data ← IntervalHeap.bubble_down_min less _data (wrap i);
                Ok (Next (_data, i - 2)))
          else Ok (Stop s))); [done| | |].
  - intros [d2 i] Hinv. simpl.
    destruct (Z.leb_spec 0 i) as [Hpos|Hneg]; [|done].
    pose proof Hinv as (Hsz & Hi & Hi1 & Hev & _).
    destruct (ih_heapify_step less Hswo d d2 i Hd Hinv Hpos)
      as (d3 & d4 & E3 & Hint2 & Hsz3 & E4 & Hint3 & Hinv4).
    rewrite !wrap_small in * by (rewrite width_value; lia).
    rewrite (guard_max_passes d2 (i + 1)) by (try done; lia).
    rewrite E3. simpl.
    rewrite (guard_min_passes d3 i) by (try done; lia).
    done.
  - intros [d2 i] [d4 i'] Hinv. simpl.
    destruct (Z.leb_spec 0 i) as [Hpos|Hneg]; [|done].
    destruct (ih_heapify_step less Hswo d d2 i Hd Hinv Hpos)
      as (d3 & d4' & E3 & Hint2 & Hsz3 & E4 & Hint3 & Hinv4).
    rewrite E3. simpl. rewrite E4. simpl. intros [= <- <-]. done.
  - by apply ih_heapify_inv_start.
Qed.

Lemma pop_min_guard d :
  size d ≤ MAX_SIZE → 0 < size d → ih_heap less d →
  pop_min_guarded less d = IntervalHeap.pop_min less d.
Proof.
  intros Hd Hn Hinv. pose proof Hd as Hd'. rewrite max_size_value in Hd'.
  unfold pop_min_guarded, pop_min_over, IntervalHeap.pop_min,
    IntervalHeap.ROOT.
  rewrite empty_false by lia. simpl.
  destruct (Z.eqb_spec (size d) 1) as [H1|H1]; [done|].
  destruct (nthZ_is_Some d 1) as [M HM]; [lia|].
  pose proof (ih_root_greatest less Hswo d M Hinv HM) as Hgreatest.
  destruct Hinv as (Hint & Hmin & Hmax).
  unfold ih_heap, ih_intervals, ih_min_from, ih_max_from in *.
  set (n := size d) in *.
  rewrite !size_sub_small by (rewrite width_value; lia).
  destruct (nthZ_is_Some d (n - 1)) as [z Hz]; [lia|].
  assert (le less z M) as HzM by eauto.
  destruct (Z.eqb_spec (n mod 2) 0) as [Heven|Hodd]; simpl.
  - destruct (nthZ_is_Some d (n - 2)) as [y Hy]; [lia|].
    assert (le less y M) as HyM by eauto.
    rewrite (at_ok _ _ _ Hy). simpl. rewrite store_ok by lia. simpl.
    assert (nthZ (updZ d 0 y) (n - 1) = Some z) as Hz1 by rd.
    rewrite (at_ok _ _ _ Hz1). simpl.
    rewrite store_ok by (rewrite size_updZ; lia). simpl.
    assert (size (updZ (updZ d 0 y) (n - 2) z) = n) as Hsz1
      by (by rewrite !size_updZ).
    rewrite pop_back_ok by lia. simpl.
    pose proof (size_take_last (updZ (updZ d 0 y) (n - 2) z) ltac:(lia))
      as Hsz2.
    apply guard_min_passes; try lia.
    unfold ih_intervals. saturate less. settle less.
  - rewrite (at_ok _ _ _ Hz). simpl. rewrite store_ok by lia. simpl.
    assert (size (updZ d 0 z) = n) as Hsz1 by (by rewrite !size_updZ).
    rewrite pop_back_ok by lia. simpl.
    pose proof (size_take_last (updZ d 0 z) ltac:(lia)) as Hsz2.
    apply guard_min_passes; try lia.
    unfold ih_intervals. saturate less. settle less.
Qed.

Lemma pop_max_guard d :
  size d ≤ MAX_SIZE → 0 < size d → ih_heap less d →
  pop_max_guarded less d = IntervalHeap.pop_max less d.
Proof.
  intros Hd Hn Hinv. pose proof Hd as Hd'. rewrite max_size_value in Hd'.
  destruct (nthZ_is_Some d 0) as [m Hm]; [lia|].
  pose proof (ih_root_least less Hswo d m Hinv Hm) as Hleast.
  unfold pop_max_guarded, pop_max_over, IntervalHeap.pop_max,
    IntervalHeap.ROOT.
  rewrite empty_false by lia. simpl.
  destruct (Z.eqb_spec (size d) 1) as [H1|H1]; [done|].
  change (0 +% 1) with 1.
  destruct Hinv as (Hint & Hmin & Hmax).
  unfold ih_heap, ih_intervals, ih_min_from, ih_max_from in *.
  set (n := size d) in *.
  rewrite !size_sub_small by (rewrite width_value; lia).
  destruct (nthZ_is_Some d (n - 1)) as [z Hz]; [lia|].
  assert (le less m z) as Hmz by eauto.
  rewrite (at_ok _ _ _ Hz). simpl. rewrite store_ok by lia. simpl.
  assert (size (updZ d 1 z) = n) as Hsz1 by (by rewrite !size_updZ).
  rewrite pop_back_ok by lia. simpl.
  pose proof (size_take_last (updZ d 1 z) ltac:(lia)) as Hsz2.
  destruct (Z.ltb_spec 2 n) as [Hbig|Hsmall]; [|done].
  apply guard_max_passes; try lia.
  unfold ih_intervals. saturate less. settle less.
Qed.

Lemma replace_min_guard d val :
  size d ≤ MAX_SIZE → 0 < size d → ih_heap less d →
  replace_min_guarded less d val = IntervalHeap.replace_min less d val.
Proof.
  intros Hd Hn Hinv. pose proof Hd as Hd'. rewrite max_size_value in Hd'.
  destruct (nthZ_is_Some d 0) as [m Hm]; [lia|].
  unfold replace_min_guarded, replace_min_over, IntervalHeap.replace_min,
    IntervalHeap.ROOT.
  rewrite empty_false by lia. simpl. rewrite store_ok by lia. simpl.
  unfold IntervalHeap.balance_node_check, IntervalHeap.balance_node.
  change (0 +% 1) with 1. rewrite size_updZ.
  destruct Hinv as (Hint & Hmin & Hmax).
  unfold ih_heap, ih_intervals, ih_min_from, ih_max_from in *.
  set (n := size d) in *.
  assert (nthZ (updZ d 0 val) 0 = Some val) as Hv by rd.
  destruct (Z.ltb_spec 1 n) as [Hbig|Hone].
  - destruct (nthZ_is_Some d 1) as [M HM]; [lia|].
    assert (nthZ (updZ d 0 val) 1 = Some M) as HM1 by rd.
    rewrite (at_ok _ _ _ HM1), (at_ok _ _ _ Hv). simpl.
    destruct (less M val) eqn:E; simpl.
    + rewrite (swap_at_ok _ _ _ _ _ HM1 Hv). simpl.
      apply guard_min_passes; rewrite ?size_updZ; try lia.
      unfold ih_intervals. saturate less. settle less.
    + apply guard_min_passes; rewrite ?size_updZ; try lia.
      unfold ih_intervals. saturate less. settle less.
  - simpl. apply guard_min_passes; rewrite ?size_updZ; try lia.
    unfold ih_intervals. unfold ordered; intros; lookups; lia.
Qed.

Lemma replace_max_guard d val :
  size d ≤ MAX_SIZE → 0 < size d → ih_heap less d →
  replace_max_guarded less d val = IntervalHeap.replace_max less d val.
Proof.
  intros Hd Hn Hinv. pose proof Hd as Hd'. rewrite max_size_value in Hd'.
  destruct (nthZ_is_Some d 0) as [m Hm]; [lia|].
  unfold replace_max_guarded, replace_max_over, IntervalHeap.replace_max,
    IntervalHeap.ROOT.
  rewrite empty_false by lia. simpl.
  destruct (Z.eqb_spec (size d) 1) as [H1|H1]; [done|].
  change (0 +% 1) with 1.
  destruct (nthZ_is_Some d 1) as [M HM]; [lia|].
  rewrite store_ok by lia. simpl.
  unfold IntervalHeap.balance_node. change (0 +% 1) with 1.
  destruct Hinv as (Hint & Hmin & Hmax).
  unfold ih_heap, ih_intervals, ih_min_from, ih_max_from in *.
  set (n := size d) in *.
  assert (nthZ (updZ d 1 val) 1 = Some val) as Hv by rd.
  assert (nthZ (updZ d 1 val) 0 = Some m) as Hm1 by rd.
  rewrite (at_ok _ _ _ Hv), (at_ok _ _ _ Hm1). simpl.
  destruct (less val m) eqn:E; simpl.
  - rewrite (swap_at_ok _ _ _ _ _ Hv Hm1). simpl.
    apply guard_max_passes; rewrite ?size_updZ; try lia.
    unfold ih_intervals. saturate less. settle less.
  - apply guard_max_passes; rewrite ?size_updZ; try lia.
    unfold ih_intervals. saturate less. settle less.
Qed.

(** C10. The precondition of the descents holds at every call: with the
    documented assumption of [bubble_down_min] and [bubble_down_max] (the
    node they start from is in order) asserted on entry, [heapify] on any
    sequence and [pop_min], [pop_max], [replace_min], [replace_max] on any
    heap that satisfies the invariant and is not empty return what they
    return without the assertion: it never fails.  For the two pops no
    fix-up is needed because nothing in the heap follows slot 1 or
    precedes slot 0. *)
Theorem descent_preconditions d val :
  size d ≤ MAX_SIZE →
  (∃ d', heapify_guarded less d = Ok d' ∧
         IntervalHeap.heapify less d = Ok d') ∧
  (ih_inv less d → 0 < size d →
     (∃ d', pop_min_guarded less d = Ok d' ∧
            IntervalHeap.pop_min less d = Ok d') ∧
     (∃ d', pop_max_guarded less d = Ok d' ∧
            IntervalHeap.pop_max less d = Ok d') ∧
     (∃ d', replace_min_guarded less d val = Ok d' ∧
            IntervalHeap.replace_min less d val = Ok d') ∧
     (∃ d', replace_max_guarded less d val = Ok d' ∧
            IntervalHeap.replace_max less d val = Ok d') ∧
     (∀ i x M, nthZ d 1 = Some M → nthZ d i = Some x → less M x = false) ∧
     (∀ i x m, nthZ d 0 = Some m → nthZ d i = Some x → less x m = false)).
Proof.
  intros Hd. split.
  - destruct (ih_heapify_spec less Hswo d Hd) as (d' & E & _).
    exists d'. by rewrite heapify_guard.
  - intros Hinv%ih_inv_heap Hn.
    destruct (ih_operations less d Hswo Hd Hinv) as (_ & Hpop & Hrep).
    destruct (Hpop Hn) as (m & M & d1 & d2 & _ & _ & E1 & E2 & _).
    destruct (Hrep Hn val) as (d3 & d4 & E3 & E4 & _).
    split; [|split; [|split; [|split; [|split]]]].
    + exists d1. by rewrite pop_min_guard.
    + exists d2. by rewrite pop_max_guard.
    + exists d3. by rewrite replace_min_guard.
    + exists d4. by rewrite replace_max_guard.
    + intros i x M' HM Hx.
      apply (ih_root_greatest less Hswo d M' Hinv HM i x Hx).
    + intros i x m' Hm Hx.
      apply (ih_root_least less Hswo d m' Hinv Hm i x Hx).
Qed.

End GuardedFacts.

(** * Sorting with a heap *)

Section HeapSort.
Context {T : Type} (_comp : T → T → bool).

(** [n] times: read the extreme, then pop it. *)
Fixpoint bh_drain (n : nat) (_data : list T) : result (list T) :=
  match n with
  | O => Ok []
  | Datatypes.S n =>
      m ← BinaryHeap.top _data;
      _data ← BinaryHeap.pop _comp _data;
      rest ← bh_drain n _data;
      Ok (m :: rest)
  end.

Fixpoint ih_drain_min (n : nat) (_data : list T) : result (list T) :=
  match n with
  | O => Ok []
  | Datatypes.S n =>
      m ← IntervalHeap.min _data;
      _data ← IntervalHeap.pop_min _comp _data;
      rest ← ih_drain_min n _data;
      Ok (m :: rest)
  end.

Fixpoint ih_drain_max (n : nat) (_data : list T) : result (list T) :=
  match n with
  | O => Ok []
  | Datatypes.S n =>
      m ← IntervalHeap.max _data;
      _data ← IntervalHeap.pop_max _comp _data;
      rest ← ih_drain_max n _data;
      Ok (m :: rest)
  end.

(** Build the heap from the sequence, then drain all of it. *)
Definition bh_sort (l : list T) : result (list T) :=
  _data ← BinaryHeap.construct _comp l;
  bh_drain (length l) _data.

Definition ih_sort_min (l : list T) : result (list T) :=
  _data ← IntervalHeap.construct _comp l;
  ih_drain_min (length l) _data.

Definition ih_sort_max (l : list T) : result (list T) :=
  _data ← IntervalHeap.construct _comp l;
  ih_drain_max (length l) _data.

(** No element comes after a later one (resp. before a later one). *)
Definition non_decreasing : list T → Prop :=
  StronglySorted (λ a b, _comp b a = false).

Definition non_increasing : list T → Prop :=
  StronglySorted (λ a b, _comp a b = false).

End HeapSort.

Section HeapSortFacts.
Context {T : Type} (less : T → T → bool) (Hswo : StrictWeakOrder less).
Implicit Types (d l out : list T).

Lemma bh_drain_spec n d :
  size d = Z.of_nat n → fits d → bh_from less 0 d →
  ∃ out, bh_drain less n d = Ok out ∧ out ≡ₚ d ∧ non_decreasing less out.
Proof.
  revert d. induction n as [|n IH]; intros d Hsz Hfit Hinv.
  - exists []. split; [done|]. split; [|constructor].
    destruct d; [done|]. unfold size in Hsz. simpl in Hsz. lia.
  - destruct (nthZ_is_Some d 0) as [m Hm]; [lia|].
    destruct (bh_pop_spec less Hswo d m Hfit Hm Hinv)
      as (d' & Epop & Hinv' & Hperm & Hsz').
    destruct (IH d') as (rest & Erest & Hprest & Hsorted);
      [lia|unfold fits in *; lia|done|].
    simpl. rewrite (bh_top_ok _ _ Hm). simpl. rewrite Epop. simpl.
    rewrite Erest. simpl. exists (m :: rest). split; [done|].
    split; [by rewrite Hprest|].
    constructor; [done|]. apply Forall_forall. intros b Hb.
    assert (b ∈ d) as [i Hi]%elem_of_nthZ.
    { rewrite <- Hperm, <- Hprest. by right. }
    apply (bh_root_least less Hswo d m Hinv Hm i b Hi).
Qed.

Lemma ih_drain_min_spec n d :
  size d = Z.of_nat n → fits d → ih_heap less d →
  ∃ out, ih_drain_min less n d = Ok out ∧ out ≡ₚ d ∧
         non_decreasing less out.
Proof.
  revert d. induction n as [|n IH]; intros d Hsz Hfit Hinv.
  - exists []. split; [done|]. split; [|constructor].
    destruct d; [done|]. unfold size in Hsz. simpl in Hsz. lia.
  - destruct (nthZ_is_Some d 0) as [m Hm]; [lia|].
    destruct (ih_pop_min_spec less Hswo d m Hfit Hm Hinv)
      as (d' & Epop & Hinv' & Hperm & Hsz').
    destruct (IH d') as (rest & Erest & Hprest & Hsorted);
      [lia|unfold fits in *; lia|done|].
    simpl. rewrite (ih_min_ok _ _ Hm). simpl. rewrite Epop. simpl.
    rewrite Erest. simpl. exists (m :: rest). split; [done|].
    split; [by rewrite Hprest|].
    constructor; [done|]. apply Forall_forall. intros b Hb.
    assert (b ∈ d) as [i Hi]%elem_of_nthZ.
    { rewrite <- Hperm, <- Hprest. by right. }
    apply (ih_root_least less Hswo d m Hinv Hm i b Hi).
Qed.

Lemma ih_drain_max_spec n d :
  size d = Z.of_nat n → fits d → ih_heap less d →
  ∃ out, ih_drain_max less n d = Ok out ∧ out ≡ₚ d ∧
         non_increasing less out.
Proof.
  revert d. induction n as [|n IH]; intros d Hsz Hfit Hinv.
  - exists []. split; [done|]. split; [|constructor].
    destruct d; [done|]. unfold size in Hsz. simpl in Hsz. lia.
  - destruct (ih_pop_max_spec less Hswo d Hfit ltac:(lia) Hinv)
      as (d' & M & Epop & EM & Hinv' & Hperm & Hsz').
    destruct (IH d') as (rest & Erest & Hprest & Hsorted);
      [lia|unfold fits in *; lia|done|].
    simpl. rewrite EM. simpl. rewrite Epop. simpl.
    rewrite Erest. simpl. exists (M :: rest). split; [done|].
    split; [by rewrite Hprest|].
    constructor; [done|]. apply Forall_forall. intros b Hb.
    assert (b ∈ d) as Hin.
    { rewrite <- Hperm, <- Hprest. by right. }
    by apply (ih_max_is_max less d d M Hswo Hinv).
Qed.

(** C3. Heap-sort round trip: a BinaryHeap (resp. IntervalHeap) built from
    a sequence of [N] elements and drained by reading the extreme and
    calling [pop()] (resp. [pop_min()]) [N] times gives back exactly the
    elements of the sequence, in non-decreasing order; drained with
    [max()] and [pop_max()], the IntervalHeap gives them back in
    non-increasing order. *)
Theorem heap_sort_round_trip l :
  fits l →
  (∃ out, bh_sort less l = Ok out ∧ out ≡ₚ l ∧ non_decreasing less out) ∧
  (∃ out, ih_sort_min less l = Ok out ∧ out ≡ₚ l ∧
          non_decreasing less out) ∧
  (∃ out, ih_sort_max less l = Ok out ∧ out ≡ₚ l ∧
          non_increasing less out).
Proof.
  intros Hfit. unfold bh_sort, ih_sort_min, ih_sort_max,
    BinaryHeap.construct, IntervalHeap.construct.
  destruct (bh_heapify_spec less Hswo l Hfit) as (db & -> & Hb & Hpb & Hsb).
  destruct (ih_heapify_spec less Hswo l Hfit) as (di & -> & Hi & Hpi & Hsi).
  simpl. split; [|split].
  - destruct (bh_drain_spec (length l) db) as (out & -> & Hp & Hs);
      [done|unfold fits in *; lia|done|].
    exists out. split; [done|]. split; [by rewrite Hp|done].
  - destruct (ih_drain_min_spec (length l) di) as (out & -> & Hp & Hs);
      [done|unfold fits in *; lia|done|].
    exists out. split; [done|]. split; [by rewrite Hp|done].
  - destruct (ih_drain_max_spec (length l) di) as (out & -> & Hp & Hs);
      [done|unfold fits in *; lia|done|].
    exists out. split; [done|]. split; [by rewrite Hp|done].
Qed.

End HeapSortFacts.

(** * Multisets up to the comparator's equivalence *)

Section Similar.
Context {T : Type} (less : T → T → bool).
Implicit Types (l r : list T) (x a b : T).

(** How many elements of [l] come strictly before [x], and how many
    strictly after it. *)
Definition count_before (x : T) (l : list T) : nat :=
  length (filter (λ y, less y x = true) l).

Definition count_after (x : T) (l : list T) : nat :=
  length (filter (λ y, less x y = true) l).

(** The comparator cannot tell the two multisets apart. *)
Definition similar (l1 l2 : list T) : Prop :=
  ∀ x, count_before x l1 = count_before x l2 ∧
       count_after x l1 = count_after x l2.

Lemma similar_perm l1 l2 : l1 ≡ₚ l2 → similar l1 l2.
Proof.
  intros Hp x. unfold count_before, count_after. by rewrite Hp.
Qed.

Lemma similar_sym l1 l2 : similar l1 l2 → similar l2 l1.
Proof. intros H x. destruct (H x). by split. Qed.

Lemma similar_trans l1 l2 l3 : similar l1 l2 → similar l2 l3 → similar l1 l3.
Proof.
  intros H1 H2 x. destruct (H1 x), (H2 x). split; congruence.
Qed.

Lemma count_filter_zero (P : T → Prop) `{∀ y, Decision (P y)} l :
  length (filter P l) = 0%nat ↔ ∀ y, y ∈ l → ¬ P y.
Proof.
  induction l as [|a l IH]; simpl.
  - split; [|done]. intros _ y Hy. by apply elem_of_nil in Hy.
  - rewrite filter_cons. destruct (decide (P a)) as [Ha|Ha]; simpl.
    + split; [done|]. intros Hall. destruct (Hall a); [by left|done].
    + rewrite IH. split.
      * intros Hall y [->|Hy]%elem_of_cons; [done|by apply Hall].
      * intros Hall y Hy. apply Hall. by right.
Qed.

Context (Hswo : StrictWeakOrder less).

Lemma equiv_less_l a b x : equiv less a b → less a x = less b x.
Proof.
  assert (∀ a b, equiv less a b → less a x = true → less b x = true) as Hone.
  { clear a b. intros a b [Hab Hba] Hax.
    destruct (less b x) eqn:Ebx; [done|].
    destruct (less x b) eqn:Exb.
    - rewrite (swo_trans _ Hswo _ _ _ Hax Exb) in Hab. done.
    - assert (equiv less a x) as [Hax' _].
      { apply (swo_equiv_trans _ Hswo a b x); by split. }
      congruence. }
  intros Hab. destruct (less a x) eqn:Ea.
  - symmetry. by apply (Hone a b).
  - destruct (less b x) eqn:Eb; [|done].
    rewrite (Hone b a) in Ea; [done| |done]. destruct Hab. by split.
Qed.

Lemma equiv_less_r a b x : equiv less a b → less x a = less x b.
Proof.
  assert (∀ a b, equiv less a b → less x a = true → less x b = true) as Hone.
  { clear a b. intros a b [Hab Hba] Hxa.
    destruct (less x b) eqn:Exb; [done|].
    destruct (less b x) eqn:Ebx.
    - rewrite (swo_trans _ Hswo _ _ _ Ebx Hxa) in Hba. done.
    - assert (equiv less x a) as [Hxa' _].
      { apply (swo_equiv_trans _ Hswo x b a); by split. }
      congruence. }
  intros Hab. destruct (less x a) eqn:Ea.
  - symmetry. by apply (Hone a b).
  - destruct (less x b) eqn:Eb; [|done].
    rewrite (Hone b a) in Ea; [done| |done]. destruct Hab. by split.
Qed.

Lemma similar_cons_inv a b r1 r2 :
  equiv less a b → similar (a :: r1) (b :: r2) → similar r1 r2.
Proof.
  intros Hab H x. destruct (H x) as [H1 H2].
  unfold count_before, count_after in *. rewrite !filter_cons in H1, H2.
  rewrite (equiv_less_l a b x Hab) in H1.
  rewrite (equiv_less_r a b x Hab) in H2.
  split.
  - destruct (decide (less b x = true)); simpl in H1; congruence.
  - destruct (decide (less x b = true)); simpl in H2; congruence.
Qed.

Lemma similar_min_equiv l1 l2 m1 m2 :
  similar l1 l2 → is_min_of less m1 l1 → is_min_of less m2 l2 →
  equiv less m1 m2.
Proof.
  assert (∀ l1 l2 m1 m2, similar l1 l2 → is_min_of less m1 l1 →
            is_min_of less m2 l2 → less m2 m1 = false) as Hone.
  { clear. intros l1 l2 m1 m2 Hsim [_ Hmin1] [Hin2 _].
    destruct (Hsim m1) as [Hc _]. unfold count_before in Hc.
    assert (length (filter (λ y, less y m1 = true) l1) = 0%nat) as Hz.
    { apply count_filter_zero. intros y Hy. rewrite (Hmin1 y Hy). done. }
    rewrite Hz in Hc. symmetry in Hc.
    pose proof (proj1 (count_filter_zero _ _) Hc m2 Hin2) as Hno.
    destruct (less m2 m1) eqn:E; [by destruct Hno|done]. }
  intros Hsim H1 H2. split.
  - apply (Hone l2 l1 m2 m1); [by apply similar_sym|done..].
  - by apply (Hone l1 l2 m1 m2).
Qed.

Lemma similar_max_equiv l1 l2 M1 M2 :
  similar l1 l2 → is_max_of less M1 l1 → is_max_of less M2 l2 →
  equiv less M1 M2.
Proof.
  assert (∀ l1 l2 M1 M2, similar l1 l2 → is_max_of less M1 l1 →
            is_max_of less M2 l2 → less M1 M2 = false) as Hone.
  { clear. intros l1 l2 M1 M2 Hsim [_ Hmax1] [Hin2 _].
    destruct (Hsim M1) as [_ Hc]. unfold count_after in Hc.
    assert (length (filter (λ y, less M1 y = true) l1) = 0%nat) as Hz.
    { apply count_filter_zero. intros y Hy. rewrite (Hmax1 y Hy). done. }
    rewrite Hz in Hc. symmetry in Hc.
    pose proof (proj1 (count_filter_zero _ _) Hc M2 Hin2) as Hno.
    destruct (less M1 M2) eqn:E; [by destruct Hno|done]. }
  intros Hsim H1 H2. split.
  - by apply (Hone l1 l2 M1 M2).
  - apply (Hone l2 l1 M2 M1); [by apply similar_sym|done..].
Qed.

End Similar.

(** * Replacing the extreme, and popping then pushing *)

Inductive side : Type := MinSide | MaxSide.

Section Fusion.
Context {T : Type} (_comp : T → T → bool).

(** [pop()] immediately followed by [push(val)]. *)
Definition bh_pop_push (_data : list T) (val : T) : result (list T) :=
  _data ← BinaryHeap.pop _comp _data;
  BinaryHeap.push _comp _data val.

Definition ih_pop_min_push (_data : list T) (val : T) : result (list T) :=
  _data ← IntervalHeap.pop_min _comp _data;
  IntervalHeap.push _comp _data val.

Definition ih_pop_max_push (_data : list T) (val : T) : result (list T) :=
  _data ← IntervalHeap.pop_max _comp _data;
  IntervalHeap.push _comp _data val.

(** What a run of pops shows of an IntervalHeap: before each pop, at the
    side the script names, both extremes. *)
Fixpoint ih_observe (script : list side) (_data : list T)
  : result (list (T * T)) :=
  match script with
  | [] => Ok []
  | s :: script =>
      m ← IntervalHeap.min _data;
      M ← IntervalHeap.max _data;
      _data ← match s with
              | MinSide => IntervalHeap.pop_min _comp _data
              | MaxSide => IntervalHeap.pop_max _comp _data
              end;
      rest ← ih_observe script _data;
      Ok ((m, M) :: rest)
  end.

(** Observably identical: the same multiset, and the same extremes under
    any pops that follow. *)
Definition bh_observably_identical (d1 d2 : list T) : Prop :=
  d1 ≡ₚ d2 ∧
  ∀ n, (n ≤ length d1)%nat →
    ∃ o, bh_drain _comp n d1 = Ok o ∧ bh_drain _comp n d2 = Ok o.

Definition ih_observably_identical (d1 d2 : list T) : Prop :=
  d1 ≡ₚ d2 ∧
  ∀ script, (length script ≤ length d1)%nat →
    ∃ o, ih_observe script d1 = Ok o ∧ ih_observe script d2 = Ok o.

(** Observably equivalent: the same multiset, and under any pops that
    follow, extremes that the comparator does not tell apart. *)
Definition bh_observably_equivalent (d1 d2 : list T) : Prop :=
  d1 ≡ₚ d2 ∧
  ∀ n, (n ≤ length d1)%nat →
    ∃ o1 o2, bh_drain _comp n d1 = Ok o1 ∧ bh_drain _comp n d2 = Ok o2 ∧
             Forall2 (equiv _comp) o1 o2.

Definition ih_observably_equivalent (d1 d2 : list T) : Prop :=
  d1 ≡ₚ d2 ∧
  ∀ script, (length script ≤ length d1)%nat →
    ∃ o1 o2, ih_observe script d1 = Ok o1 ∧ ih_observe script d2 = Ok o2 ∧
             Forall2 (λ a b, equiv _comp a.1 b.1 ∧ equiv _comp a.2 b.2) o1 o2.

(** The comparator tells any two different elements apart, as the natural
    order of the integers does. *)
Definition distinguishing : Prop := ∀ a b, equiv _comp a b → a = b.

End Fusion.

Section FusionFacts.
Context {T : Type} (less : T → T → bool) (Hswo : StrictWeakOrder less).
Implicit Types (d l : list T).

Lemma bh_drain_similar n d1 d2 :
  fits d1 → fits d2 → bh_from less 0 d1 → bh_from less 0 d2 →
  size d1 = size d2 → (n ≤ length d1)%nat → similar less d1 d2 →
  ∃ o1 o2, bh_drain less n d1 = Ok o1 ∧ bh_drain less n d2 = Ok o2 ∧
           Forall2 (equiv less) o1 o2.
Proof.
  revert d1 d2.
  induction n as [|n IH]; intros d1 d2 Hf1 Hf2 Hi1 Hi2 Hsz Hn Hsim.
  { exists [], []. repeat split. constructor. }
  assert (0 < size d1) as Hpos by (unfold size; lia).
  destruct (nthZ_is_Some d1 0) as [m1 Hm1]; [lia|].
  destruct (nthZ_is_Some d2 0) as [m2 Hm2]; [lia|].
  destruct (bh_pop_spec less Hswo d1 m1 Hf1 Hm1 Hi1)
    as (d1' & E1 & Hi1' & Hp1 & Hsz1).
  destruct (bh_pop_spec less Hswo d2 m2 Hf2 Hm2 Hi2)
    as (d2' & E2 & Hi2' & Hp2 & Hsz2).
  assert (equiv less m1 m2) as Heq.
  { apply (similar_min_equiv less d1 d2); [done| |].
    - by apply (bh_top_is_min less d1 d1 m1).
    - by apply (bh_top_is_min less d2 d2 m2). }
  destruct (IH d1' d2') as (o1 & o2 & Eo1 & Eo2 & Ho);
    [unfold fits in *; lia..|done|done|lia|unfold size in *; lia| |].
  { apply (similar_cons_inv less Hswo m1 m2); [done|].
    apply (similar_trans less _ d1); [by apply similar_perm|].
    apply (similar_trans less _ d2); [done|]. by apply similar_perm. }
  simpl. rewrite (bh_top_ok _ _ Hm1), (bh_top_ok _ _ Hm2). simpl.
  rewrite E1, E2. simpl. rewrite Eo1, Eo2. simpl.
  exists (m1 :: o1), (m2 :: o2). split; [done|]. split; [done|].
  by constructor.
Qed.

Lemma ih_observe_similar script d1 d2 :
  fits d1 → fits d2 → ih_heap less d1 → ih_heap less d2 →
  size d1 = size d2 → (length script ≤ length d1)%nat → similar less d1 d2 →
  ∃ o1 o2, ih_observe less script d1 = Ok o1 ∧
           ih_observe less script d2 = Ok o2 ∧
           Forall2 (λ a b, equiv less a.1 b.1 ∧ equiv less a.2 b.2) o1 o2.
Proof.
  revert d1 d2.
  induction script as [|s script IH]; intros d1 d2 Hf1 Hf2 Hi1 Hi2 Hsz Hn Hsim.
  { exists [], []. repeat split. constructor. }
  simpl in Hn.
  assert (0 < size d1) as Hpos by (unfold size; lia).
  destruct (nthZ_is_Some d1 0) as [m1 Hm1]; [lia|].
  destruct (nthZ_is_Some d2 0) as [m2 Hm2]; [lia|].
  destruct (ih_pop_min_spec less Hswo d1 m1 Hf1 Hm1 Hi1)
    as (a1 & Ea1 & Hia1 & Hpa1 & Hsa1).
  destruct (ih_pop_min_spec less Hswo d2 m2 Hf2 Hm2 Hi2)
    as (a2 & Ea2 & Hia2 & Hpa2 & Hsa2).
  destruct (ih_pop_max_spec less Hswo d1 Hf1 Hpos Hi1)
    as (b1 & M1 & Eb1 & EM1 & Hib1 & Hpb1 & Hsb1).
  destruct (ih_pop_max_spec less Hswo d2 Hf2 ltac:(lia) Hi2)
    as (b2 & M2 & Eb2 & EM2 & Hib2 & Hpb2 & Hsb2).
  assert (equiv less m1 m2) as Hmin.
  { apply (similar_min_equiv less d1 d2); [done| |].
    - by apply (ih_min_is_min less d1 d1 m1).
    - by apply (ih_min_is_min less d2 d2 m2). }
  assert (equiv less M1 M2) as Hmax.
  { apply (similar_max_equiv less d1 d2); [done| |].
    - by apply (ih_max_is_max less d1 d1 M1).
    - by apply (ih_max_is_max less d2 d2 M2). }
  simpl. rewrite (ih_min_ok _ _ Hm1), (ih_min_ok _ _ Hm2). simpl.
  rewrite EM1, EM2. simpl.
  destruct s.
  - destruct (IH a1 a2) as (o1 & o2 & Eo1 & Eo2 & Ho);
      [unfold fits in *; lia..|done|done|lia|unfold size in *; lia| |].
    { apply (similar_cons_inv less Hswo m1 m2); [done|].
      apply (similar_trans less _ d1); [by apply similar_perm|].
      apply (similar_trans less _ d2); [done|]. by apply similar_perm. }
    rewrite Ea1, Ea2. simpl. rewrite Eo1, Eo2. simpl.
    exists ((m1, M1) :: o1), ((m2, M2) :: o2).
    split; [done|]. split; [done|]. by constructor.
  - destruct (IH b1 b2) as (o1 & o2 & Eo1 & Eo2 & Ho);
      [unfold fits in *; lia..|done|done|lia|unfold size in *; lia| |].
    { apply (similar_cons_inv less Hswo M1 M2); [done|].
      apply (similar_trans less _ d1); [by apply similar_perm|].
      apply (similar_trans less _ d2); [done|]. by apply similar_perm. }
    rewrite Eb1, Eb2. simpl. rewrite Eo1, Eo2. simpl.
    exists ((m1, M1) :: o1), ((m2, M2) :: o2).
    split; [done|]. split; [done|]. by constructor.
Qed.

Lemma bh_equivalent_valid d1 d2 :
  fits d1 → bh_from less 0 d1 → bh_from less 0 d2 → d1 ≡ₚ d2 →
  bh_observably_equivalent less d1 d2.
Proof.
  intros Hf Hi1 Hi2 Hp. split; [done|]. intros n Hn.
  assert (size d1 = size d2) as Hsz by (unfold size; by rewrite Hp).
  apply bh_drain_similar; try done.
  - unfold fits in *. lia.
  - by apply similar_perm.
Qed.

Lemma ih_equivalent_valid d1 d2 :
  fits d1 → ih_heap less d1 → ih_heap less d2 → d1 ≡ₚ d2 →
  ih_observably_equivalent less d1 d2.
Proof.
  intros Hf Hi1 Hi2 Hp. split; [done|]. intros script Hn.
  assert (size d1 = size d2) as Hsz by (unfold size; by rewrite Hp).
  apply ih_observe_similar; try done.
  - unfold fits in *. lia.
  - by apply similar_perm.
Qed.

Lemma bh_identical_equivalent d1 d2 :
  distinguishing less → bh_observably_equivalent less d1 d2 →
  bh_observably_identical less d1 d2.
Proof.
  intros Hdist [Hp Hobs]. split; [done|]. intros n Hn.
  destruct (Hobs n Hn) as (o1 & o2 & E1 & E2 & Ho).
  exists o1. split; [done|]. rewrite E2. f_equal. symmetry. clear E1 E2.
  induction Ho as [|a b o1 o2 Hab _ IH]; [done|].
  by rewrite (Hdist a b Hab), IH.
Qed.

Lemma ih_identical_equivalent d1 d2 :
  distinguishing less → ih_observably_equivalent less d1 d2 →
  ih_observably_identical less d1 d2.
Proof.
  intros Hdist [Hp Hobs]. split; [done|]. intros script Hn.
  destruct (Hobs script Hn) as (o1 & o2 & E1 & E2 & Ho).
  exists o1. split; [done|]. rewrite E2. f_equal. symmetry. clear E1 E2.
  induction Ho as [|[a1 a2] [b1 b2] o1 o2 [H1 H2] _ IH]; [done|].
  simpl in *. by rewrite (Hdist a1 b1 H1), (Hdist a2 b2 H2), IH.
Qed.

(** C4, amended. Fusion equivalence up to the comparator: on a heap that
    is not empty, [replace_top(v)] and [pop()] followed by [push(v)] both
    return, with the same multiset of elements and, under any pops that
    follow, extremes that the comparator does not tell apart; likewise
    [replace_min(v)] against [pop_min()] then [push(v)] and
    [replace_max(v)] against [pop_max()] then [push(v)] on an
    IntervalHeap.  Where the comparator tells any two different elements
    apart, the extremes are the same. *)
Theorem fusion_equivalence d val :
  fits d → 0 < size d →
  (bh_inv less d →
     ∃ d1 d2,
       BinaryHeap.replace_top less d val = Ok d1 ∧
       bh_pop_push less d val = Ok d2 ∧
       bh_observably_equivalent less d1 d2 ∧
       (distinguishing less → bh_observably_identical less d1 d2)) ∧
  (ih_inv less d →
     ∃ d1 d2 d3 d4,
       IntervalHeap.replace_min less d val = Ok d1 ∧
       ih_pop_min_push less d val = Ok d2 ∧
       ih_observably_equivalent less d1 d2 ∧
       (distinguishing less → ih_observably_identical less d1 d2) ∧
       IntervalHeap.replace_max less d val = Ok d3 ∧
       ih_pop_max_push less d val = Ok d4 ∧
       ih_observably_equivalent less d3 d4 ∧
       (distinguishing less → ih_observably_identical less d3 d4)).
Proof.
  intros Hfit Hpos. destruct (nthZ_is_Some d 0) as [m Hm]; [lia|].
  split.
  - intros Hinv%bh_inv_from.
    destruct (bh_replace_top_spec less Hswo d m val Hfit Hm Hinv)
      as (d1 & E1 & Hi1 & Hp1 & Hs1).
    destruct (bh_pop_spec less Hswo d m Hfit Hm Hinv)
      as (d' & E' & Hi' & Hp' & Hs').
    destruct (bh_push_spec less Hswo d' val) as (d2 & E2 & Hi2 & Hp2 & Hs2);
      [unfold fits in *; lia|done|].
    assert (bh_observably_equivalent less d1 d2) as Hobs.
    { apply bh_equivalent_valid; [unfold fits in *; lia|done..|].
      apply (Permutation_cons_inv (a:=m)).
      by rewrite Hp1, Hp2, <- Hp', Permutation_swap. }
    exists d1, d2. split; [done|]. split.
    { unfold bh_pop_push. rewrite E'. done. }
    split; [done|]. intros Hdist. by apply bh_identical_equivalent.
  - intros Hinv%ih_inv_heap.
    destruct (ih_replace_min_spec less Hswo d m val Hfit Hm Hinv)
      as (d1 & E1 & Hi1 & Hp1 & Hs1).
    destruct (ih_pop_min_spec less Hswo d m Hfit Hm Hinv)
      as (a & Ea & Hia & Hpa & Hsa).
    destruct (ih_push_spec less Hswo a val) as (d2 & E2 & Hi2 & Hp2 & Hs2);
      [unfold fits in *; lia|done|].
    destruct (ih_replace_max_spec less Hswo d val Hfit Hpos Hinv)
      as (d3 & M & E3 & EM & Hi3 & Hp3 & Hs3).
    destruct (ih_pop_max_spec less Hswo d Hfit Hpos Hinv)
      as (b & M' & Eb & EM' & Hib & Hpb & Hsb).
    assert (M' = M) as -> by congruence.
    destruct (ih_push_spec less Hswo b val) as (d4 & E4 & Hi4 & Hp4 & Hs4);
      [unfold fits in *; lia|done|].
    assert (ih_observably_equivalent less d1 d2) as Hobs1.
    { apply ih_equivalent_valid; [unfold fits in *; lia|done..|].
      apply (Permutation_cons_inv (a:=m)).
      by rewrite Hp1, Hp2, <- Hpa, Permutation_swap. }
    assert (ih_observably_equivalent less d3 d4) as Hobs2.
    { apply ih_equivalent_valid; [unfold fits in *; lia|done..|].
      apply (Permutation_cons_inv (a:=M)).
      by rewrite Hp3, Hp4, <- Hpb, Permutation_swap. }
    exists d1, d2, d3, d4. split; [done|]. split.
    { unfold ih_pop_min_push. rewrite Ea. done. }
    split; [done|].
    split; [intros Hdist; by apply ih_identical_equivalent|].
    split; [done|]. split.
    { unfold ih_pop_max_push. rewrite Eb. done. }
    split; [done|]. intros Hdist. by apply ih_identical_equivalent.
Qed.

End FusionFacts.

(** * Elements the comparator does not tell apart *)

(** Pairs ordered by their first component: a priority and a payload. *)
Definition less_fst (a b : Z * Z) : bool := a.1 <? b.1.

Lemma less_fst_strict_weak_order : StrictWeakOrder less_fst.
Proof.
  unfold less_fst. split.
  - intros a. apply Z.ltb_irrefl.
  - intros a b c. rewrite !Z.ltb_lt. lia.
  - intros a b c. unfold equiv. rewrite !Z.ltb_ge. lia.
Qed.

Section Heapified.
Context {T : Type} (less : T → T → bool) (Hswo : StrictWeakOrder less).

(** A sequence that [heapify] leaves as it is satisfies the invariant. *)
Lemma bh_heapified_inv (d : list T) :
  fits d → BinaryHeap.heapify less d = Ok d → bh_inv less d.
Proof.
  intros Hfit E.
  destruct (bh_heapify_spec less Hswo d Hfit) as (d' & E' & Hinv & _).
  assert (d' = d) as -> by congruence. by apply bh_inv_from.
Qed.

Lemma ih_heapified_inv (d : list T) :
  fits d → IntervalHeap.heapify less d = Ok d → ih_inv less d.
Proof.
  intros Hfit E.
  destruct (ih_heapify_spec less Hswo d Hfit) as (d' & E' & Hinv & _).
  assert (d' = d) as -> by congruence. by apply ih_inv_heap.
Qed.

End Heapified.

(** C4 as stated fails where the comparator leaves different elements
    unordered: on the heap [(0,0), (1,1)] of pairs ordered by their first
    component, [replace_top((1,2))] leaves [(1,2)] on top and [pop()] then
    [push((1,2))] leaves [(1,1)] on top; the same heap and value separate
    [replace_min] from [pop_min()] then [push], and the heap
    [(0,0), (2,2), (1,1)] with the value [(1,9)] separates [replace_max]
    from [pop_max()] then [push]. *)
Lemma fusion_not_identical :
  StrictWeakOrder less_fst ∧
  bh_inv less_fst [(0, 0); (1, 1)] ∧
  ih_inv less_fst [(0, 0); (1, 1)] ∧
  ih_inv less_fst [(0, 0); (2, 2); (1, 1)] ∧
  BinaryHeap.replace_top less_fst [(0, 0); (1, 1)] (1, 2)
    = Ok [(1, 2); (1, 1)] ∧
  bh_pop_push less_fst [(0, 0); (1, 1)] (1, 2) = Ok [(1, 1); (1, 2)] ∧
  BinaryHeap.top [(1, 2); (1, 1)] = Ok (1, 2) ∧
  BinaryHeap.top [(1, 1); (1, 2)] = Ok (1, 1) ∧
  ¬ bh_observably_identical less_fst [(1, 2); (1, 1)] [(1, 1); (1, 2)] ∧
  IntervalHeap.replace_min less_fst [(0, 0); (1, 1)] (1, 2)
    = Ok [(1, 2); (1, 1)] ∧
  ih_pop_min_push less_fst [(0, 0); (1, 1)] (1, 2) = Ok [(1, 1); (1, 2)] ∧
  ¬ ih_observably_identical less_fst [(1, 2); (1, 1)] [(1, 1); (1, 2)] ∧
  IntervalHeap.replace_max less_fst [(0, 0); (2, 2); (1, 1)] (1, 9)
    = Ok [(0, 0); (1, 9); (1, 1)] ∧
  ih_pop_max_push less_fst [(0, 0); (2, 2); (1, 1)] (1, 9)
    = Ok [(0, 0); (1, 1); (1, 9)] ∧
  ¬ ih_observably_identical less_fst
      [(0, 0); (1, 9); (1, 1)] [(0, 0); (1, 1); (1, 9)].
Proof.
  split; [apply less_fst_strict_weak_order|].
  split.
  { apply (bh_heapified_inv _ less_fst_strict_weak_order);
      [by apply fits_small; simpl; lia|vm_compute; reflexivity]. }
  split.
  { apply (ih_heapified_inv _ less_fst_strict_weak_order);
      [by apply fits_small; simpl; lia|vm_compute; reflexivity]. }
  split.
  { apply (ih_heapified_inv _ less_fst_strict_weak_order);
      [by apply fits_small; simpl; lia|vm_compute; reflexivity]. }
  split; [vm_compute; reflexivity|]. split; [vm_compute; reflexivity|].
  split; [vm_compute; reflexivity|]. split; [vm_compute; reflexivity|].
  split.
  { intros [_ Hobs]. destruct (Hobs 1%nat) as (o & E1 & E2); [simpl; lia|].
    vm_compute in E1, E2. congruence. }
  split; [vm_compute; reflexivity|]. split; [vm_compute; reflexivity|].
  split.
  { intros [_ Hobs].
    destruct (Hobs [MinSide]) as (o & E1 & E2); [simpl; lia|].
    vm_compute in E1, E2. congruence. }
  split; [vm_compute; reflexivity|]. split; [vm_compute; reflexivity|].
  intros [_ Hobs].
  destruct (Hobs [MaxSide]) as (o & E1 & E2); [simpl; lia|].
  vm_compute in E1, E2. congruence.
Qed.

(** * The theorems at work on concrete heaps *)

Definition example_bh : BinaryHeap.t Z :=
  BinaryHeap.Heap Z.ltb [1; 3; 2; 5; 9; 8].

Definition example_ih : IntervalHeap.t Z :=
  IntervalHeap.Heap Z.ltb [1; 9; 3; 8; 2; 5].

Definition empty_bh : BinaryHeap.t Z := BinaryHeap.Heap Z.ltb [].
Definition empty_ih : IntervalHeap.t Z := IntervalHeap.Heap Z.ltb [].

Lemma example_fits : fits example_input.
Proof. apply fits_small. simpl. lia. Qed.

Lemma example_bh_reach : bh_reach example_bh example_input.
Proof.
  apply bh_reach_construct;
    [apply ltb_strict_weak_order|apply example_fits|vm_compute; reflexivity].
Qed.

Lemma example_ih_reach : ih_reach example_ih example_input.
Proof.
  apply ih_reach_construct;
    [apply ltb_strict_weak_order|apply example_fits|vm_compute; reflexivity].
Qed.

Lemma example_ih_inv : ih_inv Z.ltb [1; 9; 3; 8; 2; 5].
Proof.
  apply (ih_heapified_inv _ ltb_strict_weak_order);
    [apply fits_small; simpl; lia|vm_compute; reflexivity].
Qed.

Lemma small_bh_inv : bh_inv Z.ltb [1; 5; 3].
Proof.
  apply (bh_heapified_inv _ ltb_strict_weak_order);
    [apply fits_small; simpl; lia|vm_compute; reflexivity].
Qed.

Lemma small_ih_inv : ih_inv Z.ltb [1; 5; 3].
Proof.
  apply (ih_heapified_inv _ ltb_strict_weak_order);
    [apply fits_small; simpl; lia|vm_compute; reflexivity].
Qed.

Lemma ltb_distinguishing : distinguishing Z.ltb.
Proof. intros a b. unfold equiv. rewrite !Z.ltb_ge. lia. Qed.

Lemma extreme_correctness_witness :
  (bh_reach example_bh example_input ∧ example_input ≠ [] ∧
   ∃ m, BinaryHeap.top [1; 3; 2; 5; 9; 8] = Ok m ∧
        is_min_of Z.ltb m example_input) ∧
  (ih_reach example_ih example_input ∧ example_input ≠ [] ∧
   ∃ m M, IntervalHeap.min [1; 9; 3; 8; 2; 5] = Ok m ∧
          IntervalHeap.max [1; 9; 3; 8; 2; 5] = Ok M ∧
          is_min_of Z.ltb m example_input ∧
          is_max_of Z.ltb M example_input).
Proof.
  destruct (extreme_correctness example_bh example_input
              example_ih example_input) as [Hb Hi].
  split.
  - split; [apply example_bh_reach|]. split; [discriminate|].
    destruct Hb as (m & Hm & _ & Hmin);
      [apply example_bh_reach|discriminate|].
    exists m. split; [exact Hm|exact Hmin].
  - split; [apply example_ih_reach|]. split; [discriminate|].
    destruct Hi as (m & M & Hm & HM & Hmin & Hmax & _);
      [apply example_ih_reach|discriminate|].
    exists m, M. split; [exact Hm|]. split; [exact HM|].
    split; [exact Hmin|exact Hmax].
Defined.

Lemma invariant_preservation_witness :
  (bh_reach example_bh example_input ∧ bh_inv Z.ltb [1; 3; 2; 5; 9; 8] ∧
   ∃ d', BinaryHeap.pop Z.ltb [1; 3; 2; 5; 9; 8] = Ok d' ∧ bh_inv Z.ltb d') ∧
  (ih_reach example_ih example_input ∧ ih_inv Z.ltb [1; 9; 3; 8; 2; 5] ∧
   ∃ d1 d2,
     IntervalHeap.pop_min Z.ltb [1; 9; 3; 8; 2; 5] = Ok d1 ∧
     ih_inv Z.ltb d1 ∧
     IntervalHeap.pop_max Z.ltb [1; 9; 3; 8; 2; 5] = Ok d2 ∧
     ih_inv Z.ltb d2).
Proof.
  destruct (invariant_preservation example_bh example_input
              example_ih example_input) as [Hb Hi].
  split.
  - split; [apply example_bh_reach|].
    destruct (Hb example_bh_reach) as (Hinv & _ & _ & Hpop & _).
    split; [exact Hinv|]. apply Hpop. reflexivity.
  - split; [apply example_ih_reach|].
    destruct (Hi example_ih_reach) as (Hinv & _ & _ & Hpop & _).
    split; [exact Hinv|]. apply Hpop. reflexivity.
Defined.

Lemma heap_sort_round_trip_witness :
  StrictWeakOrder Z.ltb ∧ fits example_input ∧
  (∃ out, bh_sort Z.ltb example_input = Ok out ∧ out ≡ₚ example_input ∧
          non_decreasing Z.ltb out) ∧
  (∃ out, ih_sort_min Z.ltb example_input = Ok out ∧
          out ≡ₚ example_input ∧ non_decreasing Z.ltb out) ∧
  (∃ out, ih_sort_max Z.ltb example_input = Ok out ∧
          out ≡ₚ example_input ∧ non_increasing Z.ltb out).
Proof.
  split; [apply ltb_strict_weak_order|]. split; [apply example_fits|].
  apply (heap_sort_round_trip Z.ltb ltb_strict_weak_order example_input).
  apply example_fits.
Defined.

Lemma fusion_equivalence_witness :
  StrictWeakOrder Z.ltb ∧ fits [1; 5; 3] ∧ 0 < size [1; 5; 3] ∧
  bh_inv Z.ltb [1; 5; 3] ∧ ih_inv Z.ltb [1; 5; 3] ∧ distinguishing Z.ltb ∧
  (∃ d1 d2,
     BinaryHeap.replace_top Z.ltb [1; 5; 3] 4 = Ok d1 ∧
     bh_pop_push Z.ltb [1; 5; 3] 4 = Ok d2 ∧
     bh_observably_identical Z.ltb d1 d2) ∧
  (∃ d1 d2 d3 d4,
     IntervalHeap.replace_min Z.ltb [1; 5; 3] 4 = Ok d1 ∧
     ih_pop_min_push Z.ltb [1; 5; 3] 4 = Ok d2 ∧
     ih_observably_identical Z.ltb d1 d2 ∧
     IntervalHeap.replace_max Z.ltb [1; 5; 3] 4 = Ok d3 ∧
     ih_pop_max_push Z.ltb [1; 5; 3] 4 = Ok d4 ∧
     ih_observably_identical Z.ltb d3 d4).
Proof.
  assert (fits [1; 5; 3]) as Hfit by (apply fits_small; simpl; lia).
  assert (0 < size [1; 5; 3]) as Hpos by reflexivity.
  destruct (fusion_equivalence Z.ltb ltb_strict_weak_order [1; 5; 3] 4
              Hfit Hpos) as [Hb Hi].
  split; [apply ltb_strict_weak_order|]. split; [exact Hfit|].
  split; [exact Hpos|]. split; [apply small_bh_inv|].
  split; [apply small_ih_inv|]. split; [apply ltb_distinguishing|].
  split.
  - destruct (Hb small_bh_inv) as (d1 & d2 & E1 & E2 & _ & Hid).
    exists d1, d2. split; [exact E1|]. split; [exact E2|].
    apply Hid, ltb_distinguishing.
  - destruct (Hi small_ih_inv)
      as (d1 & d2 & d3 & d4 & E1 & E2 & _ & Hid1 & E3 & E4 & _ & Hid2).
    exists d1, d2, d3, d4. split; [exact E1|]. split; [exact E2|].
    split; [apply Hid1, ltb_distinguishing|]. split; [exact E3|].
    split; [exact E4|]. apply Hid2, ltb_distinguishing.
Defined.

Lemma size_empty_consistency_witness :
  (bh_reach example_bh example_input ∧
   BinaryHeap.size [1; 3; 2; 5; 9; 8] < MAX_SIZE ∧
   BinaryHeap.empty [1; 3; 2; 5; 9; 8] = false ∧
   (∃ d1, BinaryHeap.push Z.ltb [1; 3; 2; 5; 9; 8] 7 = Ok d1 ∧
          BinaryHeap.size d1 = 7) ∧
   (∃ d1, BinaryHeap.pop Z.ltb [1; 3; 2; 5; 9; 8] = Ok d1 ∧
          BinaryHeap.size d1 = 5)) ∧
  (ih_reach example_ih example_input ∧
   IntervalHeap.size [1; 9; 3; 8; 2; 5] < MAX_SIZE ∧
   IntervalHeap.empty [1; 9; 3; 8; 2; 5] = false ∧
   (∃ d1, IntervalHeap.push Z.ltb [1; 9; 3; 8; 2; 5] 7 = Ok d1 ∧
          IntervalHeap.size d1 = 7) ∧
   (∃ d1 d2, IntervalHeap.pop_min Z.ltb [1; 9; 3; 8; 2; 5] = Ok d1 ∧
             IntervalHeap.pop_max Z.ltb [1; 9; 3; 8; 2; 5] = Ok d2 ∧
             IntervalHeap.size d1 = 5 ∧ IntervalHeap.size d2 = 5)).
Proof.
  destruct (size_empty_consistency example_bh example_input
              example_ih example_input 7) as (_ & _ & Hb & Hi).
  assert (6 < MAX_SIZE) as Hroom by (rewrite max_size_value; lia).
  split.
  - destruct (Hb example_bh_reach) as [Hpush Hpop].
    split; [apply example_bh_reach|]. split; [exact Hroom|].
    split; [reflexivity|]. split.
    + destruct (Hpush Hroom) as (d1 & d2 & E1 & _ & Hs1 & _).
      exists d1. split; [exact E1|exact Hs1].
    + destruct (Hpop eq_refl) as (d1 & E1 & Hs1).
      exists d1. split; [exact E1|exact Hs1].
  - destruct (Hi example_ih_reach) as [Hpush Hpop].
    split; [apply example_ih_reach|]. split; [exact Hroom|].
    split; [reflexivity|]. split.
    + destruct (Hpush Hroom) as (d1 & d2 & E1 & _ & Hs1 & _).
      exists d1. split; [exact E1|exact Hs1].
    + destruct (Hpop eq_refl) as (d1 & d2 & E1 & E2 & Hs1 & Hs2).
      exists d1, d2. split; [exact E1|]. split; [exact E2|].
      split; [exact Hs1|exact Hs2].
Defined.

Lemma ascent_exclusivity_witness :
  StrictWeakOrder Z.ltb ∧ size [1; 9; 3; 8; 2; 5] < MAX_SIZE ∧
  ih_inv Z.ltb [1; 9; 3; 8; 2; 5] ∧
  ∃ d1 idx1 a b,
    reconcile Z.ltb (push_back [1; 9; 3; 8; 2; 5] 10)
      (size [1; 9; 3; 8; 2; 5]) 10 = Ok (d1, idx1) ∧
    min_ascent_applies Z.ltb d1 idx1 10 = Ok a ∧
    max_ascent_applies Z.ltb d1 idx1 10 = Ok b ∧
    a && b = false.
Proof.
  assert (size [1; 9; 3; 8; 2; 5] < MAX_SIZE) as Hroom
    by (rewrite max_size_value; reflexivity).
  split; [apply ltb_strict_weak_order|]. split; [exact Hroom|].
  split; [apply example_ih_inv|].
  apply (ascent_exclusivity Z.ltb ltb_strict_weak_order
           [1; 9; 3; 8; 2; 5] 10 Hroom example_ih_inv).
Defined.

Lemma parent_underflow_harmless_witness :
  (fits [1; 3; 2; 5; 9; 8] ∧
   at_ [1; 3; 2; 5; 9; 8] (BinaryHeap.get_parent 0) = OutOfBounds) ∧
  (size [1; 9; 3; 8; 2; 5] < MAX_SIZE ∧
   at_ [1; 9; 3; 8; 2; 5] (IntervalHeap.get_parent 1) = OutOfBounds) ∧
  (bh_reach example_bh example_input ∧
   ∃ d', BinaryHeap.push Z.ltb [1; 3; 2; 5; 9; 8] 0 = Ok d') ∧
  (ih_reach example_ih example_input ∧
   ∃ d', IntervalHeap.push Z.ltb [1; 9; 3; 8; 2; 5] 0 = Ok d').
Proof.
  destruct (parent_underflow_harmless example_bh example_input
              example_ih example_input 0)
    as (_ & Hb0 & Hi0 & _ & _ & _ & Hb & Hi).
  assert (6 < MAX_SIZE) as Hroom by (rewrite max_size_value; lia).
  assert (fits [1; 3; 2; 5; 9; 8]) as Hfit by (apply fits_small; simpl; lia).
  split; [|split; [|split]].
  - split; [exact Hfit|]. apply Hb0, Hfit.
  - split; [exact Hroom|]. apply (Hi0 [1; 9; 3; 8; 2; 5] Hroom).
  - split; [apply example_bh_reach|].
    destruct (Hb example_bh_reach Hroom) as (d' & E & _). exists d'. exact E.
  - split; [apply example_ih_reach|].
    destruct (Hi example_ih_reach Hroom) as (d' & E & _). exists d'. exact E.
Defined.

Lemma descent_preconditions_witness :
  StrictWeakOrder Z.ltb ∧ size [1; 9; 3; 8; 2; 5] ≤ MAX_SIZE ∧
  ih_inv Z.ltb [1; 9; 3; 8; 2; 5] ∧ 0 < size [1; 9; 3; 8; 2; 5] ∧
  (∃ d', heapify_guarded Z.ltb [1; 9; 3; 8; 2; 5] = Ok d') ∧
  (∃ d', pop_min_guarded Z.ltb [1; 9; 3; 8; 2; 5] = Ok d') ∧
  (∃ d', pop_max_guarded Z.ltb [1; 9; 3; 8; 2; 5] = Ok d') ∧
  (∃ d', replace_min_guarded Z.ltb [1; 9; 3; 8; 2; 5] 4 = Ok d') ∧
  (∃ d', replace_max_guarded Z.ltb [1; 9; 3; 8; 2; 5] 4 = Ok d').
Proof.
  assert (size [1; 9; 3; 8; 2; 5] ≤ MAX_SIZE) as Hfit
    by (apply fits_small; simpl; lia).
  assert (0 < size [1; 9; 3; 8; 2; 5]) as Hpos by reflexivity.
  destruct (descent_preconditions Z.ltb ltb_strict_weak_order
              [1; 9; 3; 8; 2; 5] 4 Hfit) as [Hh Hops].
  destruct (Hops example_ih_inv Hpos)
    as ((d1 & E1 & _) & (d2 & E2 & _) & (d3 & E3 & _) & (d4 & E4 & _) & _).
  destruct Hh as (d0 & E0 & _).
  split; [apply ltb_strict_weak_order|]. split; [exact Hfit|].
  split; [apply example_ih_inv|]. split; [exact Hpos|].
  split; [by exists d0|]. split; [by exists d1|]. split; [by exists d2|].
  split; [by exists d3|]. by exists d4.
Defined.

(** * What the operations do to the contents *)

Section Contents.
Context {T : Type} (less : T → T → bool) (Hswo : StrictWeakOrder less).
Implicit Types (d cont : list T) (x val m : T).

(** X1. BinaryHeap: [push] and [emplace] add the given element and nothing
    else; [pop] removes the element [top] shows and nothing else;
    [replace_top] removes that element and adds the given one. *)
Theorem bh_contents d x val :
  fits d → bh_inv less d →
  (size d < MAX_SIZE →
     ∃ d', BinaryHeap.push less d x = Ok d' ∧
           BinaryHeap.emplace less d x = Ok d' ∧ d' ≡ₚ x :: d) ∧
  (0 < size d →
     ∃ m d1 d2,
       BinaryHeap.top d = Ok m ∧
       BinaryHeap.pop less d = Ok d1 ∧ m :: d1 ≡ₚ d ∧
       BinaryHeap.replace_top less d val = Ok d2 ∧ m :: d2 ≡ₚ val :: d).
Proof.
  intros Hfit Hinv%bh_inv_from. split.
  - intros Hroom.
    destruct (bh_push_spec less Hswo d x Hroom Hinv) as (d' & E & _ & Hp & _).
    by exists d'.
  - intros Hpos. destruct (nthZ_is_Some d 0) as [m Hm]; [lia|].
    destruct (bh_pop_spec less Hswo d m Hfit Hm Hinv) as (d1 & E1 & _ & Hp1 & _).
    destruct (bh_replace_top_spec less Hswo d m val Hfit Hm Hinv)
      as (d2 & E2 & _ & Hp2 & _).
    exists m, d1, d2. split; [by apply bh_top_ok|]. done.
Qed.

(** X2. IntervalHeap: [push] and [emplace] add the given element and nothing
    else; [pop_min] and [replace_min] remove the element [min] shows,
    [pop_max] and [replace_max] the element [max] shows. *)
Theorem ih_contents d x val :
  fits d → ih_inv less d →
  (size d < MAX_SIZE →
     ∃ d', IntervalHeap.push less d x = Ok d' ∧
           IntervalHeap.emplace less d x = Ok d' ∧ d' ≡ₚ x :: d) ∧
  (0 < size d →
     ∃ m M d1 d2 d3 d4,
       IntervalHeap.min d = Ok m ∧ IntervalHeap.max d = Ok M ∧
       IntervalHeap.pop_min less d = Ok d1 ∧ m :: d1 ≡ₚ d ∧
       IntervalHeap.pop_max less d = Ok d2 ∧ M :: d2 ≡ₚ d ∧
       IntervalHeap.replace_min less d val = Ok d3 ∧ m :: d3 ≡ₚ val :: d ∧
       IntervalHeap.replace_max less d val = Ok d4 ∧ M :: d4 ≡ₚ val :: d).
Proof.
  intros Hfit Hinv%ih_inv_heap. split.
  - intros Hroom.
    destruct (ih_push_spec less Hswo d x Hroom Hinv) as (d' & E & _ & Hp & _).
    by exists d'.
  - intros Hpos. destruct (nthZ_is_Some d 0) as [m Hm]; [lia|].
    destruct (ih_pop_min_spec less Hswo d m Hfit Hm Hinv)
      as (d1 & E1 & _ & Hp1 & _).
    destruct (ih_pop_max_spec less Hswo d Hfit Hpos Hinv)
      as (d2 & M & E2 & EM & _ & Hp2 & _).
    destruct (ih_replace_min_spec less Hswo d m val Hfit Hm Hinv)
      as (d3 & E3 & _ & Hp3 & _).
    destruct (ih_replace_max_spec less Hswo d val Hfit Hpos Hinv)
      as (d4 & M' & E4 & EM' & _ & Hp4 & _).
    assert (M' = M) as -> by congruence.
    exists m, M, d1, d2, d3, d4. split; [by apply ih_min_ok|]. done.
Qed.

(** X3. The constructors that take a container keep its elements: whatever the
    sequence, [heapify] returns a permutation of it that satisfies the
    invariant. *)
Theorem construct_contents cont :
  fits cont →
  (∃ d, BinaryHeap.construct less cont = Ok d ∧ d ≡ₚ cont ∧
        BinaryHeap.size d = BinaryHeap.size cont ∧ bh_inv less d) ∧
  (∃ d, IntervalHeap.construct less cont = Ok d ∧ d ≡ₚ cont ∧
        IntervalHeap.size d = IntervalHeap.size cont ∧ ih_inv less d).
Proof.
  intros Hfit. split.
  - destruct (bh_heapify_spec less Hswo cont Hfit) as (d & E & Hinv & Hp & Hs).
    exists d. split; [done|]. split; [done|]. split; [done|].
    by apply bh_inv_from.
  - destruct (ih_heapify_spec less Hswo cont Hfit) as (d & E & Hinv & Hp & Hs).
    exists d. split; [done|]. split; [done|]. split; [done|].
    by apply ih_inv_heap.
Qed.

End Contents.

Lemma small_fits : fits [1; 5; 3].
Proof. apply fits_small. simpl. lia. Qed.

Lemma bh_contents_witness :
  StrictWeakOrder Z.ltb ∧ fits [1; 5; 3] ∧ bh_inv Z.ltb [1; 5; 3] ∧
  size [1; 5; 3] < MAX_SIZE ∧ 0 < size [1; 5; 3] ∧
  (∃ d', BinaryHeap.push Z.ltb [1; 5; 3] 4 = Ok d' ∧ d' ≡ₚ [4; 1; 5; 3]) ∧
  (∃ m d1, BinaryHeap.top [1; 5; 3] = Ok m ∧
           BinaryHeap.pop Z.ltb [1; 5; 3] = Ok d1 ∧ m :: d1 ≡ₚ [1; 5; 3]).
Proof.
  assert (size [1; 5; 3] < MAX_SIZE) as Hroom
    by (rewrite max_size_value; reflexivity).
  assert (0 < size [1; 5; 3]) as Hpos by reflexivity.
  destruct (bh_contents Z.ltb ltb_strict_weak_order [1; 5; 3] 4 4
              small_fits small_bh_inv) as [Hpush Hpop].
  split; [apply ltb_strict_weak_order|]. split; [apply small_fits|].
  split; [apply small_bh_inv|]. split; [exact Hroom|]. split; [exact Hpos|].
  split.
  - destruct (Hpush Hroom) as (d' & E & _ & Hp). exists d'.
    split; [exact E|exact Hp].
  - destruct (Hpop Hpos) as (m & d1 & d2 & Em & E1 & Hp1 & _).
    exists m, d1. split; [exact Em|]. split; [exact E1|exact Hp1].
Defined.

Lemma ih_contents_witness :
  StrictWeakOrder Z.ltb ∧ fits [1; 5; 3] ∧ ih_inv Z.ltb [1; 5; 3] ∧
  size [1; 5; 3] < MAX_SIZE ∧ 0 < size [1; 5; 3] ∧
  (∃ d', IntervalHeap.push Z.ltb [1; 5; 3] 4 = Ok d' ∧ d' ≡ₚ [4; 1; 5; 3]) ∧
  (∃ M d2, IntervalHeap.max [1; 5; 3] = Ok M ∧
           IntervalHeap.pop_max Z.ltb [1; 5; 3] = Ok d2 ∧
           M :: d2 ≡ₚ [1; 5; 3]).
Proof.
  assert (size [1; 5; 3] < MAX_SIZE) as Hroom
    by (rewrite max_size_value; reflexivity).
  assert (0 < size [1; 5; 3]) as Hpos by reflexivity.
  destruct (ih_contents Z.ltb ltb_strict_weak_order [1; 5; 3] 4 4
              small_fits small_ih_inv) as [Hpush Hpop].
  split; [apply ltb_strict_weak_order|]. split; [apply small_fits|].
  split; [apply small_ih_inv|]. split; [exact Hroom|]. split; [exact Hpos|].
  split.
  - destruct (Hpush Hroom) as (d' & E & _ & Hp). exists d'.
    split; [exact E|exact Hp].
  - destruct (Hpop Hpos)
      as (m & M & d1 & d2 & d3 & d4 & _ & EM & _ & _ & E2 & Hp2 & _).
    exists M, d2. split; [exact EM|]. split; [exact E2|exact Hp2].
Defined.

Lemma construct_contents_witness :
  StrictWeakOrder Z.ltb ∧ fits example_input ∧
  (∃ d, BinaryHeap.construct Z.ltb example_input = Ok d ∧
        d ≡ₚ example_input) ∧
  (∃ d, IntervalHeap.construct Z.ltb example_input = Ok d ∧
        d ≡ₚ example_input).
Proof.
  destruct (construct_contents Z.ltb ltb_strict_weak_order example_input
              example_fits) as [(db & Eb & Hpb & _) (di & Ei & Hpi & _)].
  split; [apply ltb_strict_weak_order|]. split; [apply example_fits|].
  split; [exists db|exists di]; (split; [assumption|assumption]).
Defined.

(** * The index arithmetic of the two trees *)

(** X4. BinaryHeap: below the wrap-around, the children of slot [i] are the
    slots [2i+1] and [2i+2], [get_parent] takes both back to [i], and every
    slot but the root is one of the two children of its parent. *)
Theorem bh_parent_of_child (i : Z) :
  0 ≤ i → 2 * i + 2 < 2 ^ SIZE_WIDTH →
  BinaryHeap.get_left i = 2 * i + 1 ∧
  BinaryHeap.get_parent (BinaryHeap.get_left i) = i ∧
  BinaryHeap.get_parent (BinaryHeap.get_left i +% 1) = i ∧
  (1 ≤ i →
     BinaryHeap.get_parent i < i ∧
     (i = BinaryHeap.get_left (BinaryHeap.get_parent i) ∨
      i = BinaryHeap.get_left (BinaryHeap.get_parent i) +% 1)).
Proof.
  rewrite width_value. intros Hi Hbig.
  assert (BinaryHeap.get_left i = 2 * i + 1) as Hleft.
  { unfold BinaryHeap.get_left.
    rewrite size_mul_small by (rewrite width_value; lia).
    by rewrite size_add_small by (rewrite width_value; lia). }
  rewrite Hleft. split; [done|].
  rewrite size_add_small by (rewrite width_value; lia).
  split; [|split].
  - unfold BinaryHeap.get_parent.
    rewrite size_sub_small by (rewrite width_value; lia). lia.
  - unfold BinaryHeap.get_parent.
    rewrite size_sub_small by (rewrite width_value; lia). lia.
  - intros Hpos. unfold BinaryHeap.get_left, BinaryHeap.get_parent.
    rewrite size_sub_small by (rewrite width_value; lia).
    rewrite size_mul_small by (rewrite width_value; lia).
    rewrite !size_add_small by (rewrite width_value; lia).
    lia.
Qed.

(** X5. IntervalHeap: below the wrap-around, the children of the node whose min
    slot is [i] are the nodes whose min slots are [2i+2] and [2i+4];
    [get_parent] takes the four slots of both back to [i], and the parent
    it gives for any slot after the root node is a min slot before it. *)
Theorem ih_parent_of_child (i : Z) :
  0 ≤ i → i mod 2 = 0 → 2 * i + 5 < 2 ^ SIZE_WIDTH →
  IntervalHeap.get_left i = 2 * i + 2 ∧
  IntervalHeap.get_parent (IntervalHeap.get_left i) = i ∧
  IntervalHeap.get_parent (IntervalHeap.get_left i +% 1) = i ∧
  IntervalHeap.get_parent (IntervalHeap.get_left i +% 2) = i ∧
  IntervalHeap.get_parent (IntervalHeap.get_left i +% 3) = i ∧
  (∀ j, 2 ≤ j ≤ i + 1 →
     IntervalHeap.is_min (IntervalHeap.get_parent j) = true ∧
     0 ≤ IntervalHeap.get_parent j ∧
     IntervalHeap.get_parent j + 1 < j - j mod 2).
Proof.
  rewrite width_value. intros Hi Hev Hbig.
  assert (IntervalHeap.get_left i = 2 * i + 2) as Hleft.
  { unfold IntervalHeap.get_left.
    rewrite size_add_small by (rewrite width_value; lia).
    rewrite size_mul_small by (rewrite width_value; lia). lia. }
  rewrite Hleft. split; [done|].
  rewrite !size_add_small by (rewrite width_value; lia).
  split; [rewrite ih_get_parent_pos by (rewrite width_value; lia); lia|].
  split; [rewrite ih_get_parent_pos by (rewrite width_value; lia); lia|].
  split; [rewrite ih_get_parent_pos by (rewrite width_value; lia); lia|].
  split; [rewrite ih_get_parent_pos by (rewrite width_value; lia); lia|].
  intros j Hj. rewrite ih_get_parent_pos by (rewrite width_value; lia).
  unfold IntervalHeap.is_min. split; [apply Z.eqb_eq; lia|lia].
Qed.

Lemma bh_parent_of_child_witness :
  0 ≤ 3 ∧ 2 * 3 + 2 < 2 ^ SIZE_WIDTH ∧
  BinaryHeap.get_left 3 = 7 ∧
  BinaryHeap.get_parent (BinaryHeap.get_left 3) = 3 ∧
  BinaryHeap.get_parent (BinaryHeap.get_left 3 +% 1) = 3.
Proof.
  assert (0 ≤ 3) as H0 by lia.
  assert (2 * 3 + 2 < 2 ^ SIZE_WIDTH) as H1 by reflexivity.
  destruct (bh_parent_of_child 3 H0 H1) as (E1 & E2 & E3 & _).
  split; [exact H0|]. split; [exact H1|]. split; [exact E1|].
  split; [exact E2|exact E3].
Defined.

Lemma ih_parent_of_child_witness :
  0 ≤ 4 ∧ 4 mod 2 = 0 ∧ 2 * 4 + 5 < 2 ^ SIZE_WIDTH ∧
  IntervalHeap.get_left 4 = 10 ∧
  IntervalHeap.get_parent (IntervalHeap.get_left 4 +% 3) = 4.
Proof.
  assert (0 ≤ 4) as H0 by lia.
  assert (4 mod 2 = 0) as H1 by reflexivity.
  assert (2 * 4 + 5 < 2 ^ SIZE_WIDTH) as H2 by reflexivity.
  destruct (ih_parent_of_child 4 H0 H1 H2) as (E1 & _ & _ & _ & E4 & _).
  split; [exact H0|]. split; [exact H1|]. split; [exact H2|].
  split; [exact E1|exact E4].
Defined.

(** * Sorting with either heap gives the sorted sequence *)

Section SortAgreement.
Context {T : Type} (less : T → T → bool) (Hswo : StrictWeakOrder less).
Implicit Types (l s out : list T).

Lemma non_increasing_reverse l :
  non_increasing less l → non_decreasing less (reverse l).
Proof.
  unfold non_increasing, non_decreasing.
  induction l as [|a l IH]; [intros _; constructor|].
  rewrite StronglySorted_cons, reverse_cons, StronglySorted_app.
  intros [Ha Hl]. split; [|split; [by apply IH|]].
  - intros x1 x2 Hx1 ->%list_elem_of_singleton.
    rewrite elem_of_reverse in Hx1.
    rewrite Forall_forall in Ha. by apply Ha.
  - repeat constructor.
Qed.

(** With a comparator that tells any two different elements apart there is
    one sorted arrangement of a multiset. *)
Lemma non_decreasing_unique l1 l2 :
  distinguishing less → non_decreasing less l1 → non_decreasing less l2 →
  l1 ≡ₚ l2 → l1 = l2.
Proof.
  intros Hdist. apply StronglySorted_unique_strong.
  intros x1 x2 _ _ H1 H2. by apply Hdist.
Qed.

Lemma sorts_return l :
  fits l →
  ∃ o1 o2 o3,
    bh_sort less l = Ok o1 ∧ o1 ≡ₚ l ∧ non_decreasing less o1 ∧
    ih_sort_min less l = Ok o2 ∧ o2 ≡ₚ l ∧ non_decreasing less o2 ∧
    ih_sort_max less l = Ok o3 ∧ o3 ≡ₚ l ∧ non_increasing less o3.
Proof.
  intros Hfit. unfold bh_sort, ih_sort_min, ih_sort_max,
    BinaryHeap.construct, IntervalHeap.construct.
  destruct (bh_heapify_spec less Hswo l Hfit) as (db & -> & Hb & Hpb & Hsb).
  destruct (ih_heapify_spec less Hswo l Hfit) as (di & -> & Hi & Hpi & Hsi).
  simpl.
  destruct (bh_drain_spec less Hswo (length l) db) as (o1 & -> & Hp1 & Hs1);
    [done|unfold fits in *; lia|done|].
  destruct (ih_drain_min_spec less Hswo (length l) di)
    as (o2 & -> & Hp2 & Hs2); [done|unfold fits in *; lia|done|].
  destruct (ih_drain_max_spec less Hswo (length l) di)
    as (o3 & -> & Hp3 & Hs3); [done|unfold fits in *; lia|done|].
  exists o1, o2, o3.
  split; [done|]. split; [by etransitivity|]. split; [done|].
  split; [done|]. split; [by etransitivity|]. split; [done|].
  split; [done|]. split; [by etransitivity|done].
Qed.

(** X6. Under a comparator that tells any two different elements apart, a
    BinaryHeap and an IntervalHeap built from any two arrangements of the
    same elements and drained from the min side give the same sequence, the
    one sorted arrangement of the elements, and an IntervalHeap drained
    from the max side gives it reversed. *)
Theorem sort_agreement l1 l2 :
  distinguishing less → fits l1 → l1 ≡ₚ l2 →
  ∃ out,
    bh_sort less l1 = Ok out ∧ bh_sort less l2 = Ok out ∧
    ih_sort_min less l1 = Ok out ∧ ih_sort_min less l2 = Ok out ∧
    ih_sort_max less l1 = Ok (reverse out) ∧
    ih_sort_max less l2 = Ok (reverse out) ∧
    (∀ s, s ≡ₚ l1 → non_decreasing less s → s = out).
Proof.
  intros Hdist Hfit1 Hp.
  assert (fits l2) as Hfit2 by (unfold fits, size in *; by rewrite <- Hp).
  destruct (sorts_return l1 Hfit1)
    as (a1 & a2 & a3 & Ea1 & Hpa1 & Hsa1 & Ea2 & Hpa2 & Hsa2 & Ea3 & Hpa3 & Hsa3).
  destruct (sorts_return l2 Hfit2)
    as (b1 & b2 & b3 & Eb1 & Hpb1 & Hsb1 & Eb2 & Hpb2 & Hsb2 & Eb3 & Hpb3 & Hsb3).
  assert (∀ s, s ≡ₚ l1 → non_decreasing less s → s = a1) as Huniq.
  { intros s Hps Hss. apply non_decreasing_unique; [done..|].
    by rewrite Hps, Hpa1. }
  exists a1. split; [done|].
  split; [by rewrite Eb1, (Huniq b1) by (by rewrite ?Hpb1, ?Hp)|].
  split; [by rewrite Ea2, (Huniq a2)|].
  split; [by rewrite Eb2, (Huniq b2) by (by rewrite ?Hpb2, ?Hp)|].
  split; [|split; [|done]].
  - rewrite Ea3. f_equal. rewrite <- (Huniq (reverse a3)).
    + by rewrite reverse_involutive.
    + by rewrite reverse_Permutation.
    + by apply non_increasing_reverse.
  - rewrite Eb3. f_equal. rewrite <- (Huniq (reverse b3)).
    + by rewrite reverse_involutive.
    + by rewrite reverse_Permutation, Hpb3, Hp.
    + by apply non_increasing_reverse.
Qed.

End SortAgreement.

Lemma sort_agreement_witness :
  StrictWeakOrder Z.ltb ∧ distinguishing Z.ltb ∧ fits example_input ∧
  example_input ≡ₚ reverse example_input ∧
  ∃ out,
    bh_sort Z.ltb example_input = Ok out ∧
    bh_sort Z.ltb (reverse example_input) = Ok out ∧
    ih_sort_max Z.ltb example_input = Ok (reverse out).
Proof.
  assert (example_input ≡ₚ reverse example_input) as Hp
    by (symmetry; apply reverse_Permutation).
  destruct (sort_agreement Z.ltb ltb_strict_weak_order example_input
              (reverse example_input) ltb_distinguishing example_fits Hp)
    as (out & E1 & E2 & _ & _ & E3 & _).
  split; [apply ltb_strict_weak_order|]. split; [apply ltb_distinguishing|].
  split; [apply example_fits|]. split; [exact Hp|].
  exists out. split; [exact E1|]. split; [exact E2|exact E3].
Defined.

(** * A reversed comparator *)

Section Reversed.
Context {T : Type}.
Implicit Types (less : T → T → bool) (ms : list T).

(** The reverse of a strict weak order ([std::greater] for [std::less]) is
    one. *)
Lemma flip_strict_weak_order less :
  StrictWeakOrder less → StrictWeakOrder (flip less).
Proof.
  intros Hswo. unfold flip. split.
  - intros a. apply (swo_irrefl _ Hswo).
  - intros a b c H1 H2. apply (swo_trans _ Hswo c b a H2 H1).
  - intros a b c [H1 H2] [H3 H4].
    destruct (swo_equiv_trans _ Hswo a b c) as [H5 H6]; by split.
Qed.

(** X7. Built over the reverse of [less], a BinaryHeap is a max-heap for
    [less]: on every reachable state that holds an element [top()] returns
    a maximum of the contents; an IntervalHeap has its two ends exchanged. *)
Theorem reversed_comparator less
    (hb : BinaryHeap.t T) (msb : list T)
    (hi : IntervalHeap.t T) (msi : list T) :
  (bh_reach hb msb → BinaryHeap._comp hb = flip less → msb ≠ [] →
     ∃ M, BinaryHeap.top (BinaryHeap._data hb) = Ok M ∧
          is_max_of less M msb) ∧
  (ih_reach hi msi → IntervalHeap._comp hi = flip less → msi ≠ [] →
     ∃ M m, IntervalHeap.min (IntervalHeap._data hi) = Ok M ∧
            IntervalHeap.max (IntervalHeap._data hi) = Ok m ∧
            is_max_of less M msi ∧ is_min_of less m msi).
Proof.
  split.
  - intros Hr Hc Hne. apply bh_reach_valid in Hr.
    destruct (bh_valid_nonempty _ _ Hr Hne) as [M HM].
    destruct Hr as (Hswo & Hfit & Hinv & Hp). rewrite Hc in Hswo, Hinv.
    exists M. split; [by apply bh_top_ok|].
    by apply (bh_top_is_min (flip less) (BinaryHeap._data hb) msb M).
  - intros Hr Hc Hne. apply ih_reach_valid in Hr.
    destruct (ih_valid_nonempty _ _ Hr Hne) as [M HM].
    destruct Hr as (Hswo & Hfit & Hinv & Hp). rewrite Hc in Hswo, Hinv.
    pose proof (nthZ_Some_lt _ _ _ HM) as Hn.
    destruct (ih_max_ok (IntervalHeap._data hi)) as [m Hm]; [lia|].
    exists M, m. split; [by apply ih_min_ok|]. split; [done|]. split.
    + by apply (ih_min_is_min (flip less) (IntervalHeap._data hi) msi M).
    + by apply (ih_max_is_max (flip less) (IntervalHeap._data hi) msi m).
Qed.

End Reversed.

Lemma reversed_comparator_witness :
  bh_reach (BinaryHeap.Heap (flip Z.ltb) [9; 5; 8; 1; 3; 2]) example_input ∧
  example_input ≠ [] ∧
  ∃ M, BinaryHeap.top [9; 5; 8; 1; 3; 2] = Ok M ∧
       is_max_of Z.ltb M example_input.
Proof.
  assert (bh_reach (BinaryHeap.Heap (flip Z.ltb) [9; 5; 8; 1; 3; 2])
            example_input) as Hr.
  { apply bh_reach_construct;
      [apply flip_strict_weak_order, ltb_strict_weak_order
      |apply example_fits|vm_compute; reflexivity]. }
  split; [exact Hr|]. split; [discriminate|].
  destruct (reversed_comparator Z.ltb
              (BinaryHeap.Heap (flip Z.ltb) [9; 5; 8; 1; 3; 2]) example_input
              example_ih example_input) as [Hb _].
  apply Hb; [exact Hr|reflexivity|discriminate].
Defined.

(** * Reading a run that returned *)

Section ReturnedLoops.
Context {S : Type}.

(** A loop that returned left from a state the invariant reaches. *)
Lemma loop_returned (Inv : S → Prop) (body : S → result (step S)) fuel s r :
  (∀ a b, Inv a → body a = Ok (Next b) → Inv b) →
  Inv s → loop fuel body s = Ok r →
  ∃ a, Inv a ∧ body a = Ok (Stop r).
Proof.
  intros Hkeep. revert s.
  induction fuel as [|fuel IH]; intros s Hs Hrun; [done|].
  simpl in Hrun. destruct (body s) as [[b|b]| | |] eqn:E; try done.
  - apply (IH b); [by apply (Hkeep s)|done].
  - simpl in Hrun. injection Hrun as ->. by exists s.
Qed.

Lemma while_returned (Inv : S → Prop) (cond : S → result bool)
    (body : S → result (step S)) fuel s r :
  (∀ a b, Inv a → cond a = Ok true → body a = Ok (Next b) → Inv b) →
  Inv s → while fuel cond body s = Ok r →
  ∃ a, Inv a ∧
    ((cond a = Ok false ∧ r = a) ∨
     (cond a = Ok true ∧ body a = Ok (Stop r))).
Proof.
  intros Hkeep Hs Hrun. unfold while in Hrun.
  destruct (λ Hk, loop_returned Inv _ fuel s r Hk Hs Hrun)
    as (a & Ha & Hstop).
  - intros a b Ha Hb. destruct (cond a) as [[|]| | |] eqn:E; try done.
    by apply (Hkeep a).
  - exists a. split; [done|].
    destruct (cond a) as [[|]| | |]; try done; simpl in Hstop.
    + by right.
    + left. split; [done|]. by injection Hstop as ->.
Qed.

Lemma do_while_returned (Inv : S → Prop) (body : S → result S)
    (cond : S → result bool) fuel s r :
  (∀ a b, Inv a → body a = Ok b → cond b = Ok true → Inv b) →
  Inv s → do_while fuel body cond s = Ok r →
  ∃ a, Inv a ∧ body a = Ok r ∧ cond r = Ok false.
Proof.
  intros Hkeep Hs Hrun. unfold do_while in Hrun.
  destruct (λ Hk, loop_returned Inv _ fuel s r Hk Hs Hrun)
    as (a & Ha & Hstop).
  - intros a b Ha Hb. destruct (body a) as [b'| | |] eqn:E; try done.
    simpl in Hb. destruct (cond b') as [[|]| | |] eqn:E'; try done.
    simpl in Hb. injection Hb as ->. by apply (Hkeep a).
  - exists a. split; [done|].
    destruct (body a) as [b| | |]; try done. simpl in Hstop.
    destruct (cond b) as [[|]| | |] eqn:E; try done.
    simpl in Hstop. by injection Hstop as ->.
Qed.

End ReturnedLoops.

Section ReturnedAccesses.
Context {T : Type}.
Implicit Types (d : list T) (i j : Z).

Lemma store_inv d i v d' :
  store d i v = Ok d' → 0 ≤ i < size d ∧ d' = updZ d i v.
Proof.
  unfold store. case_decide; [|done]. intros [= <-]. done.
Qed.

Lemma swap_at_inv d i j d' :
  swap_at d i j = Ok d' →
  ∃ x y, nthZ d i = Some x ∧ nthZ d j = Some y ∧
         d' = updZ (updZ d i y) j x.
Proof.
  unfold swap_at.
  destruct (at_ d i) as [x| | |] eqn:Ex; try done.
  destruct (at_ d j) as [y| | |] eqn:Ey; try done. simpl.
  destruct (store d i y) as [d1| | |] eqn:E1; try done. simpl.
  intros [_ ->]%store_inv. apply store_inv in E1 as [_ ->].
  exists x, y. split; [by apply at_inv|]. split; [by apply at_inv|done].
Qed.

Lemma pop_back_inv d d' :
  pop_back d = Ok d' →
  0 < size d ∧ d' = take (Z.to_nat (size d - 1)) d.
Proof.
  intros H. assert (0 < size d) as Hpos.
  { destruct d; [done|]. unfold size. simpl. lia. }
  split; [done|]. rewrite pop_back_ok in H by done. by injection H.
Qed.

Lemma assert_inv (c : bool) u : assert c = Ok u → c = true.
Proof. by destruct c. Qed.

End ReturnedAccesses.

(** Takes a run that returned apart, down to the reads and writes. *)
Ltac returned H :=
  simpl in H;
  lazymatch type of H with
  | mbind _ ?e = Ok _ =>
      let E := fresh "E" in
      destruct e eqn:E; simpl in H; try discriminate H;
      returned E; returned H
  | match ?e with _ => _ end = Ok _ =>
      let E := fresh "E" in
      destruct e eqn:E; simpl in H; try discriminate H;
      returned E; returned H
  | Ok _ = Ok _ => injection H as H; try subst
  | assert _ = Ok _ => apply assert_inv in H
  | at_ _ _ = Ok _ => apply at_inv in H
  | store _ _ _ = Ok _ =>
      let R := fresh "R" in apply store_inv in H as [R H]; try subst
  | pop_back _ = Ok _ =>
      let R := fresh "R" in apply pop_back_inv in H as [R H]; try subst
  | back _ = Ok _ => unfold back in H; apply at_inv in H
  | swap_at _ _ _ = Ok _ =>
      let x := fresh "x" in let y := fresh "y" in
      let X := fresh "X" in let Y := fresh "Y" in
      apply swap_at_inv in H as (x & y & X & Y & H); try subst
  | _ => idtac
  end.

(** Decides the branches a run took and removes the wrap-around from the
    indices it computed. *)
Ltac branches :=
  repeat match goal with
  | |- context [if ?b then _ else _] => destruct b eqn:?
  | H : context [if ?b then _ else _] |- _ => destruct b eqn:?
  end.

Ltac unwrapped :=
  repeat match goal with
  | H : context [?a +% ?b] |- _ =>
      rewrite (size_add_small a b) in H by (rewrite width_value; lia)
  | H : context [?a -% ?b] |- _ =>
      rewrite (size_sub_small a b) in H by (rewrite width_value; lia)
  | |- context [?a +% ?b] =>
      rewrite (size_add_small a b) by (rewrite width_value; lia)
  | |- context [?a -% ?b] =>
      rewrite (size_sub_small a b) by (rewrite width_value; lia)
  | H : (_ <? _) = true |- _ => apply Z.ltb_lt in H
  | H : (_ <? _) = false |- _ => apply Z.ltb_ge in H
  | H : (_ =? _) = true |- _ => apply Z.eqb_eq in H
  | H : (_ =? _) = false |- _ => apply Z.eqb_neq in H
  | H : (_ <=? _) = true |- _ => apply Z.leb_le in H
  | H : (_ <=? _) = false |- _ => apply Z.leb_gt in H
  | H : (_, _) = (_, _) |- _ => injection H as ? ?; subst
  end.

Section DescentFrames.
Context {T : Type} (less : T → T → bool).
Implicit Types (d : list T) (i j idx : Z).

(** [bubble_down_min(idx)] works below the node it starts from: of the
    slots before that node's children it changes at most [idx]. *)
Lemma ih_bubble_down_min_frame d idx d' :
  size d ≤ MAX_SIZE →
  IntervalHeap.bubble_down_min less d idx = Ok d' →
  size d' = size d ∧
  ∀ j, j < (idx + 1) * 2 → j ≠ idx → nthZ d' j = nthZ d j.
Proof.
  rewrite max_size_value. intros Hd Hrun.
  unfold IntervalHeap.bubble_down_min in Hrun.
  destruct (assert (idx <? size d)) eqn:A1; try done.
  apply assert_inv, Z.ltb_lt in A1. simpl in Hrun.
  destruct (assert (IntervalHeap.is_min idx)) eqn:A2; try done.
  apply assert_inv, Z.eqb_eq in A2. simpl in Hrun.
  destruct (assert (IntervalHeap.ROOT <=? idx)) eqn:A3; try done.
  apply assert_inv, Z.leb_le in A3. unfold IntervalHeap.ROOT in A3.
  simpl in Hrun.
  destruct (while _ _ _ _) as [[[d1 i1] c1]| | |] eqn:W; try done.
  simpl in Hrun. injection Hrun as ->.
  set (Inv := λ s : list T * Z * Z,
    let '(d1, i, child) := s in
    size d1 = size d ∧ child = (i + 1) * 2 ∧ 0 ≤ i < size d ∧
    (i = idx ∨ (idx + 1) * 2 ≤ i) ∧
    ∀ j, j < (idx + 1) * 2 → j ≠ idx → nthZ d1 j = nthZ d j).
  assert (Inv (d, idx, IntervalHeap.get_left idx)) as Hinit.
  { simpl. rewrite ih_get_left_small by (rewrite max_size_value; lia).
    repeat split; try done; lia. }
  destruct (λ Hk, while_returned Inv _ _ _ _ _ Hk Hinit W)
    as ([[d2 i2] c2] & (Hsz & -> & Hi & Hpos & Hframe) & Hexit).
  - clear W Hinit. intros [[d2 i] child] [[d3 i'] child']
      (Hsz & -> & Hi & Hpos & Hframe) Hc Hb.
    injection Hc as Hc. apply Z.ltb_lt in Hc.
    returned Hb; branches; unwrapped; ranges;
      rewrite ?size_updZ in *; simpl;
      rewrite ?size_updZ, ?ih_get_left_small by (rewrite max_size_value; lia);
      (split; [done|]); (split; [done|]); (split; [lia|]); (split; [lia|]);
      intros j Hj Hne; rewrite !nthZ_updZ_ne by lia; by apply Hframe.
  - destruct Hexit as [[_ [= -> -> ->]]|[Hc Hb]]; [done|].
    injection Hc as Hc. returned Hb; by split.
Qed.

(** [bubble_down_max(m)] works from its node down: it changes no slot
    before the node, and it leaves the node's min slot alone when the node
    is in order at the call. *)
Lemma ih_bubble_down_max_frame d m d' :
  size d ≤ MAX_SIZE →
  IntervalHeap.bubble_down_max less d m = Ok d' →
  size d' = size d ∧
  (∀ j, j < m - 1 → nthZ d' j = nthZ d j) ∧
  (∀ lo hi, nthZ d (m - 1) = Some lo → nthZ d m = Some hi →
     less hi lo = false → nthZ d' (m - 1) = Some lo).
Proof.
  rewrite max_size_value. intros Hd Hrun.
  unfold IntervalHeap.bubble_down_max in Hrun.
  destruct (assert (IntervalHeap.is_max m)) eqn:A1; try done.
  apply assert_inv, Z.eqb_eq in A1. simpl in Hrun.
  destruct (assert (IntervalHeap.ROOT <=? m)) eqn:A2; try done.
  apply assert_inv, Z.leb_le in A2. unfold IntervalHeap.ROOT in A2.
  simpl in Hrun.
  destruct (assert (m <? size d)) eqn:A3; try done.
  apply assert_inv, Z.ltb_lt in A3. simpl in Hrun.
  destruct (while _ _ _ _) as [[[d1 i1] c1]| | |] eqn:W; try done.
  simpl in Hrun.
  set (Inv := λ s : list T * Z * Z,
    let '(d1, i, child) := s in
    size d1 = size d ∧ child = (i + 1) * 2 ∧ m - 1 ≤ i < size d ∧
    ((i = m - 1 ∧ d1 = d) ∨
     (m < i ∧ ∀ j, j < m → nthZ d1 j = nthZ d j))).
  assert (Inv (d, m -% 1, IntervalHeap.get_left (m -% 1))) as Hinit.
  { simpl. rewrite size_sub_small by (rewrite width_value; lia).
    rewrite ih_get_left_small by (rewrite max_size_value; lia).
    split; [done|]. split; [done|]. split; [lia|]. by left. }
  destruct (λ Hk, while_returned Inv _ _ _ _ _ Hk Hinit W)
    as ([[d2 i2] c2] & (Hsz & -> & Hi & Hpos) & Hexit).
  - clear W Hinit Hrun. intros [[d2 i] child] [[d3 i'] child']
      (Hsz & -> & Hi & Hpos) Hc Hb.
    injection Hc as Hc. apply Z.ltb_lt in Hc.
    unfold IntervalHeap.is_max in Hb.
    returned Hb; unwrapped; branches; unwrapped; ranges;
      rewrite ?size_updZ in *; simpl;
      rewrite ?size_updZ, ?ih_get_left_small by (rewrite max_size_value; lia);
      (split; [done|]); (split; [done|]); (split; [lia|]); right;
      (split; [lia|]); intros j Hj; rewrite !nthZ_updZ_ne by lia;
      (destruct Hpos as [[_ ->]|[_ Hframe]]; [done|by apply Hframe]).
  - clear W Hinit. destruct Hexit as [[_ [= -> -> ->]]|[Hc Hb]].
    + returned Hrun; unwrapped; branches; unwrapped; ranges;
        rewrite ?size_updZ; (split; [done|]);
        (split; [intros j Hj|intros lo hi Hlo Hhi Hle]);
        (destruct Hpos as [[? ?]|[? Hframe]]; subst);
        rewrite ?nthZ_updZ_ne by lia; try done;
        try (by apply Hframe); try (rewrite Hframe by lia; done);
        replace (m - 1 + 1) with m in * by lia; congruence.
    + assert (d1 = d2 ∧ i1 = i2) as [-> ->] by (returned Hb; done).
      clear Hb Hc.
      returned Hrun; branches; unwrapped; ranges; rewrite ?size_updZ;
        (split; [done|]);
        (split; [intros j Hj|intros lo hi Hlo Hhi Hle]);
        (destruct Hpos as [[? ?]|[? Hframe]]; subst);
        rewrite ?nthZ_updZ_ne by lia; try done;
        try (by apply Hframe); try (rewrite Hframe by lia; done);
        replace (m - 1 + 1) with m in * by lia; congruence.
Qed.

End DescentFrames.

Section OtherEnd.
Context {T : Type} (less : T → T → bool) (Hswo : StrictWeakOrder less).
Implicit Types (d : list T) (val m M : T).

Lemma ih_max_at d M : 1 < size d → nthZ d 1 = Some M → IntervalHeap.max d = Ok M.
Proof.
  intros Hn HM. unfold IntervalHeap.max, IntervalHeap.ROOT.
  rewrite empty_false by lia. simpl.
  rewrite (proj2 (Z.ltb_lt 1 (size d))) by lia. change (0 +% 1) with 1.
  by apply at_ok.
Qed.

Lemma ih_max_single d m : size d = 1 → nthZ d 0 = Some m → IntervalHeap.max d = Ok m.
Proof.
  intros Hn Hm. unfold IntervalHeap.max, IntervalHeap.ROOT.
  rewrite empty_false by lia. simpl.
  rewrite (proj2 (Z.ltb_ge 1 (size d))) by lia. by apply at_ok.
Qed.

Lemma single_rest d (m M : T) d1 :
  size d = 2 → nthZ d 0 = Some m → nthZ d 1 = Some M →
  ∀ x, x :: d1 ≡ₚ d → (x = m → d1 = [M]) ∧ (x = M → d1 = [m]).
Proof.
  intros Hsz Hm HM x Hp.
  destruct d as [|a [|b [|c d]]]; unfold size in Hsz; simpl in Hsz; try lia.
  unfold nthZ in Hm, HM. simpl in Hm, HM.
  injection Hm as ->. injection HM as ->. split; intros ->.
  - apply Permutation_cons_inv in Hp. by apply Permutation_singleton_r.
  - rewrite (Permutation_swap M m) in Hp. apply Permutation_cons_inv in Hp.
    by apply Permutation_singleton_r.
Qed.

(** [pop_min] leaves the element [max] shows where it is. *)
Lemma ih_pop_min_keeps_max d m M :
  fits d → ih_heap less d → nthZ d 0 = Some m → nthZ d 1 = Some M →
  ∃ d1, IntervalHeap.pop_min less d = Ok d1 ∧ IntervalHeap.max d1 = Ok M.
Proof.
  intros Hfit Hinv Hm HM. pose proof Hfit as Hfit'.
  unfold fits in Hfit'. rewrite max_size_value in Hfit'.
  pose proof (nthZ_Some_lt _ _ _ HM) as Hn.
  destruct (ih_pop_min_spec less Hswo d m Hfit Hm Hinv)
    as (d1 & E1 & _ & Hp1 & Hs1).
  exists d1. split; [done|].
  destruct (decide (size d = 2)) as [H2|H2].
  { destruct (single_rest d m M d1 H2 Hm HM m Hp1) as [-> _]; done. }
  unfold IntervalHeap.pop_min, IntervalHeap.ROOT in E1.
  rewrite empty_false in E1 by lia. simpl in E1.
  rewrite (proj2 (Z.eqb_neq (size d) 1)) in E1 by lia.
  returned E1;
    (apply ih_bubble_down_min_frame in E1 as [Hsz Hframe];
       [|rewrite max_size_value, size_take_last, ?size_updZ
           by (rewrite ?size_updZ; lia); lia]);
    apply ih_max_at; [lia| |lia|];
    rewrite Hframe by lia; rewrite nthZ_take_last, ?size_updZ;
    rewrite decide_True by lia; unwrapped; rewrite !nthZ_updZ_ne by lia; done.
Qed.

(** [pop_max] leaves the element [min] shows where it is. *)
Lemma ih_pop_max_keeps_min d m M :
  fits d → ih_heap less d → nthZ d 0 = Some m → nthZ d 1 = Some M →
  ∃ d2, IntervalHeap.pop_max less d = Ok d2 ∧ IntervalHeap.min d2 = Ok m.
Proof.
  intros Hfit Hinv Hm HM. pose proof Hfit as Hfit'.
  unfold fits in Hfit'. rewrite max_size_value in Hfit'.
  pose proof (nthZ_Some_lt _ _ _ HM) as Hn.
  destruct (ih_pop_max_spec less Hswo d Hfit ltac:(lia) Hinv)
    as (d2 & M' & E2 & EM & _ & Hp2 & Hs2).
  assert (M' = M) as ->.
  { rewrite (ih_max_at d M) in EM by (done || lia). congruence. }
  exists d2. split; [done|].
  destruct (decide (size d = 2)) as [H2|H2].
  { destruct (single_rest d m M d2 H2 Hm HM M Hp2) as [_ ->]; done. }
  pose proof (ih_root_least less Hswo d m Hinv Hm) as Hleast.
  unfold IntervalHeap.pop_max, IntervalHeap.ROOT in E2.
  rewrite empty_false in E2 by lia. simpl in E2.
  rewrite (proj2 (Z.eqb_neq (size d) 1)) in E2 by lia.
  change (0 +% 1) with 1 in E2.
  returned E2; unwrapped; [|lia].
  apply ih_bubble_down_max_frame in E2 as (Hsz & _ & Hslot);
    [|rewrite max_size_value, size_take_last, ?size_updZ
        by (rewrite ?size_updZ; lia); lia].
  apply ih_min_ok. apply (Hslot m a).
  - rewrite nthZ_take_last, size_updZ. rewrite decide_True by lia.
    rewrite nthZ_updZ_ne by lia. done.
  - rewrite nthZ_take_last, size_updZ. rewrite decide_True by lia.
    by rewrite nthZ_updZ_eq by lia.
  - by apply (Hleast (size d - 1)).
Qed.

(** [replace_min(val)] leaves the element [max] shows where it is, unless
    [val] comes after it: then [val] takes its place. *)
Lemma ih_replace_min_max d m M val :
  fits d → ih_heap less d → nthZ d 0 = Some m → nthZ d 1 = Some M →
  ∃ d3, IntervalHeap.replace_min less d val = Ok d3 ∧
        IntervalHeap.max d3 = Ok (if less M val then val else M).
Proof.
  intros Hfit Hinv Hm HM. pose proof Hfit as Hfit'.
  unfold fits in Hfit'. rewrite max_size_value in Hfit'.
  pose proof (nthZ_Some_lt _ _ _ HM) as Hn.
  destruct (ih_replace_min_spec less Hswo d m val Hfit Hm Hinv)
    as (d3 & E3 & _ & _ & Hs3).
  exists d3. split; [done|].
  unfold IntervalHeap.replace_min, IntervalHeap.ROOT,
    IntervalHeap.balance_node_check, IntervalHeap.balance_node in E3.
  rewrite empty_false in E3 by lia. simpl in E3.
  change (0 +% 1) with 1 in E3.
  returned E3; unwrapped; rewrite ?size_updZ in *; try lia;
    (apply ih_bubble_down_min_frame in E3 as [Hsz Hframe];
       [|rewrite max_size_value, ?size_updZ; lia]);
    (apply ih_max_at; [lia|]); rewrite Hframe by lia;
    lookups; same_slot;
    repeat match goal with H : less _ _ = _ |- _ => rewrite H end; rd.
Qed.

(** [replace_max(val)] leaves the element [min] shows where it is, unless
    [val] comes before it: then [val] takes its place. *)
Lemma ih_replace_max_min d m M val :
  fits d → ih_heap less d → nthZ d 0 = Some m → nthZ d 1 = Some M →
  ∃ d4, IntervalHeap.replace_max less d val = Ok d4 ∧
        IntervalHeap.min d4 = Ok (if less val m then val else m).
Proof.
  intros Hfit Hinv Hm HM. pose proof Hfit as Hfit'.
  unfold fits in Hfit'. rewrite max_size_value in Hfit'.
  pose proof (nthZ_Some_lt _ _ _ HM) as Hn.
  destruct (ih_replace_max_spec less Hswo d val Hfit ltac:(lia) Hinv)
    as (d4 & M' & E4 & _ & _ & _ & Hs4).
  exists d4. split; [done|].
  unfold IntervalHeap.replace_max, IntervalHeap.ROOT,
    IntervalHeap.balance_node in E4.
  rewrite empty_false in E4 by lia. simpl in E4.
  rewrite (proj2 (Z.eqb_neq (size d) 1)) in E4 by lia.
  change (0 +% 1) with 1 in E4.
  returned E4; unwrapped; rewrite ?size_updZ in *; try lia;
    (apply ih_bubble_down_max_frame in E4 as (Hsz & _ & Hslot);
       [|rewrite max_size_value, ?size_updZ; lia]);
    apply ih_min_ok; lookups; try lia; same_slot;
    repeat match goal with H : less _ _ = _ |- _ => rewrite H end;
    (eapply Hslot; [rd|rd|first [done|by apply (less_asym less Hswo)]]).
Qed.

(** X8. At the other end of an IntervalHeap that holds two elements or more,
    a pop changes nothing: after [pop_min] the element [max] shows is the
    one it showed before, and after [pop_max] the element [min] shows is
    the one it showed before. *)
Theorem pop_keeps_other_end d :
  fits d → ih_inv less d → 2 ≤ size d →
  ∃ m M d1 d2,
    IntervalHeap.min d = Ok m ∧ IntervalHeap.max d = Ok M ∧
    IntervalHeap.pop_min less d = Ok d1 ∧ IntervalHeap.max d1 = Ok M ∧
    IntervalHeap.pop_max less d = Ok d2 ∧ IntervalHeap.min d2 = Ok m.
Proof.
  intros Hfit Hinv%ih_inv_heap Hn.
  destruct (nthZ_is_Some d 0) as [m Hm]; [lia|].
  destruct (nthZ_is_Some d 1) as [M HM]; [lia|].
  destruct (ih_pop_min_keeps_max d m M Hfit Hinv Hm HM) as (d1 & E1 & H1).
  destruct (ih_pop_max_keeps_min d m M Hfit Hinv Hm HM) as (d2 & E2 & H2).
  exists m, M, d1, d2. split; [by apply ih_min_ok|].
  split; [apply ih_max_at; [lia|done]|]. done.
Qed.

(** X9. At the other end of an IntervalHeap that holds two elements or more,
    a replacement changes nothing unless the new value passes that end:
    after [replace_min(val)], [max] shows what it showed before, or [val]
    when that element precedes [val]; after [replace_max(val)], [min] shows
    what it showed before, or [val] when [val] precedes that element. *)
Theorem replace_other_end d val :
  fits d → ih_inv less d → 2 ≤ size d →
  ∃ m M d3 d4,
    IntervalHeap.min d = Ok m ∧ IntervalHeap.max d = Ok M ∧
    IntervalHeap.replace_min less d val = Ok d3 ∧
    IntervalHeap.max d3 = Ok (if less M val then val else M) ∧
    IntervalHeap.replace_max less d val = Ok d4 ∧
    IntervalHeap.min d4 = Ok (if less val m then val else m).
Proof.
  intros Hfit Hinv%ih_inv_heap Hn.
  destruct (nthZ_is_Some d 0) as [m Hm]; [lia|].
  destruct (nthZ_is_Some d 1) as [M HM]; [lia|].
  destruct (ih_replace_min_max d m M val Hfit Hinv Hm HM) as (d3 & E3 & H3).
  destruct (ih_replace_max_min d m M val Hfit Hinv Hm HM) as (d4 & E4 & H4).
  exists m, M, d3, d4. split; [by apply ih_min_ok|].
  split; [apply ih_max_at; [lia|done]|]. done.
Qed.

End OtherEnd.

Lemma pop_keeps_other_end_witness :
  StrictWeakOrder Z.ltb ∧ fits [1; 9; 3; 8; 2; 5] ∧
  ih_inv Z.ltb [1; 9; 3; 8; 2; 5] ∧ 2 ≤ size [1; 9; 3; 8; 2; 5] ∧
  ∃ m M d1 d2,
    IntervalHeap.min [1; 9; 3; 8; 2; 5] = Ok m ∧
    IntervalHeap.max [1; 9; 3; 8; 2; 5] = Ok M ∧
    IntervalHeap.pop_min Z.ltb [1; 9; 3; 8; 2; 5] = Ok d1 ∧
    IntervalHeap.max d1 = Ok M ∧
    IntervalHeap.pop_max Z.ltb [1; 9; 3; 8; 2; 5] = Ok d2 ∧
    IntervalHeap.min d2 = Ok m.
Proof.
  assert (fits [1; 9; 3; 8; 2; 5]) as Hfit by (apply fits_small; simpl; lia).
  assert (2 ≤ size [1; 9; 3; 8; 2; 5]) as Hn by (vm_compute; discriminate).
  split; [apply ltb_strict_weak_order|]. split; [exact Hfit|].
  split; [apply example_ih_inv|]. split; [exact Hn|].
  apply (pop_keeps_other_end Z.ltb ltb_strict_weak_order
           [1; 9; 3; 8; 2; 5] Hfit example_ih_inv Hn).
Defined.

Lemma replace_other_end_witness :
  StrictWeakOrder Z.ltb ∧ fits [1; 9; 3; 8; 2; 5] ∧
  ih_inv Z.ltb [1; 9; 3; 8; 2; 5] ∧ 2 ≤ size [1; 9; 3; 8; 2; 5] ∧
  ∃ m M d3 d4,
    IntervalHeap.min [1; 9; 3; 8; 2; 5] = Ok m ∧
    IntervalHeap.max [1; 9; 3; 8; 2; 5] = Ok M ∧
    IntervalHeap.replace_min Z.ltb [1; 9; 3; 8; 2; 5] 10 = Ok d3 ∧
    IntervalHeap.max d3 = Ok (if M <? 10 then 10 else M) ∧
    IntervalHeap.replace_max Z.ltb [1; 9; 3; 8; 2; 5] 10 = Ok d4 ∧
    IntervalHeap.min d4 = Ok (if 10 <? m then 10 else m).
Proof.
  assert (fits [1; 9; 3; 8; 2; 5]) as Hfit by (apply fits_small; simpl; lia).
  assert (2 ≤ size [1; 9; 3; 8; 2; 5]) as Hn by (vm_compute; discriminate).
  split; [apply ltb_strict_weak_order|]. split; [exact Hfit|].
  split; [apply example_ih_inv|]. split; [exact Hn|].
  apply (replace_other_end Z.ltb ltb_strict_weak_order
           [1; 9; 3; 8; 2; 5] 10 Hfit example_ih_inv Hn).
Defined.

(** * Where a pushed element can land *)

Section PushEnds.
Context {T : Type} (less : T → T → bool) (Hswo : StrictWeakOrder less).
Implicit Types (d : list T) (x m M : T) (idx : Z).

(** [BinaryHeap::bubble_up] from a slot below the root puts the rising
    element at the root only after finding it strictly before the element
    there; otherwise the root keeps its element. *)
Lemma bh_bubble_up_root_kept d idx x m d' :
  size d ≤ MAX_SIZE → 1 ≤ idx →
  nthZ d 0 = Some m → nthZ d idx = Some x →
  BinaryHeap.bubble_up less d idx = Ok d' →
  nthZ d' 0 = Some m ∨ (nthZ d' 0 = Some x ∧ less x m = true).
Proof.
  rewrite max_size_value. intros Hd Hidx Hm Hx Hrun.
  pose proof (nthZ_Some_lt _ _ _ Hx) as Hlt.
  unfold BinaryHeap.bubble_up, BinaryHeap.ROOT in Hrun.
  rewrite (assert_true (0 <=? idx)) in Hrun by lia. simpl in Hrun.
  rewrite (assert_true (idx <? size d)) in Hrun by lia. simpl in Hrun.
  rewrite (at_ok _ _ _ Hx) in Hrun. simpl in Hrun.
  destruct (while _ _ _ _) as [[[d1 i1] p1]| | |] eqn:W; try done.
  simpl in Hrun.
  set (Inv := λ s : list T * Z * Z,
    let '(d1, i, par) := s in
    size d1 = size d ∧ par = BinaryHeap.get_parent i ∧ 0 ≤ i < size d ∧
    nthZ d1 0 = Some m ∧ (i = 0 → less x m = true)).
  assert (Inv (d, idx, BinaryHeap.get_parent idx)) as Hinit.
  { simpl. repeat split; try done; lia. }
  destruct (λ Hk, while_returned Inv _ _ _ _ _ Hk Hinit W)
    as ([[d2 i2] p2] & (Hsz & -> & Hi & Hroot & Hless) & Hexit).
  - clear W Hinit Hrun. intros [[d2 i] par] [[d3 i'] par']
      (Hsz & -> & Hi & Hroot & Hless) Hc Hb.
    destruct (Z.ltb_spec 0 i) as [Hpos|?]; [|done].
    rewrite bh_get_parent_pos in Hc, Hb by (rewrite width_value; lia).
    returned Hc. returned Hb. simpl. rewrite size_updZ.
    split; [done|]. split; [done|]. split; [lia|].
    split; [by rewrite nthZ_updZ_ne by lia|].
    intros Hz. rewrite Hz in *. congruence.
  - assert (d1 = d2 ∧ i1 = i2) as [-> ->].
    { destruct Hexit as [[_ [= -> -> ->]]|[_ Hb]]; [done|].
      returned Hb. }
    clear Hexit W. returned Hrun.
    destruct (decide (i2 = 0)) as [->|Hne].
    + right. split; [by rewrite nthZ_updZ_eq by lia|by apply Hless].
    + left. by rewrite nthZ_updZ_ne by lia.
Qed.

(** X10. [push] on a BinaryHeap that holds an element: afterwards [top]
    shows the pushed element when it precedes the element [top] showed
    before, and that very element otherwise. *)
Theorem bh_push_top d x :
  fits d → bh_inv less d → 0 < size d → size d < MAX_SIZE →
  ∃ m d',
    BinaryHeap.top d = Ok m ∧
    BinaryHeap.push less d x = Ok d' ∧
    BinaryHeap.emplace less d x = Ok d' ∧
    BinaryHeap.top d' = Ok (if less x m then x else m).
Proof.
  intros Hfit Hinv%bh_inv_from Hpos Hroom.
  pose proof Hroom as Hroom'. rewrite max_size_value in Hroom'.
  destruct (nthZ_is_Some d 0) as [m Hm]; [lia|].
  destruct (bh_push_spec less Hswo d x Hroom Hinv)
    as (d' & E & Hinv' & Hp & Hs).
  exists m, d'. split; [by apply bh_top_ok|]. split; [done|].
  split; [done|]. apply bh_top_ok.
  unfold BinaryHeap.push in E. rewrite size_push_back in E.
  rewrite size_sub_small in E by (rewrite width_value; lia).
  replace (size d + 1 - 1) with (size d) in E by lia.
  apply (bh_bubble_up_root_kept _ _ x m) in E as [Hroot|[Hroot Hlt]].
  - destruct (less x m) eqn:Hlt; [|done].
    assert (x ∈ d') as [i Hi]%elem_of_nthZ by (rewrite Hp; by left).
    pose proof (bh_root_least less Hswo d' m Hinv' Hroot i x Hi) as Hle.
    unfold le in Hle. congruence.
  - by rewrite Hlt.
  - rewrite size_push_back. lia.
  - lia.
  - rewrite nthZ_push_back. by rewrite decide_False by lia.
  - rewrite nthZ_push_back. by rewrite decide_True.
Qed.

End PushEnds.

Lemma bh_push_top_witness :
  StrictWeakOrder Z.ltb ∧ fits [1; 5; 3] ∧ bh_inv Z.ltb [1; 5; 3] ∧
  0 < size [1; 5; 3] ∧ size [1; 5; 3] < MAX_SIZE ∧
  ∃ m d',
    BinaryHeap.top [1; 5; 3] = Ok m ∧
    BinaryHeap.push Z.ltb [1; 5; 3] 0 = Ok d' ∧
    BinaryHeap.emplace Z.ltb [1; 5; 3] 0 = Ok d' ∧
    BinaryHeap.top d' = Ok (if 0 <? m then 0 else m).
Proof.
  assert (0 < size [1; 5; 3]) as Hpos by reflexivity.
  assert (size [1; 5; 3] < MAX_SIZE) as Hroom
    by (rewrite max_size_value; reflexivity).
  split; [apply ltb_strict_weak_order|]. split; [apply small_fits|].
  split; [apply small_bh_inv|]. split; [exact Hpos|]. split; [exact Hroom|].
  apply (bh_push_top Z.ltb ltb_strict_weak_order [1; 5; 3] 0
           small_fits small_bh_inv Hpos Hroom).
Defined.

Section AscentEnds.
Context {T : Type} (less : T → T → bool) (Hswo : StrictWeakOrder less).
Implicit Types (d : list T) (x cur m M : T) (idx : Z).

(** The reconciliation of a slot after the root node stays after it. *)
Lemma reconcile_ends d idx cur d1 i1 m M :
  size d ≤ MAX_SIZE → 2 ≤ idx →
  nthZ d 0 = Some m → nthZ d 1 = Some M →
  reconcile less d idx cur = Ok (d1, i1) →
  size d1 = size d ∧ 2 ≤ i1 ≤ idx ∧
  nthZ d1 0 = Some m ∧ nthZ d1 1 = Some M.
Proof.
  rewrite max_size_value. intros Hd Hidx Hm HM Hrun.
  unfold reconcile, IntervalHeap.is_max in Hrun.
  returned Hrun; unwrapped; ranges; rewrite ?size_updZ;
    (split; [done|]); (split; [lia|]); rewrite ?nthZ_updZ_ne by lia; done.
Qed.

(** The ascent along the min slots changes no slot of the root node before
    its last write, which lands on a min slot, and on the root's only after
    the element was found strictly before the element there. *)
Lemma min_ascent_ends d idx cur d1 i1 m M :
  size d ≤ MAX_SIZE → 2 ≤ idx < size d →
  nthZ d 0 = Some m → nthZ d 1 = Some M →
  min_ascent_applies less d idx cur = Ok true →
  min_ascent less d idx cur = Ok (d1, i1) →
  size d1 = size d ∧ nthZ d1 0 = Some m ∧ nthZ d1 1 = Some M ∧
  0 ≤ i1 < size d ∧ i1 mod 2 = 0 ∧ (i1 = 0 → less cur m = true).
Proof.
  rewrite max_size_value. intros Hd Hidx Hm HM Happ Hrun.
  unfold min_ascent in Hrun.
  destruct (do_while _ _ _ _) as [[[d2 i2] p2]| | |] eqn:W; try done.
  simpl in Hrun. injection Hrun as -> ->.
  unfold min_ascent_applies, IntervalHeap.ROOT in Happ.
  change (0 +% 1) with 1 in Happ.
  set (Inv := λ s : list T * Z * Z,
    let '(d2, i, par) := s in
    size d2 = size d ∧ par = IntervalHeap.get_parent i ∧ 2 ≤ i < size d ∧
    nthZ d2 0 = Some m ∧ nthZ d2 1 = Some M ∧
    ∃ p, nthZ d2 par = Some p ∧ less cur p = true).
  assert (Inv (d, idx, IntervalHeap.get_parent idx)) as Hinit.
  { returned Happ. unwrapped. ranges.
    pose proof (ih_get_parent_pos idx ltac:(rewrite width_value; lia)).
    simpl. repeat split; try done; try lia. eauto. }
  destruct (λ Hk, do_while_returned Inv _ _ _ _ _ Hk Hinit W)
    as ([[d3 i3] p3] & (Hsz & -> & Hi & H0 & H1 & p & Hp & Hlt) & Hb & Hc).
  - clear W Hinit Happ. intros [[d3 i] par] [[d4 i'] par']
      (Hsz & -> & Hi & H0 & H1 & p & Hp & Hlt) Hb Hc.
    rewrite ih_get_parent_pos in Hb, Hp by (rewrite width_value; lia).
    unfold IntervalHeap.ROOT in Hc. change (0 +% 1) with 1 in Hc.
    returned Hb. returned Hc. unwrapped. ranges. simpl.
    rewrite size_updZ in *.
    split; [done|]. split; [done|]. split; [lia|].
    rewrite !nthZ_updZ_ne by lia. split; [done|]. split; [done|]. eauto.
  - rewrite ih_get_parent_pos in Hb, Hp by (rewrite width_value; lia).
    returned Hb. rewrite size_updZ. rewrite !nthZ_updZ_ne by lia.
    ranges. split; [done|]. split; [done|]. split; [done|].
    split; [lia|]. split; [lia|]. intros Hz. rewrite Hz in *. congruence.
Qed.

(** The ascent along the max slots: the same, with the root's max slot. *)
Lemma max_ascent_ends d idx cur d1 i1 m M :
  size d ≤ MAX_SIZE → 2 ≤ idx < size d →
  nthZ d 0 = Some m → nthZ d 1 = Some M →
  max_ascent_applies less d idx cur = Ok true →
  max_ascent less d idx cur = Ok (d1, i1) →
  size d1 = size d ∧ nthZ d1 0 = Some m ∧ nthZ d1 1 = Some M ∧
  0 ≤ i1 < size d ∧ i1 mod 2 = 1 ∧ (i1 = 1 → less M cur = true).
Proof.
  rewrite max_size_value. intros Hd Hidx Hm HM Happ Hrun.
  unfold max_ascent in Hrun.
  destruct (do_while _ _ _ _) as [[[d2 i2] p2]| | |] eqn:W; try done.
  simpl in Hrun. injection Hrun as -> ->.
  unfold max_ascent_applies, IntervalHeap.ROOT in Happ.
  change (0 +% 1) with 1 in Happ.
  set (Inv := λ s : list T * Z * Z,
    let '(d2, i, par) := s in
    size d2 = size d ∧ par = IntervalHeap.get_parent i +% 1 ∧
    2 ≤ i < size d ∧
    nthZ d2 0 = Some m ∧ nthZ d2 1 = Some M ∧
    ∃ p, nthZ d2 par = Some p ∧ less p cur = true).
  assert (Inv (d, idx, IntervalHeap.get_parent idx +% 1)) as Hinit.
  { returned Happ. simpl. repeat split; try done; try lia. eauto. }
  destruct (λ Hk, do_while_returned Inv _ _ _ _ _ Hk Hinit W)
    as ([[d3 i3] p3] & (Hsz & -> & Hi & H0 & H1 & p & Hp & Hlt) & Hb & Hc).
  - clear W Hinit Happ. intros [[d3 i] par] [[d4 i'] par']
      (Hsz & -> & Hi & H0 & H1 & p & Hp & Hlt) Hb Hc.
    rewrite ih_get_parent_pos in Hb, Hp by (rewrite width_value; lia).
    unfold IntervalHeap.ROOT in Hc. change (0 +% 1) with 1 in Hc.
    returned Hb. returned Hc. unwrapped. ranges. simpl.
    rewrite size_updZ in *.
    split; [done|]. split; [done|]. split; [lia|].
    rewrite !nthZ_updZ_ne by lia. split; [done|]. split; [done|]. eauto.
  - rewrite ih_get_parent_pos in Hb, Hp by (rewrite width_value; lia).
    returned Hb. unwrapped. rewrite size_updZ. rewrite !nthZ_updZ_ne by lia.
    ranges. split; [done|]. split; [done|]. split; [done|].
    split; [lia|]. split; [lia|]. intros Hz. rewrite Hz in *. congruence.
Qed.

(** [IntervalHeap::bubble_up] from a slot after the root node: each slot of
    the root node keeps its element, unless the rising element was found
    strictly before the root's min, or strictly after the root's max, and
    took that slot. *)
Lemma ih_bubble_up_ends_kept d idx x m M d' :
  size d ≤ MAX_SIZE → 2 ≤ idx →
  nthZ d 0 = Some m → nthZ d 1 = Some M → nthZ d idx = Some x →
  IntervalHeap.bubble_up less d idx = Ok d' →
  (nthZ d' 0 = Some m ∨ (nthZ d' 0 = Some x ∧ less x m = true)) ∧
  (nthZ d' 1 = Some M ∨ (nthZ d' 1 = Some x ∧ less M x = true)).
Proof.
  intros Hd Hidx Hm HM Hx Hrun. pose proof Hd as Hd'.
  rewrite max_size_value in Hd'.
  pose proof (nthZ_Some_lt _ _ _ Hx) as Hlt.
  rewrite bubble_up_pieces in Hrun. unfold IntervalHeap.ROOT in Hrun.
  rewrite (assert_true (idx <? size d)) in Hrun by lia. simpl in Hrun.
  rewrite (assert_true (0 <=? idx)) in Hrun by lia. simpl in Hrun.
  rewrite (at_ok _ _ _ Hx) in Hrun. simpl in Hrun.
  destruct (reconcile less d idx x) as [[d1 i1]| | |] eqn:Erec; try done.
  simpl in Hrun.
  destruct (reconcile_ends d idx x d1 i1 m M Hd Hidx Hm HM Erec)
    as (Hsz1 & Hi1 & Hm1 & HM1).
  destruct (min_ascent_applies less d1 i1 x) as [[|]| | |] eqn:Emin;
    try done; simpl in Hrun.
  - destruct (min_ascent less d1 i1 x) as [[d2 i2]| | |] eqn:Easc; try done.
    simpl in Hrun.
    destruct (min_ascent_ends d1 i1 x d2 i2 m M) as (Hsz2 & Hm2 & HM2 & Hi2 & Hev & Hroot);
      [lia..|done|done|done|done|].
    apply store_inv in Hrun as [_ ->].
    destruct (decide (i2 = 0)) as [->|Hne].
    + split; [right|left].
      * split; [by rewrite nthZ_updZ_eq by lia|by apply Hroot].
      * by rewrite nthZ_updZ_ne by lia.
    + split; left; by rewrite nthZ_updZ_ne by lia.
  - destruct (max_ascent_applies less d1 i1 x) as [[|]| | |] eqn:Emax;
      try done; simpl in Hrun.
    + destruct (max_ascent less d1 i1 x) as [[d2 i2]| | |] eqn:Easc;
        try done.
      simpl in Hrun.
      destruct (max_ascent_ends d1 i1 x d2 i2 m M)
        as (Hsz2 & Hm2 & HM2 & Hi2 & Hodd & Hroot);
        [lia..|done|done|done|done|].
      apply store_inv in Hrun as [_ ->].
      destruct (decide (i2 = 1)) as [->|Hne].
      * split; [left|right].
        -- by rewrite nthZ_updZ_ne by lia.
        -- split; [by rewrite nthZ_updZ_eq by lia|by apply Hroot].
      * split; left; by rewrite nthZ_updZ_ne by lia.
    + apply store_inv in Hrun as [_ ->].
      split; left; by rewrite nthZ_updZ_ne by lia.
Qed.

(** X11. [push] on an IntervalHeap that holds two elements or more:
    afterwards [min] shows the pushed element when it precedes the element
    [min] showed before, and that very element otherwise; [max] shows the
    pushed element when the element [max] showed before precedes it, and
    that very element otherwise. *)
Theorem ih_push_ends d x :
  fits d → ih_inv less d → 2 ≤ size d → size d < MAX_SIZE →
  ∃ m M d',
    IntervalHeap.min d = Ok m ∧ IntervalHeap.max d = Ok M ∧
    IntervalHeap.push less d x = Ok d' ∧
    IntervalHeap.emplace less d x = Ok d' ∧
    IntervalHeap.min d' = Ok (if less x m then x else m) ∧
    IntervalHeap.max d' = Ok (if less M x then x else M).
Proof.
  intros Hfit Hinv%ih_inv_heap Hn Hroom.
  pose proof Hroom as Hroom'. rewrite max_size_value in Hroom'.
  destruct (nthZ_is_Some d 0) as [m Hm]; [lia|].
  destruct (nthZ_is_Some d 1) as [M HM]; [lia|].
  destruct (ih_push_spec less Hswo d x Hroom Hinv)
    as (d' & E & Hinv' & Hp & Hs).
  exists m, M, d'. split; [by apply ih_min_ok|].
  split; [apply ih_max_at; [lia|done]|]. split; [done|]. split; [done|].
  unfold IntervalHeap.push in E. rewrite size_push_back in E.
  rewrite size_sub_small in E by (rewrite width_value; lia).
  replace (size d + 1 - 1) with (size d) in E by lia.
  apply (ih_bubble_up_ends_kept _ _ x m M) in E as [H0 H1].
  - assert (x ∈ d') as [i Hi]%elem_of_nthZ by (rewrite Hp; by left).
    split.
    + apply ih_min_ok. destruct H0 as [H0|[H0 Hlt]]; [|by rewrite Hlt].
      destruct (less x m) eqn:Hlt; [|done].
      pose proof (ih_root_least less Hswo d' m Hinv' H0 i x Hi) as Hle.
      unfold le in Hle. congruence.
    + apply ih_max_at; [lia|].
      destruct H1 as [H1|[H1 Hlt]]; [|by rewrite Hlt].
      destruct (less M x) eqn:Hlt; [|done].
      pose proof (ih_root_greatest less Hswo d' M Hinv' H1 i x Hi) as Hle.
      unfold le in Hle. congruence.
  - unfold fits in Hfit. rewrite size_push_back. lia.
  - lia.
  - rewrite nthZ_push_back. by rewrite decide_False by lia.
  - rewrite nthZ_push_back. by rewrite decide_False by lia.
  - rewrite nthZ_push_back. by rewrite decide_True.
Qed.

End AscentEnds.

Lemma ih_push_ends_witness :
  StrictWeakOrder Z.ltb ∧ fits [1; 9; 3; 8; 2; 5] ∧
  ih_inv Z.ltb [1; 9; 3; 8; 2; 5] ∧ 2 ≤ size [1; 9; 3; 8; 2; 5] ∧
  size [1; 9; 3; 8; 2; 5] < MAX_SIZE ∧
  ∃ m M d',
    IntervalHeap.min [1; 9; 3; 8; 2; 5] = Ok m ∧
    IntervalHeap.max [1; 9; 3; 8; 2; 5] = Ok M ∧
    IntervalHeap.push Z.ltb [1; 9; 3; 8; 2; 5] 10 = Ok d' ∧
    IntervalHeap.emplace Z.ltb [1; 9; 3; 8; 2; 5] 10 = Ok d' ∧
    IntervalHeap.min d' = Ok (if 10 <? m then 10 else m) ∧
    IntervalHeap.max d' = Ok (if M <? 10 then 10 else M).
Proof.
  assert (fits [1; 9; 3; 8; 2; 5]) as Hfit by (apply fits_small; simpl; lia).
  assert (2 ≤ size [1; 9; 3; 8; 2; 5]) as Hn by (vm_compute; discriminate).
  assert (size [1; 9; 3; 8; 2; 5] < MAX_SIZE) as Hroom
    by (rewrite max_size_value; reflexivity).
  split; [apply ltb_strict_weak_order|]. split; [exact Hfit|].
  split; [apply example_ih_inv|]. split; [exact Hn|]. split; [exact Hroom|].
  apply (ih_push_ends Z.ltb ltb_strict_weak_order
           [1; 9; 3; 8; 2; 5] 10 Hfit example_ih_inv Hn Hroom).
Defined.

(** * Building a heap from a heap *)

Section Unchanged.
Context {T : Type} (less : T → T → bool) (Hswo : StrictWeakOrder less).
Implicit Types (d : list T) (idx : Z).

(** [bubble_down] finds nothing to move in a sequence that is in heap
    order. *)
Lemma bh_bubble_down_unchanged d idx d' :
  size d ≤ MAX_SIZE → bh_from less 0 d →
  BinaryHeap.bubble_down less d idx = Ok d' → d' = d.
Proof.
  rewrite max_size_value. intros Hd Hinv Hrun.
  unfold BinaryHeap.bubble_down, BinaryHeap.ROOT in Hrun.
  destruct (assert (0 <=? idx)) eqn:A1; try done.
  apply assert_inv, Z.leb_le in A1. simpl in Hrun.
  destruct (assert (idx <? size d)) eqn:A2; try done.
  apply assert_inv, Z.ltb_lt in A2. simpl in Hrun.
  destruct (at_ d idx) as [cur| | |] eqn:Hcur; try done.
  apply at_inv in Hcur. simpl in Hrun.
  destruct (while _ _ _ _) as [[[d1 i1] c1]| | |] eqn:W; try done.
  simpl in Hrun.
  set (Inv := λ s : list T * Z * Z,
    let '(d1, i, child) := s in
    d1 = d ∧ i = idx ∧ child = BinaryHeap.get_left idx).
  assert (Inv (d, idx, BinaryHeap.get_left idx)) as Hinit by done.
  assert (BinaryHeap.get_left idx = 2 * idx + 1) as Hleft.
  { unfold BinaryHeap.get_left.
    rewrite size_mul_small by (rewrite width_value; lia).
    by rewrite size_add_small by (rewrite width_value; lia). }
  assert (∀ c xc, c = 2 * idx + 1 ∨ c = 2 * idx + 2 →
            nthZ d c = Some xc → less xc cur = false) as Hchild.
  { intros c xc Hc Hxc. apply (Hinv idx c cur xc); [lia|done..]. }
  destruct (λ Hk, while_returned Inv _ _ _ _ _ Hk Hinit W)
    as ([[d2 i2] c2] & (-> & -> & ->) & Hexit).
  - clear W Hinit Hrun. intros [[d2 i] child] [[d3 i'] child']
      (-> & -> & ->) Hc Hb.
    injection Hc as Hc. rewrite Hleft in Hb, Hc.
    unfold BinaryHeap.smaller_child in Hb.
    returned Hb; unwrapped; branches; unwrapped; exfalso;
      match goal with
      | H : nthZ d ?c = Some ?a, L : less ?a cur = true |- _ =>
          rewrite (Hchild c a) in L by (done || lia); done
      end.
  - assert (d1 = d ∧ i1 = idx) as [-> ->].
    { destruct Hexit as [[_ [= -> -> ->]]|[Hc Hb]]; [done|].
      unfold BinaryHeap.smaller_child in Hb. returned Hb; done. }
    returned Hrun. by apply updZ_id.
Qed.

Lemma bh_heapify_unchanged d :
  size d ≤ MAX_SIZE → bh_from less 0 d → BinaryHeap.heapify less d = Ok d.
Proof.
  intros Hd Hinv.
  destruct (bh_heapify_spec less Hswo d Hd) as (d' & E & _).
  rewrite E. f_equal. unfold BinaryHeap.heapify in E.
  destruct (while _ _ _ _) as [[d1 i1]| | |] eqn:W; try done.
  simpl in E. injection E as ->.
  set (Inv := λ s : list T * Z, s.1 = d).
  destruct (λ Hk, while_returned Inv _ _ _ _ _ Hk (eq_refl : Inv (d, _)) W)
    as ([d2 i2] & Hd2 & Hexit).
  - intros [d2 i] [d3 i'] Hd2 Hc Hb. change (d2 = d) in Hd2. subst d2.
    change (d3 = d).
    destruct (BinaryHeap.bubble_down less d (wrap i)) as [d4| | |] eqn:Eb;
      try done.
    simpl in Hb. injection Hb as -> _.
    by apply (bh_bubble_down_unchanged d (wrap i)).
  - change (d2 = d) in Hd2. subst d2.
    destruct Hexit as [[_ [= -> _]]|[_ Hb]]; [done|].
    destruct (BinaryHeap.bubble_down less d (wrap i2)); done.
Qed.

(** Two slots in the order the invariant gives them are not found in the
    other order. *)
Ltac against less d H :=
  match goal with
  | L : less ?a ?b = true, Ha : nthZ d ?i = Some ?a,
    Hb : nthZ d ?j = Some ?b |- _ =>
      let Hle := fresh in
      assert (le less b a) as Hle
        by (apply (H j i b a); [lia|exact Hb|exact Ha]);
      unfold le in Hle; congruence
  end.

Lemma ih_balance_node_unchanged d idx d' :
  size d ≤ MAX_SIZE → ih_intervals less d → 0 ≤ idx → idx mod 2 = 0 →
  IntervalHeap.balance_node less d idx = Ok d' → d' = d.
Proof.
  rewrite max_size_value. intros Hd Hint Hidx Hev Hrun.
  unfold IntervalHeap.balance_node in Hrun.
  destruct (at_ d (idx +% 1)) as [hi| | |] eqn:Ehi; try done.
  apply at_inv in Ehi. simpl in Hrun.
  destruct (at_ d idx) as [lo| | |] eqn:Elo; try done.
  apply at_inv in Elo. simpl in Hrun. ranges.
  destruct (less hi lo) eqn:L; [|by injection Hrun].
  exfalso. unwrapped. against less d Hint.
Qed.

Lemma ih_bubble_down_min_unchanged d idx d' :
  size d ≤ MAX_SIZE → ih_heap less d →
  IntervalHeap.bubble_down_min less d idx = Ok d' → d' = d.
Proof.
  rewrite max_size_value. intros Hd (Hint & Hmin & Hmax) Hrun.
  unfold IntervalHeap.bubble_down_min in Hrun.
  destruct (assert (idx <? size d)) eqn:A1; try done.
  apply assert_inv, Z.ltb_lt in A1. simpl in Hrun.
  destruct (assert (IntervalHeap.is_min idx)) eqn:A2; try done.
  apply assert_inv, Z.eqb_eq in A2. simpl in Hrun.
  destruct (assert (IntervalHeap.ROOT <=? idx)) eqn:A3; try done.
  apply assert_inv, Z.leb_le in A3. unfold IntervalHeap.ROOT in A3.
  simpl in Hrun.
  destruct (while _ _ _ _) as [[[d1 i1] c1]| | |] eqn:W; try done.
  simpl in Hrun. injection Hrun as ->.
  set (Inv := λ s : list T * Z * Z,
    let '(d1, i, child) := s in
    d1 = d ∧ i = idx ∧ child = (idx + 1) * 2).
  assert (Inv (d, idx, IntervalHeap.get_left idx)) as Hinit.
  { simpl. by rewrite ih_get_left_small by (rewrite max_size_value; lia). }
  destruct (λ Hk, while_returned Inv _ _ _ _ _ Hk Hinit W)
    as ([[d2 i2] c2] & (-> & -> & ->) & Hexit).
  - clear W Hinit. intros [[d2 i] child] [[d3 i'] child']
      (-> & -> & ->) Hc Hb.
    injection Hc as Hc. apply Z.ltb_lt in Hc.
    returned Hb; unwrapped; branches; unwrapped; ranges; exfalso;
      against less d Hmin.
  - destruct Hexit as [[_ [= -> -> ->]]|[Hc Hb]]; [done|].
    returned Hb; done.
Qed.

Lemma ih_bubble_down_max_unchanged d m d' :
  size d ≤ MAX_SIZE → ih_heap less d →
  IntervalHeap.bubble_down_max less d m = Ok d' → d' = d.
Proof.
  rewrite max_size_value. intros Hd (Hint & Hmin & Hmax) Hrun.
  unfold IntervalHeap.bubble_down_max in Hrun.
  destruct (assert (IntervalHeap.is_max m)) eqn:A1; try done.
  apply assert_inv, Z.eqb_eq in A1. simpl in Hrun.
  destruct (assert (IntervalHeap.ROOT <=? m)) eqn:A2; try done.
  apply assert_inv, Z.leb_le in A2. unfold IntervalHeap.ROOT in A2.
  simpl in Hrun.
  destruct (assert (m <? size d)) eqn:A3; try done.
  apply assert_inv, Z.ltb_lt in A3. simpl in Hrun.
  destruct (while _ _ _ _) as [[[d1 i1] c1]| | |] eqn:W; try done.
  simpl in Hrun.
  set (Inv := λ s : list T * Z * Z,
    let '(d1, i, child) := s in
    d1 = d ∧ i = m - 1 ∧ child = (m - 1 + 1) * 2).
  assert (Inv (d, m -% 1, IntervalHeap.get_left (m -% 1))) as Hinit.
  { simpl. rewrite size_sub_small by (rewrite width_value; lia).
    by rewrite ih_get_left_small by (rewrite max_size_value; lia). }
  destruct (λ Hk, while_returned Inv _ _ _ _ _ Hk Hinit W)
    as ([[d2 i2] c2] & (-> & -> & ->) & Hexit).
  - clear W Hinit Hrun. intros [[d2 i] child] [[d3 i'] child']
      (-> & -> & ->) Hc Hb.
    injection Hc as Hc. apply Z.ltb_lt in Hc.
    unfold IntervalHeap.is_max in Hb.
    returned Hb; unwrapped; branches; unwrapped; ranges; exfalso;
      against less d Hmax.
  - assert (d1 = d ∧ i1 = m - 1) as [-> ->].
    { destruct Hexit as [[_ [= -> -> ->]]|[Hc Hb]]; [done|].
      returned Hb; done. }
    clear Hexit W Hinit.
    returned Hrun; unwrapped; try done; ranges; exfalso;
      against less d Hint.
Qed.

Lemma ih_heapify_unchanged d :
  size d ≤ MAX_SIZE → ih_heap less d → IntervalHeap.heapify less d = Ok d.
Proof.
  intros Hd Hinv. pose proof Hinv as (Hint & _).
  pose proof Hd as Hd'. rewrite max_size_value in Hd'.
  destruct (ih_heapify_spec less Hswo d Hd) as (d' & E & _).
  rewrite E. f_equal. unfold IntervalHeap.heapify in E.
  destruct (Z.leb_spec (size d) 2) as [Hsmall|Hbig].
  { returned E; try done. exfalso. against less d Hint. }
  destruct (while _ _ _ _) as [[d1 i1]| | |] eqn:W1; try done.
  simpl in E.
  set (Inv1 := λ s : list T * Z,
    let '(d1, i) := s in d1 = d ∧ 0 ≤ i ≤ size d ∧ i mod 2 = 0).
  assert (Inv1 (d, 0)) as Hinit1 by (simpl; repeat split; lia).
  destruct (λ Hk, while_returned Inv1 _ _ _ _ _ Hk Hinit1 W1)
    as ([d2 i2] & (-> & _) & Hexit1).
  { intros [d2 i] [d3 i'] (-> & Hi & Hev) Hc Hb.
    injection Hc as Hc. apply Z.ltb_lt in Hc.
    rewrite size_sub_small in Hc by (rewrite width_value; lia).
    destruct (IntervalHeap.balance_node less d i) as [d4| | |] eqn:Eb;
      try done.
    simpl in Hb. injection Hb as -> <-.
    rewrite size_add_small by (rewrite width_value; lia). simpl.
    split; [|lia].
    apply (ih_balance_node_unchanged d i); [done|done|lia|done|done]. }
  assert (d1 = d) as ->.
  { destruct Hexit1 as [[_ [= -> _]]|[_ Hb]]; [done|].
    destruct (IntervalHeap.balance_node less d i2); done. }
  clear W1 Hexit1 Hinit1.
  destruct (while _ _ _ _) as [[d3 i3]| | |] eqn:W2; try done.
  simpl in E. injection E as ->.
  set (Inv2 := λ s : list T * Z, s.1 = d).
  destruct (λ Hk, while_returned Inv2 _ _ _ _ _ Hk (eq_refl : Inv2 (d, _)) W2)
    as ([d4 i4] & Hd4 & Hexit2).
  - intros [d4 i] [d5 i'] Hd4 Hc Hb. change (d4 = d) in Hd4. subst d4.
    change (d5 = d).
    destruct (IntervalHeap.bubble_down_max less d (wrap (i + 1)))
      as [d6| | |] eqn:Emax; try done.
    simpl in Hb.
    apply ih_bubble_down_max_unchanged in Emax as ->; [|done..].
    destruct (IntervalHeap.bubble_down_min less d (wrap i))
      as [d7| | |] eqn:Emin; try done.
    simpl in Hb. injection Hb as -> _.
    by apply (ih_bubble_down_min_unchanged d (wrap i)).
  - change (d4 = d) in Hd4. subst d4.
    destruct Hexit2 as [[_ [= -> _]]|[_ Hb]]; [done|].
    destruct (IntervalHeap.bubble_down_max less d (wrap (i4 + 1)))
      as [d6| | |]; try done.
    simpl in Hb. destruct (IntervalHeap.bubble_down_min less d6 (wrap i4)); done.
Qed.

(** X12. A sequence that satisfies the invariant is left as it is by
    [heapify], hence by the constructors that take a container; so building
    a heap from the sequence of a heap changes nothing, and [heapify] run
    twice does what it does once. *)
Theorem heapify_fixed_point d :
  fits d →
  (bh_inv less d → BinaryHeap.construct less d = Ok d) ∧
  (ih_inv less d → IntervalHeap.construct less d = Ok d) ∧
  (∃ d1, BinaryHeap.heapify less d = Ok d1 ∧
         BinaryHeap.heapify less d1 = Ok d1) ∧
  (∃ d2, IntervalHeap.heapify less d = Ok d2 ∧
         IntervalHeap.heapify less d2 = Ok d2).
Proof.
  intros Hfit. split; [|split; [|split]].
  - intros Hinv%bh_inv_from. by apply bh_heapify_unchanged.
  - intros Hinv%ih_inv_heap. by apply ih_heapify_unchanged.
  - destruct (bh_heapify_spec less Hswo d Hfit) as (d1 & E & Hinv & _ & Hs).
    exists d1. split; [done|]. apply bh_heapify_unchanged; [|done].
    unfold fits in Hfit. lia.
  - destruct (ih_heapify_spec less Hswo d Hfit) as (d2 & E & Hinv & _ & Hs).
    exists d2. split; [done|]. apply ih_heapify_unchanged; [|done].
    unfold fits in Hfit. lia.
Qed.

End Unchanged.

Lemma heapify_fixed_point_witness :
  StrictWeakOrder Z.ltb ∧ fits [1; 5; 3] ∧
  bh_inv Z.ltb [1; 5; 3] ∧ ih_inv Z.ltb [1; 5; 3] ∧
  BinaryHeap.construct Z.ltb [1; 5; 3] = Ok [1; 5; 3] ∧
  IntervalHeap.construct Z.ltb [1; 5; 3] = Ok [1; 5; 3].
Proof.
  destruct (heapify_fixed_point Z.ltb ltb_strict_weak_order [1; 5; 3]
              small_fits) as (Hb & Hi & _).
  split; [apply ltb_strict_weak_order|]. split; [apply small_fits|].
  split; [apply small_bh_inv|]. split; [apply small_ih_inv|].
  split; [apply Hb, small_bh_inv|apply Hi, small_ih_inv].
Defined.

(** * SharedVector: three arrays in one buffer *)

(** [SharedVector] (containers/shared_vector/example.hpp) keeps an array of
    [int] rows, an array of [int] columns and an array of [double] values
    in one buffer of bytes.  Offsets and lengths are [size_t]; [sizeof] and
    [alignof] of the two element types are those of the platform and are
    parameters here. *)
Module SharedVector.

(** [align<U>(idx)]: [(idx + alignof(U) - 1) / alignof(U) * alignof(U)]. *)
Definition align (alignof_U : Z) (idx : Z) : Z :=
  (idx +% alignof_U -% 1) / alignof_U *% alignof_U.

(** The offsets the constructor computes and the number of bytes it
    allocates; [row], [col] and [val] point that far into the buffer. *)
Record layout : Type := Layout {
  row_begin : Z;
  col_begin : Z;
  val_begin : Z;
  total : Z
}.

Section Constructor.
Variables sizeof_int alignof_int sizeof_double alignof_double : Z.

Definition construct (nrows ncols nvals : Z) : layout :=
  let row_begin := 0 in
  let col_begin := align alignof_int (row_begin +% sizeof_int *% nrows) in
  let val_begin := align alignof_double (col_begin +% sizeof_int *% ncols) in
  let total := val_begin +% sizeof_double *% nvals in
  Layout row_begin col_begin val_begin total.

End Constructor.

End SharedVector.

Section SharedVectorFacts.

Lemma sv_align_value a idx :
  0 < a → 0 ≤ idx → idx + a ≤ 2 ^ SIZE_WIDTH →
  SharedVector.align a idx = (idx + a - 1) / a * a ∧
  idx ≤ (idx + a - 1) / a * a < idx + a.
Proof.
  rewrite width_value. intros Ha Hidx Hbig.
  pose proof (Z.mul_div_le (idx + a - 1) a Ha) as Hle.
  pose proof (Z.mul_succ_div_gt (idx + a - 1) a Ha) as Hgt.
  rewrite Z.mul_succ_r in Hgt. rewrite (Z.mul_comm a) in Hle, Hgt.
  set (q := (idx + a - 1) / a) in *.
  assert (idx ≤ q * a < idx + a) as Hq by lia.
  split; [|done]. unfold SharedVector.align.
  assert (idx +% a -% 1 = idx + a - 1) as ->.
  { unfold size_add, size_sub, wrap. rewrite Zminus_mod_idemp_l.
    apply Z.mod_small. rewrite width_value. lia. }
  apply size_mul_small. rewrite width_value. fold q. lia.
Qed.

Lemma sv_align_bounds a idx :
  0 < a → 0 ≤ idx → idx + a ≤ 2 ^ SIZE_WIDTH →
  SharedVector.align a idx mod a = 0 ∧
  idx ≤ SharedVector.align a idx < idx + a.
Proof.
  intros Ha Hidx Hbig.
  destruct (sv_align_value a idx) as [-> Hq]; [done..|]. split; [|done].
  apply Z.mod_mul. lia.
Qed.

(** X13. [align<U>(idx)] is the first multiple of [alignof(U)] that is not
    below [idx], whenever [idx + alignof(U)] does not exceed the range of
    [size_t]. *)
Theorem sv_align_least (a idx : Z) :
  0 < a → 0 ≤ idx → idx + a ≤ 2 ^ SIZE_WIDTH →
  SharedVector.align a idx mod a = 0 ∧
  idx ≤ SharedVector.align a idx < idx + a ∧
  (∀ k, idx ≤ k → k mod a = 0 → SharedVector.align a idx ≤ k).
Proof.
  intros Ha Hidx Hbig.
  destruct (sv_align_bounds a idx) as [Hm Hb]; [done..|].
  split; [done|]. split; [done|].
  intros k Hk Hmod.
  apply Z.mod_divide in Hm as [p Hp]; [|lia].
  apply Z.mod_divide in Hmod as [q Hq]; [|lia].
  rewrite Hp in *. subst k.
  apply Z.mul_le_mono_nonneg_r; [lia|].
  apply Z.lt_succ_r. apply (Z.mul_lt_mono_pos_r a); [done|].
  rewrite Z.mul_succ_l. lia.
Qed.

(** X14. The layout of the buffer: the rows start at offset 0, the columns
    at the first offset aligned for [int] behind the rows, the values at
    the first offset aligned for [double] behind the columns, and the
    buffer ends with the last value.  So the three arrays do not overlap
    and lie inside the bytes allocated.  This needs the byte counts to stay
    within the range of [size_t]. *)
Theorem sv_layout (sizeof_int alignof_int sizeof_double alignof_double : Z)
    (nrows ncols nvals : Z) :
  0 < alignof_int → 0 < alignof_double →
  0 ≤ sizeof_int → 0 ≤ sizeof_double →
  0 ≤ nrows → 0 ≤ ncols → 0 ≤ nvals →
  sizeof_int * nrows + alignof_int + sizeof_int * ncols + alignof_double
    + sizeof_double * nvals ≤ 2 ^ SIZE_WIDTH →
  ∃ col_begin val_begin,
    SharedVector.construct sizeof_int alignof_int sizeof_double
      alignof_double nrows ncols nvals =
      SharedVector.Layout 0 col_begin val_begin
        (val_begin + sizeof_double * nvals) ∧
    sizeof_int * nrows ≤ col_begin < sizeof_int * nrows + alignof_int ∧
    col_begin mod alignof_int = 0 ∧
    col_begin + sizeof_int * ncols ≤ val_begin
      < col_begin + sizeof_int * ncols + alignof_double ∧
    val_begin mod alignof_double = 0.
Proof.
  rewrite width_value. intros Hai Had Hsi Hsd Hr Hc Hv Hbig.
  unfold SharedVector.construct. cbv zeta.
  assert (0 ≤ sizeof_int * nrows) by (by apply Z.mul_nonneg_nonneg).
  assert (0 ≤ sizeof_int * ncols) by (by apply Z.mul_nonneg_nonneg).
  assert (0 ≤ sizeof_double * nvals) by (by apply Z.mul_nonneg_nonneg).
  rewrite (size_mul_small sizeof_int nrows) by (rewrite width_value; lia).
  rewrite (size_add_small 0) by (rewrite width_value; lia).
  destruct (sv_align_bounds alignof_int (0 + sizeof_int * nrows))
    as [Hm1 Hb1]; [try rewrite width_value; lia..|].
  set (cb := SharedVector.align alignof_int (0 + sizeof_int * nrows)) in *.
  rewrite (size_mul_small sizeof_int ncols) by (rewrite width_value; lia).
  rewrite (size_add_small cb) by (rewrite width_value; lia).
  destruct (sv_align_bounds alignof_double (cb + sizeof_int * ncols))
    as [Hm2 Hb2]; [try rewrite width_value; lia..|].
  set (vb := SharedVector.align alignof_double (cb + sizeof_int * ncols)) in *.
  rewrite (size_mul_small sizeof_double nvals) by (rewrite width_value; lia).
  rewrite (size_add_small vb) by (rewrite width_value; lia).
  exists cb, vb. repeat split; try done; lia.
Qed.

(** X15. The constructor does not notice when the byte count exceeds the
    range of [size_t]: asking for [q] more values, where [q] values fill
    exactly that range, leaves every offset and the size of the buffer as
    they were. *)
Theorem sv_total_wraps (sizeof_int alignof_int sizeof_double alignof_double : Z)
    (nrows ncols nvals q : Z) :
  sizeof_double * q = 2 ^ SIZE_WIDTH →
  0 ≤ nvals → nvals + q < 2 ^ SIZE_WIDTH →
  SharedVector.construct sizeof_int alignof_int sizeof_double alignof_double
    nrows ncols (nvals + q) =
  SharedVector.construct sizeof_int alignof_int sizeof_double alignof_double
    nrows ncols nvals.
Proof.
  intros Hq _ _. unfold SharedVector.construct.
  assert (sizeof_double *% (nvals + q) = sizeof_double *% nvals) as ->; [|done].
  unfold size_mul, wrap. rewrite Z.mul_add_distr_l, Hq.
  rewrite <- (Z.mul_1_l (2 ^ SIZE_WIDTH)) at 1. apply Z_mod_plus_full.
Qed.

End SharedVectorFacts.

Lemma sv_align_least_witness :
  SharedVector.align 8 220 mod 8 = 0 ∧
  220 ≤ SharedVector.align 8 220 < 220 + 8 ∧
  (∀ k, 220 ≤ k → k mod 8 = 0 → SharedVector.align 8 220 ≤ k).
Proof. apply sv_align_least; [lia|lia|by vm_compute]. Defined.

Lemma sv_layout_witness :
  ∃ col_begin val_begin,
    SharedVector.construct 4 4 8 8 50 5 45 =
      SharedVector.Layout 0 col_begin val_begin (val_begin + 8 * 45) ∧
    4 * 50 ≤ col_begin < 4 * 50 + 4 ∧
    col_begin mod 4 = 0 ∧
    col_begin + 4 * 5 ≤ val_begin < col_begin + 4 * 5 + 8 ∧
    val_begin mod 8 = 0.
Proof.
  apply (sv_layout 4 4 8 8 50 5 45); [lia|lia|lia|lia|lia|lia|lia|].
  by vm_compute.
Defined.

Lemma sv_total_wraps_witness :
  SharedVector.construct 4 4 8 8 50 5 (45 + 2 ^ 61) =
  SharedVector.construct 4 4 8 8 50 5 45.
Proof. apply sv_total_wraps; [reflexivity|lia|by vm_compute]. Defined.

(** * The randomized tests *)

(** The tests (heaps/binary_heap/test_binary_heap.cpp and
    heaps/interval_heap/test_interval_heap.cpp) run a heap next to a
    structure of the standard library and compare the two after every
    operation.  The standard structure is modelled by its contents in
    non-decreasing order: a new element goes behind the elements it does
    not precede, as [std::multiset::insert] places it; for
    [std::priority_queue] the order among equivalent elements is not
    specified, and the results below are about comparators without distinct
    equivalent elements. *)

Section OrderedInsert.
Context {T : Type} (less : T → T → bool).

Fixpoint ordered_insert (x : T) (q : list T) : list T :=
  match q with
  | [] => [x]
  | y :: q' => if less x y then x :: q else y :: ordered_insert x q'
  end.

End OrderedInsert.

(** [for (size_t i = 0; i < ops; i++) { body }], with what round [i] draws
    from the random number generator and from the factory as its input. *)
Fixpoint for_each {St A : Type} (body : St → A → result St)
    (draws : list A) (s : St) : result St :=
  match draws with
  | [] => Ok s
  | a :: draws => s' ← body s a; for_each body draws s'
  end.

(** [TestBinaryHeap]: a [std::priority_queue] with [std::greater]. *)
Module TestBinaryHeap.
Section Reference.
Context {T : Type} (less : T → T → bool).
Implicit Type q : list T.

Definition top q : result T :=
  match q with x :: _ => Ok x | [] => OutOfBounds end.

Definition empty q : bool :=
  match q with [] => true | _ => false end.

Definition size q : Z := Z.of_nat (length q).

Definition push q (elem : T) : list T := ordered_insert less elem q.

Definition pop q : result (list T) :=
  match q with _ :: q' => Ok q' | [] => OutOfBounds end.

Definition replace_top q (val : T) : result (list T) :=
  q ← pop q; Ok (push q val).

End Reference.
End TestBinaryHeap.

(** [Tester] and [test_corectness] of test_binary_heap.cpp.  [less] is
    [operator<] of the element type and [equal] its [operator==]. *)
Module BinaryHeapTest.
Section Tester.
Context {T : Type} (less : T → T → bool) (equal : T → T → bool).

Record Tester : Type := mk {
  r : list T;      (* the contents of the TestBinaryHeap *)
  s : list T       (* the container of the BinaryHeap *)
}.

Definition push (t : Tester) (elem : T) : result Tester :=
  let r' := TestBinaryHeap.push less (r t) elem in
  s' ← BinaryHeap.push less (s t) elem;
  Ok (mk r' s').

Definition pop (t : Tester) : result Tester :=
  r' ← TestBinaryHeap.pop (r t);
  s' ← BinaryHeap.pop less (s t);
  Ok (mk r' s').

Definition replace_top (t : Tester) (val : T) : result Tester :=
  r' ← TestBinaryHeap.replace_top less (r t) val;
  s' ← BinaryHeap.replace_top less (s t) val;
  Ok (mk r' s').

Definition check (t : Tester) : result unit :=
  assert (TestBinaryHeap.size (r t) =? BinaryHeap.size (s t));;
  assert (eqb (TestBinaryHeap.empty (r t)) (BinaryHeap.empty (s t)));;
  if negb (TestBinaryHeap.empty (r t)) then
    a ← TestBinaryHeap.top (r t);
    b ← BinaryHeap.top (s t);
    assert (equal a b)
  else Ok tt.

Definition empty (t : Tester) : bool := TestBinaryHeap.empty (r t).

Definition size (t : Tester) : Z := TestBinaryHeap.size (r t).

(** One round of the first loop: [wants_pop] is [uni(rng) > add_prob] and
    [val] what the factory would return. *)
Definition round1 (max_elems : Z) (t : Tester) (draw : bool * T) : result Tester :=
  let '(wants_pop, val) := draw in
  t ← (if wants_pop && negb (empty t) then pop t
       else if size t <? max_elems then push t val
       else Ok t);
  check t;; Ok t.

(** One round of the second loop, with its two draws. *)
Definition round2 (max_elems : Z) (t : Tester) (draw : bool * bool * T)
  : result Tester :=
  let '(wants_pop, wants_replace, val) := draw in
  t ← (if wants_pop && negb (empty t) then pop t
       else if wants_replace && negb (empty t) then replace_top t val
       else if size t <? max_elems then push t val
       else Ok t);
  check t;; Ok t.

(** [while (!t.empty()) { t.pop(); t.check(); }] *)
Definition drain (t : Tester) : result Tester :=
  while (S (length (r t)))
    (λ t, Ok (negb (empty t)))
    (λ t, t ← pop t; check t;; Ok (Next t))
    t.

Definition test_corectness (draws1 : list (bool * T))
    (draws2 : list (bool * bool * T)) (max_elems : Z) : result unit :=
  t ← for_each (round1 max_elems) draws1 (mk [] []);
  t ← drain t;
  t ← for_each (round2 max_elems) draws2 t;
  t ← drain t;
  Ok tt.

End Tester.
End BinaryHeapTest.

Section OrderedInsertFacts.
Context {T : Type} (less : T → T → bool) (Hswo : StrictWeakOrder less).

Lemma ordered_insert_perm x q : ordered_insert less x q ≡ₚ x :: q.
Proof.
  induction q as [|y q IH]; [done|]. simpl. destruct (less x y); [done|].
  rewrite IH. apply Permutation_swap.
Qed.

Lemma ordered_insert_sorted x q :
  non_decreasing less q → non_decreasing less (ordered_insert less x q).
Proof.
  unfold non_decreasing. induction 1 as [|y q Hq IH Hy].
  - simpl. by repeat constructor.
  - simpl. destruct (less x y) eqn:E.
    + constructor; [by constructor|]. constructor.
      * by apply (less_asym less Hswo).
      * eapply Forall_impl; [exact Hy|]. simpl. intros b Hb.
        destruct (less b x) eqn:Ebx; [|done].
        by rewrite (swo_trans _ Hswo _ _ _ Ebx E) in Hb.
    + constructor; [done|]. rewrite ordered_insert_perm. by constructor.
Qed.

Lemma sorted_head_is_min a q :
  non_decreasing less (a :: q) → is_min_of less a (a :: q).
Proof.
  intros Hs. apply StronglySorted_inv in Hs as [_ Ha]. split; [left|].
  intros y [->|Hy]%elem_of_cons; [apply (swo_irrefl _ Hswo)|].
  by apply (proj1 (Forall_forall _ _) Ha).
Qed.

Lemma min_unique (ms : list T) a b :
  (∀ a b, equiv less a b → a = b) →
  is_min_of less a ms → is_min_of less b ms → a = b.
Proof.
  intros Hd [Ha Hma] [Hb Hmb]. apply Hd. split; [by apply Hmb|by apply Hma].
Qed.

Lemma max_unique (ms : list T) a b :
  (∀ a b, equiv less a b → a = b) →
  is_max_of less a ms → is_max_of less b ms → a = b.
Proof.
  intros Hd [Ha Hma] [Hb Hmb]. apply Hd. split; [by apply Hma|by apply Hmb].
Qed.

Lemma for_each_rule {St A : Type} (Inv : Z → St → Prop) (bound : Z)
    (body : St → A → result St) :
  (∀ k s a, Inv k s → k < bound → ∃ s', body s a = Ok s' ∧ Inv (k + 1) s') →
  ∀ draws k s, Inv k s → k + Z.of_nat (length draws) ≤ bound →
    ∃ s', for_each body draws s = Ok s' ∧
          Inv (k + Z.of_nat (length draws)) s'.
Proof.
  intros Hbody draws. induction draws as [|a draws IH]; intros k s HI Hk.
  - exists s. split; [done|]. simpl. by rewrite Z.add_0_r.
  - simpl length in *. destruct (Hbody k s a HI) as (s1 & E & HI1); [lia|].
    destruct (IH (k + 1) s1 HI1) as (s' & E' & HI'); [lia|].
    exists s'. split; [simpl; by rewrite E|].
    by replace (k + Z.of_nat (S (length draws)))
      with (k + 1 + Z.of_nat (length draws)) by lia.
Qed.

End OrderedInsertFacts.

Section BinaryHeapTestFacts.
Context {T : Type} (less : T → T → bool) (Hswo : StrictWeakOrder less).
Context (equal : T → T → bool).
Hypothesis Hequal : ∀ a b, equal a b = true ↔ a = b.
Hypothesis Hdist : distinguishing less.

(** The reference and the heap hold the same elements, the reference in
    order and the heap in heap order, at most [k] of them. *)
Definition bh_agree (k : Z) (t : BinaryHeapTest.Tester) : Prop :=
  non_decreasing less (BinaryHeapTest.r t) ∧
  bh_from less 0 (BinaryHeapTest.s t) ∧
  BinaryHeapTest.r t ≡ₚ BinaryHeapTest.s t ∧
  size (BinaryHeapTest.s t) ≤ k.

Lemma bh_agree_top k a q d :
  bh_agree k (BinaryHeapTest.mk (a :: q) d) → nthZ d 0 = Some a.
Proof.
  intros (Hs & Hinv & Hp & _). simpl in *.
  destruct (nthZ_is_Some d 0) as [b Hb].
  { unfold size. rewrite <- (Permutation_length Hp). simpl. lia. }
  rewrite Hb. f_equal. apply (min_unique less (a :: q)); [done| |].
  - symmetry in Hp. by apply (bh_top_is_min less d).
  - by apply sorted_head_is_min.
Qed.

Lemma bh_check_ok k t : bh_agree k t → BinaryHeapTest.check equal t = Ok tt.
Proof.
  destruct t as [q d]. intros Ha. pose proof Ha as (Hs & Hinv & Hp & _).
  simpl in *. unfold BinaryHeapTest.check. simpl.
  unfold TestBinaryHeap.size, BinaryHeap.size.
  rewrite (Permutation_length Hp), Z.eqb_refl. simpl.
  destruct q as [|a q].
  - apply Permutation_nil in Hp as ->. done.
  - pose proof (bh_agree_top _ _ _ _ Ha) as Htop.
    rewrite (bh_top_ok _ _ Htop).
    destruct d as [|b d]; [done|]. simpl.
    by rewrite (proj2 (Hequal a a)).
Qed.

Lemma bh_agree_mono k k' t : bh_agree k t → k ≤ k' → bh_agree k' t.
Proof. intros (? & ? & ? & ?) ?. repeat split; try done. lia. Qed.

Lemma bh_tester_push k t x :
  bh_agree k t → k < MAX_SIZE →
  ∃ t', BinaryHeapTest.push less t x = Ok t' ∧ bh_agree (k + 1) t'.
Proof.
  destruct t as [q d]. intros (Hs & Hinv & Hp & Hk) Hlt. simpl in *.
  destruct (bh_push_spec less Hswo d x) as (d' & E & Hinv' & Hp' & Hsz);
    [lia|done|].
  unfold BinaryHeapTest.push. simpl. rewrite E. simpl.
  eexists. split; [done|]. repeat split; simpl.
  - by apply ordered_insert_sorted.
  - done.
  - unfold TestBinaryHeap.push. by rewrite ordered_insert_perm, Hp', Hp.
  - lia.
Qed.

Lemma bh_tester_pop k t :
  bh_agree k t → k ≤ MAX_SIZE → BinaryHeapTest.empty t = false →
  ∃ t', BinaryHeapTest.pop less t = Ok t' ∧ bh_agree k t' ∧
        (length (BinaryHeapTest.r t') < length (BinaryHeapTest.r t))%nat.
Proof.
  destruct t as [q d]. intros Ha Hle Hne.
  destruct q as [|a q]; [done|].
  pose proof (bh_agree_top _ _ _ _ Ha) as Htop.
  destruct Ha as (Hs & Hinv & Hp & Hk). simpl in *.
  destruct (bh_pop_spec less Hswo d a) as (d' & E & Hinv' & Hp' & Hsz);
    [lia|done|done|].
  unfold BinaryHeapTest.pop. simpl. rewrite E. simpl.
  eexists. split; [done|]. split; [|simpl; lia]. repeat split; simpl.
  - by apply StronglySorted_inv in Hs as [? _].
  - done.
  - rewrite <- Hp' in Hp. by apply Permutation_cons_inv in Hp.
  - lia.
Qed.

Lemma bh_tester_replace_top k t val :
  bh_agree k t → k ≤ MAX_SIZE → BinaryHeapTest.empty t = false →
  ∃ t', BinaryHeapTest.replace_top less t val = Ok t' ∧ bh_agree k t'.
Proof.
  destruct t as [q d]. intros Ha Hle Hne.
  destruct q as [|a q]; [done|].
  pose proof (bh_agree_top _ _ _ _ Ha) as Htop.
  destruct Ha as (Hs & Hinv & Hp & Hk). simpl in *.
  destruct (bh_replace_top_spec less Hswo d a val)
    as (d' & E & Hinv' & Hp' & Hsz); [lia|done|done|].
  unfold BinaryHeapTest.replace_top. simpl. rewrite E. simpl.
  eexists. split; [done|]. repeat split; simpl.
  - apply ordered_insert_sorted; [done|].
    by apply StronglySorted_inv in Hs as [? _].
  - done.
  - unfold TestBinaryHeap.push. rewrite ordered_insert_perm.
    apply (Permutation_cons_inv (a := a)).
    rewrite Hp', <- Hp. apply Permutation_swap.
  - lia.
Qed.

Lemma bh_round1_ok max_elems k t draw :
  bh_agree k t → k < MAX_SIZE →
  ∃ t', BinaryHeapTest.round1 less equal max_elems t draw = Ok t' ∧
        bh_agree (k + 1) t'.
Proof.
  intros Ha Hk. destruct draw as [wants_pop val].
  unfold BinaryHeapTest.round1.
  assert (∃ t', (if wants_pop && negb (BinaryHeapTest.empty t)
                 then BinaryHeapTest.pop less t
                 else if BinaryHeapTest.size t <? max_elems
                      then BinaryHeapTest.push less t val
                      else Ok t) = Ok t' ∧ bh_agree (k + 1) t')
    as (t' & -> & Ha').
  { destruct (BinaryHeapTest.empty t) eqn:Ee, wants_pop; simpl.
    all: try (destruct (BinaryHeapTest.size t <? max_elems);
              [by apply bh_tester_push
              |exists t; split; [done|apply (bh_agree_mono k); [done|lia]]]).
    destruct (bh_tester_pop k t) as (t' & E & Ha' & _); [done|lia|done|].
    exists t'. split; [done|]. apply (bh_agree_mono k); [done|lia]. }
  exists t'. simpl. by rewrite (bh_check_ok _ _ Ha').
Qed.

Lemma bh_round2_ok max_elems k t draw :
  bh_agree k t → k < MAX_SIZE →
  ∃ t', BinaryHeapTest.round2 less equal max_elems t draw = Ok t' ∧
        bh_agree (k + 1) t'.
Proof.
  intros Ha Hk. destruct draw as [[wants_pop wants_replace] val].
  unfold BinaryHeapTest.round2.
  assert (∃ t', (if wants_pop && negb (BinaryHeapTest.empty t)
                 then BinaryHeapTest.pop less t
                 else if wants_replace && negb (BinaryHeapTest.empty t)
                      then BinaryHeapTest.replace_top less t val
                      else if BinaryHeapTest.size t <? max_elems
                           then BinaryHeapTest.push less t val
                           else Ok t) = Ok t' ∧ bh_agree (k + 1) t')
    as (t' & -> & Ha').
  { assert (∃ t', (if BinaryHeapTest.size t <? max_elems
                   then BinaryHeapTest.push less t val
                   else Ok t) = Ok t' ∧ bh_agree (k + 1) t') as Hpush.
    { destruct (BinaryHeapTest.size t <? max_elems);
        [by apply bh_tester_push|].
      exists t. split; [done|]. apply (bh_agree_mono k); [done|lia]. }
    destruct (BinaryHeapTest.empty t) eqn:Ee.
    { by destruct wants_pop, wants_replace. }
    destruct wants_pop; simpl.
    { destruct (bh_tester_pop k t) as (t' & E & Ha' & _); [done|lia|done|].
      exists t'. split; [done|]. apply (bh_agree_mono k); [done|lia]. }
    destruct wants_replace; simpl; [|done].
    destruct (bh_tester_replace_top k t val) as (t' & E & Ha');
      [done|lia|done|].
    exists t'. split; [done|]. apply (bh_agree_mono k); [done|lia]. }
  exists t'. simpl. by rewrite (bh_check_ok _ _ Ha').
Qed.

Lemma bh_drain_ok k t :
  bh_agree k t → k ≤ MAX_SIZE →
  ∃ t', BinaryHeapTest.drain less equal t = Ok t' ∧ bh_agree 0 t'.
Proof.
  intros Ha Hk. unfold BinaryHeapTest.drain.
  apply (while_rule (bh_agree k) (bh_agree 0)
           (λ t, Z.of_nat (length (BinaryHeapTest.r t)))); [|done|lia].
  intros t1 Ha1. split; [lia|]. eexists. split; [done|].
  destruct (BinaryHeapTest.empty t1) eqn:Ee; simpl.
  - destruct t1 as [q d]. destruct q; [|done].
    destruct Ha1 as (? & ? & Hp & ?). simpl in *.
    apply Permutation_nil in Hp as ->. by repeat split.
  - left. destruct (bh_tester_pop k t1) as (t' & E & Ha' & Hlt); [done..|].
    exists t'. rewrite E. simpl. rewrite (bh_check_ok _ _ Ha'). simpl.
    split; [done|]. split; [done|lia].
Qed.

(** X16. The randomized test of the BinaryHeap cannot fail: whatever the
    random draws and the values of the factory, every [check] finds the
    heap and the reference of the same size, both empty or both not, and
    with the same top.  The comparator is a strict weak ordering without
    distinct equivalent elements and [operator==] is equality. *)
Theorem bh_test_passes (draws1 : list (bool * T))
    (draws2 : list (bool * bool * T)) (max_elems : Z) :
  Z.of_nat (length draws1) ≤ MAX_SIZE →
  Z.of_nat (length draws2) ≤ MAX_SIZE →
  BinaryHeapTest.test_corectness less equal draws1 draws2 max_elems = Ok tt.
Proof.
  intros H1 H2. unfold BinaryHeapTest.test_corectness.
  assert (bh_agree 0 (BinaryHeapTest.mk [] [])) as Ha0.
  { repeat split; simpl; [constructor|apply bh_from_nil|done|done]. }
  destruct (for_each_rule bh_agree MAX_SIZE
              (BinaryHeapTest.round1 less equal max_elems)
              (bh_round1_ok max_elems) draws1 0 _ Ha0)
    as (t1 & -> & Ha1); [lia|]. simpl.
  destruct (bh_drain_ok _ t1 Ha1) as (t2 & -> & Ha2); [lia|]. simpl.
  destruct (for_each_rule bh_agree MAX_SIZE
              (BinaryHeapTest.round2 less equal max_elems)
              (bh_round2_ok max_elems) draws2 0 _ Ha2)
    as (t3 & -> & Ha3); [lia|]. simpl.
  by destruct (bh_drain_ok _ t3 Ha3) as (t4 & -> & Ha4); [lia|].
Qed.

End BinaryHeapTestFacts.

Lemma bh_test_passes_witness :
  BinaryHeapTest.test_corectness Z.ltb Z.eqb
    [(false, 5); (false, 3); (true, 0); (false, 7)]
    [(false, false, 4); (false, true, 9); (true, false, 0)] 20 = Ok tt.
Proof.
  apply (bh_test_passes Z.ltb ltb_strict_weak_order Z.eqb Z.eqb_eq
           ltb_distinguishing); by vm_compute.
Defined.

(** [TestIntervalHeap]: a [std::multiset]. *)
Module TestIntervalHeap.
Section Reference.
Context {T : Type} (less : T → T → bool).
Implicit Type q : list T.

Definition min q : result T :=
  match q with x :: _ => Ok x | [] => OutOfBounds end.

Definition max q : result T :=
  match last q with Some x => Ok x | None => OutOfBounds end.

Definition empty q : bool :=
  match q with [] => true | _ => false end.

Definition size q : Z := Z.of_nat (length q).

Definition push q (elem : T) : list T := ordered_insert less elem q.

Definition pop_min q : result (list T) :=
  match q with _ :: q' => Ok q' | [] => OutOfBounds end.

Definition pop_max q : result (list T) :=
  match q with _ :: _ => Ok (removelast q) | [] => OutOfBounds end.

Definition replace_min q (val : T) : result (list T) :=
  q ← pop_min q; Ok (push q val).

Definition replace_max q (val : T) : result (list T) :=
  q ← pop_max q; Ok (push q val).

End Reference.
End TestIntervalHeap.

(** [Tester] and [test_corectness] of test_interval_heap.cpp. *)
Module IntervalHeapTest.
Section Tester.
Context {T : Type} (less : T → T → bool) (equal : T → T → bool).

Record Tester : Type := mk {
  r : list T;      (* the contents of the TestIntervalHeap *)
  s : list T       (* the container of the IntervalHeap *)
}.

Definition push (t : Tester) (elem : T) : result Tester :=
  let r' := TestIntervalHeap.push less (r t) elem in
  s' ← IntervalHeap.push less (s t) elem;
  Ok (mk r' s').

Definition pop_min (t : Tester) : result Tester :=
  r' ← TestIntervalHeap.pop_min (r t);
  s' ← IntervalHeap.pop_min less (s t);
  Ok (mk r' s').

Definition pop_max (t : Tester) : result Tester :=
  r' ← TestIntervalHeap.pop_max (r t);
  s' ← IntervalHeap.pop_max less (s t);
  Ok (mk r' s').

Definition replace_min (t : Tester) (val : T) : result Tester :=
  r' ← TestIntervalHeap.replace_min less (r t) val;
  s' ← IntervalHeap.replace_min less (s t) val;
  Ok (mk r' s').

Definition replace_max (t : Tester) (val : T) : result Tester :=
  r' ← TestIntervalHeap.replace_max less (r t) val;
  s' ← IntervalHeap.replace_max less (s t) val;
  Ok (mk r' s').

Definition check (t : Tester) : result unit :=
  assert (TestIntervalHeap.size (r t) =? IntervalHeap.size (s t));;
  assert (eqb (TestIntervalHeap.empty (r t)) (IntervalHeap.empty (s t)));;
  if negb (TestIntervalHeap.empty (r t)) then
    a ← TestIntervalHeap.min (r t);
    b ← IntervalHeap.min (s t);
    assert (equal a b);;
    a ← TestIntervalHeap.max (r t);
    b ← IntervalHeap.max (s t);
    assert (equal a b)
  else Ok tt.

Definition empty (t : Tester) : bool := TestIntervalHeap.empty (r t).

Definition size (t : Tester) : Z := TestIntervalHeap.size (r t).

(** One round of the first loop: [above_pop_min] is [num > pop_min],
    [above_add_prob] is [num > add_prob], and [val] what the factory would
    return. *)
Definition round1 (max_elems : Z) (t : Tester) (draw : bool * bool * T)
  : result Tester :=
  let '(above_pop_min, above_add_prob, val) := draw in
  t ← (if above_pop_min && negb (empty t) then pop_min t
       else if above_add_prob && negb (empty t) then pop_max t
       else if size t <? max_elems then push t val
       else Ok t);
  check t;; Ok t.

(** One round of the second loop: [above_pop], [above_rep_min] and
    [above_rep_max] compare [num] with the three thresholds, [heads] is
    [uni(rng) > 0.5]. *)
Definition round2 (max_elems : Z) (t : Tester)
    (draw : bool * bool * bool * bool * T) : result Tester :=
  let '(above_pop, heads, above_rep_min, above_rep_max, val) := draw in
  t ← (if above_pop && negb (empty t) then
         if heads : bool then pop_min t else pop_max t
       else if above_rep_min && negb (empty t) then replace_min t val
       else if above_rep_max && negb (empty t) then replace_max t val
       else if size t <? max_elems then push t val
       else Ok t);
  check t;; Ok t.

(** [while (!t.empty()) { t.pop_max(); t.check(); }] *)
Definition drain_max (t : Tester) : result Tester :=
  while (S (length (r t)))
    (λ t, Ok (negb (empty t)))
    (λ t, t ← pop_max t; check t;; Ok (Next t))
    t.

(** [while (!t.empty()) { t.pop_min(); t.check(); }] *)
Definition drain_min (t : Tester) : result Tester :=
  while (S (length (r t)))
    (λ t, Ok (negb (empty t)))
    (λ t, t ← pop_min t; check t;; Ok (Next t))
    t.

Definition test_corectness (draws1 : list (bool * bool * T))
    (draws2 : list (bool * bool * bool * bool * T)) (max_elems : Z)
  : result unit :=
  t ← for_each (round1 max_elems) draws1 (mk [] []);
  t ← drain_max t;
  t ← for_each (round2 max_elems) draws2 t;
  t ← drain_min t;
  Ok tt.

End Tester.
End IntervalHeapTest.

Section IntervalHeapTestFacts.
Context {T : Type} (less : T → T → bool) (Hswo : StrictWeakOrder less).
Context (equal : T → T → bool).
Hypothesis Hequal : ∀ a b, equal a b = true ↔ a = b.
Hypothesis Hdist : distinguishing less.

Lemma sorted_last_is_max q M :
  non_decreasing less (q ++ [M]) → is_max_of less M (q ++ [M]).
Proof.
  intros Hs. apply StronglySorted_app in Hs as (Hs & _ & _). split.
  - apply elem_of_app. right. left.
  - intros y [Hy|Hy%list_elem_of_singleton]%elem_of_app.
    + apply (Hs y M); [done|left].
    + subst y. apply (swo_irrefl _ Hswo).
Qed.

(** The reference and the heap hold the same elements, the reference in
    order and the heap as an interval heap, at most [k] of them. *)
Definition ih_agree (k : Z) (t : IntervalHeapTest.Tester) : Prop :=
  non_decreasing less (IntervalHeapTest.r t) ∧
  ih_heap less (IntervalHeapTest.s t) ∧
  IntervalHeapTest.r t ≡ₚ IntervalHeapTest.s t ∧
  size (IntervalHeapTest.s t) ≤ k.

Lemma ih_agree_min k a q d :
  ih_agree k (IntervalHeapTest.mk (a :: q) d) → nthZ d 0 = Some a.
Proof.
  intros (Hs & Hinv & Hp & _). simpl in *.
  destruct (nthZ_is_Some d 0) as [b Hb].
  { unfold size. rewrite <- (Permutation_length Hp). simpl. lia. }
  rewrite Hb. f_equal. apply (min_unique less (a :: q)); [done| |].
  - symmetry in Hp. by apply (ih_min_is_min less d).
  - by apply sorted_head_is_min.
Qed.

Lemma ih_agree_max k q M d :
  ih_agree k (IntervalHeapTest.mk (q ++ [M]) d) → k ≤ MAX_SIZE →
  IntervalHeap.max d = Ok M.
Proof.
  intros (Hs & Hinv & Hp & Hk) Hle. simpl in *.
  destruct (ih_pop_max_spec less Hswo d) as (_ & M' & _ & E & _);
    [lia| |done|].
  { unfold size. rewrite <- (Permutation_length Hp), length_app. simpl. lia. }
  rewrite E. f_equal. apply (max_unique less (q ++ [M])); [done| |].
  - symmetry in Hp. by apply (ih_max_is_max less d).
  - by apply sorted_last_is_max.
Qed.

Lemma nonempty_snoc (q : list T) :
  q ≠ [] → ∃ q' M, q = q' ++ [M].
Proof.
  intros Hne. destruct (last q) as [M|] eqn:E.
  - apply last_Some in E as [q' ->]. eauto.
  - by apply last_None in E.
Qed.

Lemma reference_max (q : list T) M : TestIntervalHeap.max (q ++ [M]) = Ok M.
Proof. unfold TestIntervalHeap.max. by rewrite last_snoc. Qed.

Lemma reference_pop_max (q : list T) M : TestIntervalHeap.pop_max (q ++ [M]) = Ok q.
Proof.
  unfold TestIntervalHeap.pop_max. rewrite removelast_last. by destruct q.
Qed.

Lemma ih_check_ok k t :
  ih_agree k t → k ≤ MAX_SIZE → IntervalHeapTest.check equal t = Ok tt.
Proof.
  destruct t as [q d]. intros Ha Hk. pose proof Ha as (Hs & Hinv & Hp & _).
  unfold IntervalHeapTest.check.
  cbn [IntervalHeapTest.r IntervalHeapTest.s] in *.
  unfold TestIntervalHeap.size, IntervalHeap.size.
  rewrite (Permutation_length Hp), Z.eqb_refl.
  destruct q as [|a q].
  - apply Permutation_nil in Hp as ->. done.
  - pose proof (ih_agree_min _ _ _ _ Ha) as Hmin.
    rewrite (ih_min_ok _ _ Hmin).
    destruct (nonempty_snoc (a :: q)) as (q' & M & Eq); [done|].
    rewrite Eq in Ha. rewrite (ih_agree_max _ _ _ _ Ha Hk).
    assert (TestIntervalHeap.max (a :: q) = Ok M) as ->
      by (rewrite Eq; apply reference_max).
    destruct d as [|b d]; [done|]. simpl.
    by rewrite !(proj2 (Hequal _ _) eq_refl).
Qed.

Lemma ih_agree_mono k k' t : ih_agree k t → k ≤ k' → ih_agree k' t.
Proof. intros (? & ? & ? & ?) ?. split; [|split; [|split]]; try done. lia. Qed.

Lemma ih_tester_push k t x :
  ih_agree k t → k < MAX_SIZE →
  ∃ t', IntervalHeapTest.push less t x = Ok t' ∧ ih_agree (k + 1) t'.
Proof.
  destruct t as [q d]. intros (Hs & Hinv & Hp & Hk) Hlt. simpl in *.
  destruct (ih_push_spec less Hswo d x) as (d' & E & Hinv' & Hp' & Hsz);
    [lia|done|].
  unfold IntervalHeapTest.push. simpl. rewrite E. simpl.
  eexists. split; [done|]. split; [|split; [|split]]; simpl.
  - by apply ordered_insert_sorted.
  - done.
  - unfold TestIntervalHeap.push. by rewrite ordered_insert_perm, Hp', Hp.
  - lia.
Qed.

Lemma ih_tester_pop_min k t :
  ih_agree k t → k ≤ MAX_SIZE → IntervalHeapTest.empty t = false →
  ∃ t', IntervalHeapTest.pop_min less t = Ok t' ∧ ih_agree k t' ∧
        (length (IntervalHeapTest.r t') < length (IntervalHeapTest.r t))%nat.
Proof.
  destruct t as [q d]. intros Ha Hle Hne.
  destruct q as [|a q]; [done|].
  pose proof (ih_agree_min _ _ _ _ Ha) as Hmin.
  destruct Ha as (Hs & Hinv & Hp & Hk). simpl in *.
  destruct (ih_pop_min_spec less Hswo d a) as (d' & E & Hinv' & Hp' & Hsz);
    [lia|done|done|].
  unfold IntervalHeapTest.pop_min. simpl. rewrite E. simpl.
  eexists. split; [done|]. split; [|simpl; lia].
  split; [|split; [|split]]; simpl.
  - by apply StronglySorted_inv in Hs as [? _].
  - done.
  - rewrite <- Hp' in Hp. by apply Permutation_cons_inv in Hp.
  - lia.
Qed.

Lemma ih_tester_pop_max k t :
  ih_agree k t → k ≤ MAX_SIZE → IntervalHeapTest.empty t = false →
  ∃ t', IntervalHeapTest.pop_max less t = Ok t' ∧ ih_agree k t' ∧
        (length (IntervalHeapTest.r t') < length (IntervalHeapTest.r t))%nat.
Proof.
  destruct t as [q d]. intros Ha Hle Hne.
  destruct (nonempty_snoc q) as (q' & M & ->); [by destruct q|].
  pose proof (ih_agree_max _ _ _ _ Ha Hle) as Hmax.
  destruct Ha as (Hs & Hinv & Hp & Hk). simpl in *.
  destruct (ih_pop_max_spec less Hswo d)
    as (d' & M' & E & EM & Hinv' & Hp' & Hsz); [lia| |done|].
  { unfold size. rewrite <- (Permutation_length Hp), length_app. simpl. lia. }
  assert (M' = M) as -> by congruence.
  unfold IntervalHeapTest.pop_max. simpl. rewrite reference_pop_max, E. simpl.
  eexists. split; [done|]. split; [|rewrite length_app; simpl; lia].
  split; [|split; [|split]]; simpl.
  - by apply StronglySorted_app in Hs as (_ & ? & _).
  - done.
  - apply (Permutation_cons_inv (a := M)).
    by rewrite Hp', <- Hp, Permutation_app_comm.
  - lia.
Qed.

Lemma ih_tester_replace_min k t val :
  ih_agree k t → k ≤ MAX_SIZE → IntervalHeapTest.empty t = false →
  ∃ t', IntervalHeapTest.replace_min less t val = Ok t' ∧ ih_agree k t'.
Proof.
  destruct t as [q d]. intros Ha Hle Hne.
  destruct q as [|a q]; [done|].
  pose proof (ih_agree_min _ _ _ _ Ha) as Hmin.
  destruct Ha as (Hs & Hinv & Hp & Hk). simpl in *.
  destruct (ih_replace_min_spec less Hswo d a val)
    as (d' & E & Hinv' & Hp' & Hsz); [lia|done|done|].
  unfold IntervalHeapTest.replace_min. simpl. rewrite E. simpl.
  eexists. split; [done|]. split; [|split; [|split]]; simpl.
  - apply ordered_insert_sorted; [done|].
    by apply StronglySorted_inv in Hs as [? _].
  - done.
  - unfold TestIntervalHeap.push. rewrite ordered_insert_perm.
    apply (Permutation_cons_inv (a := a)).
    rewrite Hp', <- Hp. apply Permutation_swap.
  - lia.
Qed.

Lemma ih_tester_replace_max k t val :
  ih_agree k t → k ≤ MAX_SIZE → IntervalHeapTest.empty t = false →
  ∃ t', IntervalHeapTest.replace_max less t val = Ok t' ∧ ih_agree k t'.
Proof.
  destruct t as [q d]. intros Ha Hle Hne.
  destruct (nonempty_snoc q) as (q' & M & ->); [by destruct q|].
  pose proof (ih_agree_max _ _ _ _ Ha Hle) as Hmax.
  destruct Ha as (Hs & Hinv & Hp & Hk). simpl in *.
  destruct (ih_replace_max_spec less Hswo d val)
    as (d' & M' & E & EM & Hinv' & Hp' & Hsz); [lia| |done|].
  { unfold size. rewrite <- (Permutation_length Hp), length_app. simpl. lia. }
  assert (M' = M) as -> by congruence.
  unfold IntervalHeapTest.replace_max, TestIntervalHeap.replace_max. simpl.
  rewrite reference_pop_max, E. simpl.
  eexists. split; [done|]. split; [|split; [|split]]; simpl.
  - apply ordered_insert_sorted; [done|].
    by apply StronglySorted_app in Hs as (_ & ? & _).
  - done.
  - unfold TestIntervalHeap.push. rewrite ordered_insert_perm.
    apply (Permutation_cons_inv (a := M)).
    rewrite Hp', <- Hp, (Permutation_app_comm q'). simpl.
    apply Permutation_swap.
  - lia.
Qed.

Lemma ih_tester_push_or_not max_elems k t val :
  ih_agree k t → k < MAX_SIZE →
  ∃ t', (if IntervalHeapTest.size t <? max_elems
         then IntervalHeapTest.push less t val
         else Ok t) = Ok t' ∧ ih_agree (k + 1) t'.
Proof.
  intros Ha Hk.
  destruct (IntervalHeapTest.size t <? max_elems);
    [by apply ih_tester_push|].
  exists t. split; [done|]. apply (ih_agree_mono k); [done|lia].
Qed.

Lemma ih_round1_ok max_elems k t draw :
  ih_agree k t → k < MAX_SIZE →
  ∃ t', IntervalHeapTest.round1 less equal max_elems t draw = Ok t' ∧
        ih_agree (k + 1) t'.
Proof.
  intros Ha Hk. destruct draw as [[above_pop_min above_add_prob] val].
  unfold IntervalHeapTest.round1.
  pose proof (ih_tester_push_or_not max_elems k t val Ha Hk) as Hpush.
  assert (∃ t', (if above_pop_min && negb (IntervalHeapTest.empty t)
                 then IntervalHeapTest.pop_min less t
                 else if above_add_prob && negb (IntervalHeapTest.empty t)
                      then IntervalHeapTest.pop_max less t
                      else if IntervalHeapTest.size t <? max_elems
                           then IntervalHeapTest.push less t val
                           else Ok t) = Ok t' ∧ ih_agree (k + 1) t')
    as (t' & -> & Ha').
  { destruct (IntervalHeapTest.empty t) eqn:Ee.
    { by destruct above_pop_min, above_add_prob. }
    destruct above_pop_min; simpl.
    { destruct (ih_tester_pop_min k t) as (t' & E & Ha' & _);
        [done|lia|done|].
      exists t'. split; [done|]. apply (ih_agree_mono k); [done|lia]. }
    destruct above_add_prob; simpl; [|done].
    destruct (ih_tester_pop_max k t) as (t' & E & Ha' & _); [done|lia|done|].
    exists t'. split; [done|]. apply (ih_agree_mono k); [done|lia]. }
  exists t'. simpl. rewrite (ih_check_ok _ _ Ha') by lia. done.
Qed.

Lemma ih_round2_ok max_elems k t draw :
  ih_agree k t → k < MAX_SIZE →
  ∃ t', IntervalHeapTest.round2 less equal max_elems t draw = Ok t' ∧
        ih_agree (k + 1) t'.
Proof.
  intros Ha Hk.
  destruct draw as [[[[above_pop heads] above_rep_min] above_rep_max] val].
  unfold IntervalHeapTest.round2.
  pose proof (ih_tester_push_or_not max_elems k t val Ha Hk) as Hpush.
  assert (∃ t', (if above_pop && negb (IntervalHeapTest.empty t)
                 then if heads
                      then IntervalHeapTest.pop_min less t
                      else IntervalHeapTest.pop_max less t
                 else if above_rep_min && negb (IntervalHeapTest.empty t)
                      then IntervalHeapTest.replace_min less t val
                      else if above_rep_max && negb (IntervalHeapTest.empty t)
                           then IntervalHeapTest.replace_max less t val
                           else if IntervalHeapTest.size t <? max_elems
                                then IntervalHeapTest.push less t val
                                else Ok t) = Ok t' ∧ ih_agree (k + 1) t')
    as (t' & -> & Ha').
  { destruct (IntervalHeapTest.empty t) eqn:Ee.
    { by destruct above_pop, above_rep_min, above_rep_max. }
    destruct above_pop; simpl.
    { destruct heads.
      - destruct (ih_tester_pop_min k t) as (t' & E & Ha' & _);
          [done|lia|done|].
        exists t'. split; [done|]. apply (ih_agree_mono k); [done|lia].
      - destruct (ih_tester_pop_max k t) as (t' & E & Ha' & _);
          [done|lia|done|].
        exists t'. split; [done|]. apply (ih_agree_mono k); [done|lia]. }
    destruct above_rep_min; simpl.
    { destruct (ih_tester_replace_min k t val) as (t' & E & Ha');
        [done|lia|done|].
      exists t'. split; [done|]. apply (ih_agree_mono k); [done|lia]. }
    destruct above_rep_max; simpl; [|done].
    destruct (ih_tester_replace_max k t val) as (t' & E & Ha');
      [done|lia|done|].
    exists t'. split; [done|]. apply (ih_agree_mono k); [done|lia]. }
  exists t'. simpl. rewrite (ih_check_ok _ _ Ha') by lia. done.
Qed.

Lemma ih_agree_empty k t :
  ih_agree k t → IntervalHeapTest.empty t = true → ih_agree 0 t.
Proof.
  destruct t as [q d]. destruct q; [|done].
  intros (? & ? & Hp & ?) _. simpl in *.
  apply Permutation_nil in Hp as ->. by split; [|split; [|split]].
Qed.

Lemma ih_drain_max_ok k t :
  ih_agree k t → k ≤ MAX_SIZE →
  ∃ t', IntervalHeapTest.drain_max less equal t = Ok t' ∧ ih_agree 0 t'.
Proof.
  intros Ha Hk. unfold IntervalHeapTest.drain_max.
  apply (while_rule (ih_agree k) (ih_agree 0)
           (λ t, Z.of_nat (length (IntervalHeapTest.r t)))); [|done|lia].
  intros t1 Ha1. split; [lia|]. eexists. split; [done|].
  destruct (IntervalHeapTest.empty t1) eqn:Ee; simpl.
  - by apply (ih_agree_empty k).
  - left. destruct (ih_tester_pop_max k t1) as (t' & E & Ha' & Hlt); [done..|].
    exists t'. rewrite E. simpl. rewrite (ih_check_ok _ _ Ha') by lia. simpl.
    split; [done|]. split; [done|lia].
Qed.

Lemma ih_drain_min_ok k t :
  ih_agree k t → k ≤ MAX_SIZE →
  ∃ t', IntervalHeapTest.drain_min less equal t = Ok t' ∧ ih_agree 0 t'.
Proof.
  intros Ha Hk. unfold IntervalHeapTest.drain_min.
  apply (while_rule (ih_agree k) (ih_agree 0)
           (λ t, Z.of_nat (length (IntervalHeapTest.r t)))); [|done|lia].
  intros t1 Ha1. split; [lia|]. eexists. split; [done|].
  destruct (IntervalHeapTest.empty t1) eqn:Ee; simpl.
  - by apply (ih_agree_empty k).
  - left. destruct (ih_tester_pop_min k t1) as (t' & E & Ha' & Hlt); [done..|].
    exists t'. rewrite E. simpl. rewrite (ih_check_ok _ _ Ha') by lia. simpl.
    split; [done|]. split; [done|lia].
Qed.

(** X17. The randomized test of the IntervalHeap cannot fail: whatever the
    random draws and the values of the factory, every [check] finds the
    heap and the reference of the same size, both empty or both not, and
    with the same minimum and the same maximum.  The comparator is a strict
    weak ordering without distinct equivalent elements and [operator==] is
    equality. *)
Theorem ih_test_passes (draws1 : list (bool * bool * T))
    (draws2 : list (bool * bool * bool * bool * T)) (max_elems : Z) :
  Z.of_nat (length draws1) ≤ MAX_SIZE →
  Z.of_nat (length draws2) ≤ MAX_SIZE →
  IntervalHeapTest.test_corectness less equal draws1 draws2 max_elems = Ok tt.
Proof.
  intros H1 H2. unfold IntervalHeapTest.test_corectness.
  assert (ih_agree 0 (IntervalHeapTest.mk [] [])) as Ha0.
  { split; [|split; [|split]]; simpl; [constructor|apply ih_heap_nil|done|done]. }
  destruct (for_each_rule ih_agree MAX_SIZE
              (IntervalHeapTest.round1 less equal max_elems)
              (ih_round1_ok max_elems) draws1 0 _ Ha0)
    as (t1 & -> & Ha1); [lia|]. simpl.
  destruct (ih_drain_max_ok _ t1 Ha1) as (t2 & -> & Ha2); [lia|]. simpl.
  destruct (for_each_rule ih_agree MAX_SIZE
              (IntervalHeapTest.round2 less equal max_elems)
              (ih_round2_ok max_elems) draws2 0 _ Ha2)
    as (t3 & -> & Ha3); [lia|]. simpl.
  by destruct (ih_drain_min_ok _ t3 Ha3) as (t4 & -> & Ha4); [lia|].
Qed.

End IntervalHeapTestFacts.

Lemma ih_test_passes_witness :
  IntervalHeapTest.test_corectness Z.ltb Z.eqb
    [(false, false, 5); (false, false, 3); (false, false, 8);
     (true, true, 0); (false, true, 0); (false, false, 7)]
    [(false, false, false, false, 4); (false, false, false, false, 6);
     (false, false, true, false, 9); (false, false, false, true, 1);
     (true, true, false, false, 0); (true, false, false, false, 0)] 20
  = Ok tt.
Proof.
  apply (ih_test_passes Z.ltb ltb_strict_weak_order Z.eqb Z.eqb_eq
           ltb_distinguishing); by vm_compute.
Defined.

(** * The heapify tests *)

(** [test_heapify] of the two test files: a heap built from a vector is
    emptied next to the sorted vector.  [std::sort] is modelled by insertion
    into an ordered list. *)

Section TestHeapify.
Context {T : Type} (less : T → T → bool) (equal : T → T → bool).

Definition std_sort (a : list T) : list T := foldr (ordered_insert less) [] a.

End TestHeapify.

Module BinaryHeapHeapifyTest.
Section Test.
Context {T : Type} (less : T → T → bool) (equal : T → T → bool).

(** [assert(x == q.min()); q.pop();] *)
Definition expect_min (q : list T) (x : T) : result (list T) :=
  m ← BinaryHeap.min q;
  assert (equal x m);;
  BinaryHeap.pop less q.

Definition test_heapify (a : list T) : result unit :=
  q ← BinaryHeap.construct less a;
  let a := std_sort less a in
  q ← for_each expect_min a q;
  (* the range [a.rbegin(), a.rend()) *)
  q2 ← BinaryHeap.construct less (reverse a);
  q2 ← for_each expect_min a q2;
  Ok tt.

End Test.
End BinaryHeapHeapifyTest.

Module IntervalHeapHeapifyTest.
Section Test.
Context {T : Type} (less : T → T → bool) (equal : T → T → bool).

(** [assert(x == q.min()); q.pop_min();] *)
Definition expect_min (q : list T) (x : T) : result (list T) :=
  m ← IntervalHeap.min q;
  assert (equal x m);;
  IntervalHeap.pop_min less q.

(** [assert( *it == q2.max()); q2.pop_max();] *)
Definition expect_max (q : list T) (x : T) : result (list T) :=
  m ← IntervalHeap.max q;
  assert (equal x m);;
  IntervalHeap.pop_max less q.

Definition test_heapify (a : list T) : result unit :=
  q ← IntervalHeap.construct less a;
  let a := std_sort less a in
  q ← for_each expect_min a q;
  q2 ← IntervalHeap.construct less (reverse a);
  (* [it] runs from [a.rbegin()] to [a.rend()] *)
  q2 ← for_each expect_max (reverse a) q2;
  Ok tt.

End Test.
End IntervalHeapHeapifyTest.

Section TestHeapifyFacts.
Context {T : Type} (less : T → T → bool) (Hswo : StrictWeakOrder less).
Context (equal : T → T → bool).
Hypothesis Hequal : ∀ a b, equal a b = true ↔ a = b.
Hypothesis Hdist : distinguishing less.

Lemma sort_perm a : std_sort less a ≡ₚ a.
Proof.
  induction a as [|x a IH]; [done|]. simpl.
  by rewrite ordered_insert_perm, IH.
Qed.

Lemma sort_sorted a : non_decreasing less (std_sort less a).
Proof.
  induction a as [|x a IH]; [constructor|]. simpl.
  by apply ordered_insert_sorted.
Qed.

Lemma bh_expect_mins xs q :
  non_decreasing less xs → bh_from less 0 q → q ≡ₚ xs → fits q →
  for_each (BinaryHeapHeapifyTest.expect_min less equal) xs q = Ok [].
Proof.
  revert q. induction xs as [|x xs IH]; intros q Hs Hinv Hp Hfit.
  - by apply Permutation_nil_r in Hp as ->.
  - assert (nthZ q 0 = Some x) as Htop.
    { destruct (nthZ_is_Some q 0) as [b Hb].
      { unfold size. rewrite (Permutation_length Hp). simpl. lia. }
      rewrite Hb. f_equal. apply (min_unique less (x :: xs)); [done| |].
      - by apply (bh_top_is_min less q).
      - by apply sorted_head_is_min. }
    destruct (bh_pop_spec less Hswo q x) as (q' & E & Hinv' & Hp' & Hsz);
      [done..|].
    assert (BinaryHeapHeapifyTest.expect_min less equal q x = Ok q') as Es.
    { unfold BinaryHeapHeapifyTest.expect_min, BinaryHeap.min.
      rewrite (bh_top_ok _ _ Htop). simpl.
      by rewrite (proj2 (Hequal x x) eq_refl). }
    cbn [for_each]. rewrite Es. simpl.
    apply IH.
    + by apply StronglySorted_inv in Hs as [? _].
    + done.
    + rewrite <- Hp' in Hp. by apply Permutation_cons_inv in Hp.
    + unfold fits in *. lia.
Qed.

Lemma ih_expect_mins xs q :
  non_decreasing less xs → ih_heap less q → q ≡ₚ xs → fits q →
  for_each (IntervalHeapHeapifyTest.expect_min less equal) xs q = Ok [].
Proof.
  revert q. induction xs as [|x xs IH]; intros q Hs Hinv Hp Hfit.
  - by apply Permutation_nil_r in Hp as ->.
  - assert (nthZ q 0 = Some x) as Htop.
    { destruct (nthZ_is_Some q 0) as [b Hb].
      { unfold size. rewrite (Permutation_length Hp). simpl. lia. }
      rewrite Hb. f_equal. apply (min_unique less (x :: xs)); [done| |].
      - by apply (ih_min_is_min less q).
      - by apply sorted_head_is_min. }
    destruct (ih_pop_min_spec less Hswo q x) as (q' & E & Hinv' & Hp' & Hsz);
      [done..|].
    assert (IntervalHeapHeapifyTest.expect_min less equal q x = Ok q') as Es.
    { unfold IntervalHeapHeapifyTest.expect_min.
      rewrite (ih_min_ok _ _ Htop). simpl.
      by rewrite (proj2 (Hequal x x) eq_refl). }
    cbn [for_each]. rewrite Es. simpl.
    apply IH.
    + by apply StronglySorted_inv in Hs as [? _].
    + done.
    + rewrite <- Hp' in Hp. by apply Permutation_cons_inv in Hp.
    + unfold fits in *. lia.
Qed.

Lemma non_decreasing_reverse (l : list T) :
  non_decreasing less l → non_increasing less (reverse l).
Proof.
  unfold non_increasing, non_decreasing.
  induction l as [|a l IH]; [intros _; constructor|].
  rewrite StronglySorted_cons, reverse_cons, StronglySorted_app.
  intros [Ha Hl]. split; [|split; [by apply IH|]].
  - intros x1 x2 Hx1 ->%list_elem_of_singleton.
    rewrite elem_of_reverse in Hx1.
    rewrite Forall_forall in Ha. by apply Ha.
  - repeat constructor.
Qed.

Lemma sorted_head_is_max a q :
  non_increasing less (a :: q) → is_max_of less a (a :: q).
Proof.
  intros Hs. apply StronglySorted_inv in Hs as [_ Ha]. split; [left|].
  intros y [->|Hy]%elem_of_cons; [apply (swo_irrefl _ Hswo)|].
  by apply (proj1 (Forall_forall _ _) Ha).
Qed.

Lemma ih_expect_maxs xs q :
  non_increasing less xs → ih_heap less q → q ≡ₚ xs → fits q →
  for_each (IntervalHeapHeapifyTest.expect_max less equal) xs q = Ok [].
Proof.
  revert q. induction xs as [|x xs IH]; intros q Hs Hinv Hp Hfit.
  - by apply Permutation_nil_r in Hp as ->.
  - destruct (ih_pop_max_spec less Hswo q)
      as (q' & M & E & EM & Hinv' & Hp' & Hsz); [done| |done|].
    { unfold size. rewrite (Permutation_length Hp). simpl. lia. }
    assert (M = x) as ->.
    { apply (max_unique less (x :: xs)); [done| |].
      - by apply (ih_max_is_max less q).
      - by apply sorted_head_is_max. }
    assert (IntervalHeapHeapifyTest.expect_max less equal q x = Ok q') as Es.
    { unfold IntervalHeapHeapifyTest.expect_max. rewrite EM. simpl.
      by rewrite (proj2 (Hequal x x) eq_refl). }
    cbn [for_each]. rewrite Es. simpl.
    apply IH.
    + by apply StronglySorted_inv in Hs as [? _].
    + done.
    + rewrite <- Hp' in Hp. by apply Permutation_cons_inv in Hp.
    + unfold fits in *. lia.
Qed.

(** X18. [test_heapify] of the BinaryHeap cannot fail: a heap built from any
    vector, and one built from the sorted vector read backwards, hand out
    the elements in sorted order. *)
Theorem bh_heapify_test_passes (a : list T) :
  fits a → BinaryHeapHeapifyTest.test_heapify less equal a = Ok tt.
Proof.
  intros Hfit. unfold BinaryHeapHeapifyTest.test_heapify.
  unfold BinaryHeap.construct.
  destruct (bh_heapify_spec less Hswo a) as (q & -> & Hinv & Hp & Hsz);
    [done|]. simpl.
  rewrite (bh_expect_mins (std_sort less a) q); simpl.
  - assert (fits (reverse (std_sort less a))) as Hfit'.
    { unfold fits, size in *.
      by rewrite length_reverse, (Permutation_length (sort_perm a)). }
    destruct (bh_heapify_spec less Hswo (reverse (std_sort less a)))
      as (q2 & -> & Hinv2 & Hp2 & Hsz2); [done|]. simpl.
    rewrite (bh_expect_mins (std_sort less a) q2); [done| | | |].
    + apply sort_sorted.
    + done.
    + by rewrite Hp2, reverse_Permutation.
    + unfold fits in *. lia.
  - apply sort_sorted.
  - done.
  - by rewrite Hp, sort_perm.
  - unfold fits in *. lia.
Qed.

(** X19. [test_heapify] of the IntervalHeap cannot fail: a heap built from
    any vector hands out the elements in sorted order through [min] and
    [pop_min], and one built from the sorted vector read backwards hands
    them out in the opposite order through [max] and [pop_max]. *)
Theorem ih_heapify_test_passes (a : list T) :
  fits a → IntervalHeapHeapifyTest.test_heapify less equal a = Ok tt.
Proof.
  intros Hfit. unfold IntervalHeapHeapifyTest.test_heapify.
  unfold IntervalHeap.construct.
  destruct (ih_heapify_spec less Hswo a) as (q & -> & Hinv & Hp & Hsz);
    [done|]. simpl.
  rewrite (ih_expect_mins (std_sort less a) q); simpl.
  - assert (fits (reverse (std_sort less a))) as Hfit'.
    { unfold fits, size in *.
      by rewrite length_reverse, (Permutation_length (sort_perm a)). }
    destruct (ih_heapify_spec less Hswo (reverse (std_sort less a)))
      as (q2 & -> & Hinv2 & Hp2 & Hsz2); [done|]. simpl.
    rewrite (ih_expect_maxs (reverse (std_sort less a)) q2); [done| | | |].
    + apply non_decreasing_reverse, sort_sorted.
    + done.
    + done.
    + unfold fits in *. lia.
  - apply sort_sorted.
  - done.
  - by rewrite Hp, sort_perm.
  - unfold fits in *. lia.
Qed.

End TestHeapifyFacts.

Lemma bh_heapify_test_passes_witness :
  BinaryHeapHeapifyTest.test_heapify Z.ltb Z.eqb [4; 1; 3; 1; 5; 9; 2; 6]
  = Ok tt.
Proof.
  apply (bh_heapify_test_passes Z.ltb ltb_strict_weak_order Z.eqb Z.eqb_eq
           ltb_distinguishing); by vm_compute.
Defined.

Lemma ih_heapify_test_passes_witness :
  IntervalHeapHeapifyTest.test_heapify Z.ltb Z.eqb [4; 1; 3; 1; 5; 9; 2; 6]
  = Ok tt.
Proof.
  apply (ih_heapify_test_passes Z.ltb ltb_strict_weak_order Z.eqb Z.eqb_eq
           ltb_distinguishing); by vm_compute.
Defined.

(** * The build with NDEBUG *)

(** [assert] of <cassert> evaluates its argument and ends the process when
    it is false, unless the translation unit defines NDEBUG: then
    [assert(c)] expands to nothing and [c] is not evaluated.  The headers
    take [assert] from <cassert>, so both builds exist; the embedding above
    is the one without NDEBUG.  [Build] is the code of both classes once
    more, word for word, with the build as a parameter: [assert_in NDEBUG]
    is the assertion when [NDEBUG] is [false] and nothing when it is
    [true]. *)
Module Build.

Definition assert_in (NDEBUG : bool) (c : bool) : result unit :=
  if NDEBUG then Ok tt else assert c.

Module BinaryHeap.

Section Algorithms.
Context (NDEBUG : bool) {T : Type} (_comp : T → T → bool).
Definition ROOT : Z := 0.

Definition get_parent (idx : Z) : Z := (idx -% 1) / 2.
Definition get_left (idx : Z) : Z := 2 *% idx +% 1.

Definition fuel (_data : list T) : nat := Datatypes.S (length _data).

Definition bubble_up (_data : list T) (idx : Z) : result (list T) :=
  _ ← assert_in NDEBUG (ROOT <=? idx);
  _ ← assert_in NDEBUG (idx <? size _data);
  let par := get_parent idx in
  cur ← at_ _data idx;
  '(_data, idx, _) ←
    while (fuel _data)
      (λ '(_data, idx, par),
         (ROOT <? idx) &&& (p ← at_ _data par; Ok (_comp cur p)))
      (λ '(_data, idx, par),
         p ← at_ _data par;
         _data ← store _data idx p;
         let idx := par in
         let par := get_parent idx in
         Ok (Next (_data, idx, par)))
      (_data, idx, par);
  store _data idx cur.

Definition smaller_child (_data : list T) (n child : Z) : result Z :=
  c ← (child +% 1 <? n) &&&
        (r ← at_ _data (child +% 1); l ← at_ _data child; Ok (_comp r l));
  Ok (if c : bool then (child +% 1) else child).

Definition bubble_down (_data : list T) (idx : Z) : result (list T) :=
  _ ← assert_in NDEBUG (ROOT <=? idx);
  _ ← assert_in NDEBUG (idx <? size _data);
  let n := size _data in
  cur ← at_ _data idx;
  let child := get_left idx in
  '(_data, idx, _) ←
    while (fuel _data)
      (λ '(_data, idx, child), Ok (child <? n))
      (λ '(_data, idx, child),
         child ← smaller_child _data n child;
         c ← at_ _data child;
         if _comp c cur then
           _data ← store _data idx c;
           let idx := child in
           let child := get_left idx in
           Ok (Next (_data, idx, child))
         else Ok (Stop (_data, idx, child)))
      (_data, idx, child);
  store _data idx cur.

Definition move_hole_down (_data : list T) (idx : Z) : result (list T * Z) :=
  _ ← assert_in NDEBUG (ROOT <=? idx);
  _ ← assert_in NDEBUG (idx <? size _data);
  let child := get_left idx in
  let n := size _data in
  '(_data, idx, _) ←
    while (fuel _data)
      (λ '(_data, idx, child), Ok (child <? n))
      (λ '(_data, idx, child),
         child ← smaller_child _data n child;
         c ← at_ _data child;
         _data ← store _data idx c;
         let idx := child in
         let child := get_left idx in
         Ok (Next (_data, idx, child)))
      (_data, idx, child);
  Ok (_data, idx).

Definition heapify (_data : list T) : result (list T) :=
  '(_data, _) ←
    while (fuel _data)
      (λ '(_data, i), Ok (0 <=? i))
      (λ '(_data, i),
         _data ← bubble_down _data (wrap i);
         Ok (Next (_data, i - 1)))
      (_data, to_signed (size _data) ÷ 2 - 1);
  Ok _data.

Definition top (_data : list T) : result T :=
  _ ← assert_in NDEBUG (negb (empty _data));
  at_ _data ROOT.

Definition min (_data : list T) : result T := top _data.

Definition push (_data : list T) (elem : T) : result (list T) :=
  let _data := push_back _data elem in
  bubble_up _data (size _data -% 1).

Definition emplace (_data : list T) (elem : T) : result (list T) :=
  let _data := push_back _data elem in
  bubble_up _data (size _data -% 1).

Definition pop (_data : list T) : result (list T) :=
  _ ← assert_in NDEBUG (negb (empty _data));
  '(_data, idx) ← move_hole_down _data ROOT;
  if (idx +% 1) =? size _data then
    pop_back _data
  else
    x ← back _data;
    _data ← store _data idx x;
    _data ← pop_back _data;
    bubble_up _data idx.

Definition replace_top (_data : list T) (val : T) : result (list T) :=
  _ ← assert_in NDEBUG (negb (empty _data));
  _data ← store _data ROOT val;
  bubble_down _data ROOT.

Definition replace_min (_data : list T) (val : T) : result (list T) :=
  replace_top _data val.

Definition construct (cont : list T) : result (list T) := heapify cont.

Definition empty (_data : list T) : bool :=
  match _data with [] => true | _ => false end.

Definition size (_data : list T) : Z := Z.of_nat (length _data).

End Algorithms.

End BinaryHeap.

Module IntervalHeap.

Section Algorithms.
Context (NDEBUG : bool) {T : Type} (_comp : T → T → bool).
Definition ROOT : Z := 0.

Definition get_parent (idx : Z) : Z := (idx -% 2) / 4 *% 2.
Definition get_left (idx : Z) : Z := (idx +% 1) *% 2.
Definition is_min (idx : Z) : bool := idx mod 2 =? 0.
Definition is_max (idx : Z) : bool := idx mod 2 =? 1.

Definition fuel (_data : list T) : nat := Datatypes.S (length _data).

Definition balance_node (_data : list T) (idx : Z) : result (list T) :=
  hi ← at_ _data (idx +% 1);
  lo ← at_ _data idx;
  if _comp hi lo then swap_at _data (idx +% 1) idx else Ok _data.

Definition balance_node_check (_data : list T) (idx : Z) : result (list T) :=
  if (idx +% 1 <? size _data) then balance_node _data idx else Ok _data.

Definition bubble_up (_data : list T) (idx : Z) : result (list T) :=
  _ ← assert_in NDEBUG (idx <? size _data);
  _ ← assert_in NDEBUG (ROOT <=? idx);
  cur ← at_ _data idx;
  
  c ← is_max idx &&& (lo ← at_ _data (idx -% 1); Ok (_comp cur lo));
  '(_data, idx) ←
    (if c : bool then
       lo ← at_ _data (idx -% 1);
       _data ← store _data idx lo;
       Ok (_data, (idx -% 1))
     else Ok (_data, idx));
  let par := get_parent idx in
  c ← (ROOT +% 1 <? idx) &&& (p ← at_ _data par; Ok (_comp cur p));
  '(_data, idx) ←
    (if c : bool then
       
       '(_data, idx, _) ←
         do_while (fuel _data)
           (λ '(_data, idx, par),
              p ← at_ _data par;
              _data ← store _data idx p;
              let idx := par in
              let par := get_parent idx in
              Ok (_data, idx, par))
           (λ '(_data, idx, par),
              (ROOT +% 1 <? idx) &&& (p ← at_ _data par; Ok (_comp cur p)))
           (_data, idx, par);
       Ok (_data, idx)
     else
       c ← (ROOT +% 1 <? idx) &&&
             (p ← at_ _data (par +% 1); Ok (_comp p cur));
       if c : bool then
         
         let par := (par +% 1) in
         '(_data, idx, _) ←
           do_while (fuel _data)
             (λ '(_data, idx, par),
                p ← at_ _data par;
                _data ← store _data idx p;
                let idx := par in
                let par := (get_parent idx +% 1) in
                Ok (_data, idx, par))
             (λ '(_data, idx, par),
                (ROOT +% 1 <? idx) &&& (p ← at_ _data par; Ok (_comp p cur)))
             (_data, idx, par);
         Ok (_data, idx)
       else Ok (_data, idx));
  store _data idx cur.

Definition bubble_down_min (_data : list T) (idx : Z) : result (list T) :=
  _ ← assert_in NDEBUG (idx <? size _data);
  _ ← assert_in NDEBUG (is_min idx);
  _ ← assert_in NDEBUG (ROOT <=? idx);
  let child := get_left idx in
  let n := size _data in
  '(_data, _, _) ←
    while (fuel _data)
      (λ '(_data, idx, child), Ok (child <? n))
      (λ '(_data, idx, child),
         
         c ← (child +% 2 <? n) &&&
               (r ← at_ _data (child +% 2); l ← at_ _data child;
                Ok (_comp r l));
         let child := if c : bool then (child +% 2) else child in
         
         x ← at_ _data child;
         y ← at_ _data idx;
         if _comp x y then
           _data ← swap_at _data idx child;
           
           c ← (child +% 1 <? n) &&&
                 (hi ← at_ _data (child +% 1); lo ← at_ _data child;
                  Ok (_comp hi lo));
           _data ← (if c : bool then swap_at _data (child +% 1) child
                    else Ok _data);
           let idx := child in
           let child := get_left idx in
           Ok (Next (_data, idx, child))
         else Ok (Stop (_data, idx, child)))
      (_data, idx, child);
  Ok _data.

Definition bubble_down_max (_data : list T) (idx : Z) : result (list T) :=
  _ ← assert_in NDEBUG (is_max idx);
  _ ← assert_in NDEBUG (ROOT <=? idx);
  _ ← assert_in NDEBUG (idx <? size _data);
  let idx := (idx -% 1) in
  let child := get_left idx in
  let n := size _data in
  '(_data, idx, _) ←
    while (fuel _data)
      (λ '(_data, idx, child), Ok (child <? n))
      (λ '(_data, idx, child),
         
         let child1 := if (child +% 1 <? n) then (child +% 1) else child in
         let child2 :=
           if (child +% 3 <? n) then (child +% 3) else (child +% 2) in
         
         c ← (child2 <? n) &&&
               (a ← at_ _data child1; b ← at_ _data child2; Ok (_comp a b));
         let '(child, child1) :=
           if c : bool then ((child +% 2), child2) else (child, child1) in
         
         x ← at_ _data (idx +% 1);
         y ← at_ _data child1;
         if _comp x y then
           _data ← swap_at _data (idx +% 1) child1;
           
           c ← is_max child1 &&&
                 (hi ← at_ _data child1; lo ← at_ _data (child1 -% 1);
                  Ok (_comp hi lo));
           _data ← (if c : bool then swap_at _data child1 (child1 -% 1)
                    else Ok _data);
           let idx := child in
           let child := get_left idx in
           Ok (Next (_data, idx, child))
         else Ok (Stop (_data, idx, child)))
      (_data, idx, child);
  
  c ← (idx +% 1 <? n) &&&
        (hi ← at_ _data (idx +% 1); lo ← at_ _data idx; Ok (_comp hi lo));
  if c : bool then swap_at _data idx (idx +% 1) else Ok _data.

Definition heapify (_data : list T) : result (list T) :=
  if size _data <=? 2 then
    c ← (size _data =? 2) &&&
          (hi ← at_ _data 1; lo ← at_ _data 0; Ok (_comp hi lo));
    if c : bool then swap_at _data 1 0 else Ok _data
  else
    '(_data, _) ←
      while (fuel _data)
        (λ '(_data, i), Ok (i <? size _data -% 1))
        (λ '(_data, i),
           _data ← balance_node _data i;
           Ok (Next (_data, (i +% 2))))
        (_data, 0);
    
    '(_data, _) ←
      while (fuel _data)
        (λ '(_data, i), Ok (0 <=? i))
        (λ '(_data, i),
           _data ← bubble_down_max _data (wrap (i + 1));
           _data ← bubble_down_min _data (wrap i);
           Ok (Next (_data, i - 2)))
        (_data, to_signed ((size _data -% 1) / 4 *% 2));
    Ok _data.

Definition min (_data : list T) : result T :=
  _ ← assert_in NDEBUG (negb (empty _data));
  at_ _data ROOT.

Definition max (_data : list T) : result T :=
  _ ← assert_in NDEBUG (negb (empty _data));
  if 1 <? size _data then at_ _data (ROOT +% 1) else at_ _data ROOT.

Definition push (_data : list T) (elem : T) : result (list T) :=
  let _data := push_back _data elem in
  bubble_up _data (size _data -% 1).

Definition emplace (_data : list T) (elem : T) : result (list T) :=
  let _data := push_back _data elem in
  bubble_up _data (size _data -% 1).

Definition pop_min (_data : list T) : result (list T) :=
  _ ← assert_in NDEBUG (negb (empty _data));
  let n := size _data in
  if n =? 1 then pop_back _data
  else
    let idx := ROOT in
    _data ←
      (if negb (n mod 2 =? 0) then
         x ← at_ _data (n -% 1);
         store _data idx x
       else
         x ← at_ _data (n -% 2);
         _data ← store _data idx x;
         y ← at_ _data (n -% 1);
         store _data (n -% 2) y);
    _data ← pop_back _data;
    bubble_down_min _data idx.

Definition pop_max (_data : list T) : result (list T) :=
  _ ← assert_in NDEBUG (negb (empty _data));
  let n := size _data in
  if n =? 1 then pop_back _data
  else
    let idx := (ROOT +% 1) in
    x ← at_ _data (n -% 1);
    _data ← store _data idx x;
    _data ← pop_back _data;
    if 2 <? n then bubble_down_max _data idx else Ok _data.

Definition replace_min (_data : list T) (val : T) : result (list T) :=
  _ ← assert_in NDEBUG (negb (empty _data));
  let idx := ROOT in
  _data ← store _data idx val;
  _data ← balance_node_check _data idx;
  bubble_down_min _data idx.

Definition replace_max (_data : list T) (val : T) : result (list T) :=
  _ ← assert_in NDEBUG (negb (empty _data));
  if size _data =? 1 then store _data ROOT val
  else
    _data ← store _data (ROOT +% 1) val;
    _data ← balance_node _data ROOT;
    bubble_down_max _data (ROOT +% 1).

Definition construct (cont : list T) : result (list T) := heapify cont.

Definition empty (_data : list T) : bool :=
  match _data with [] => true | _ => false end.

Definition size (_data : list T) : Z := Z.of_nat (length _data).

End Algorithms.

End IntervalHeap.

End Build.

(** ** What the two builds share *)

(** [passes x y]: whenever the run [x] returns, the run [y] returns the
    same. *)
Definition passes {A : Type} (x y : result A) : Prop :=
  ∀ r, x = Ok r → y = Ok r.

Lemma passes_refl {A : Type} (x : result A) : passes x x.
Proof. by intros r. Qed.

Lemma passes_bind {A B : Type} (m m' : result A) (f f' : A → result B) :
  passes m m' → (∀ a, passes (f a) (f' a)) → passes (m ≫= f) (m' ≫= f').
Proof.
  intros Hm Hf r. destruct m as [a| | |]; try done. simpl. intros E.
  rewrite (Hm a eq_refl). simpl. by apply Hf.
Qed.

Lemma passes_assert (NDEBUG c : bool) :
  passes (Build.assert_in false c) (Build.assert_in NDEBUG c).
Proof. unfold passes, Build.assert_in, assert. by destruct NDEBUG, c. Qed.

Lemma passes_loop {S : Type} (body body' : S → result (step S)) :
  (∀ s, passes (body s) (body' s)) →
  ∀ fuel s, passes (loop fuel body s) (loop fuel body' s).
Proof.
  intros Hb fuel. induction fuel as [|fuel IH]; intros s; [done|].
  simpl. apply passes_bind; [apply Hb|].
  intros [s'|s']; [apply IH|apply passes_refl].
Qed.

Lemma passes_while {S : Type} (cond : S → result bool)
    (body body' : S → result (step S)) :
  (∀ s, passes (body s) (body' s)) →
  ∀ fuel s, passes (while fuel cond body s) (while fuel cond body' s).
Proof.
  intros Hb fuel s. unfold while. apply passes_loop. clear s. intros s.
  apply passes_bind; [apply passes_refl|].
  intros [|]; [apply Hb|apply passes_refl].
Qed.

Lemma passes_do_while {S : Type} (body body' : S → result S)
    (cond : S → result bool) :
  (∀ s, passes (body s) (body' s)) →
  ∀ fuel s, passes (do_while fuel body cond s) (do_while fuel body' cond s).
Proof.
  intros Hb fuel s. unfold do_while. apply passes_loop. clear s. intros s.
  apply passes_bind; [apply Hb|]. intros s'. apply passes_refl.
Qed.

Create HintDb passes.

(** Goes through two runs that differ in their assertions only. *)
Ltac passing :=
  repeat first
    [ match goal with |- passes ?x ?x => apply passes_refl end
    | apply passes_assert
    | solve [auto with passes]
    | apply passes_bind; [|intros ?]
    | apply passes_while; intros ?
    | apply passes_do_while; intros ?
    | match goal with
      | |- passes (if ?c then _ else _) (if ?c then _ else _) => destruct c
      | |- passes (match ?x with _ => _ end) (match ?x with _ => _ end) =>
          destruct x
      end
    | progress cbv beta zeta ].

Section Builds.
Context {T : Type} (less : T → T → bool) (NDEBUG : bool).
Implicit Types (d : list T) (idx : Z) (val : T).

(** The build without NDEBUG is the embedding used everywhere else. *)
Lemma build_with_assertions d idx val :
  Build.BinaryHeap.bubble_up false less d idx
    = BinaryHeap.bubble_up less d idx ∧
  Build.BinaryHeap.bubble_down false less d idx
    = BinaryHeap.bubble_down less d idx ∧
  Build.BinaryHeap.move_hole_down false less d idx
    = BinaryHeap.move_hole_down less d idx ∧
  Build.BinaryHeap.heapify false less d = BinaryHeap.heapify less d ∧
  Build.BinaryHeap.top false d = BinaryHeap.top d ∧
  Build.BinaryHeap.min false d = BinaryHeap.min d ∧
  Build.BinaryHeap.push false less d val = BinaryHeap.push less d val ∧
  Build.BinaryHeap.emplace false less d val
    = BinaryHeap.emplace less d val ∧
  Build.BinaryHeap.pop false less d = BinaryHeap.pop less d ∧
  Build.BinaryHeap.replace_top false less d val
    = BinaryHeap.replace_top less d val ∧
  Build.BinaryHeap.replace_min false less d val
    = BinaryHeap.replace_min less d val ∧
  Build.IntervalHeap.bubble_up false less d idx
    = IntervalHeap.bubble_up less d idx ∧
  Build.IntervalHeap.bubble_down_min false less d idx
    = IntervalHeap.bubble_down_min less d idx ∧
  Build.IntervalHeap.bubble_down_max false less d idx
    = IntervalHeap.bubble_down_max less d idx ∧
  Build.IntervalHeap.heapify false less d = IntervalHeap.heapify less d ∧
  Build.IntervalHeap.min false d = IntervalHeap.min d ∧
  Build.IntervalHeap.max false d = IntervalHeap.max d ∧
  Build.IntervalHeap.push false less d val
    = IntervalHeap.push less d val ∧
  Build.IntervalHeap.emplace false less d val
    = IntervalHeap.emplace less d val ∧
  Build.IntervalHeap.pop_min false less d = IntervalHeap.pop_min less d ∧
  Build.IntervalHeap.pop_max false less d = IntervalHeap.pop_max less d ∧
  Build.IntervalHeap.replace_min false less d val
    = IntervalHeap.replace_min less d val ∧
  Build.IntervalHeap.replace_max false less d val
    = IntervalHeap.replace_max less d val.
Proof. repeat split; reflexivity. Qed.

(** What a member returns with the assertions in place it returns without
    them. *)
Lemma bh_bubble_up_passes d idx :
  passes (Build.BinaryHeap.bubble_up false less d idx)
         (Build.BinaryHeap.bubble_up NDEBUG less d idx).
Proof. unfold Build.BinaryHeap.bubble_up. passing. Qed.

Lemma bh_bubble_down_passes d idx :
  passes (Build.BinaryHeap.bubble_down false less d idx)
         (Build.BinaryHeap.bubble_down NDEBUG less d idx).
Proof. unfold Build.BinaryHeap.bubble_down. passing. Qed.

Lemma bh_move_hole_down_passes d idx :
  passes (Build.BinaryHeap.move_hole_down false less d idx)
         (Build.BinaryHeap.move_hole_down NDEBUG less d idx).
Proof. unfold Build.BinaryHeap.move_hole_down. passing. Qed.

#[local] Hint Resolve bh_bubble_up_passes bh_bubble_down_passes
  bh_move_hole_down_passes : passes.

Lemma bh_top_passes d :
  passes (Build.BinaryHeap.top false d) (Build.BinaryHeap.top NDEBUG d).
Proof. unfold Build.BinaryHeap.top. passing. Qed.

Lemma bh_pop_passes d :
  passes (Build.BinaryHeap.pop false less d)
         (Build.BinaryHeap.pop NDEBUG less d).
Proof. unfold Build.BinaryHeap.pop. passing. Qed.

Lemma bh_replace_top_passes d val :
  passes (Build.BinaryHeap.replace_top false less d val)
         (Build.BinaryHeap.replace_top NDEBUG less d val).
Proof. unfold Build.BinaryHeap.replace_top. passing. Qed.

Lemma ih_bubble_up_passes d idx :
  passes (Build.IntervalHeap.bubble_up false less d idx)
         (Build.IntervalHeap.bubble_up NDEBUG less d idx).
Proof. unfold Build.IntervalHeap.bubble_up. passing. Qed.

Lemma ih_bubble_down_min_passes d idx :
  passes (Build.IntervalHeap.bubble_down_min false less d idx)
         (Build.IntervalHeap.bubble_down_min NDEBUG less d idx).
Proof. unfold Build.IntervalHeap.bubble_down_min. passing. Qed.

Lemma ih_bubble_down_max_passes d idx :
  passes (Build.IntervalHeap.bubble_down_max false less d idx)
         (Build.IntervalHeap.bubble_down_max NDEBUG less d idx).
Proof. unfold Build.IntervalHeap.bubble_down_max. passing. Qed.

#[local] Hint Resolve ih_bubble_up_passes ih_bubble_down_min_passes
  ih_bubble_down_max_passes : passes.

Lemma ih_min_passes d :
  passes (Build.IntervalHeap.min false d) (Build.IntervalHeap.min NDEBUG d).
Proof. unfold Build.IntervalHeap.min. passing. Qed.

Lemma ih_max_passes d :
  passes (Build.IntervalHeap.max false d) (Build.IntervalHeap.max NDEBUG d).
Proof. unfold Build.IntervalHeap.max. passing. Qed.

Lemma ih_pop_min_passes d :
  passes (Build.IntervalHeap.pop_min false less d)
         (Build.IntervalHeap.pop_min NDEBUG less d).
Proof. unfold Build.IntervalHeap.pop_min. passing. Qed.

Lemma ih_pop_max_passes d :
  passes (Build.IntervalHeap.pop_max false less d)
         (Build.IntervalHeap.pop_max NDEBUG less d).
Proof. unfold Build.IntervalHeap.pop_max. passing. Qed.

Lemma ih_replace_min_passes d val :
  passes (Build.IntervalHeap.replace_min false less d val)
         (Build.IntervalHeap.replace_min NDEBUG less d val).
Proof. unfold Build.IntervalHeap.replace_min. passing. Qed.

Lemma ih_replace_max_passes d val :
  passes (Build.IntervalHeap.replace_max false less d val)
         (Build.IntervalHeap.replace_max NDEBUG less d val).
Proof. unfold Build.IntervalHeap.replace_max. passing. Qed.

End Builds.

(** ** Calls on an empty heap, build by build *)

Section EmptyHeap.
Context {T : Type}.

(** C5, amended.  Empty-heap precondition violations fail loudly in the
    build that keeps the assertions, and only there.  On an empty heap each
    of [top], [min], [pop], [replace_top], [replace_min] of BinaryHeap and
    [min], [max], [pop_min], [pop_max], [replace_min], [replace_max] of
    IntervalHeap stops at its assertion when NDEBUG is not defined; when
    NDEBUG is defined no assertion is there to fail, and the call goes on
    to an access outside the backing sequence, which is undefined
    behaviour.  On a reachable heap that is not empty each of them returns,
    and returns the same in both builds: no assertion fails and no access
    to the backing sequence is out of bounds. *)
Theorem empty_heap_by_build
    (hb : BinaryHeap.t T) (msb : list T)
    (hi : IntervalHeap.t T) (msi : list T) (val : T) :
  (BinaryHeap.empty (BinaryHeap._data hb) = true →
   ∀ NDEBUG : bool,
     Build.BinaryHeap.top NDEBUG (BinaryHeap._data hb)
       = (if NDEBUG then OutOfBounds else AssertionFailure) ∧
     Build.BinaryHeap.min NDEBUG (BinaryHeap._data hb)
       = (if NDEBUG then OutOfBounds else AssertionFailure) ∧
     Build.BinaryHeap.pop NDEBUG (BinaryHeap._comp hb) (BinaryHeap._data hb)
       = (if NDEBUG then OutOfBounds else AssertionFailure) ∧
     Build.BinaryHeap.replace_top NDEBUG (BinaryHeap._comp hb)
       (BinaryHeap._data hb) val
       = (if NDEBUG then OutOfBounds else AssertionFailure) ∧
     Build.BinaryHeap.replace_min NDEBUG (BinaryHeap._comp hb)
       (BinaryHeap._data hb) val
       = (if NDEBUG then OutOfBounds else AssertionFailure)) ∧
  (IntervalHeap.empty (IntervalHeap._data hi) = true →
   ∀ NDEBUG : bool,
     Build.IntervalHeap.min NDEBUG (IntervalHeap._data hi)
       = (if NDEBUG then OutOfBounds else AssertionFailure) ∧
     Build.IntervalHeap.max NDEBUG (IntervalHeap._data hi)
       = (if NDEBUG then OutOfBounds else AssertionFailure) ∧
     Build.IntervalHeap.pop_min NDEBUG (IntervalHeap._comp hi)
       (IntervalHeap._data hi)
       = (if NDEBUG then OutOfBounds else AssertionFailure) ∧
     Build.IntervalHeap.pop_max NDEBUG (IntervalHeap._comp hi)
       (IntervalHeap._data hi)
       = (if NDEBUG then OutOfBounds else AssertionFailure) ∧
     Build.IntervalHeap.replace_min NDEBUG (IntervalHeap._comp hi)
       (IntervalHeap._data hi) val
       = (if NDEBUG then OutOfBounds else AssertionFailure) ∧
     Build.IntervalHeap.replace_max NDEBUG (IntervalHeap._comp hi)
       (IntervalHeap._data hi) val
       = (if NDEBUG then OutOfBounds else AssertionFailure)) ∧
  (bh_reach hb msb → BinaryHeap.empty (BinaryHeap._data hb) = false →
   ∃ m d1 d2, ∀ NDEBUG : bool,
     Build.BinaryHeap.top NDEBUG (BinaryHeap._data hb) = Ok m ∧
     Build.BinaryHeap.min NDEBUG (BinaryHeap._data hb) = Ok m ∧
     Build.BinaryHeap.pop NDEBUG (BinaryHeap._comp hb) (BinaryHeap._data hb)
       = Ok d1 ∧
     Build.BinaryHeap.replace_top NDEBUG (BinaryHeap._comp hb)
       (BinaryHeap._data hb) val = Ok d2 ∧
     Build.BinaryHeap.replace_min NDEBUG (BinaryHeap._comp hb)
       (BinaryHeap._data hb) val = Ok d2) ∧
  (ih_reach hi msi → IntervalHeap.empty (IntervalHeap._data hi) = false →
   ∃ m M d1 d2 d3 d4, ∀ NDEBUG : bool,
     Build.IntervalHeap.min NDEBUG (IntervalHeap._data hi) = Ok m ∧
     Build.IntervalHeap.max NDEBUG (IntervalHeap._data hi) = Ok M ∧
     Build.IntervalHeap.pop_min NDEBUG (IntervalHeap._comp hi)
       (IntervalHeap._data hi) = Ok d1 ∧
     Build.IntervalHeap.pop_max NDEBUG (IntervalHeap._comp hi)
       (IntervalHeap._data hi) = Ok d2 ∧
     Build.IntervalHeap.replace_min NDEBUG (IntervalHeap._comp hi)
       (IntervalHeap._data hi) val = Ok d3 ∧
     Build.IntervalHeap.replace_max NDEBUG (IntervalHeap._comp hi)
       (IntervalHeap._data hi) val = Ok d4).
Proof.
  split; [|split; [|split]].
  - intros ->%bh_empty_nil NDEBUG. by destruct NDEBUG.
  - intros ->%ih_empty_nil NDEBUG. by destruct NDEBUG.
  - intros Hr Hne%bh_empty_pos.
    destruct (bh_reach_operations _ _ Hr) as (_ & Hpop & Hrep).
    destruct (Hpop Hne) as (m & d1 & Etop & Emin & Epop & _).
    destruct (Hrep Hne val) as (d2 & Ert & Erm & _).
    exists m, d1, d2. intros NDEBUG.
    split; [by apply bh_top_passes|]. split; [by apply bh_top_passes|].
    split; [by apply bh_pop_passes|].
    split; by apply bh_replace_top_passes.
  - intros Hr Hne%ih_empty_pos.
    destruct (ih_reach_operations _ _ Hr) as (_ & Hpop & Hrep).
    destruct (Hpop Hne) as (m & M & d1 & d2 & Emin & Emax & Epmin & Epmax & _).
    destruct (Hrep Hne val) as (d3 & d4 & Ermin & Ermax & _).
    exists m, M, d1, d2, d3, d4. intros NDEBUG.
    split; [by apply ih_min_passes|]. split; [by apply ih_max_passes|].
    split; [by apply ih_pop_min_passes|].
    split; [by apply ih_pop_max_passes|].
    split; [by apply ih_replace_min_passes|by apply ih_replace_max_passes].
Qed.

End EmptyHeap.

(** C5 as stated fails in the build that defines NDEBUG: on the empty heap
    of integers none of the calls stops at an assertion; each of them goes
    on to read or write outside the backing sequence.  So it is not in
    every build that [top] of BinaryHeap and [pop_min] of IntervalHeap end
    with an assertion on an empty heap. *)
Lemma empty_heap_unchecked :
  BinaryHeap.empty (@nil Z) = true ∧
  IntervalHeap.empty (@nil Z) = true ∧
  Build.BinaryHeap.top true (@nil Z) = OutOfBounds ∧
  Build.BinaryHeap.min true (@nil Z) = OutOfBounds ∧
  Build.BinaryHeap.pop true Z.ltb [] = OutOfBounds ∧
  Build.BinaryHeap.replace_top true Z.ltb [] 0 = OutOfBounds ∧
  Build.BinaryHeap.replace_min true Z.ltb [] 0 = OutOfBounds ∧
  Build.IntervalHeap.min true (@nil Z) = OutOfBounds ∧
  Build.IntervalHeap.max true (@nil Z) = OutOfBounds ∧
  Build.IntervalHeap.pop_min true Z.ltb [] = OutOfBounds ∧
  Build.IntervalHeap.pop_max true Z.ltb [] = OutOfBounds ∧
  Build.IntervalHeap.replace_min true Z.ltb [] 0 = OutOfBounds ∧
  Build.IntervalHeap.replace_max true Z.ltb [] 0 = OutOfBounds ∧
  ¬ (∀ (NDEBUG : bool) (d : list Z), BinaryHeap.empty d = true →
       Build.BinaryHeap.top NDEBUG d = AssertionFailure) ∧
  ¬ (∀ (NDEBUG : bool) (d : list Z), IntervalHeap.empty d = true →
       Build.IntervalHeap.pop_min NDEBUG Z.ltb d = AssertionFailure).
Proof.
  repeat (split; [reflexivity|]). split.
  - intros H. by specialize (H true [] eq_refl).
  - intros H. by specialize (H true [] eq_refl).
Qed.

Lemma empty_heap_by_build_witness :
  (BinaryHeap.empty (@nil Z) = true ∧
   Build.BinaryHeap.top false (@nil Z) = AssertionFailure ∧
   Build.BinaryHeap.top true (@nil Z) = OutOfBounds ∧
   Build.BinaryHeap.pop false Z.ltb [] = AssertionFailure ∧
   Build.BinaryHeap.pop true Z.ltb [] = OutOfBounds) ∧
  (IntervalHeap.empty (@nil Z) = true ∧
   Build.IntervalHeap.max false (@nil Z) = AssertionFailure ∧
   Build.IntervalHeap.max true (@nil Z) = OutOfBounds ∧
   Build.IntervalHeap.pop_max false Z.ltb [] = AssertionFailure ∧
   Build.IntervalHeap.pop_max true Z.ltb [] = OutOfBounds) ∧
  (bh_reach example_bh example_input ∧
   BinaryHeap.empty [1; 3; 2; 5; 9; 8] = false ∧
   ∃ m d1,
     Build.BinaryHeap.top false [1; 3; 2; 5; 9; 8] = Ok m ∧
     Build.BinaryHeap.top true [1; 3; 2; 5; 9; 8] = Ok m ∧
     Build.BinaryHeap.pop false Z.ltb [1; 3; 2; 5; 9; 8] = Ok d1 ∧
     Build.BinaryHeap.pop true Z.ltb [1; 3; 2; 5; 9; 8] = Ok d1) ∧
  (ih_reach example_ih example_input ∧
   IntervalHeap.empty [1; 9; 3; 8; 2; 5] = false ∧
   ∃ M d2,
     Build.IntervalHeap.max false [1; 9; 3; 8; 2; 5] = Ok M ∧
     Build.IntervalHeap.max true [1; 9; 3; 8; 2; 5] = Ok M ∧
     Build.IntervalHeap.pop_max false Z.ltb [1; 9; 3; 8; 2; 5] = Ok d2 ∧
     Build.IntervalHeap.pop_max true Z.ltb [1; 9; 3; 8; 2; 5] = Ok d2).
Proof.
  destruct (empty_heap_by_build empty_bh [] empty_ih [] 0)
    as (Hb0 & Hi0 & _).
  destruct (empty_heap_by_build example_bh example_input
              example_ih example_input 0) as (_ & _ & Hb & Hi).
  split; [|split; [|split]].
  - split; [reflexivity|].
    destruct (Hb0 eq_refl false) as (Htop & _ & Hpop & _).
    destruct (Hb0 eq_refl true) as (Htop' & _ & Hpop' & _).
    split; [exact Htop|]. split; [exact Htop'|].
    split; [exact Hpop|exact Hpop'].
  - split; [reflexivity|].
    destruct (Hi0 eq_refl false) as (_ & Hmax & _ & Hpop & _).
    destruct (Hi0 eq_refl true) as (_ & Hmax' & _ & Hpop' & _).
    split; [exact Hmax|]. split; [exact Hmax'|].
    split; [exact Hpop|exact Hpop'].
  - split; [apply example_bh_reach|]. split; [reflexivity|].
    destruct (Hb example_bh_reach eq_refl) as (m & d1 & d2 & H).
    destruct (H false) as (Htop & _ & Hpop & _).
    destruct (H true) as (Htop' & _ & Hpop' & _).
    exists m, d1. split; [exact Htop|]. split; [exact Htop'|].
    split; [exact Hpop|exact Hpop'].
  - split; [apply example_ih_reach|]. split; [reflexivity|].
    destruct (Hi example_ih_reach eq_refl) as (m & M & d1 & d2 & d3 & d4 & H).
    destruct (H false) as (_ & Hmax & _ & Hpop & _).
    destruct (H true) as (_ & Hmax' & _ & Hpop' & _).
    exists M, d2. split; [exact Hmax|]. split; [exact Hmax'|].
    split; [exact Hpop|exact Hpop'].
Defined.
